(** * A shallow embedding of [src/entry.js]: module records, namespace views
      and live-binding propagation.

    The development follows the source file top to bottom.  JavaScript
    objects that the engine owns (the raw namespace objects, the [getters],
    [setters] and [importedBindings] tables) are property tables kept in
    insertion order; objects owned by the host (module objects, exported
    values) live in a heap; functions supplied by compiled module code are
    handles into a host oracle that is a parameter of the development. *)

From stdpp Require Import gmap strings list.
From Stdlib Require Import ZArith Lia DecimalString.

Set Warnings "-clear-no-such-hyp".

Open Scope string_scope.
Open Scope list_scope.

(** ** Property keys and values *)

(** A property key is a string or a symbol.  Two symbols are named by the
    source: [Symbol.toStringTag] and [shared.symbol.namespace]. *)
Inductive key :=
| KStr (s : string)
| KToStringTag
| KNamespaceSym
| KSym (n : nat).

#[global] Instance key_eq_dec : EqDecision key.
Proof. solve_decision. Defined.

Definition key_eqb (a b : key) : bool := bool_decide (a = b).

Definition key_is_string (k : key) : bool :=
  match k with KStr _ => true | _ => false end.

Definition addr := nat.   (* identity of a host object *)
Definition eid := nat.    (* identity of an [Entry] *)

(** The four namespace proxies an entry hands out
    ([completeNamespace], [completeMutableNamespace], [partialNamespace],
    [partialMutableNamespace]). *)
Inductive view := Complete | CompleteMutable | Partial | PartialMutable.

#[global] Instance view_eq_dec : EqDecision view.
Proof. solve_decision. Defined.

(** JavaScript values.  The three sentinels of [constant/entry.js]
    ([ERROR_GETTER], [ERROR_STAR], [INITIAL_VALUE]) are values distinct from
    each other and from every other value.  [VExportsProxy a] is the wrapper
    [proxyExports] builds around the host object [a]; [VNamespace e v] is the
    proxy of view [v] of entry [e]; each is created once, so the constructor
    is its identity. *)
Inductive value :=
| VUndef
| VNull
| VBool (b : bool)
| VNum (z : Z)
| VStr (s : string)
| ERROR_GETTER
| ERROR_STAR
| INITIAL_VALUE
| VObj (a : addr)
| VExportsProxy (a : addr)
| VNamespace (e : eid) (v : view)
| VEntry (e : eid).

#[global] Instance value_eq_dec : EqDecision value.
Proof. solve_decision. Defined.

(** [Object.is] and [===] on the values of the model (no NaN, no signed
    zero). *)
Definition Object_is (a b : value) : bool := bool_decide (a = b).

Definition truthy (v : value) : bool :=
  match v with
  | VUndef | VNull => false
  | VBool b => b
  | VNum z => negb (z =? 0)%Z
  | VStr s => negb (bool_decide (s = EmptyString))
  | _ => true
  end.

(** ** Ordinary objects *)

Section Objects.
(** [C] is the type of the functions an accessor property can hold. *)
Context {C : Type} `{EqDecision C}.

Inductive prop :=
| PData (v : value) (writable enumerable configurable : bool)
| PAccessor (get set : option C) (enumerable configurable : bool).

(** A property descriptor as [Reflect.defineProperty] receives it: every
    field may be absent. *)
Record descriptor := {
  d_value : option value;
  d_writable : option bool;
  d_get : option (option C);
  d_set : option (option C);
  d_enumerable : option bool;
  d_configurable : option bool
}.

(** An object: own properties in creation order, the [[Extensible]] flag,
    whether [typeof] is ["function"], and the property tables of its
    prototype chain, nearest first (the engine never writes to a
    prototype). *)
Record obj := {
  o_props : list (key * prop);
  o_extensible : bool;
  o_callable : bool;
  o_chain : list (list (key * prop))
}.

Definition with_props (o : obj) (ps : list (key * prop)) : obj :=
  {| o_props := ps; o_extensible := o_extensible o;
     o_callable := o_callable o; o_chain := o_chain o |}.

Fixpoint assoc {A} (k : key) (l : list (key * A)) : option A :=
  match l with
  | [] => None
  | (k', a) :: l' => if key_eqb k k' then Some a else assoc k l'
  end.

(** Assignment to a table: an existing key keeps its place, a new key is
    appended. *)
Fixpoint assoc_set {A} (k : key) (a : A) (l : list (key * A)) : list (key * A) :=
  match l with
  | [] => [(k, a)]
  | (k', a') :: l' =>
      if key_eqb k k' then (k, a) :: l' else (k', a') :: assoc_set k a l'
  end.

Fixpoint assoc_del {A} (k : key) (l : list (key * A)) : list (key * A) :=
  match l with
  | [] => []
  | (k', a') :: l' =>
      if key_eqb k k' then l' else (k', a') :: assoc_del k l'
  end.

Definition assoc_has {A} (k : key) (l : list (key * A)) : bool :=
  match assoc k l with Some _ => true | None => false end.

Definition get_own (o : obj) (k : key) : option prop := assoc k (o_props o).

Definition has_own (o : obj) (k : key) : bool := assoc_has k (o_props o).

Fixpoint chain_lookup (k : key) (ch : list (list (key * prop))) : option prop :=
  match ch with
  | [] => None
  | t :: ch' =>
      match assoc k t with
      | Some p => Some p
      | None => chain_lookup k ch'
      end
  end.

(** [[GetProperty]]: own property first, then the prototype chain. *)
Definition get_property (o : obj) (k : key) : option prop :=
  match get_own o k with
  | Some p => Some p
  | None => chain_lookup k (o_chain o)
  end.

(** [Reflect.has] / the [in] operator. *)
Definition has_property (o : obj) (k : key) : bool :=
  match get_property o k with Some _ => true | None => false end.

Definition prop_enumerable (p : prop) : bool :=
  match p with PData _ _ e _ => e | PAccessor _ _ e _ => e end.

Definition prop_configurable (p : prop) : bool :=
  match p with PData _ _ _ c => c | PAccessor _ _ _ c => c end.

Definition is_accessor_descriptor (d : descriptor) : bool :=
  match d_get d, d_set d with None, None => false | _, _ => true end.

Definition is_data_descriptor (d : descriptor) : bool :=
  match d_value d, d_writable d with None, None => false | _, _ => true end.

Definition is_generic_descriptor (d : descriptor) : bool :=
  negb (is_accessor_descriptor d) && negb (is_data_descriptor d).

(** The property a descriptor creates on a key that is absent: missing
    fields take their defaults. *)
Definition prop_of_descriptor (d : descriptor) : prop :=
  if is_accessor_descriptor d then
    PAccessor (default None (d_get d)) (default None (d_set d))
              (default false (d_enumerable d)) (default false (d_configurable d))
  else
    PData (default VUndef (d_value d)) (default false (d_writable d))
          (default false (d_enumerable d)) (default false (d_configurable d)).

Definition opt_differs {A} `{EqDecision A} (o : option A) (cur : A) : bool :=
  match o with Some x => negb (bool_decide (x = cur)) | None => false end.

(** ValidateAndApplyPropertyDescriptor on an existing property: [None]
    when the change is rejected. *)
Definition redefine_prop (cur : prop) (d : descriptor) : option prop :=
  let e := prop_enumerable cur in
  let c := prop_configurable cur in
  if negb c && (bool_decide (d_configurable d = Some true) || opt_differs (d_enumerable d) e)
  then None
  else
    let e' := default e (d_enumerable d) in
    let c' := default c (d_configurable d) in
    if is_generic_descriptor d then
      Some match cur with
           | PData v w _ _ => PData v w e' c'
           | PAccessor g s _ _ => PAccessor g s e' c'
           end
    else
      match cur with
      | PData v w _ _ =>
          if is_accessor_descriptor d then
            if c then Some (PAccessor (default None (d_get d)) (default None (d_set d)) e' c')
            else None
          else if negb c && negb w &&
                  (bool_decide (d_writable d = Some true) || opt_differs (d_value d) v)
          then None
          else Some (PData (default v (d_value d)) (default w (d_writable d)) e' c')
      | PAccessor g s _ _ =>
          if is_accessor_descriptor d then
            if negb c && (opt_differs (d_get d) g || opt_differs (d_set d) s)
            then None
            else Some (PAccessor (default g (d_get d)) (default s (d_set d)) e' c')
          else
            if c then Some (PData (default VUndef (d_value d)) (default false (d_writable d)) e' c')
            else None
      end.

(** [[DefineOwnProperty]] of an ordinary object; [None] is the result
    [false] of [Reflect.defineProperty]. *)
Definition define_own (o : obj) (k : key) (d : descriptor) : option obj :=
  match get_own o k with
  | None =>
      if o_extensible o
      then Some (with_props o (o_props o ++ [(k, prop_of_descriptor d)]))
      else None
  | Some cur =>
      match redefine_prop cur d with
      | Some p => Some (with_props o (assoc_set k p (o_props o)))
      | None => None
      end
  end.

(** [[Delete]]: [None] is the result [false] of [Reflect.deleteProperty]. *)
Definition delete_own (o : obj) (k : key) : option obj :=
  match get_own o k with
  | None => Some o
  | Some p =>
      if prop_configurable p
      then Some (with_props o (assoc_del k (o_props o)))
      else None
  end.

Definition seal_prop (p : prop) : prop :=
  match p with
  | PData v w e _ => PData v w e false
  | PAccessor g s e _ => PAccessor g s e false
  end.

(** [Object.seal]. *)
Definition seal (o : obj) : obj :=
  {| o_props := map (fun kp => (kp.1, seal_prop kp.2)) (o_props o);
     o_extensible := false;
     o_callable := o_callable o; o_chain := o_chain o |}.

(** [Reflect.preventExtensions]. *)
Definition prevent_extensions (o : obj) : obj :=
  {| o_props := o_props o; o_extensible := false;
     o_callable := o_callable o; o_chain := o_chain o |}.

(** What a read of [o[k]] has to do. *)
Inductive get_plan := GetValue (v : value) | GetCall (g : C).

Definition plan_get (o : obj) (k : key) : get_plan :=
  match get_property o k with
  | None => GetValue VUndef
  | Some (PData v _ _ _) => GetValue v
  | Some (PAccessor None _ _ _) => GetValue VUndef
  | Some (PAccessor (Some g) _ _ _) => GetCall g
  end.

(** What an assignment [o[k] = v] (receiver [o]) has to do: fail (a
    [TypeError] in strict code), store a changed object, or call a
    setter. *)
Inductive set_plan := SetReject | SetStore (o' : obj) | SetCall (s : C).

Definition plan_set (o : obj) (k : key) (v : value) : set_plan :=
  match get_own o k with
  | Some (PData _ w e c) =>
      if w then SetStore (with_props o (assoc_set k (PData v w e c) (o_props o)))
      else SetReject
  | Some (PAccessor _ None _ _) => SetReject
  | Some (PAccessor _ (Some s) _ _) => SetCall s
  | None =>
      match chain_lookup k (o_chain o) with
      | Some (PData _ false _ _) => SetReject
      | Some (PAccessor _ None _ _) => SetReject
      | Some (PAccessor _ (Some s) _ _) => SetCall s
      | _ =>
          if o_extensible o
          then SetStore (with_props o (o_props o ++ [(k, PData v true true true)]))
          else SetReject
      end
  end.
End Objects.

Arguments prop : clear implicits.
Arguments descriptor : clear implicits.
Arguments obj : clear implicits.
Arguments get_plan : clear implicits.
Arguments set_plan : clear implicits.

(** ** Key order

    [for (name in o)] and [Object.keys(o)] list integer-like keys first, in
    ascending numeric order, then the other string keys in creation order;
    symbols are not listed. *)

Definition array_index (s : string) : option N :=
  match NilZero.uint_of_string s with
  | Some u =>
      let n := N.of_uint u in
      if bool_decide (NilZero.string_of_uint (N.to_uint n) = s) && (n <? 4294967295)%N
      then Some n else None
  | None => None
  end.

Fixpoint insert_by {A} (leb : A -> A -> bool) (x : A) (l : list A) : list A :=
  match l with
  | [] => [x]
  | y :: l' => if leb x y then x :: l else y :: insert_by leb x l'
  end.

Fixpoint sort_by {A} (leb : A -> A -> bool) (l : list A) : list A :=
  match l with
  | [] => []
  | x :: l' => insert_by leb x (sort_by leb l')
  end.

Definition index_keys (ks : list key) : list (N * string) :=
  omap (fun k => match k with
                 | KStr s => match array_index s with Some n => Some (n, s) | None => None end
                 | _ => None
                 end) ks.

Definition is_plain_string_key (k : key) : bool :=
  match k with
  | KStr s => match array_index s with Some _ => false | None => true end
  | _ => false
  end.

Definition string_of_key (k : key) : option string :=
  match k with KStr s => Some s | _ => None end.

(** The string keys of a table in enumeration order. *)
Definition ordered_names (ks : list key) : list string :=
  map snd (sort_by (fun a b => (a.1 <=? b.1)%N) (index_keys ks))
  ++ omap string_of_key (filter (fun k => is_plain_string_key k = true) ks).

Definition for_in {A} (l : list (key * A)) : list string := ordered_names (map fst l).

(** [Array.prototype.sort] without a comparator, on names: ascending code
    unit order.  A string of the model is the list of the code units of
    the name, each below 256; names with other code units are not
    represented. *)
Definition sort_names (l : list string) : list string := sort_by String.leb l.

(** [Object.keys]: the own enumerable string keys. *)
Definition Object_keys {C} (o : obj C) : list string :=
  ordered_names (map fst (filter (fun kp => prop_enumerable kp.2 = true) (o_props o))).

(** [Object.getOwnPropertyNames]: the own string keys, enumerable or not. *)
Definition ownPropertyNames_obj {C} (o : obj C) : list string :=
  ordered_names (map fst (o_props o)).

(** ** Functions held by the engine's tables *)

(** The functions an accessor of a raw namespace object can hold: a host
    function, or one of the closures [addGetter] builds. *)
Inductive closure :=
| CHost (h : nat)
| CExportsGet (e : eid) (name : key)      (* () => this.exports[name] *)
| CExportsSet (e : eid) (name : key)      (* (value) => { this.exports[name] = value } *)
| CExportsWhole (e : eid)                 (* () => this.exports *)
| CSetProperty (name : key).              (* function (value) { setProperty(this, name, value) } *)

#[global] Instance closure_eq_dec : EqDecision closure.
Proof. solve_decision. Defined.

(** The functions registered as getters: a host function (compiled module
    code), or the closure [() => this.namespace[name]] that
    [assignExportsToNamespace] and [loaded] register. *)
Inductive getter_fn :=
| GHost (h : nat)
| GNamespaceGet (e : eid) (name : key).

Record getter := {
  g_fn : getter_fn;
  g_id : option key;       (* getter.id, when the function has the property *)
  g_owner : option eid     (* getter.owner *)
}.

Inductive setter_type :=
| SETTER_TYPE_DYNAMIC_IMPORT
| SETTER_TYPE_EXPORT_FROM
| SETTER_TYPE_NAMESPACE
| SETTER_TYPE_STATIC_IMPORT.

#[global] Instance setter_type_eq_dec : EqDecision setter_type.
Proof. solve_decision. Defined.

(** A registered setter: the host function [s_fn] with the properties
    [addSetter] stamps on it. *)
Record setter := {
  s_fn : nat;
  s_last : value;
  s_localNames : list key;
  s_parent : eid;
  s_type : setter_type
}.

Definition set_last (v : value) (st : setter) : setter :=
  {| s_fn := s_fn st; s_last := v; s_localNames := s_localNames st;
     s_parent := s_parent st; s_type := s_type st |}.

(** ** The constants of [constant/entry.js] *)

Inductive module_type := TYPE_CJS | TYPE_ESM | TYPE_PSEUDO | TYPE_WASM.
Inductive load_state := LOAD_COMPLETED | LOAD_INCOMPLETE | LOAD_INDETERMINATE.
Inductive finalization :=
| NAMESPACE_FINALIZATION_COMPLETED
| NAMESPACE_FINALIZATION_INCOMPLETE.
Inductive update_type := UPDATE_TYPE_DEFAULT | UPDATE_TYPE_INIT | UPDATE_TYPE_LIVE.

#[global] Instance module_type_eq_dec : EqDecision module_type.
Proof. solve_decision. Defined.
#[global] Instance load_state_eq_dec : EqDecision load_state.
Proof. solve_decision. Defined.
#[global] Instance finalization_eq_dec : EqDecision finalization.
Proof. solve_decision. Defined.
#[global] Instance update_type_eq_dec : EqDecision update_type.
Proof. solve_decision. Defined.

(** ** Module records *)

(** [entry.type] is a deferred property: until its first read it is the
    pending computation, whose outcome depends only on whether the compiled
    source is of module type. *)
Inductive deferred_type :=
| TypeDeferred (source_is_module : bool)
| TypeValue (t : module_type).

(** [entry.namespace] is either [entry._namespace] or the proxy built by the
    deferred [type] computation of a non-ESM entry. *)
Inductive ns_ref := NsRaw | NsTypeProxy.

(** [package.options.cjs]. *)
Record Package := {
  cjs_interop : bool;
  cjs_mutableNamespace : bool;
  cjs_namedExports : bool
}.

Definition nsobj := obj closure.

(** The fields of [Entry] that the functions below read or write.  Fields
    whose source name is also the usual name of a local variable carry the
    prefix [entry_]. *)
Record Entry := {
  _changed : bool;
  _completeMutableNamespace : nsobj;
  _completeNamespace : nsobj;
  _loaded : load_state;
  _namespace : nsobj;
  _namespaceFinalized : finalization;
  _partialMutableNamespace : nsobj;
  _partialNamespace : nsobj;
  builtin : bool;
  children : list (key * eid);
  circular : bool;
  exports : value;
  extname : option string;
  getters : list (key * getter);
  importedBindings : list (key * bool);
  entry_module : value;
  entry_name : option string;
  entry_namespace : ns_ref;
  entry_package : Package;
  entry_parent : option eid;
  runtimeName : string;
  setters : list (key * list setter);
  entry_type : deferred_type
}.

Definition set_changed (x : bool) (en : Entry) : Entry :=
  {| _changed := x; _completeMutableNamespace := _completeMutableNamespace en;
     _completeNamespace := _completeNamespace en; _loaded := _loaded en; _namespace :=
     _namespace en; _namespaceFinalized := _namespaceFinalized en; _partialMutableNamespace
     := _partialMutableNamespace en; _partialNamespace := _partialNamespace en; builtin :=
     builtin en; children := children en; circular := circular en; exports := exports en;
     extname := extname en; getters := getters en; importedBindings := importedBindings en;
     entry_module := entry_module en; entry_name := entry_name en; entry_namespace :=
     entry_namespace en; entry_package := entry_package en; entry_parent := entry_parent en;
     runtimeName := runtimeName en; setters := setters en; entry_type := entry_type en |}.

Definition set_completeMutableNamespace (x : nsobj) (en : Entry) : Entry :=
  {| _changed := _changed en; _completeMutableNamespace := x; _completeNamespace :=
     _completeNamespace en; _loaded := _loaded en; _namespace := _namespace en;
     _namespaceFinalized := _namespaceFinalized en; _partialMutableNamespace :=
     _partialMutableNamespace en; _partialNamespace := _partialNamespace en; builtin :=
     builtin en; children := children en; circular := circular en; exports := exports en;
     extname := extname en; getters := getters en; importedBindings := importedBindings en;
     entry_module := entry_module en; entry_name := entry_name en; entry_namespace :=
     entry_namespace en; entry_package := entry_package en; entry_parent := entry_parent en;
     runtimeName := runtimeName en; setters := setters en; entry_type := entry_type en |}.

Definition set_completeNamespace (x : nsobj) (en : Entry) : Entry :=
  {| _changed := _changed en; _completeMutableNamespace := _completeMutableNamespace en;
     _completeNamespace := x; _loaded := _loaded en; _namespace := _namespace en;
     _namespaceFinalized := _namespaceFinalized en; _partialMutableNamespace :=
     _partialMutableNamespace en; _partialNamespace := _partialNamespace en; builtin :=
     builtin en; children := children en; circular := circular en; exports := exports en;
     extname := extname en; getters := getters en; importedBindings := importedBindings en;
     entry_module := entry_module en; entry_name := entry_name en; entry_namespace :=
     entry_namespace en; entry_package := entry_package en; entry_parent := entry_parent en;
     runtimeName := runtimeName en; setters := setters en; entry_type := entry_type en |}.

Definition set_loaded (x : load_state) (en : Entry) : Entry :=
  {| _changed := _changed en; _completeMutableNamespace := _completeMutableNamespace en;
     _completeNamespace := _completeNamespace en; _loaded := x; _namespace := _namespace en;
     _namespaceFinalized := _namespaceFinalized en; _partialMutableNamespace :=
     _partialMutableNamespace en; _partialNamespace := _partialNamespace en; builtin :=
     builtin en; children := children en; circular := circular en; exports := exports en;
     extname := extname en; getters := getters en; importedBindings := importedBindings en;
     entry_module := entry_module en; entry_name := entry_name en; entry_namespace :=
     entry_namespace en; entry_package := entry_package en; entry_parent := entry_parent en;
     runtimeName := runtimeName en; setters := setters en; entry_type := entry_type en |}.

Definition set_namespace (x : nsobj) (en : Entry) : Entry :=
  {| _changed := _changed en; _completeMutableNamespace := _completeMutableNamespace en;
     _completeNamespace := _completeNamespace en; _loaded := _loaded en; _namespace := x;
     _namespaceFinalized := _namespaceFinalized en; _partialMutableNamespace :=
     _partialMutableNamespace en; _partialNamespace := _partialNamespace en; builtin :=
     builtin en; children := children en; circular := circular en; exports := exports en;
     extname := extname en; getters := getters en; importedBindings := importedBindings en;
     entry_module := entry_module en; entry_name := entry_name en; entry_namespace :=
     entry_namespace en; entry_package := entry_package en; entry_parent := entry_parent en;
     runtimeName := runtimeName en; setters := setters en; entry_type := entry_type en |}.

Definition set_namespaceFinalized (x : finalization) (en : Entry) : Entry :=
  {| _changed := _changed en; _completeMutableNamespace := _completeMutableNamespace en;
     _completeNamespace := _completeNamespace en; _loaded := _loaded en; _namespace :=
     _namespace en; _namespaceFinalized := x; _partialMutableNamespace :=
     _partialMutableNamespace en; _partialNamespace := _partialNamespace en; builtin :=
     builtin en; children := children en; circular := circular en; exports := exports en;
     extname := extname en; getters := getters en; importedBindings := importedBindings en;
     entry_module := entry_module en; entry_name := entry_name en; entry_namespace :=
     entry_namespace en; entry_package := entry_package en; entry_parent := entry_parent en;
     runtimeName := runtimeName en; setters := setters en; entry_type := entry_type en |}.

Definition set_partialMutableNamespace (x : nsobj) (en : Entry) : Entry :=
  {| _changed := _changed en; _completeMutableNamespace := _completeMutableNamespace en;
     _completeNamespace := _completeNamespace en; _loaded := _loaded en; _namespace :=
     _namespace en; _namespaceFinalized := _namespaceFinalized en; _partialMutableNamespace
     := x; _partialNamespace := _partialNamespace en; builtin := builtin en; children :=
     children en; circular := circular en; exports := exports en; extname := extname en;
     getters := getters en; importedBindings := importedBindings en; entry_module :=
     entry_module en; entry_name := entry_name en; entry_namespace := entry_namespace en;
     entry_package := entry_package en; entry_parent := entry_parent en; runtimeName :=
     runtimeName en; setters := setters en; entry_type := entry_type en |}.

Definition set_partialNamespace (x : nsobj) (en : Entry) : Entry :=
  {| _changed := _changed en; _completeMutableNamespace := _completeMutableNamespace en;
     _completeNamespace := _completeNamespace en; _loaded := _loaded en; _namespace :=
     _namespace en; _namespaceFinalized := _namespaceFinalized en; _partialMutableNamespace
     := _partialMutableNamespace en; _partialNamespace := x; builtin := builtin en; children
     := children en; circular := circular en; exports := exports en; extname := extname en;
     getters := getters en; importedBindings := importedBindings en; entry_module :=
     entry_module en; entry_name := entry_name en; entry_namespace := entry_namespace en;
     entry_package := entry_package en; entry_parent := entry_parent en; runtimeName :=
     runtimeName en; setters := setters en; entry_type := entry_type en |}.

Definition set_exports (x : value) (en : Entry) : Entry :=
  {| _changed := _changed en; _completeMutableNamespace := _completeMutableNamespace en;
     _completeNamespace := _completeNamespace en; _loaded := _loaded en; _namespace :=
     _namespace en; _namespaceFinalized := _namespaceFinalized en; _partialMutableNamespace
     := _partialMutableNamespace en; _partialNamespace := _partialNamespace en; builtin :=
     builtin en; children := children en; circular := circular en; exports := x; extname :=
     extname en; getters := getters en; importedBindings := importedBindings en; entry_module
     := entry_module en; entry_name := entry_name en; entry_namespace := entry_namespace en;
     entry_package := entry_package en; entry_parent := entry_parent en; runtimeName :=
     runtimeName en; setters := setters en; entry_type := entry_type en |}.

Definition set_getters (x : list (key * getter)) (en : Entry) : Entry :=
  {| _changed := _changed en; _completeMutableNamespace := _completeMutableNamespace en;
     _completeNamespace := _completeNamespace en; _loaded := _loaded en; _namespace :=
     _namespace en; _namespaceFinalized := _namespaceFinalized en; _partialMutableNamespace
     := _partialMutableNamespace en; _partialNamespace := _partialNamespace en; builtin :=
     builtin en; children := children en; circular := circular en; exports := exports en;
     extname := extname en; getters := x; importedBindings := importedBindings en;
     entry_module := entry_module en; entry_name := entry_name en; entry_namespace :=
     entry_namespace en; entry_package := entry_package en; entry_parent := entry_parent en;
     runtimeName := runtimeName en; setters := setters en; entry_type := entry_type en |}.

Definition set_importedBindings (x : list (key * bool)) (en : Entry) : Entry :=
  {| _changed := _changed en; _completeMutableNamespace := _completeMutableNamespace en;
     _completeNamespace := _completeNamespace en; _loaded := _loaded en; _namespace :=
     _namespace en; _namespaceFinalized := _namespaceFinalized en; _partialMutableNamespace
     := _partialMutableNamespace en; _partialNamespace := _partialNamespace en; builtin :=
     builtin en; children := children en; circular := circular en; exports := exports en;
     extname := extname en; getters := getters en; importedBindings := x; entry_module :=
     entry_module en; entry_name := entry_name en; entry_namespace := entry_namespace en;
     entry_package := entry_package en; entry_parent := entry_parent en; runtimeName :=
     runtimeName en; setters := setters en; entry_type := entry_type en |}.

Definition set_entry_name (x : option string) (en : Entry) : Entry :=
  {| _changed := _changed en; _completeMutableNamespace := _completeMutableNamespace en;
     _completeNamespace := _completeNamespace en; _loaded := _loaded en; _namespace :=
     _namespace en; _namespaceFinalized := _namespaceFinalized en; _partialMutableNamespace
     := _partialMutableNamespace en; _partialNamespace := _partialNamespace en; builtin :=
     builtin en; children := children en; circular := circular en; exports := exports en;
     extname := extname en; getters := getters en; importedBindings := importedBindings en;
     entry_module := entry_module en; entry_name := x; entry_namespace := entry_namespace en;
     entry_package := entry_package en; entry_parent := entry_parent en; runtimeName :=
     runtimeName en; setters := setters en; entry_type := entry_type en |}.

Definition set_entry_namespace (x : ns_ref) (en : Entry) : Entry :=
  {| _changed := _changed en; _completeMutableNamespace := _completeMutableNamespace en;
     _completeNamespace := _completeNamespace en; _loaded := _loaded en; _namespace :=
     _namespace en; _namespaceFinalized := _namespaceFinalized en; _partialMutableNamespace
     := _partialMutableNamespace en; _partialNamespace := _partialNamespace en; builtin :=
     builtin en; children := children en; circular := circular en; exports := exports en;
     extname := extname en; getters := getters en; importedBindings := importedBindings en;
     entry_module := entry_module en; entry_name := entry_name en; entry_namespace := x;
     entry_package := entry_package en; entry_parent := entry_parent en; runtimeName :=
     runtimeName en; setters := setters en; entry_type := entry_type en |}.

Definition set_setters (x : list (key * list setter)) (en : Entry) : Entry :=
  {| _changed := _changed en; _completeMutableNamespace := _completeMutableNamespace en;
     _completeNamespace := _completeNamespace en; _loaded := _loaded en; _namespace :=
     _namespace en; _namespaceFinalized := _namespaceFinalized en; _partialMutableNamespace
     := _partialMutableNamespace en; _partialNamespace := _partialNamespace en; builtin :=
     builtin en; children := children en; circular := circular en; exports := exports en;
     extname := extname en; getters := getters en; importedBindings := importedBindings en;
     entry_module := entry_module en; entry_name := entry_name en; entry_namespace :=
     entry_namespace en; entry_package := entry_package en; entry_parent := entry_parent en;
     runtimeName := runtimeName en; setters := x; entry_type := entry_type en |}.

Definition set_entry_type (x : deferred_type) (en : Entry) : Entry :=
  {| _changed := _changed en; _completeMutableNamespace := _completeMutableNamespace en;
     _completeNamespace := _completeNamespace en; _loaded := _loaded en; _namespace :=
     _namespace en; _namespaceFinalized := _namespaceFinalized en; _partialMutableNamespace
     := _partialMutableNamespace en; _partialNamespace := _partialNamespace en; builtin :=
     builtin en; children := children en; circular := circular en; exports := exports en;
     extname := extname en; getters := getters en; importedBindings := importedBindings en;
     entry_module := entry_module en; entry_name := entry_name en; entry_namespace :=
     entry_namespace en; entry_package := entry_package en; entry_parent := entry_parent en;
     runtimeName := runtimeName en; setters := setters en; entry_type := x |}.


(** The arguments [names] of [updateBindings]. *)
Inductive names_arg :=
| NamesUndefined
| NamesNull
| NamesString (s : string)
| NamesArray (l : list key).

(** ** Errors and the event trace *)

Inductive error :=
| TypeError (msg : string)
| ERR_EXPORT_STAR_CONFLICT (m : value) (name : key)
| ERR_NS_ASSIGNMENT (m : value) (name : key)
| ERR_NS_DEFINITION (m : value) (name : key)
| ERR_NS_DELETION (m : value) (name : key)
| ERR_NS_EXTENSION (m : value) (name : key)
| ERR_NS_REDEFINITION (m : value) (name : key)
| ERR_UNDEFINED_IDENTIFIER (name : key)
| HostThrow (h : nat)            (* an exception raised by host function [h] *)
| Unsupported (what : string)    (* an operation on an exotic object that the model leaves to the host *)
| NoSuchObject (a : addr)        (* a reference to a host object that was never created *)
| NoSuchEntry (e : eid).         (* a reference to an entry that was never created *)

(** The trace records, in order, the calls a propagation makes. *)
Inductive event :=
| EvUpdateBindings (e : eid) (names : names_arg) (ut : update_type) (seen : option (gset eid))
| EvBody (e : eid)                                   (* the getter and setter passes of [e] start *)
| EvSeenAdd (e : eid)                                (* [seen.add(e)] *)
| EvLoaded (e : eid)                                 (* [e.loaded()] is called *)
| EvSetter (e : eid) (name : key) (fn : nat) (v : value).   (* setter [fn] of [e.setters[name]] is called with [v] *)

(** ** What the engine takes from its collaborators

    The functions below live in other files of the package ([package.js],
    [util/get-module-name.js], [util/get-module-dirname.js], [safe/path.js],
    [util/to-raw-module-namespace-object.js], [caching-compiler.js],
    [util/is-own-path.js]); the engine is parametric in them.  Those that
    take a module are functions of its identity. *)
Class Externals := {
  Package_from : value -> Package;
  getModuleDirname : value -> string;
  getModuleName : value -> string;
  path_extname : string -> string;
  toRawModuleNamespaceObject : nsobj;
  sourceIsModule : value -> bool;      (* compileData.sourceType === SOURCE_TYPE_MODULE *)
  runtimeNameOf : value -> string;
  isOwnPath : string -> bool
}.

(** A frame of the stack [getStackFrames] returns. *)
Record frame := {
  getFileName : option string;   (* [None] for [null] or [undefined] *)
  isNative : bool;
  getFunction : option nat       (* [None] for [undefined]: the frame's code is strict *)
}.

(** The host: its store [U], and the behaviour of each host function,
    which sees its arguments and the host store and either returns a value
    or throws. *)
Class Host := {
  U : Type;
  host_call : nat -> list value -> U -> option value * U
}.

(** ** State and effects *)

Section Engine.

Context {H : Host} {ext : Externals}.

Record State := {
  heap : gmap addr (obj nat);       (* host objects; accessors hold host functions *)
  entries : gmap eid Entry;
  cache : list (value * eid);       (* shared.entry.cache, keyed by module object *)
  bridged : list (value * eid);     (* shared.bridged, keyed by exported value *)
  host : U;
  trace : list event
}.

Definition with_heap (h : gmap addr (obj nat)) (s : State) : State :=
  {| heap := h; entries := entries s; cache := cache s; bridged := bridged s;
     host := host s; trace := trace s |}.
Definition with_entries (es : gmap eid Entry) (s : State) : State :=
  {| heap := heap s; entries := es; cache := cache s; bridged := bridged s;
     host := host s; trace := trace s |}.
Definition with_cache (c : list (value * eid)) (s : State) : State :=
  {| heap := heap s; entries := entries s; cache := c; bridged := bridged s;
     host := host s; trace := trace s |}.
Definition with_bridged (b : list (value * eid)) (s : State) : State :=
  {| heap := heap s; entries := entries s; cache := cache s; bridged := b;
     host := host s; trace := trace s |}.
Definition with_host (u : U) (s : State) : State :=
  {| heap := heap s; entries := entries s; cache := cache s; bridged := bridged s;
     host := u; trace := trace s |}.
Definition with_trace (t : list event) (s : State) : State :=
  {| heap := heap s; entries := entries s; cache := cache s; bridged := bridged s;
     host := host s; trace := t |}.

(** A computation runs on a state and either completes with a result or
    throws; both outcomes carry the state reached. *)
Inductive Res (A : Type) :=
| Ok (a : A) (s : State)
| Throw (e : error) (s : State).
Arguments Ok {A}.
Arguments Throw {A}.

Definition M (A : Type) := State -> Res A.

Definition ret {A} (a : A) : M A := fun s => Ok a s.
Definition throw {A} (e : error) : M A := fun s => Throw e s.
Definition bind {A B} (m : M A) (f : A -> M B) : M B :=
  fun s => match m s with
           | Ok a s' => f a s'
           | Throw e s' => Throw e s'
           end.

Notation "x <- c1 ;; c2" := (bind c1 (fun x => c2))
  (at level 100, c1 at next level, right associativity).
Notation "c1 ;;; c2" := (bind c1 (fun _ => c2))
  (at level 100, right associativity).

(** [try { m } catch { h }]. *)
Definition try_catch {A} (m : M A) (h : error -> M A) : M A :=
  fun s => match m s with
           | Ok a s' => Ok a s'
           | Throw e s' => h e s'
           end.

Definition final_state {A} (r : Res A) : State :=
  match r with Ok _ s => s | Throw _ s => s end.

Definition log (ev : event) : M unit :=
  fun s => Ok tt (with_trace (trace s ++ [ev]) s).

Fixpoint for_each {A} (l : list A) (body : A -> M unit) : M unit :=
  match l with
  | [] => ret tt
  | x :: l' => body x ;;; for_each l' body
  end.

Definition get_entry (e : eid) : M Entry :=
  fun s => match entries s !! e with
           | Some en => Ok en s
           | None => Throw (NoSuchEntry e) s
           end.

Definition modify_entry (e : eid) (f : Entry -> Entry) : M unit :=
  fun s => Ok tt (with_entries (alter f e (entries s)) s).

Definition get_object (a : addr) : M (obj nat) :=
  fun s => match heap s !! a with
           | Some o => Ok o s
           | None => Throw (NoSuchObject a) s
           end.

Definition put_object (a : addr) (o : obj nat) : M unit :=
  fun s => Ok tt (with_heap (<[a := o]> (heap s)) s).

(** A call of host function [h]. *)
Definition host_fn (h : nat) (args : list value) : M value :=
  fun s => match host_call h args (host s) with
           | (Some v, u) => Ok v (with_host u s)
           | (None, u) => Throw (HostThrow h) (with_host u s)
           end.

(** ** Property access on values *)

Definition isObject (v : value) (s : State) : bool :=
  match v with
  | VObj a | VExportsProxy a =>
      match heap s !! a with Some o => negb (o_callable o) | None => true end
  | VNamespace _ _ | VEntry _ | ERROR_GETTER | ERROR_STAR | INITIAL_VALUE => true
  | _ => false
  end.

Definition isObjectLike (v : value) : bool :=
  match v with
  | VObj _ | VExportsProxy _ | VNamespace _ _ | VEntry _
  | ERROR_GETTER | ERROR_STAR | INITIAL_VALUE => true
  | _ => false
  end.

Definition is_function (v : value) (s : State) : bool :=
  match v with
  | VObj a | VExportsProxy a =>
      match heap s !! a with Some o => o_callable o | None => false end
  | _ => false
  end.

(** [v[k]].  A host object answers from its property table (the wrapper
    of [proxyExports] reads through to its target); [undefined] and
    [null] throw; the views and entries are exotic; the other values have
    no property of their own. *)
Definition value_get (v : value) (k : key) : M value :=
  match v with
  | VObj a | VExportsProxy a =>
      o <- get_object a ;;
      match plan_get o k with
      | GetValue x => ret x
      | GetCall h => host_fn h []
      end
  | VUndef | VNull => throw (TypeError "cannot read properties of undefined or null")
  | VNamespace _ _ | VEntry _ => throw (Unsupported "property read on an exotic object")
  | _ => ret VUndef
  end.

(** [v[k] = x] in strict code. *)
Definition value_set (v : value) (k : key) (x : value) : M unit :=
  match v with
  | VObj a =>
      o <- get_object a ;;
      match plan_set o k x with
      | SetReject => throw (TypeError "cannot assign to property")
      | SetStore o' => put_object a o'
      | SetCall h => host_fn h [x] ;;; ret tt
      end
  | VExportsProxy _ | VNamespace _ _ | VEntry _
  | ERROR_GETTER | ERROR_STAR | INITIAL_VALUE =>
      throw (Unsupported "assignment through an exotic object")
  | _ => throw (TypeError "cannot create property on a primitive")
  end.

(** [Reflect.get(v, k)]: as [v[k]], but a target that is not an object
    is a [TypeError]. *)
Definition Reflect_get (v : value) (k : key) : M value :=
  if isObjectLike v then value_get v k
  else throw (TypeError "Reflect.get called on non-object").

(** [Reflect.defineProperty(v, k, d)] on a value. *)
Definition Reflect_defineProperty (v : value) (k : key) (d : descriptor nat) : M bool :=
  match v with
  | VObj a =>
      o <- get_object a ;;
      match define_own o k d with
      | Some o' => put_object a o' ;;; ret true
      | None => ret false
      end
  | VExportsProxy _ | VNamespace _ _ | VEntry _
  | ERROR_GETTER | ERROR_STAR | INITIAL_VALUE =>
      throw (Unsupported "definition through an exotic object")
  | _ => throw (TypeError "Reflect.defineProperty called on non-object")
  end.

(** [keys(v)] of [util/keys.js]: [Object.keys] of an object-like value,
    the empty list otherwise. *)
Definition keys (v : value) : M (list string) :=
  match v with
  | VObj a | VExportsProxy a => o <- get_object a ;; ret (Object_keys o)
  | VNamespace _ _ | VEntry _ => throw (Unsupported "keys of an exotic object")
  | _ => ret []
  end.

(** [has(v, k)] of [util/has.js]: an own-property test that is [false]
    on [undefined] and [null]. *)
Definition has (v : value) (k : key) : M bool :=
  match v with
  | VObj a | VExportsProxy a => o <- get_object a ;; ret (has_own o k)
  | VNamespace _ _ | VEntry _ => throw (Unsupported "own-property test on an exotic object")
  | _ => ret false
  end.

(** ** The raw namespace objects of an entry *)

(** [SlotNamespace] is [entry._namespace]; [SlotView v] is the raw object
    behind the proxy of view [v]. *)
Inductive slot := SlotNamespace | SlotView (v : view).

Definition raw_of (sl : slot) (en : Entry) : nsobj :=
  match sl with
  | SlotNamespace => _namespace en
  | SlotView Complete => _completeNamespace en
  | SlotView CompleteMutable => _completeMutableNamespace en
  | SlotView Partial => _partialNamespace en
  | SlotView PartialMutable => _partialMutableNamespace en
  end.

Definition set_raw (sl : slot) (o : nsobj) (en : Entry) : Entry :=
  match sl with
  | SlotNamespace => set_namespace o en
  | SlotView Complete => set_completeNamespace o en
  | SlotView CompleteMutable => set_completeMutableNamespace o en
  | SlotView Partial => set_partialNamespace o en
  | SlotView PartialMutable => set_partialMutableNamespace o en
  end.

Definition ns_read (e : eid) (sl : slot) : M nsobj :=
  en <- get_entry e ;; ret (raw_of sl en).

Definition ns_write (e : eid) (sl : slot) (o : nsobj) : M unit :=
  modify_entry e (set_raw sl o).

(** The descriptor [setProperty] of [util/set-property.js] defines. *)
Definition dataDescriptor (v : value) : descriptor closure :=
  {| d_value := Some v; d_writable := Some true; d_get := None; d_set := None;
     d_enumerable := Some true; d_configurable := Some true |}.

(** A call of an accessor function of the raw object [(e, sl)], which is
    its [this]. *)
Definition call_closure (c : closure) (e : eid) (sl : slot) (args : list value) : M value :=
  match c with
  | CHost h => host_fn h args
  | CExportsGet e' name => en <- get_entry e' ;; value_get (exports en) name
  | CExportsSet e' name =>
      en <- get_entry e' ;;
      value_set (exports en) name (hd VUndef args) ;;;
      ret VUndef
  | CExportsWhole e' => en <- get_entry e' ;; ret (exports en)
  | CSetProperty name =>
      o <- ns_read e sl ;;
      match define_own o name (dataDescriptor (hd VUndef args)) with
      | Some o' => ns_write e sl o'
      | None => ret tt
      end ;;;
      ret VUndef
  end.

(** [raw[k]] on a raw namespace object. *)
Definition ns_get (e : eid) (sl : slot) (k : key) : M value :=
  o <- ns_read e sl ;;
  match plan_get o k with
  | GetValue v => ret v
  | GetCall c => call_closure c e sl []
  end.

(** [raw[k] = v] on a raw namespace object, in strict code. *)
Definition ns_set (e : eid) (sl : slot) (k : key) (v : value) : M unit :=
  o <- ns_read e sl ;;
  match plan_set o k v with
  | SetReject => throw (TypeError "cannot assign to property")
  | SetStore o' => ns_write e sl o'
  | SetCall c => call_closure c e sl [v] ;;; ret tt
  end.

(** ** The deferred [type] property

    The first read of [entry.type] runs the computation installed by the
    constructor: a module-type source gives [TYPE_ESM]; otherwise
    [entry.namespace] becomes the type proxy and the result is
    [TYPE_CJS]. *)
Definition get_type (e : eid) : M module_type :=
  en <- get_entry e ;;
  match entry_type en with
  | TypeValue t => ret t
  | TypeDeferred true =>
      modify_entry e (set_entry_type (TypeValue TYPE_ESM)) ;;;
      ret TYPE_ESM
  | TypeDeferred false =>
      modify_entry e (fun en => set_entry_type (TypeValue TYPE_CJS)
                                  (set_entry_namespace NsTypeProxy en)) ;;;
      ret TYPE_CJS
  end.

(** [this.namespace[name]].  Through the type proxy, ["default"] is the
    exported value, a name present on [_namespace] is read from the
    exported value, and anything else from [_namespace]. *)
Definition namespace_get (e : eid) (name : key) : M value :=
  en <- get_entry e ;;
  match entry_namespace en with
  | NsRaw => ns_get e SlotNamespace name
  | NsTypeProxy =>
      if key_eqb name (KStr "default") then ret (exports en)
      else if negb (key_eqb name KToStringTag) && has_own (_namespace en) name
      then Reflect_get (exports en) name
      else ns_get e SlotNamespace name
  end.

Definition call_getter (g : getter_fn) : M value :=
  match g with
  | GHost h => host_fn h []
  | GNamespaceGet e name => namespace_get e name
  end.

(** The errors a [catch] clause of the source can see: those of the
    language and of the host, not the limits of the model. *)
Definition catchable (err : error) : bool :=
  match err with
  | Unsupported _ | NoSuchObject _ | NoSuchEntry _ => false
  | _ => true
  end.

Definition try_catch_js {A} (m : M A) (h : M A) : M A :=
  try_catch m (fun err => if catchable err then h else throw err).

(** [tryGetter]: the getter's value, or [ERROR_GETTER] when the call
    throws (calling [undefined] throws). *)
Definition tryGetter (g : option getter) : M value :=
  try_catch_js
    (match g with
     | Some g => call_getter (g_fn g)
     | None => throw (TypeError "getter is not a function")
     end)
    (ret ERROR_GETTER).

(** ** [addGetter] *)

Definition get_state : M State := fun s => Ok s s.

Definition stamp_getter (e : eid) (name : key) (g : getter) : getter :=
  {| g_fn := g_fn g;
     g_id := Some (default name (g_id g));
     g_owner := Some (default e (g_owner g)) |}.

Definition addGetter (e : eid) (name : key) (g : getter) : M unit :=
  type <- get_type e ;;
  let getter := stamp_getter e name g in
  modify_entry e (fun en => set_getters (assoc_set name getter (getters en)) en) ;;;
  let isDefault := key_eqb name (KStr "default") in
  let descriptor :=
    if isDefault && bool_decide (type = TYPE_CJS)
    then {| d_value := None; d_writable := None;
            d_get := Some (Some (CExportsWhole e));
            d_set := Some (Some (CSetProperty name));
            d_enumerable := Some true; d_configurable := Some true |}
    else {| d_value := None; d_writable := None;
            d_get := Some (Some (CExportsGet e name));
            d_set := Some (Some (CExportsSet e name));
            d_enumerable := Some true; d_configurable := Some true |} in
  (if isDefault && bool_decide (type = TYPE_ESM) then
     value <- tryGetter (Some getter) ;;
     s <- get_state ;;
     if is_function value s then
       fname <- value_get value (KStr "name") ;;
       en <- get_entry e ;;
       if bool_decide (fname = VStr (String.append (runtimeName en) "anonymous")) then
         Reflect_defineProperty value (KStr "name")
           {| d_value := Some (VStr "default"); d_writable := None;
              d_get := None; d_set := None;
              d_enumerable := None; d_configurable := Some true |} ;;;
         ret tt
       else ret tt
     else ret tt
   else ret tt) ;;;
  o <- ns_read e SlotNamespace ;;
  match define_own o name descriptor with
  | Some o' => ns_write e SlotNamespace o'
  | None => ret tt
  end.

(** ** [getExportsObjectKeys] and [assignExportsToNamespace] *)

Definition own_enumerable (t : list (key * prop nat)) (k : key) : bool :=
  match assoc k t with Some p => prop_enumerable p | None => false end.

(** The names [getExportsObjectKeys] keeps for a dynamic module. *)
Definition dynamic_export_names (o : obj nat) : list string :=
  filter (fun name =>
            negb (negb (own_enumerable (o_props o) (KStr name)) &&
                  (bool_decide (name = "__esModule") ||
                   (o_callable o && bool_decide (name = "prototype")) ||
                   (match chain_lookup (KStr name) (o_chain o) with
                    | Some _ => true | None => false end &&
                    negb (own_enumerable (hd [] (o_chain o)) (KStr name))))) = true)
         (ownPropertyNames_obj o).

Definition getExportsObjectKeys (e : eid) (exported : value) : M (list string) :=
  type <- get_type e ;;
  if bool_decide (type = TYPE_ESM) || bool_decide (type = TYPE_WASM)
  then keys exported
  else
    match exported with
    | VObj a | VExportsProxy a => o <- get_object a ;; ret (dynamic_export_names o)
    | VNamespace _ _ | VEntry _ => throw (Unsupported "own names of an exotic object")
    | _ => ret []
    end.

Definition string_chars (s : string) : list key :=
  map (fun c => KStr (String c EmptyString)) (String.list_ascii_of_string s).

Definition assignExportsToNamespace (e : eid) (names : names_arg) : M unit :=
  en <- get_entry e ;;
  if negb (isObjectLike (exports en)) then ret tt
  else
    type <- get_type e ;;
    let isCJS := bool_decide (type = TYPE_CJS) in
    names <- match names with
             | NamesUndefined =>
                 en <- get_entry e ;;
                 if bool_decide (_loaded en = LOAD_COMPLETED)
                 then ret (map KStr (Object_keys (_namespace en)))
                 else l <- getExportsObjectKeys e (exports en) ;; ret (map KStr l)
             | NamesNull => throw (TypeError "names is not iterable")
             | NamesString s => ret (string_chars s)
             | NamesArray l => ret l
             end ;;
    for_each names (fun name =>
      en <- get_entry e ;;
      if negb (isCJS && key_eqb name (KStr "default")) && negb (assoc_has name (getters en))
      then addGetter e name {| g_fn := GNamespaceGet e name; g_id := None; g_owner := None |}
      else ret tt).

(** ** [finalizeNamespace] *)

Definition delete_raw (e : eid) (sl : slot) (k : key) : M bool :=
  o <- ns_read e sl ;;
  match delete_own o k with
  | Some o' => ns_write e sl o' ;;; ret true
  | None => ret false
  end.

Definition seal_raw (e : eid) (sl : slot) : M unit :=
  o <- ns_read e sl ;; ns_write e sl (seal o).

Definition finalizeNamespace (e : eid) : M unit :=
  en <- get_entry e ;;
  if bool_decide (_namespaceFinalized en = NAMESPACE_FINALIZATION_COMPLETED) then ret tt
  else
    modify_entry e (set_namespaceFinalized NAMESPACE_FINALIZATION_COMPLETED) ;;;
    (* keys(this.namespace): the type proxy lists the keys of [_namespace] *)
    let names := sort_names (Object_keys (_namespace en)) in
    for_each names (fun name =>
      ns_set e (SlotView CompleteMutable) (KStr name) INITIAL_VALUE ;;;
      ns_set e (SlotView Complete) (KStr name) INITIAL_VALUE) ;;;
    seal_raw e (SlotView Complete) ;;;
    type <- get_type e ;;
    if negb (bool_decide (type = TYPE_ESM)) then
      en <- get_entry e ;;
      (if builtin en then
         let exported := exports en in
         names <- keys exported ;;
         hasDefault <- has exported (KStr "default") ;;
         let names := sort_names (if hasDefault then names else names ++ ["default"]) in
         delete_raw e (SlotView PartialMutable) (KStr "default") ;;;
         delete_raw e (SlotView Partial) (KStr "default") ;;;
         for_each names (fun name =>
           ns_set e (SlotView PartialMutable) (KStr name) INITIAL_VALUE ;;;
           ns_set e (SlotView Partial) (KStr name) INITIAL_VALUE)
       else
         ns_set e (SlotView PartialMutable) (KStr "default") INITIAL_VALUE ;;;
         ns_set e (SlotView Partial) (KStr "default") INITIAL_VALUE) ;;;
      seal_raw e (SlotView Partial)
    else ret tt.

(** ** [loaded] *)

(** [mod.loaded], read as a condition. *)
Definition module_loaded (m : value) : M bool :=
  v <- value_get m (KStr "loaded") ;; ret (truthy v).

(** The loop over [children]: [false] as soon as one child's module is
    not loaded. *)
Fixpoint children_loaded (cs : list eid) : M bool :=
  match cs with
  | [] => ret true
  | c :: cs' =>
      child <- get_entry c ;;
      l <- module_loaded (entry_module child) ;;
      if l then children_loaded cs' else ret false
  end.

Definition in_order {A} (t : list (key * A)) : list A :=
  omap (fun name => assoc (KStr name) t) (for_in t).

(** Modelled from the spec: [proxyExports] of [util/proxy-exports.js],
    which is not part of the sources at hand.  Section 4.5 says it wraps
    the raw exported value behind an export proxy; a value that is not an
    object has nothing to wrap. *)
Definition proxyExports (exported : value) : value :=
  match exported with
  | VObj a => VExportsProxy a
  | v => v
  end.

Definition pseudoDescriptor : descriptor nat :=
  {| d_value := Some (VBool true); d_writable := None; d_get := None; d_set := None;
     d_enumerable := None; d_configurable := None |}.

Definition set_loaded_state (e : eid) (l : load_state) : M load_state :=
  modify_entry e (set_loaded l) ;;; ret l.

Definition is_mjs (ext : option string) : bool := bool_decide (ext = Some ".mjs").

(** The branch of [loaded] for a declarative or a binary module. *)
Definition loaded_declarative (e : eid) : M unit :=
  en <- get_entry e ;;
  names <- getExportsObjectKeys e (exports en) ;;
  modify_entry e (fun en => set_entry_namespace NsRaw (set_loaded LOAD_COMPLETED en)) ;;;
  assignExportsToNamespace e (NamesArray (map KStr names)) ;;;
  en <- get_entry e ;;
  if cjs_interop (entry_package en) && negb (is_mjs (extname en)) then
    let exported := exports en in
    if bool_decide (names = ["default"]) then
      d <- value_get exported (KStr "default") ;;
      value_set (entry_module en) (KStr "exports") d
    else if negb (assoc_has (KStr "__esModule") (getters en)) then
      Reflect_defineProperty exported (KStr "__esModule") pseudoDescriptor ;;; ret tt
    else ret tt
  else ret tt.

(** The branch of [loaded] for the other modules; [m] is [this.module]. *)
Definition loaded_dynamic (e : eid) (m : value) : M unit :=
  exported <- value_get m (KStr "exports") ;;
  names <- getExportsObjectKeys e exported ;;
  modify_entry e (set_loaded LOAD_COMPLETED) ;;;
  esModule <- (if bool_decide (exported = VUndef) || bool_decide (exported = VNull)
               then ret false
               else v <- value_get exported (KStr "__esModule") ;; ret (truthy v)) ;;
  (if esModule then
     type <- get_type e ;;
     en <- get_entry e ;;
     if bool_decide (type = TYPE_CJS) && cjs_interop (entry_package en) then
       modify_entry e (fun en => set_entry_type (TypeValue TYPE_PSEUDO)
                                   (set_entry_namespace NsRaw en))
     else ret tt
   else ret tt) ;;;
  type <- get_type e ;;
  exported <- (if bool_decide (type = TYPE_CJS) then
                 en <- get_entry e ;;
                 (if negb (assoc_has (KStr "default") (getters en)) then
                    addGetter e (KStr "default")
                      {| g_fn := GNamespaceGet e (KStr "default");
                         g_id := None; g_owner := None |}
                  else ret tt) ;;;
                 ret (proxyExports exported)
               else ret exported) ;;
  modify_entry e (set_exports exported) ;;;
  assignExportsToNamespace e (NamesArray (map KStr names)).

Definition loaded_body (e : eid) : M load_state :=
  en <- get_entry e ;;
  if negb (bool_decide (_loaded en = LOAD_INCOMPLETE)) then ret (_loaded en)
  else
    let m := entry_module en in
    modLoaded <- module_loaded m ;;
    if negb modLoaded then set_loaded_state e LOAD_INCOMPLETE
    else
      modify_entry e (set_loaded LOAD_INDETERMINATE) ;;;
      allLoaded <- children_loaded (in_order (children en)) ;;
      if negb allLoaded then set_loaded_state e LOAD_INCOMPLETE
      else
        type <- get_type e ;;
        (if bool_decide (type = TYPE_ESM) || bool_decide (type = TYPE_WASM)
         then loaded_declarative e
         else loaded_dynamic e m) ;;;
        finalizeNamespace e ;;;
        en <- get_entry e ;;
        ret (_loaded en).

(** [loaded], with the event that records the call. *)
Definition loaded (e : eid) : M load_state :=
  log (EvLoaded e) ;;; loaded_body e.

(** ** Export resolution: [getExportByName], [getExportByNameFast] *)

Definition getExportByName (e : eid) (name : key) (parentEntry : eid) : M value :=
  entry <- get_entry e ;;
  parent <- get_entry parentEntry ;;
  let parentCJS := entry_package parent in
  let parentIsMJS := is_mjs (extname parent) in
  let parentNamedExports := negb parentIsMJS && cjs_namedExports parentCJS in
  noNamedExports <- (if negb parentNamedExports
                     then type <- get_type e ;; ret (negb (bool_decide (type = TYPE_ESM)))
                     else ret false) ;;
  if noNamedExports && key_eqb name (KStr "default") then ret (exports entry)
  else if negb (key_eqb name (KStr "*")) then
    entry <- get_entry e ;;
    if assoc_has name (getters entry)
    then tryGetter (assoc name (getters entry))
    else ret ERROR_GETTER
  else
    let parentMutableNamespace := negb parentIsMJS && cjs_mutableNamespace parentCJS in
    let noMutableNamespace := negb parentMutableNamespace || is_mjs (extname entry) in
    if noMutableNamespace
    then ret (if noNamedExports then VNamespace e Partial else VNamespace e Complete)
    else ret (if noNamedExports then VNamespace e PartialMutable
              else VNamespace e CompleteMutable).

Definition getExportByNameFast (e : eid) (name : key) (parentEntry : eid) : M value :=
  if negb (key_eqb name (KStr "*")) then
    entry <- get_entry e ;;
    if assoc_has name (getters entry)
    then tryGetter (assoc name (getters entry))
    else ret ERROR_GETTER
  else
    entry <- get_entry e ;;
    parent <- get_entry parentEntry ;;
    let parentMutableNamespace :=
      negb (is_mjs (extname parent)) && cjs_mutableNamespace (entry_package parent) in
    let noMutableNamespace := negb parentMutableNamespace || is_mjs (extname entry) in
    ret (if noMutableNamespace then VNamespace e Complete else VNamespace e CompleteMutable).

(** ** The getter pass: [runGetter], [runGetters] *)

Definition runGetter (e : eid) (name : key) : M unit :=
  entry <- get_entry e ;;
  value <- tryGetter (assoc name (getters entry)) ;;
  if bool_decide (value = ERROR_STAR) then
    delete_raw e SlotNamespace name ;;; ret tt
  else
    o <- ns_read e SlotNamespace ;;
    differs <- (if negb (has_property o name) then ret true
                else cur <- ns_get e SlotNamespace name ;; ret (negb (Object_is cur value))) ;;
    if differs then
      modify_entry e (set_changed true) ;;;
      ns_set e SlotNamespace name value
    else ret tt.

Definition runGetters (e : eid) (names : names_arg) : M unit :=
  type <- get_type e ;;
  if bool_decide (type = TYPE_ESM) then
    match names with
    | NamesArray l => for_each l (runGetter e)
    | _ =>
        entry <- get_entry e ;;
        for_each (map KStr (for_in (getters entry))) (runGetter e)
    end
  else
    entry <- get_entry e ;;
    l <- module_loaded (entry_module entry) ;;
    if l then assignExportsToNamespace e names else ret tt.

(** ** The setter pass: [runSetter], [runSetters] *)

Definition setters_of (name : key) (en : Entry) : list setter :=
  default [] (assoc name (setters en)).

Definition write_setters (e : eid) (name : key) (l : list setter) : M unit :=
  modify_entry e (fun en => set_setters (assoc_set name l (setters en)) en).

(** One turn of the [while (length--)] loop, at index [i] of the live
    array [entry.setters[name]].  [acc] is the state of the variables the
    callback closes over. *)
Definition runSetter_step {A} (e : eid) (name : key)
    (callback : setter -> A -> M A) (updateType : update_type)
    (isESM isLoaded isNsChanged : bool) (i : nat) (acc : A) : M A :=
  entry <- get_entry e ;;
  match setters_of name entry !! i with
  | None => throw (TypeError "cannot read properties of undefined")
  | Some setter =>
      let parentEntry := s_parent setter in
      value <- (if isESM then getExportByNameFast e name parentEntry
                else getExportByName e name parentEntry) ;;
      if bool_decide (value = ERROR_STAR) then
        entry <- get_entry e ;;
        write_setters e name (delete i (setters_of name entry)) ;;;
        throw (ERR_EXPORT_STAR_CONFLICT (entry_module entry) name)
      else
        let type := s_type setter in
        let changed := negb (bool_decide (type = SETTER_TYPE_DYNAMIC_IMPORT))
                       && negb (Object_is (s_last setter) value) in
        let isDynamicImport := isLoaded && bool_decide (type = SETTER_TYPE_DYNAMIC_IMPORT) in
        let isExportFrom := bool_decide (type = SETTER_TYPE_EXPORT_FROM) in
        let isExportNs := isNsChanged && bool_decide (type = SETTER_TYPE_NAMESPACE) in
        let isInit := bool_decide (updateType = UPDATE_TYPE_INIT) in
        if changed || isDynamicImport || isExportFrom || isExportNs || isInit then
          let setter := set_last value setter in
          entry <- get_entry e ;;
          write_setters e name (<[i := setter]> (setters_of name entry)) ;;;
          let setterValue := if bool_decide (value = ERROR_GETTER) then VUndef else value in
          log (EvSetter e name (s_fn setter) setterValue) ;;;
          result <- host_fn (s_fn setter) [setterValue; VEntry e] ;;
          if truthy result then
            (if isDynamicImport then
               entry <- get_entry e ;;
               write_setters e name (delete i (setters_of name entry))
             else ret tt) ;;;
            callback setter acc
          else if isExportFrom && negb changed then ret acc
          else callback setter acc
        else ret acc
  end.

Fixpoint runSetter_loop {A} (e : eid) (name : key)
    (callback : setter -> A -> M A) (updateType : update_type)
    (isESM isLoaded isNsChanged : bool) (length : nat) (acc : A) : M A :=
  match length with
  | 0 => ret acc
  | S i =>
      acc <- runSetter_step e name callback updateType isESM isLoaded isNsChanged i acc ;;
      runSetter_loop e name callback updateType isESM isLoaded isNsChanged i acc
  end.

Definition runSetter {A} (e : eid) (name : key)
    (callback : setter -> A -> M A) (updateType : update_type) (acc : A) : M A :=
  entry <- get_entry e ;;
  match assoc name (setters entry) with
  | None => ret acc
  | Some l =>
      type <- get_type e ;;
      entry <- get_entry e ;;
      let isESM := bool_decide (type = TYPE_ESM) in
      let isLoaded := bool_decide (_loaded entry = LOAD_COMPLETED) in
      let isNsChanged := _changed entry in
      runSetter_loop e name callback updateType isESM isLoaded isNsChanged (length l) acc
  end.

Fixpoint fold_names {A} (l : list key) (body : key -> A -> M A) (acc : A) : M A :=
  match l with
  | [] => ret acc
  | name :: l' => acc <- body name acc ;; fold_names l' body acc
  end.

Definition runSetters {A} (e : eid) (names : names_arg)
    (callback : setter -> A -> M A) (updateType : update_type) (acc : A) : M A :=
  match names with
  | NamesArray l => fold_names l (fun name => runSetter e name callback updateType) acc
  | _ =>
      entry <- get_entry e ;;
      fold_names (map KStr (for_in (setters entry)))
                 (fun name => runSetter e name callback updateType) acc
  end.

(** ** [updateBindings] *)

(** [parentsMap]: parent entries keyed by their name. *)
Definition ParentsMap := list (key * eid).

Definition name_key (en : Entry) : key := KStr (default "null" (entry_name en)).

Definition mark_imported (name : key) (en : Entry) : Entry :=
  set_importedBindings (assoc_set name true (importedBindings en)) en.

(** The callback [updateBindings] hands to [runSetters]; it closes over
    [shouldUpdateParents] and the variable [parentsMap]. *)
Definition update_callback (shouldUpdateParents : bool) (setter : setter)
    (parentsMap : option ParentsMap) : M (option ParentsMap) :=
  let parentEntry := s_parent setter in
  get_entry parentEntry ;;;
  (if negb (bool_decide (s_last setter = ERROR_GETTER)) then
     for_each (s_localNames setter) (fun name => modify_entry parentEntry (mark_imported name))
   else ret tt) ;;;
  if shouldUpdateParents then
    parent <- get_entry parentEntry ;;
    ret (Some (assoc_set (name_key parent) parentEntry (default [] parentsMap)))
  else ret parentsMap.

Definition shouldUpdateParents_of (en : Entry) (updateType : update_type) : bool :=
  circular en
  || bool_decide (updateType = UPDATE_TYPE_LIVE)
  || bool_decide (updateType = UPDATE_TYPE_INIT).

Definition seen_has (seen : option (gset eid)) (e : eid) : bool :=
  match seen with
  | Some set => bool_decide (e ∈ set)
  | None => false
  end.

Definition normalize_names (names : names_arg) : names_arg :=
  match names with
  | NamesString s => NamesArray [KStr s]
  | _ => names
  end.

(** The getter pass and the setter pass of one record; the result is
    [parentsMap]. *)
Definition updateBindings_passes (e : eid) (names : names_arg)
    (updateType : update_type) (shouldUpdateParents : bool) : M (option ParentsMap) :=
  log (EvBody e) ;;;
  let names := normalize_names names in
  modify_entry e (set_changed false) ;;;
  runGetters e names ;;;
  parentsMap <- runSetters e names (update_callback shouldUpdateParents) updateType None ;;
  modify_entry e (set_changed false) ;;;
  ret parentsMap.

(** [parentUpdateType]. *)
Definition parentUpdateType (updateType : update_type) : update_type :=
  if negb (bool_decide (updateType = UPDATE_TYPE_DEFAULT)) then UPDATE_TYPE_LIVE
  else updateType.

(** The loop over [parentsMap].  [seen] is the one [Set] object all the
    calls of a propagation share: a call returns its final contents. *)
Fixpoint propagate (rec : eid -> gset eid -> State -> option (Res (gset eid)))
    (parents : list eid) (seen : gset eid) (s : State) : option (Res (gset eid)) :=
  match parents with
  | [] => Some (Ok seen s)
  | parentEntry :: rest =>
      match loaded parentEntry s with
      | Throw err s' => Some (Throw err s')
      | Ok _ s' =>
          match rec parentEntry seen s' with
          | None => None
          | Some (Throw err s'') => Some (Throw err s'')
          | Some (Ok seen' s'') => propagate rec rest seen' s''
          end
      end
  end.

(** The call [parentEntry.updateBindings(null, parentUpdateType, seen)] of
    the loop, given the function [upd] to call. *)
Definition call_parent
    (upd : eid -> names_arg -> update_type -> option (gset eid) -> State
           -> option (Res (option (gset eid))))
    (updateType : update_type) (parentEntry : eid) (seen : gset eid) (s : State)
    : option (Res (gset eid)) :=
  match upd parentEntry NamesNull (parentUpdateType updateType) (Some seen) s with
  | None => None
  | Some (Throw err s') => Some (Throw err s')
  | Some (Ok r s') => Some (Ok (default seen r) s')
  end.

(** [updateBindings].  The recursion is bounded by [fuel]; [None] means
    the bound was reached.  The result is the final value of the variable
    [seen]. *)
Fixpoint updateBindings (fuel : nat) (e : eid) (names : names_arg)
    (updateType : update_type) (seen : option (gset eid)) (s : State)
    : option (Res (option (gset eid))) :=
  match fuel with
  | 0 => None
  | S fuel' =>
      match (log (EvUpdateBindings e names updateType seen) ;;; get_entry e) s with
      | Throw err s' => Some (Throw err s')
      | Ok this s0 =>
          let shouldUpdateParents := shouldUpdateParents_of this updateType in
          if shouldUpdateParents && seen_has seen e then Some (Ok seen s0)
          else
            match updateBindings_passes e names updateType shouldUpdateParents s0 with
            | Throw err s' => Some (Throw err s')
            | Ok None s1 => Some (Ok seen s1)
            | Ok (Some parentsMap) s1 =>
                let seen' := default ∅ seen ∪ {[ e ]} in
                let s1 := with_trace (trace s1 ++ [EvSeenAdd e]) s1 in
                match propagate (call_parent (updateBindings fuel') updateType)
                                (in_order parentsMap) seen' s1 with
                | None => None
                | Some (Throw err s') => Some (Throw err s')
                | Some (Ok set s') => Some (Ok (Some set) s')
                end
            end
      end
  end.

(** ** [addSetter] *)

Definition seed_imported (name : key) (en : Entry) : Entry :=
  if assoc_has name (importedBindings en) then en
  else set_importedBindings (assoc_set name false (importedBindings en)) en.

(** A record of a setter list stands for the function object it was made
    from: [addSetter] stamps [last], [localNames], [parent] and [type] on
    the function it is given, and the list holds that function.  The
    tables of the model hold one record for each registration, so they
    cannot express one function shared by two places of the lists; the
    model leaves out the registration of a function that a list already
    holds. *)
Definition registers (fn : nat) (en : Entry) : bool :=
  existsb (fun kl => existsb (fun st => bool_decide (s_fn st = fn)) kl.2) (setters en).

Definition registered (fn : nat) (s : State) : bool :=
  existsb (fun xe => registers fn xe.2) (map_to_list (entries s)).

(** [fn] is the host function registered; [type] is its [type] property
    when it already has one. *)
Definition addSetter (e : eid) (name : key) (localNames : list key)
    (fn : nat) (type : option setter_type) (parentEntry : eid) : M unit :=
  s <- get_state ;;
  if registered fn s then throw (Unsupported "a setter function registered twice")
  else
    let setter := {| s_fn := fn; s_last := INITIAL_VALUE; s_localNames := localNames;
                     s_parent := parentEntry;
                     s_type := default SETTER_TYPE_STATIC_IMPORT type |} in
    modify_entry e (fun en =>
      if assoc_has name (setters en) then en
      else set_setters (assoc_set name [] (setters en)) en) ;;;
    modify_entry e (fun en =>
      set_setters (assoc_set name (setters_of name en ++ [setter]) (setters en)) en) ;;;
    get_entry parentEntry ;;;
    for_each localNames (fun name => modify_entry parentEntry (seed_imported name)).

(** ** The entry cache: [Entry.get], [Entry.set], [Entry.has] *)

Fixpoint vassoc {A} (v : value) (l : list (value * A)) : option A :=
  match l with
  | [] => None
  | (v', a) :: l' => if bool_decide (v = v') then Some a else vassoc v l'
  end.

Fixpoint vassoc_set {A} (v : value) (a : A) (l : list (value * A)) : list (value * A) :=
  match l with
  | [] => [(v, a)]
  | (v', a') :: l' =>
      if bool_decide (v = v') then (v, a) :: l' else (v', a') :: vassoc_set v a l'
  end.

Fixpoint vassoc_del {A} (v : value) (l : list (value * A)) : list (value * A) :=
  match l with
  | [] => []
  | (v', a') :: l' =>
      if bool_decide (v = v') then l' else (v', a') :: vassoc_del v l'
  end.

Definition Entry_set (mod_ : value) (entry : eid) : M unit :=
  fun s => if isObject mod_ s
           then Ok tt (with_cache (vassoc_set mod_ entry (cache s)) s)
           else Ok tt s.

Definition Entry_has (mod_ : value) (s : State) : bool :=
  match vassoc mod_ (cache s) with Some _ => true | None => false end.

(** The entry the constructor builds, once [mod.exports] and
    [Entry.get(mod.parent)] are known; [updateFilename(true)] gives [name]
    and [extname]. *)
Definition construct (mod_ : value) (exported : value) (parent : option eid)
    (modFilename : value) : Entry :=
  let raw := toRawModuleNamespaceObject in
  {| _changed := false;
     _completeMutableNamespace := raw;
     _completeNamespace := raw;
     _loaded := LOAD_INCOMPLETE;
     _namespace := raw;
     _namespaceFinalized := NAMESPACE_FINALIZATION_INCOMPLETE;
     _partialMutableNamespace := raw;
     _partialNamespace := raw;
     builtin := false;
     children := [];
     circular := false;
     exports := exported;
     extname := Some (if bool_decide (getModuleDirname mod_ = EmptyString) then EmptyString
                      else match modFilename with
                           | VStr f => path_extname f
                           | _ => EmptyString
                           end);
     getters := [];
     importedBindings := [];
     entry_module := mod_;
     entry_name := Some (getModuleName mod_);
     entry_namespace := NsRaw;
     entry_package := Package_from mod_;
     entry_parent := parent;
     runtimeName := runtimeNameOf mod_;
     setters := [(KStr "*", [])];
     entry_type := TypeDeferred (sourceIsModule mod_) |}.

Definition allocate (en : Entry) : M eid :=
  fun s => let e := fresh (dom (entries s)) in
           Ok e (with_entries (<[e := en]> (entries s)) s).

(** What the constructor reads of [mod] before it asks for the entry of
    [mod.parent]: [mod.exports], [mod.id] and [mod.parent]. *)
Definition constructor_reads (mod_ : value) : M (value * value) :=
  exported <- value_get mod_ (KStr "exports") ;;
  value_get mod_ (KStr "id") ;;;
  parent <- value_get mod_ (KStr "parent") ;;
  ret (exported, parent).

(** The rest of [new Entry(mod)], then [Entry.set(mod, entry)]. *)
Definition create_entry (mod_ exported : value) (parentEntry : option eid) : M (option eid) :=
  value_get mod_ (KStr "loaded") ;;;
  modFilename <- value_get mod_ (KStr "filename") ;;
  entry <- allocate (construct mod_ exported parentEntry modFilename) ;;
  Entry_set mod_ entry ;;;
  ret (Some entry).

(** [Entry.get] when the cache holds [entry] for [mod]: a completely
    loaded CJS entry is replaced by the bridged entry of its
    [module.exports], if there is one. *)
Definition cached_entry (mod_ : value) (entry : eid) : M (option eid) :=
  en <- get_entry entry ;;
  isCJS <- (if bool_decide (_loaded en = LOAD_COMPLETED)
            then type <- get_type entry ;; ret (bool_decide (type = TYPE_CJS))
            else ret false) ;;
  entry <- (if isCJS then
              en <- get_entry entry ;;
              exported <- value_get (entry_module en) (KStr "exports") ;;
              s <- get_state ;;
              match vassoc exported (bridged s) with
              | Some foundEntry =>
                  (fun s => Ok tt (with_bridged (vassoc_del exported (bridged s)) s)) ;;;
                  ret foundEntry
              | None => ret entry
              end
            else ret entry) ;;
  Entry_set mod_ entry ;;;
  ret (Some entry).

(** [Entry.get].  The constructor calls [Entry.get(mod.parent)], so the
    recursion follows the chain of parents; [fuel] bounds it. *)
Fixpoint Entry_get (fuel : nat) (mod_ : value) (s : State) : option (Res (option eid)) :=
  match fuel with
  | 0 => None
  | S fuel' =>
      if negb (isObject mod_ s) then Some (Ok None s)
      else
        match vassoc mod_ (cache s) with
        | None =>
            (* entry = new Entry(mod) *)
            match constructor_reads mod_ s with
            | Throw err s' => Some (Throw err s')
            | Ok (exported, parent) s1 =>
                match Entry_get fuel' parent s1 with
                | None => None
                | Some (Throw err s') => Some (Throw err s')
                | Some (Ok parentEntry s2) => Some (create_entry mod_ exported parentEntry s2)
                end
            end
        | Some entry => Some (cached_entry mod_ entry s)
        end
  end.

(** The chain of the parents of [mod] ends within [n] links: at a value
    that is not an object, at a module of the cache, or at a module whose
    reads throw. *)
Fixpoint parents_end (n : nat) (mod_ : value) (s : State) : bool :=
  negb (isObject mod_ s)
  || match vassoc mod_ (cache s) with Some _ => true | None => false end
  || match constructor_reads mod_ s with
     | Throw _ _ => true
     | Ok (_, parent) s1 =>
         match n with
         | 0 => false
         | S n' => parents_end n' parent s1
         end
     end.

(** ** The traps of the namespace proxies *)

(** The test [isCalledFromStrictCode] applies to a frame: it has a file
    name, outside the package, and is not native. *)
Definition is_caller_frame (fr : frame) : bool :=
  match getFileName fr with
  | Some filename =>
      negb (bool_decide (filename = EmptyString))
      && negb (isOwnPath filename) && negb (isNative fr)
  | None => false
  end.

Fixpoint isCalledFromStrictCode (frames : list frame) : bool :=
  match frames with
  | [] => false
  | fr :: rest =>
      if is_caller_frame fr then bool_decide (getFunction fr = None)
      else isCalledFromStrictCode rest
  end.

Definition finalized (en : Entry) : bool :=
  bool_decide (_namespaceFinalized en = NAMESPACE_FINALIZATION_COMPLETED).

(** [assignImmutableNamespaceHandlerTraps]: the traps of the proxy over
    the raw object of view [v] ([Complete] or [Partial]); [frames] is the
    call stack at the time of the call. *)
Definition immutable_defineProperty (frames : list frame) (e : eid) (v : view)
    (name : key) (descriptor : descriptor closure) : M bool :=
  en <- get_entry e ;;
  let namespace := raw_of (SlotView v) en in
  let reject : M bool :=
    if negb (isCalledFromStrictCode frames) then ret false
    else if has_property namespace name
         then throw (ERR_NS_REDEFINITION (entry_module en) name)
         else throw (ERR_NS_DEFINITION (entry_module en) name) in
  if finalized en
     && negb (bool_decide (d_writable descriptor = Some false)
              && bool_decide (d_value descriptor = None)
              && has_property namespace name)
  then
    match define_own namespace name descriptor with
    | Some o' =>
        ns_write e (SlotView v) o' ;;;
        ret (key_eqb name KToStringTag
             || assoc_has name (importedBindings en)
             || bool_decide (default VUndef (d_value descriptor) = VUndef))
    | None => reject
    end
  else reject.

Definition immutable_deleteProperty (frames : list frame) (e : eid) (v : view)
    (name : key) : M bool :=
  deleted <- delete_raw e (SlotView v) name ;;
  if deleted then ret true
  else if negb (isCalledFromStrictCode frames) then ret false
  else en <- get_entry e ;; throw (ERR_NS_DELETION (entry_module en) name).

Definition immutable_set (frames : list frame) (e : eid) (v : view) (name : key) : M bool :=
  if negb (isCalledFromStrictCode frames) then ret false
  else
    en <- get_entry e ;;
    if has_property (raw_of (SlotView v) en) name
    then throw (ERR_NS_ASSIGNMENT (entry_module en) name)
    else throw (ERR_NS_EXTENSION (entry_module en) name).

(** [assignCommonNamespaceHandlerTraps]: [get], [has] and
    [preventExtensions], shared by the four proxies. *)
Definition common_get (e : eid) (v : view) (name : key) : M value :=
  type <- get_type e ;;
  en <- get_entry e ;;
  let isESM := bool_decide (type = TYPE_ESM) in
  errored <- (if isESM && finalized en then
                match assoc name (getters en) with
                | None => ret true
                | Some g => x <- call_getter (g_fn g) ;; ret (bool_decide (x = ERROR_GETTER))
                end
              else ret (negb (finalized en))) ;;
  en <- get_entry e ;;
  if errored && key_is_string name && has_property (raw_of (SlotView v) en) name
  then throw (ERR_UNDEFINED_IDENTIFIER name)
  else if negb isESM && key_eqb name (KStr "default")
          && (bool_decide (v = PartialMutable) || bool_decide (v = Partial))
  then ret (exports en)
  else namespace_get e name.

Definition common_has (e : eid) (v : view) (name : key) : M bool :=
  en <- get_entry e ;;
  ret (key_eqb name KNamespaceSym || has_property (raw_of (SlotView v) en) name).

Definition common_preventExtensions (e : eid) (v : view) : M bool :=
  en <- get_entry e ;;
  if finalized en
  then ns_write e (SlotView v) (prevent_extensions (raw_of (SlotView v) en)) ;;; ret true
  else ret false.

(** ** [addGetters], [addSetters] *)

Definition addGetters (e : eid) (argsList : list (key * getter)) : M unit :=
  for_each argsList (fun a => addGetter e a.1 a.2).

(** An element of [argsList] is [[name, localNames, setter]]; the setter
    is the host function and the [type] it already has, if any. *)
Definition addSetters (e : eid)
    (argsList : list (key * list key * (nat * option setter_type)))
    (parentEntry : eid) : M unit :=
  for_each argsList (fun a => addSetter e a.1.1 a.1.2 a.2.1 a.2.2 parentEntry).

(** ** The traps of the mutable views: [defineProperty], [deleteProperty]

    [assignMutableNamespaceHandlerTraps].  The traps write to
    [entry.exports]; when the raw object of the view has the name, they
    register the getter [() => entry.namespace[name]] again and call
    [entry.updateBindings(name)]. *)

(** [SafeObject.defineProperty], that is [Object.defineProperty]: a
    definition the object refuses is a [TypeError]. *)
Definition Object_defineProperty (v : value) (k : key) (d : descriptor nat) : M unit :=
  ok <- Reflect_defineProperty v k d ;;
  if ok then ret tt else throw (TypeError "Cannot redefine property").

(** [Reflect.deleteProperty(v, k)] on a value. *)
Definition Reflect_deleteProperty (v : value) (k : key) : M bool :=
  match v with
  | VObj a =>
      o <- get_object a ;;
      match delete_own o k with
      | Some o' => put_object a o' ;;; ret true
      | None => ret false
      end
  | VExportsProxy _ | VNamespace _ _ | VEntry _
  | ERROR_GETTER | ERROR_STAR | INITIAL_VALUE =>
      throw (Unsupported "deletion through an exotic object")
  | _ => throw (TypeError "Reflect.deleteProperty called on non-object")
  end.

(** The argument [name] of [updateBindings(name)]: a string is wrapped in
    an array there; a symbol is, like [null], neither a string nor an
    array nor iterable. *)
Definition names_of_key (k : key) : names_arg :=
  match k with
  | KStr s => NamesString s
  | _ => NamesNull
  end.

(** What both traps do after their write, before they return [true]. *)
Definition republish (fuel : nat) (e : eid) (v : view) (name : key) (s : State)
    : option (Res bool) :=
  match get_entry e s with
  | Throw err s' => Some (Throw err s')
  | Ok en s0 =>
      if has_property (raw_of (SlotView v) en) name then
        match addGetter e name
                {| g_fn := GNamespaceGet e name; g_id := None; g_owner := None |} s0 with
        | Throw err s' => Some (Throw err s')
        | Ok _ s1 =>
            match updateBindings fuel e (names_of_key name) UPDATE_TYPE_DEFAULT None s1 with
            | None => None
            | Some (Throw err s') => Some (Throw err s')
            | Some (Ok _ s2) => Some (Ok true s2)
            end
        end
      else Some (Ok true s0)
  end.

Definition mutable_defineProperty (fuel : nat) (e : eid) (v : view) (name : key)
    (descriptor : descriptor nat) (s : State) : option (Res bool) :=
  match get_entry e s with
  | Throw err s' => Some (Throw err s')
  | Ok en s0 =>
      if negb (finalized en) then Some (Ok false s0)
      else
        match Object_defineProperty (exports en) name descriptor s0 with
        | Throw err s' => Some (Throw err s')
        | Ok _ s1 => republish fuel e v name s1
        end
  end.

Definition mutable_deleteProperty (fuel : nat) (e : eid) (v : view) (name : key)
    (s : State) : option (Res bool) :=
  match get_entry e s with
  | Throw err s' => Some (Throw err s')
  | Ok en s0 =>
      match Reflect_deleteProperty (exports en) name s0 with
      | Throw err s' => Some (Throw err s')
      | Ok true s1 => republish fuel e v name s1
      | Ok false s1 => Some (Ok false s1)
      end
  end.

(** ** Vocabulary of the specification *)

(** [m] relates every state it starts from to the state it ends in,
    whether it completes or throws. *)
Definition respects {A} (R : State -> State -> Prop) (m : M A) : Prop :=
  forall s, R s (final_state (m s)).

(** The flags of [importedBindings] only move from [false] to [true]. *)
Definition ib_le (a b : list (key * bool)) : Prop :=
  forall k x, assoc k a = Some x -> assoc k b = Some x \/ assoc k b = Some true.

(** The part of an entry that propagation never touches, apart from the
    flags of [importedBindings]. *)
Definition entry_core (en : Entry) :=
  (circular en, entry_name en, entry_module en, entry_package en, extname en,
   children en, builtin en, entry_parent en, runtimeName en).

Definition views_of (en : Entry) :=
  (_completeNamespace en, _completeMutableNamespace en,
   _partialNamespace en, _partialMutableNamespace en).

(** A type that has been read stays read, and stays declarative or not. *)
Definition type_kept (en en' : Entry) : Prop :=
  forall t, entry_type en = TypeValue t ->
  exists t', entry_type en' = TypeValue t' /\ (t' = TYPE_ESM <-> t = TYPE_ESM).

Record entry_rel (en en' : Entry) : Prop := {
  er_core : entry_core en' = entry_core en;
  er_imported : ib_le (importedBindings en) (importedBindings en');
  er_views : finalized en = true -> finalized en' = true /\ views_of en' = views_of en;
  er_type : type_kept en en'
}.

(** What the functions of the engine preserve of the entries and the
    caches. *)
Record state_rel (s s' : State) : Prop := {
  sr_dom : dom (entries s') = dom (entries s);
  sr_entries : forall e en, entries s !! e = Some en ->
               exists en', entries s' !! e = Some en' /\ entry_rel en en';
  sr_cache : cache s' = cache s;
  sr_bridged : bridged s' = bridged s
}.

(** The records a trace says were added to [seen]. *)
Definition adds (t : list event) : list eid :=
  omap (fun ev => match ev with EvSeenAdd e => Some e | _ => None end) t.

(** What every function below [updateBindings] preserves.  A [quiet]
    function leaves the trace alone; the others extend it, with no addition
    to [seen]. *)
Record frame_rel (quiet : bool) (s s' : State) : Prop := {
  fr_state : state_rel s s';
  fr_trace : if quiet then trace s' = trace s
             else exists t, trace s' = trace s ++ t /\ adds t = []
}.

(** The frame of the functions that work on the single entry [e]: they
    keep the core and the flags of every entry, and leave the other
    entries as [entry_rel] wants them. *)
Record frame_at (e : eid) (s s' : State) : Prop := {
  fa_dom : dom (entries s') = dom (entries s);
  fa_entries : forall e' en, entries s !! e' = Some en ->
               exists en', entries s' !! e' = Some en'
                           /\ entry_core en' = entry_core en
                           /\ ib_le (importedBindings en) (importedBindings en')
                           /\ type_kept en en'
                           /\ (e' <> e -> entry_rel en en');
  fa_cache : cache s' = cache s;
  fa_bridged : bridged s' = bridged s;
  fa_trace : trace s' = trace s
}.

(** A relation on states that the reads and writes of host objects and the
    host's own steps respect. *)
Class HeapFrame (R : State -> State -> Prop) : Prop := {
  hf_preorder :: PreOrder R;
  hf_host : forall u s, R s (with_host u s);
  hf_heap : forall h s, R s (with_heap h s)
}.
(** [m] can only complete with a result that satisfies [Q]. *)
Definition returns {A} (Q : A -> Prop) (m : M A) : Prop :=
  forall s a s', m s = Ok a s' -> Q a.

Definition seen_set (seen : option (gset eid)) : gset eid := default ∅ seen.

(** What a call of [updateBindings] with the set [seen] guarantees of its
    outcome [r] from state [s]: the records it adds to the set are added
    once, were not in it, and make up the final set. *)
Record tree_rel (seen : gset eid) (s : State) (r : Res (option (gset eid))) : Prop := {
  tr_state : state_rel s (final_state r);
  tr_trace : exists t, trace (final_state r) = trace s ++ t
                       /\ NoDup (adds t)
                       /\ (forall x, x ∈ adds t -> x ∉ seen)
                       /\ (forall out s', r = Ok out s' ->
                            seen_set out = seen ∪ list_to_set (adds t))
}.
(** The flags present in [importedBindings] keep their value. *)
Definition flags_kept (s s' : State) : Prop :=
  forall p en, entries s !! p = Some en ->
  exists en', entries s' !! p = Some en'
              /\ forall k b, assoc k (importedBindings en) = Some b ->
                             assoc k (importedBindings en') = Some b.
(** What export resolution leaves alone: the tables of getters and
    setters, and what [entry_rel] keeps. *)
Definition tables_kept (s s' : State) : Prop :=
  trace s' = trace s
  /\ forall e en, entries s !! e = Some en ->
     exists en', entries s' !! e = Some en'
                 /\ setters en' = setters en
                 /\ getters en' = getters en
                 /\ _loaded en' = _loaded en
                 /\ _changed en' = _changed en
                 /\ entry_rel en en'.
(** The condition under which the setter pass calls a setter, as
    [runSetter] computes it from the resolved [value]. *)
Definition setter_changed (st : setter) (v : value) : bool :=
  negb (bool_decide (s_type st = SETTER_TYPE_DYNAMIC_IMPORT))
  && negb (Object_is (s_last st) v).

Definition setter_due (st : setter) (v : value) (updateType : update_type)
    (isLoaded isNsChanged : bool) : bool :=
  setter_changed st v
  || isLoaded && bool_decide (s_type st = SETTER_TYPE_DYNAMIC_IMPORT)
  || bool_decide (s_type st = SETTER_TYPE_EXPORT_FROM)
  || isNsChanged && bool_decide (s_type st = SETTER_TYPE_NAMESPACE)
  || bool_decide (updateType = UPDATE_TYPE_INIT).

(** The value a setter is called with. *)
Definition setterValue (v : value) : value :=
  if bool_decide (v = ERROR_GETTER) then VUndef else v.
(** A raw object is sealed: not extensible, no configurable property. *)
Definition sealedb (o : nsobj) : bool :=
  negb (o_extensible o) && forallb (fun kp => negb (prop_configurable kp.2)) (o_props o).

(** The own property keys of a raw object, in order. *)
Definition own_names (o : nsobj) : list key := map fst (o_props o).

(** What the steps of a finalization of [e] keep of [e]: the finalization
    state, and, for [complete = true], the raw object of the full read-only
    view. *)
Definition fin_kept (complete : bool) (e : eid) (s s' : State) : Prop :=
  forall en, entries s !! e = Some en ->
  exists en', entries s' !! e = Some en'
              /\ _namespaceFinalized en' = _namespaceFinalized en
              /\ (complete = true -> _completeNamespace en' = _completeNamespace en).
(** What an operation on view [v] of the record [e], which was [en], keeps
    in the state [s']: the finalization state, the raw objects of the other
    views, and, when the raw object of [v] was sealed, its keys and its
    seal. *)
Definition view_kept (e : eid) (v : view) (en : Entry) (s' : State) : Prop :=
  exists en', entries s' !! e = Some en'
    /\ finalized en' = finalized en
    /\ (forall v', v' <> v -> raw_of (SlotView v') en' = raw_of (SlotView v') en)
    /\ (sealedb (raw_of (SlotView v) en) = true ->
        own_names (raw_of (SlotView v) en') = own_names (raw_of (SlotView v) en)
        /\ sealedb (raw_of (SlotView v) en') = true).
(** The heap of host objects is left as it is. *)
Definition heap_kept (s s' : State) : Prop := heap s' = heap s.
(** The raw object has data properties only, its own and the inherited
    ones. *)
Definition is_data (p : prop closure) : bool :=
  match p with PData _ _ _ _ => true | PAccessor _ _ _ _ => false end.

Definition data_only (o : nsobj) : bool :=
  forallb (fun kp => is_data kp.2) (o_props o)
  && forallb (forallb (fun kp : key * prop closure => is_data kp.2)) (o_chain o).

Definition data_views (en : Entry) : bool :=
  data_only (_completeNamespace en) && data_only (_completeMutableNamespace en)
  && data_only (_partialNamespace en) && data_only (_partialMutableNamespace en).

(** As long as the raw objects of the views of [e] hold data properties
    only, the heap is left as it is and they go on holding data properties
    only. *)
Definition plain_kept (e : eid) (s s' : State) : Prop :=
  (forall en, entries s !! e = Some en -> data_views en = true) ->
  heap s' = heap s /\ (forall en', entries s' !! e = Some en' -> data_views en' = true).

(** What the steps of [loaded] before its two branches keep. *)
Definition loading_kept (s s' : State) : Prop :=
  heap s' = heap s
  /\ forall e en, entries s !! e = Some en ->
     exists en', entries s' !! e = Some en'
       /\ exports en' = exports en /\ getters en' = getters en
       /\ entry_core en' = entry_core en /\ views_of en' = views_of en
       /\ forall t, entry_type en = TypeValue t -> entry_type en' = TypeValue t.

(** The host object has the own data property [k]. *)
Definition has_data_property (o : obj nat) (k : key) : bool :=
  match get_own o k with Some (PData _ _ _ _) => true | _ => false end.
(** Every record is still there and is related by [P] to what it was. *)
Definition entries_kept (P : Entry -> Entry -> Prop) (s s' : State) : Prop :=
  forall e en, entries s !! e = Some en -> exists en', entries s' !! e = Some en' /\ P en en'.
(** Two records agree on the field [f]. *)
Definition same_field {A} (f : Entry -> A) (en en' : Entry) : Prop := f en' = f en.

Definition getters_and_setters (en : Entry) := (getters en, setters en).
(** The setter [addSetters] registers for an element of its list. *)
Definition setter_of_args (p : eid) (a : key * list key * (nat * option setter_type))
    : setter :=
  {| s_fn := a.2.1; s_last := INITIAL_VALUE; s_localNames := a.1.2; s_parent := p;
     s_type := default SETTER_TYPE_STATIC_IMPORT a.2.2 |}.
(** The entry cache and the bridged map are the same, the same records
    exist, and each has the same module, package, names, children and
    parent. *)
Definition records_kept (s s' : State) : Prop :=
  cache s' = cache s /\ bridged s' = bridged s
  /\ dom (entries s') = dom (entries s)
  /\ forall x en, entries s !! x = Some en ->
     exists en', entries s' !! x = Some en' /\ entry_core en' = entry_core en.
(** Every getter of the first record is a getter of the second, under the
    same name. *)
Definition getters_le (en en' : Entry) : Prop :=
  forall k g, assoc k (getters en) = Some g -> assoc k (getters en') = Some g.
(** The raw object accepts a definition of [k] that changes anything: the
    key is absent and the object extensible, or the property is
    configurable. *)
Definition definable (o : nsobj) (k : key) : bool :=
  match get_own o k with
  | None => o_extensible o
  | Some p => prop_configurable p
  end.
(** A raw object as [finalizeNamespace] expects to find the full views:
    extensible, without prototype and without string key. *)
Definition fresh_view (o : nsobj) : bool :=
  o_extensible o
  && match o_chain o with [] => true | _ => false end
  && forallb (fun kp => negb (key_is_string kp.1)) (o_props o).

(** The raw object with the names added, each as a writable slot that
    holds the initial value. *)
Definition with_slots (o : nsobj) (l : list string) : nsobj :=
  with_props o (o_props o ++ map (fun n => (KStr n, PData INITIAL_VALUE true true true)) l).
(** No record's [_changed] goes from false to true. *)
Definition unchanged_kept (s s' : State) : Prop :=
  forall x en, entries s !! x = Some en ->
  exists en', entries s' !! x = Some en' /\ (_changed en = false -> _changed en' = false).

(** Every record other than [e] keeps its [_changed]. *)
Definition changed_kept_but (e : eid) (s s' : State) : Prop :=
  forall x en, entries s !! x = Some en ->
  exists en', entries s' !! x = Some en' /\ (x <> e -> _changed en' = _changed en).
(** Host function [h] returns [v] whatever its arguments and the host
    store, and leaves the store as it is. *)
Definition const_getter (h : nat) (v : value) : Prop :=
  forall args u, host_call h args u = (Some v, u).

(** The export [name] of a declarative record whose getter is such a
    function: whatever else changes, the name resolves to [v] as long as
    the record keeps its type and the getter. *)
Definition constant_export (en : Entry) (name : key) (v : value) : Prop :=
  entry_type en = TypeValue TYPE_ESM /\ name <> KStr "*"
  /\ exists g h, assoc name (getters en) = Some g /\ g_fn g = GHost h /\ const_getter h v.

(** The state after [n] successive runs of [m], however each of them
    ends. *)
Fixpoint after_runs {A} (n : nat) (m : M A) (s : State) : State :=
  match n with
  | 0 => s
  | S n' => final_state (m (after_runs n' m s))
  end.
(** The functions the setter lists of the state hold, list after list.
    In a state where none occurs twice, the records of the lists and the
    function objects of the source correspond one to one, so that the
    [last] of a record is the [last] property of its function. *)
Definition registrations (s : State) : list nat :=
  flat_map (fun xe => flat_map (fun kl => map s_fn kl.2) (setters xe.2))
           (map_to_list (entries s)).

Definition unshared (s : State) : Prop := NoDup (registrations s).

(** Every static-import setter registered for [name] has [v] as the last
    value it observed. *)
Definition observed (en : Entry) (name : key) (v : value) : Prop :=
  forall st, st ∈ setters_of name en ->
  s_type st = SETTER_TYPE_STATIC_IMPORT -> s_last st = v.

(** The list [l] holds the function of [st'], with the kind of [st']. *)
Definition setter_in (l : list setter) (st' : setter) : Prop :=
  exists st, st ∈ l /\ s_fn st = s_fn st' /\ s_type st = s_type st'.

(** Every call of a setter of [e.setters[name]] that the trace [t] records
    is the call of a function the list [l] holds with a kind other than
    static import. *)
Definition calls_no_static (e : eid) (name : key) (l : list setter) (t : list event) : Prop :=
  forall fn w, EvSetter e name fn w ∈ t ->
  exists st, st ∈ l /\ s_fn st = fn /\ s_type st <> SETTER_TYPE_STATIC_IMPORT.

(** The setter pass of a call [updateBindings(names, ...)] on the record
    [en] goes over [name]. *)
Definition processes (names : names_arg) (en : Entry) (name : key) : Prop :=
  match normalize_names names with
  | NamesArray l => name ∈ l
  | _ => name ∈ map KStr (for_in (setters en))
  end.

(** What the engine keeps of the constant export [name] of [e]: the record
    stays, the export stays constant, the list of its setters only loses
    elements or sees their last values refreshed, static-import setters
    that have observed the value go on having observed it, and the trace
    is extended; for [quiet = true], once they have observed the value,
    no static-import setter of the list is called. *)
Definition steady_rel (quiet : bool) (e : eid) (name : key) (v : value)
    (s s' : State) : Prop :=
  forall en, entries s !! e = Some en -> constant_export en name v ->
  exists en', entries s' !! e = Some en' /\ constant_export en' name v
    /\ (forall st', st' ∈ setters_of name en' -> setter_in (setters_of name en) st')
    /\ (observed en name v -> observed en' name v)
    /\ exists t, trace s' = trace s ++ t
         /\ (quiet = true -> observed en name v ->
             calls_no_static e name (setters_of name en) t).

(** The views that export resolution hands out for a record: a partial
    view only once the type of the record has been read and is not the
    declarative one. *)
Definition handed_out (en : Entry) (v : view) : Prop :=
  v = Partial \/ v = PartialMutable ->
  exists t, entry_type en = TypeValue t /\ t <> TYPE_ESM.

(** A record as a finalization that completed leaves it. *)
Definition settled (en : Entry) : Prop :=
  finalized en = true
  /\ sealedb (_completeNamespace en) = true
  /\ (entry_type en = TypeValue TYPE_ESM \/ sealedb (_partialNamespace en) = true).

(** One operation of the engine, on any record, or one trap of a view that
    has been handed out; the state is the one the operation ends in,
    whether it returns or throws. *)
Inductive engine_step (s : State) : State -> Prop :=
| step_updateBindings fuel e names ut seen r :
    updateBindings fuel e names ut seen s = Some r -> engine_step s (final_state r)
| step_loaded e : engine_step s (final_state (loaded e s))
| step_finalizeNamespace e : engine_step s (final_state (finalizeNamespace e s))
| step_addGetter e name g : engine_step s (final_state (addGetter e name g s))
| step_addGetters e argsList : engine_step s (final_state (addGetters e argsList s))
| step_addSetter e name localNames fn type p :
    engine_step s (final_state (addSetter e name localNames fn type p s))
| step_addSetters e argsList p : engine_step s (final_state (addSetters e argsList p s))
| step_assignExportsToNamespace e names :
    engine_step s (final_state (assignExportsToNamespace e names s))
| step_getExportByName e name p : engine_step s (final_state (getExportByName e name p s))
| step_getExportByNameFast e name p :
    engine_step s (final_state (getExportByNameFast e name p s))
| step_Entry_get fuel m r : Entry_get fuel m s = Some r -> engine_step s (final_state r)
| step_Entry_set m e : engine_step s (final_state (Entry_set m e s))
| step_immutable_defineProperty frames e v name d en :
    entries s !! e = Some en -> v = Complete \/ v = Partial -> handed_out en v ->
    engine_step s (final_state (immutable_defineProperty frames e v name d s))
| step_immutable_deleteProperty frames e v name en :
    entries s !! e = Some en -> v = Complete \/ v = Partial -> handed_out en v ->
    engine_step s (final_state (immutable_deleteProperty frames e v name s))
| step_immutable_set frames e v name en :
    entries s !! e = Some en -> v = Complete \/ v = Partial -> handed_out en v ->
    engine_step s (final_state (immutable_set frames e v name s))
| step_common_get e v name : engine_step s (final_state (common_get e v name s))
| step_common_preventExtensions e v :
    engine_step s (final_state (common_preventExtensions e v s))
| step_mutable_defineProperty fuel e v name d r :
    mutable_defineProperty fuel e v name d s = Some r -> engine_step s (final_state r)
| step_mutable_deleteProperty fuel e v name r :
    mutable_deleteProperty fuel e v name s = Some r -> engine_step s (final_state r).
(** A function that no list holds is still held by none after the
    registration of another function. *)
Definition unregistered_kept (fn : nat) (s s' : State) : Prop :=
  registered fn s = false -> registered fn s' = false.

(** The record [e], which was the settled record [en], is settled in
    [s'] and its views have the keys they had. *)
Definition keys_kept (e : eid) (en : Entry) (s' : State) : Prop :=
  exists en', entries s' !! e = Some en' /\ settled en'
    /\ forall v, own_names (raw_of (SlotView v) en') = own_names (raw_of (SlotView v) en).

End Engine.

Arguments Ok {H A}.
Arguments Throw {H A}.

(** ** Concrete module graphs

    The host of the examples has no store of its own: host functions below
    20 are getters that return the number 1, function 30 is a getter that
    returns [ERROR_STAR], function 31 a getter that returns 5, and the
    others are setters that return [undefined]. *)

Definition example_host : Host :=
  {| U := unit;
     host_call := fun h _ u =>
       if (h <? 20)%nat then (Some (VNum 1), u)
       else if (h =? 30)%nat then (Some ERROR_STAR, u)
       else if (h =? 31)%nat then (Some (VNum 5), u)
       else (Some VUndef, u) |}.

Definition example_raw : nsobj :=
  {| o_props := [(KToStringTag, PData (VStr "Module") false false false)];
     o_extensible := true; o_callable := false; o_chain := [] |}.

Definition example_ext : Externals :=
  {| Package_from := fun _ =>
       {| cjs_interop := true; cjs_mutableNamespace := false; cjs_namedExports := false |};
     getModuleDirname := fun _ => "/app";
     getModuleName := fun _ => "/app/m.js";
     path_extname := fun _ => ".js";
     toRawModuleNamespaceObject := example_raw;
     sourceIsModule := fun _ => true;
     runtimeNameOf := fun _ => "_r";
     isOwnPath := fun f => bool_decide (f = "/esm/loader.js") |}.

(** A loaded and finalized declarative record. *)
Definition example_entry (name : string) (circ : bool)
    (gs : list (key * getter)) (ss : list (key * list setter)) : Entry :=
  {| _changed := false;
     _completeMutableNamespace := example_raw;
     _completeNamespace := seal example_raw;
     _loaded := LOAD_COMPLETED;
     _namespace := example_raw;
     _namespaceFinalized := NAMESPACE_FINALIZATION_COMPLETED;
     _partialMutableNamespace := example_raw;
     _partialNamespace := example_raw;
     builtin := false;
     children := [];
     circular := circ;
     exports := VUndef;
     extname := Some ".js";
     getters := gs;
     importedBindings := [];
     entry_module := VObj 0;
     entry_name := Some name;
     entry_namespace := NsRaw;
     entry_package :=
       {| cjs_interop := true; cjs_mutableNamespace := false; cjs_namedExports := false |};
     entry_parent := None;
     runtimeName := "_r";
     setters := (KStr "*", []) :: ss;
     entry_type := TypeValue TYPE_ESM |}.

Definition host_getter (h : nat) : getter :=
  {| g_fn := GHost h; g_id := None; g_owner := None |}.

Definition example_setter (fn : nat) (ty : setter_type) (parent : eid) : setter :=
  {| s_fn := fn; s_last := INITIAL_VALUE; s_localNames := [KStr "x"];
     s_parent := parent; s_type := ty |}.

Definition example_state (es : list (eid * Entry)) : @State example_host :=
  @Build_State example_host ∅ (list_to_map es) [] [] tt [].

(** A diamond: records 2 and 3 import [x] from 1, record 4 imports from
    both. *)
Definition diamond : @State example_host :=
  example_state
    [(1, example_entry "a" false [(KStr "x", host_getter 10)]
           [(KStr "x", [example_setter 20 SETTER_TYPE_STATIC_IMPORT 2;
                        example_setter 21 SETTER_TYPE_STATIC_IMPORT 3])]);
     (2, example_entry "b" false [(KStr "x", host_getter 11)]
           [(KStr "x", [example_setter 22 SETTER_TYPE_STATIC_IMPORT 4])]);
     (3, example_entry "c" false [(KStr "x", host_getter 12)]
           [(KStr "x", [example_setter 23 SETTER_TYPE_STATIC_IMPORT 4])]);
     (4, example_entry "d" false [] [])].

(** A circular record 1 whose export [x] record 2 imports. *)
Definition circular_pair : @State example_host :=
  example_state
    [(1, example_entry "a" true [(KStr "x", host_getter 10)]
           [(KStr "x", [example_setter 20 SETTER_TYPE_STATIC_IMPORT 2])]);
     (2, example_entry "b" true [] [])].

(** Record 1 exports [x] to record 2 through a static-import setter. *)
Definition static_exporter : Entry :=
  example_entry "a" false [(KStr "x", host_getter 10)]
    [(KStr "x", [example_setter 20 SETTER_TYPE_STATIC_IMPORT 2])].

Definition static_pair : @State example_host :=
  example_state [(1, static_exporter); (2, example_entry "b" false [] [])].

(** Record 1 re-exports [x] to record 2 through an export-from setter. *)
Definition export_from_pair : @State example_host :=
  example_state
    [(1, example_entry "a" false [(KStr "x", host_getter 10)]
           [(KStr "x", [example_setter 20 SETTER_TYPE_EXPORT_FROM 2])]);
     (2, example_entry "b" false [] [])].

(** Record 1 exports a name [foo] whose getter yields the conflict
    sentinel; records 2 and 3 import it. *)
Definition conflict_exporter : Entry :=
  example_entry "a" false [(KStr "foo", host_getter 30)]
    [(KStr "foo", [example_setter 20 SETTER_TYPE_STATIC_IMPORT 2;
                   example_setter 21 SETTER_TYPE_STATIC_IMPORT 3])].

Definition conflict_graph : @State example_host :=
  example_state
    [(1, conflict_exporter);
     (2, example_entry "b" false [] []);
     (3, example_entry "c" false [] [])].

(** Record 2 has received its import [x]. *)
Definition importer_with_flag : Entry :=
  set_importedBindings [(KStr "x", true)] (example_entry "b" false [] []).

Definition imported_graph : @State example_host :=
  example_state
    [(1, example_entry "a" false [(KStr "x", host_getter 10)]
           [(KStr "x", [example_setter 20 SETTER_TYPE_STATIC_IMPORT 2])]);
     (2, importer_with_flag)].

(** An importer with the given extension and [cjs.namedExports] setting. *)
Definition example_importer (name ext : string) (namedExports : bool) : Entry :=
  {| _changed := false;
     _completeMutableNamespace := example_raw;
     _completeNamespace := seal example_raw;
     _loaded := LOAD_COMPLETED;
     _namespace := example_raw;
     _namespaceFinalized := NAMESPACE_FINALIZATION_COMPLETED;
     _partialMutableNamespace := example_raw;
     _partialNamespace := example_raw;
     builtin := false;
     children := [];
     circular := false;
     exports := VUndef;
     extname := Some ext;
     getters := [];
     importedBindings := [];
     entry_module := VObj 0;
     entry_name := Some name;
     entry_namespace := NsRaw;
     entry_package :=
       {| cjs_interop := true; cjs_mutableNamespace := false;
          cjs_namedExports := namedExports |};
     entry_parent := None;
     runtimeName := "_r";
     setters := [(KStr "*", [])];
     entry_type := TypeValue TYPE_ESM |}.

(** An exporter of the given type whose exported value is the object 7 and
    whose getter for [default] returns 5. *)
Definition example_exporter (ty : module_type) : Entry :=
  set_exports (VObj 7)
    (set_entry_type (TypeValue ty)
       (example_entry "a" false [(KStr "default", host_getter 31)] [])).

(** Record 1 is a dynamic-object module and record 2 an [.mjs] importer
    whose configuration has named exports on; record 3 is a binary module
    and record 4 an importer with named exports off. *)
Definition resolution_graph : @State example_host :=
  example_state
    [(1, example_exporter TYPE_CJS);
     (2, example_importer "i" ".mjs" true);
     (3, example_exporter TYPE_WASM);
     (4, example_importer "j" ".js" false)].

Definition result_value {H : Host} {A} (r : Res A) : option A :=
  match r with
  | Ok a _ => Some a
  | Throw _ _ => None
  end.

(** A finalized record whose full read-only view holds the export [x]
    the way [finalizeNamespace] leaves it: a writable data property that
    [Object.seal] made not configurable. *)
Definition sealed_view : nsobj :=
  seal (with_props example_raw
          (o_props example_raw ++ [(KStr "x", PData INITIAL_VALUE true true true)])).

Definition sealed_entry : Entry :=
  set_completeNamespace sealed_view (example_entry "n" false [(KStr "x", host_getter 1)] []).

Definition sealed_graph : @State example_host := example_state [(1, sealed_entry)].

(** Call stacks: a frame of the loader itself, then the caller, whose code
    is strict ([getFunction] gives [undefined]) or sloppy. *)
Definition loader_frame : frame :=
  {| getFileName := Some "/esm/loader.js"; isNative := false; getFunction := Some 0 |}.

Definition strict_frames : list frame :=
  [loader_frame;
   {| getFileName := Some "/app/user.mjs"; isNative := false; getFunction := None |}].

Definition sloppy_frames : list frame :=
  [loader_frame;
   {| getFileName := Some "/app/user.js"; isNative := false; getFunction := Some 1 |}].

(** The descriptor [{ value: v }]. *)
Definition value_descriptor (v : value) : descriptor closure :=
  {| d_value := Some v; d_writable := None; d_get := None; d_set := None;
     d_enumerable := None; d_configurable := None |}.

(** A declarative record before its finalization, with the export [x] on
    [_namespace]. *)
Definition unfinalized_entry : Entry :=
  set_namespaceFinalized NAMESPACE_FINALIZATION_INCOMPLETE
    (set_completeNamespace example_raw
       (set_namespace
          (with_props example_raw
             (o_props example_raw ++ [(KStr "x", PData (VNum 1) true true true)]))
          (example_entry "n" false [(KStr "x", host_getter 1)] []))).

Definition unfinalized_graph : @State example_host := example_state [(1, unfinalized_entry)].

(** Host objects with the given data properties. *)
Definition example_object (ps : list (string * value)) : obj nat :=
  {| o_props := map (fun kv => (KStr kv.1, PData kv.2 true true true)) ps;
     o_extensible := true; o_callable := false; o_chain := [] |}.

(** A main module, object 10, that no entry manages yet. *)
Definition module_graph : @State example_host :=
  @Build_State example_host
    {[ 10%nat := example_object
                   [("exports", VObj 11); ("id", VStr "."); ("parent", VUndef);
                    ("loaded", VBool false); ("filename", VStr "/app/m.js")] ]}
    ∅ [] [] tt [].

(** A completely loaded CJS record that manages the module [m]. *)
Definition loaded_cjs_entry (m : value) : Entry :=
  {| _changed := false;
     _completeMutableNamespace := example_raw;
     _completeNamespace := seal example_raw;
     _loaded := LOAD_COMPLETED;
     _namespace := example_raw;
     _namespaceFinalized := NAMESPACE_FINALIZATION_COMPLETED;
     _partialMutableNamespace := example_raw;
     _partialNamespace := seal example_raw;
     builtin := false;
     children := [];
     circular := false;
     exports := VUndef;
     extname := Some ".js";
     getters := [];
     importedBindings := [];
     entry_module := m;
     entry_name := Some "c";
     entry_namespace := NsTypeProxy;
     entry_package :=
       {| cjs_interop := true; cjs_mutableNamespace := false; cjs_namedExports := false |};
     entry_parent := None;
     runtimeName := "_r";
     setters := [(KStr "*", [])];
     entry_type := TypeValue TYPE_CJS |}.

(** The cache holds record 1 for the module 10; the exported value of that
    module is bridged to record 2, and the exported value of the module of
    record 2 is bridged to record 3. *)
Definition bridged_graph : @State example_host :=
  @Build_State example_host
    {[ 10%nat := example_object [("exports", VObj 11)];
       20%nat := example_object [("exports", VObj 21)] ]}
    (list_to_map [(1%nat, loaded_cjs_entry (VObj 10));
                  (2%nat, loaded_cjs_entry (VObj 20));
                  (3%nat, loaded_cjs_entry (VObj 30))])
    [(VObj 10, 1%nat)]
    [(VObj 11, 2%nat); (VObj 21, 3%nat)]
    tt [].

(** A module object that is its own parent. *)
Definition cyclic_graph : @State example_host :=
  @Build_State example_host
    {[ 40%nat := example_object
                   [("exports", VObj 41); ("id", VNum 1); ("parent", VObj 40);
                    ("loaded", VBool false); ("filename", VStr "/app/c.js")] ]}
    ∅ [] [] tt [].

(** A module object 0, loaded, whose exported value is the object 51 with
    the single key [default], of value 7; and the record of type [ty] that
    manages it before [loaded] has run: not loaded, not finalized, with a
    getter for [default]. *)
Definition module_object : obj nat :=
  example_object [("exports", VObj 51); ("loaded", VBool true)].

Definition exports_object : obj nat := example_object [("default", VNum 7)].

Definition unloaded_entry (ty : module_type) : Entry :=
  set_loaded LOAD_INCOMPLETE
    (set_namespaceFinalized NAMESPACE_FINALIZATION_INCOMPLETE
       (set_completeNamespace example_raw
          (set_exports (VObj 51)
             (set_entry_type (TypeValue ty)
                (example_entry "m" false [(KStr "default", host_getter 31)] []))))).

Definition unloaded_graph (ty : module_type) : @State example_host :=
  @Build_State example_host
    {[ 0%nat := module_object; 51%nat := exports_object ]}
    {[ 1%nat := unloaded_entry ty ]} [] [] tt [].

(** The records whose passes a trace says have run, and the calls of
    [updateBindings] it records. *)
Definition bodies (t : list event) : list eid :=
  omap (fun ev => match ev with EvBody e => Some e | _ => None end) t.

Definition calls (t : list event) : list (eid * names_arg * update_type) :=
  omap (fun ev => match ev with
                  | EvUpdateBindings e names ut _ => Some (e, names, ut)
                  | _ => None
                  end) t.

Definition fired (t : list event) : list (eid * key * nat * value) :=
  omap (fun ev => match ev with
                  | EvSetter e name fn v => Some (e, name, fn, v)
                  | _ => None
                  end) t.

(** The state an outcome ends in ([d] when the fuel ran out), its trace,
    and the error it threw. *)
Definition outcome_state {H : Host} {A} (o : option (Res A)) (d : State) : State :=
  match o with
  | Some r => final_state r
  | None => d
  end.

Definition outcome_trace {H : Host} {A} (o : option (Res A)) : list event :=
  match o with
  | Some r => trace (final_state r)
  | None => []
  end.

Definition outcome_error {H : Host} {A} (o : option (Res A)) : option error :=
  match o with
  | Some (Throw err _) => Some err
  | _ => None
  end.

(** ** Proofs *)

Section Proofs.
Context {H : Host} {ext : Externals}.

Lemma ib_le_refl a : ib_le a a.
Proof. intros k x Hk. auto. Qed.

Lemma ib_le_trans a b c : ib_le a b -> ib_le b c -> ib_le a c.
Proof.
  intros Hab Hbc k x Hk.
  destruct (Hab k x Hk) as [Hb | Hb]; destruct (Hbc _ _ Hb) as [Hc | Hc]; auto.
Qed.

Lemma type_kept_refl en : type_kept en en.
Proof. intros t Ht. eauto. Qed.

Lemma type_kept_trans a b c : type_kept a b -> type_kept b c -> type_kept a c.
Proof.
  intros Hab Hbc t Ht. destruct (Hab _ Ht) as (t1 & Ht1 & E1).
  destruct (Hbc _ Ht1) as (t2 & Ht2 & E2). exists t2. split; [done |]. by rewrite E2.
Qed.

Lemma type_kept_same en en' : entry_type en' = entry_type en -> type_kept en en'.
Proof. intros Ht t Hen. exists t. by rewrite Ht. Qed.

Lemma entry_rel_refl en : entry_rel en en.
Proof. split; auto using ib_le_refl, type_kept_refl. Qed.

Lemma entry_rel_trans a b c : entry_rel a b -> entry_rel b c -> entry_rel a c.
Proof.
  intros [c1 i1 v1 t1] [c2 i2 v2 t2]. split.
  - congruence.
  - eauto using ib_le_trans.
  - intros Hf. destruct (v1 Hf) as [Hf1 Hv1]. destruct (v2 Hf1) as [Hf2 Hv2].
    split; congruence.
  - eauto using type_kept_trans.
Qed.

(** An update that leaves the core, the flags, the finalization state and
    the views alone. *)
Lemma entry_rel_same en en' :
  entry_core en' = entry_core en ->
  importedBindings en' = importedBindings en ->
  _namespaceFinalized en' = _namespaceFinalized en ->
  views_of en' = views_of en ->
  type_kept en en' ->
  entry_rel en en'.
Proof.
  intros Hc Hi Hf Hv Ht. split; auto.
  - rewrite Hi. apply ib_le_refl.
  - unfold finalized. rewrite Hf. auto.
Qed.

#[local] Instance state_rel_preorder : PreOrder state_rel.
Proof.
  split.
  - intros s. split; auto. intros e en He. eauto using entry_rel_refl.
  - intros a b c [d1 e1 c1 b1] [d2 e2 c2 b2]. split; try congruence.
    intros e en He. destruct (e1 _ _ He) as (en1 & He1 & R1).
    destruct (e2 _ _ He1) as (en2 & He2 & R2). eauto using entry_rel_trans.
Qed.

Lemma adds_app t1 t2 : adds (t1 ++ t2) = adds t1 ++ adds t2.
Proof. unfold adds. apply omap_app. Qed.

#[local] Instance frame_rel_preorder q : PreOrder (frame_rel q).
Proof.
  split.
  - intros s. split; [reflexivity |].
    destruct q; [reflexivity | exists []; by rewrite app_nil_r].
  - intros a b c [r1 t1] [r2 t2]. split; [by etransitivity |].
    destruct q; [congruence |].
    destruct t1 as (x1 & E1 & A1). destruct t2 as (x2 & E2 & A2).
    exists (x1 ++ x2). split; [by rewrite E2, E1, app_assoc |].
    by rewrite adds_app, A1, A2.
Qed.

Lemma frame_rel_weaken q s s' : frame_rel true s s' -> frame_rel q s s'.
Proof.
  intros [r t]. split; auto.
  destruct q; auto. exists []. by rewrite app_nil_r.
Qed.

Section Respects.
Context (R : State -> State -> Prop) `{!PreOrder R}.

Lemma resp_ret {A} (a : A) : respects R (ret a).
Proof. intros s. reflexivity. Qed.

Lemma resp_throw {A} (e : error) : respects R (throw (A := A) e).
Proof. intros s. reflexivity. Qed.

Lemma resp_bind {A B} (m : M A) (f : A -> M B) :
  respects R m -> (forall a, respects R (f a)) -> respects R (bind m f).
Proof.
  intros Hm Hf s. unfold bind. specialize (Hm s).
  destruct (m s) as [a s' | e s']; simpl in *; auto.
  etransitivity; [exact Hm | apply Hf].
Qed.

Lemma resp_try_catch {A} (m : M A) (h : error -> M A) :
  respects R m -> (forall e, respects R (h e)) -> respects R (try_catch m h).
Proof.
  intros Hm Hh s. unfold try_catch. specialize (Hm s).
  destruct (m s) as [a s' | e s']; simpl in *; auto.
  etransitivity; [exact Hm | apply Hh].
Qed.

Lemma resp_for_each {A} (l : list A) (body : A -> M unit) :
  (forall a, respects R (body a)) -> respects R (for_each l body).
Proof.
  intros Hb. induction l as [| x l IH]; simpl.
  - apply resp_ret.
  - apply resp_bind; auto.
Qed.

Lemma resp_fold_names {A} (l : list key) (body : key -> A -> M A) (acc : A) :
  (forall k a, respects R (body k a)) -> respects R (fold_names l body acc).
Proof.
  intros Hb. revert acc. induction l as [| x l IH]; intros acc; simpl.
  - apply resp_ret.
  - apply resp_bind; auto.
Qed.

Lemma resp_get_entry e : respects R (get_entry e).
Proof. intros s. unfold get_entry. destruct (entries s !! e); reflexivity. Qed.

Lemma resp_get_object a : respects R (get_object a).
Proof. intros s. unfold get_object. destruct (heap s !! a); reflexivity. Qed.

Lemma resp_get_state : respects R get_state.
Proof. intros s. reflexivity. Qed.
End Respects.

#[local] Instance frame_at_preorder e : PreOrder (frame_at e).
Proof.
  split.
  - intros s. split; auto.
    intros e' en He. exists en. eauto 10 using ib_le_refl, entry_rel_refl, type_kept_refl.
  - intros a b c [d1 e1 c1 b1 t1] [d2 e2 c2 b2 t2]. split; try congruence.
    intros e' en He. destruct (e1 _ _ He) as (en1 & He1 & C1 & I1 & T1 & R1).
    destruct (e2 _ _ He1) as (en2 & He2 & C2 & I2 & T2 & R2).
    exists en2. split; [done |]. split; [congruence |].
    split; [eauto using ib_le_trans |]. split; [eauto using type_kept_trans |].
    intros Hne. eauto using entry_rel_trans.
Qed.

Lemma frame_rel_same_entries q s s' :
  entries s' = entries s -> cache s' = cache s -> bridged s' = bridged s ->
  trace s' = trace s -> frame_rel q s s'.
Proof.
  intros He Hc Hb Ht. apply frame_rel_weaken. split; [split |]; auto.
  - by rewrite He.
  - rewrite He. eauto using entry_rel_refl.
Qed.

Lemma frame_at_same_entries e s s' :
  entries s' = entries s -> cache s' = cache s -> bridged s' = bridged s ->
  trace s' = trace s -> frame_at e s s'.
Proof.
  intros He Hc Hb Ht. split; auto.
  - by rewrite He.
  - rewrite He. intros e' en Hl. exists en.
    eauto 10 using ib_le_refl, entry_rel_refl, type_kept_refl.
Qed.

#[local] Instance frame_rel_heap q : HeapFrame (frame_rel q).
Proof. split; [apply _ | |]; intros; by apply frame_rel_same_entries. Qed.

#[local] Instance frame_at_heap e : HeapFrame (frame_at e).
Proof. split; [apply _ | |]; intros; by apply frame_at_same_entries. Qed.

Create HintDb frame.
#[local] Hint Extern 0 (PreOrder _) => exact _ : frame.
#[local] Hint Extern 0 (HeapFrame _) => exact _ : frame.

Ltac resp_step :=
  first
    [ simple apply resp_ret | simple apply resp_throw | simple apply resp_get_entry
    | simple apply resp_get_object | simple apply resp_get_state
    | simple apply resp_bind | simple apply resp_try_catch
    | simple apply resp_for_each | simple apply resp_fold_names
    | progress cbv zeta
    | match goal with
      | |- PreOrder _ => exact _
      | |- HeapFrame _ => exact _
      | |- respects _ (match ?x with _ => _ end) => destruct x
      end ].

Ltac resp := repeat (intros; first [ solve [eauto with frame] | resp_step ]).

Ltac same_type := first [ apply type_kept_same; reflexivity | assumption ].
Ltac same_entry := intros; apply entry_rel_same; [reflexivity .. | same_type].

Section HeapLemmas.
Context (R : State -> State -> Prop) `{!HeapFrame R}.

Lemma resp_host_fn h args : respects R (host_fn h args).
Proof.
  intros s. unfold host_fn. destruct (host_call h args (host s)) as [[v |] u];
    simpl; apply hf_host.
Qed.

Lemma resp_put_object a o : respects R (put_object a o).
Proof. intros s. apply hf_heap. Qed.

Hint Resolve resp_host_fn resp_put_object : frame.

Lemma resp_value_get v k : respects R (value_get v k).
Proof. unfold value_get. resp. Qed.

Lemma resp_value_set v k x : respects R (value_set v k x).
Proof. unfold value_set. resp. Qed.

Hint Resolve resp_value_get resp_value_set : frame.

Lemma resp_Reflect_get v k : respects R (Reflect_get v k).
Proof. unfold Reflect_get. resp. Qed.

Lemma resp_Reflect_defineProperty v k d : respects R (Reflect_defineProperty v k d).
Proof. unfold Reflect_defineProperty. resp. Qed.

Lemma resp_keys v : respects R (keys v).
Proof. unfold keys. resp. Qed.

Lemma resp_has v k : respects R (has v k).
Proof. unfold has. resp. Qed.

Lemma resp_module_loaded m : respects R (module_loaded m).
Proof. unfold module_loaded. resp. Qed.
End HeapLemmas.

#[local] Hint Resolve resp_host_fn resp_put_object resp_value_get resp_value_set
  resp_Reflect_get resp_Reflect_defineProperty resp_keys resp_has resp_module_loaded : frame.

(** *** The frame of the propagation *)

Lemma resp_modify_entry q e f :
  (forall en, entry_rel en (f en)) -> respects (frame_rel q) (modify_entry e f).
Proof.
  intros Hf s. simpl. apply frame_rel_weaken. split; [split |]; simpl; auto.
  - apply dom_alter_L.
  - intros e' en He. destruct (decide (e = e')) as [<- | Hne].
    + exists (f en). by rewrite lookup_alter_eq, He.
    + exists en. rewrite lookup_alter_ne by done. eauto using entry_rel_refl.
Qed.

Lemma resp_log ev : adds [ev] = [] -> respects (frame_rel false) (log ev).
Proof.
  intros Hev s. simpl. split; simpl; [| eauto].
  split; simpl; eauto using entry_rel_refl.
Qed.

#[local] Hint Extern 1 (respects (frame_rel _) (modify_entry _ _)) =>
  apply resp_modify_entry; same_entry : frame.
#[local] Hint Extern 1 (respects (frame_rel false) (log _)) =>
  apply resp_log; reflexivity : frame.

Lemma resp_ns_read R `{!PreOrder R} e sl : respects R (ns_read e sl).
Proof. unfold ns_read. resp. Qed.
#[local] Hint Resolve resp_ns_read : frame.

Lemma resp_ns_write q e o : respects (frame_rel q) (ns_write e SlotNamespace o).
Proof. unfold ns_write. resp. Qed.
#[local] Hint Resolve resp_ns_write : frame.

Lemma resp_call_closure q c e args :
  respects (frame_rel q) (call_closure c e SlotNamespace args).
Proof. unfold call_closure. resp. Qed.
#[local] Hint Resolve resp_call_closure : frame.

Lemma resp_ns_get q e k : respects (frame_rel q) (ns_get e SlotNamespace k).
Proof. unfold ns_get. resp. Qed.

Lemma resp_ns_set q e k v : respects (frame_rel q) (ns_set e SlotNamespace k v).
Proof. unfold ns_set. resp. Qed.

Lemma resp_delete_raw q e k : respects (frame_rel q) (delete_raw e SlotNamespace k).
Proof. unfold delete_raw. resp. Qed.

Lemma frame_rel_modify_at q e f s en :
  entries s !! e = Some en -> entry_rel en (f en) ->
  frame_rel q s (final_state (modify_entry e f s)).
Proof.
  intros He Hf. simpl. apply frame_rel_weaken. split; [split |]; simpl; auto.
  - apply dom_alter_L.
  - intros e' en' He'. destruct (decide (e = e')) as [<- | Hne].
    + rewrite He in He'. injection He' as <-.
      exists (f en). by rewrite lookup_alter_eq, He.
    + exists en'. rewrite lookup_alter_ne by done. eauto using entry_rel_refl.
Qed.

(** The first read of a deferred type. *)
Lemma type_kept_deferred en en' b : entry_type en = TypeDeferred b -> type_kept en en'.
Proof. intros Hd t Ht. congruence. Qed.

Lemma resp_get_type q e : respects (frame_rel q) (get_type e).
Proof.
  intros s. unfold get_type, bind, get_entry.
  destruct (entries s !! e) as [en |] eqn:He; [| reflexivity].
  destruct (entry_type en) as [[|] | t] eqn:Ht; [| | reflexivity].
  - transitivity (final_state (modify_entry e (set_entry_type (TypeValue TYPE_ESM)) s));
      [| reflexivity].
    apply (frame_rel_modify_at q e _ s en He).
    apply entry_rel_same; try reflexivity. by apply (type_kept_deferred _ _ true).
  - transitivity (final_state
                    (modify_entry e (fun en => set_entry_type (TypeValue TYPE_CJS)
                                                 (set_entry_namespace NsTypeProxy en)) s));
      [| reflexivity].
    apply (frame_rel_modify_at q e _ s en He).
    apply entry_rel_same; try reflexivity. by apply (type_kept_deferred _ _ false).
Qed.
#[local] Hint Resolve resp_ns_get resp_ns_set resp_delete_raw resp_get_type : frame.

Lemma resp_namespace_get q e k : respects (frame_rel q) (namespace_get e k).
Proof. unfold namespace_get. resp. Qed.
#[local] Hint Resolve resp_namespace_get : frame.

Lemma resp_call_getter q g : respects (frame_rel q) (call_getter g).
Proof. unfold call_getter. resp. Qed.
#[local] Hint Resolve resp_call_getter : frame.

Lemma resp_tryGetter q g : respects (frame_rel q) (tryGetter g).
Proof. unfold tryGetter, try_catch_js. resp. Qed.
#[local] Hint Resolve resp_tryGetter : frame.

Lemma resp_addGetter q e name g : respects (frame_rel q) (addGetter e name g).
Proof. unfold addGetter. resp. Qed.
#[local] Hint Resolve resp_addGetter : frame.

Lemma resp_getExportsObjectKeys q e v : respects (frame_rel q) (getExportsObjectKeys e v).
Proof. unfold getExportsObjectKeys. resp. Qed.
#[local] Hint Resolve resp_getExportsObjectKeys : frame.

Lemma resp_assignExportsToNamespace q e names :
  respects (frame_rel q) (assignExportsToNamespace e names).
Proof. unfold assignExportsToNamespace. resp. Qed.
#[local] Hint Resolve resp_assignExportsToNamespace : frame.

(** *** Finalization works on one entry *)

Lemma frame_at_modify_at e f s en :
  entries s !! e = Some en ->
  entry_core (f en) = entry_core en ->
  importedBindings (f en) = importedBindings en ->
  type_kept en (f en) ->
  frame_at e s (final_state (modify_entry e f s)).
Proof.
  intros He Hc Hi Ht. simpl. split; simpl; auto.
  - apply dom_alter_L.
  - intros e' en' He'. destruct (decide (e = e')) as [<- | Hne].
    + rewrite He in He'. injection He' as <-.
      exists (f en). rewrite lookup_alter_eq, He.
      split; [done |]. split; [done |]. split; [rewrite Hi; apply ib_le_refl |].
      split; [done |]. intros Hne. congruence.
    + exists en'. rewrite lookup_alter_ne by done.
      eauto 10 using ib_le_refl, entry_rel_refl, type_kept_refl.
Qed.

Lemma resp_at_modify e f :
  (forall en, entry_core (f en) = entry_core en
              /\ importedBindings (f en) = importedBindings en
              /\ type_kept en (f en)) ->
  respects (frame_at e) (modify_entry e f).
Proof.
  intros Hf s. destruct (entries s !! e) as [en |] eqn:He.
  - destruct (Hf en) as (Hc & Hi & Ht). by apply (frame_at_modify_at e f s en).
  - apply frame_at_same_entries; try done. simpl.
    apply map_eq. intros x. destruct (decide (e = x)) as [<- | Hne].
    + by rewrite lookup_alter_eq, He.
    + by rewrite lookup_alter_ne.
Qed.

Ltac same_core :=
  intros; split; [reflexivity |]; split; [reflexivity | apply type_kept_same; reflexivity].

#[local] Hint Extern 1 (respects (frame_at _) (modify_entry _ _)) =>
  apply resp_at_modify; same_core : frame.

Lemma resp_at_ns_write e sl o : respects (frame_at e) (ns_write e sl o).
Proof.
  unfold ns_write. apply resp_at_modify. intros en.
  destruct sl as [| []]; same_core.
Qed.
#[local] Hint Resolve resp_at_ns_write : frame.

Lemma resp_at_call_closure c e sl args : respects (frame_at e) (call_closure c e sl args).
Proof. unfold call_closure. resp. Qed.
#[local] Hint Resolve resp_at_call_closure : frame.

Lemma resp_at_ns_set e sl k v : respects (frame_at e) (ns_set e sl k v).
Proof. unfold ns_set. resp. Qed.

Lemma resp_at_delete_raw e sl k : respects (frame_at e) (delete_raw e sl k).
Proof. unfold delete_raw. resp. Qed.

Lemma resp_at_seal_raw e sl : respects (frame_at e) (seal_raw e sl).
Proof. unfold seal_raw. resp. Qed.

Lemma resp_at_get_type e : respects (frame_at e) (get_type e).
Proof.
  intros s. unfold get_type, bind, get_entry.
  destruct (entries s !! e) as [en |] eqn:He; [| reflexivity].
  destruct (entry_type en) as [[|] | t] eqn:Ht; [| | reflexivity].
  - transitivity (final_state (modify_entry e (set_entry_type (TypeValue TYPE_ESM)) s));
      [| reflexivity].
    apply (frame_at_modify_at e _ s en He); try reflexivity.
    by apply (type_kept_deferred _ _ true).
  - transitivity (final_state
                    (modify_entry e (fun en => set_entry_type (TypeValue TYPE_CJS)
                                                 (set_entry_namespace NsTypeProxy en)) s));
      [| reflexivity].
    apply (frame_at_modify_at e _ s en He); try reflexivity.
    by apply (type_kept_deferred _ _ false).
Qed.
#[local] Hint Resolve resp_at_ns_set resp_at_delete_raw resp_at_seal_raw resp_at_get_type : frame.

Lemma frame_at_to_rel q e s s' :
  frame_at e s s' ->
  (forall en, entries s !! e = Some en -> finalized en = false) ->
  frame_rel q s s'.
Proof.
  intros [Hd He Hc Hb Ht] Hnf. apply frame_rel_weaken. split; [split |]; auto.
  intros e' en Hl. destruct (He _ _ Hl) as (en' & Hl' & Hcore & Hib & Hty & Hrel).
  exists en'. split; [done |].
  destruct (decide (e' = e)) as [-> | Hne]; [| auto].
  split; auto. intros Hfin. rewrite (Hnf _ Hl) in Hfin. discriminate.
Qed.

Lemma resp_finalizeNamespace q e : respects (frame_rel q) (finalizeNamespace e).
Proof.
  intros s. unfold finalizeNamespace.
  unfold bind at 1. unfold get_entry at 1.
  destruct (entries s !! e) as [en |] eqn:He; [| reflexivity].
  destruct (bool_decide (_namespaceFinalized en = NAMESPACE_FINALIZATION_COMPLETED)) eqn:Hf;
    [reflexivity |].
  apply (frame_at_to_rel q e).
  - match goal with |- frame_at _ _ (final_state (?m s)) => assert (respects (frame_at e) m) as Hm end.
    { resp. }
    apply Hm.
  - intros en' He'. rewrite He in He'. injection He' as <-. exact Hf.
Qed.
#[local] Hint Resolve resp_finalizeNamespace : frame.

Lemma resp_children_loaded R `{!HeapFrame R} cs : respects R (children_loaded cs).
Proof. induction cs as [| c cs IH]; simpl; resp. Qed.
#[local] Hint Resolve resp_children_loaded : frame.

Lemma resp_set_loaded_state q e l : respects (frame_rel q) (set_loaded_state e l).
Proof. unfold set_loaded_state. resp. Qed.
#[local] Hint Resolve resp_set_loaded_state : frame.

Lemma get_type_reads e s t s' :
  get_type e s = Ok t s' ->
  exists en', entries s' !! e = Some en' /\ entry_type en' = TypeValue t.
Proof.
  unfold get_type, bind, get_entry.
  destruct (entries s !! e) as [en |] eqn:He; [| discriminate].
  destruct (entry_type en) as [isModule | t0] eqn:Ht; [destruct isModule |];
    cbv [ret modify_entry]; simpl; intros [= <- <-]; simpl;
    rewrite ?lookup_alter_eq, He; eauto.
Qed.

(** The step of [loaded] that makes a CJS record whose exported value has
    a truthy [__esModule] a pseudo module: the type stays one that is not
    declarative. *)
Lemma resp_pseudo_switch q e :
  respects (frame_rel q)
    (bind (get_type e) (fun type =>
       bind (get_entry e) (fun en =>
         if bool_decide (type = TYPE_CJS) && cjs_interop (entry_package en) then
           modify_entry e (fun en => set_entry_type (TypeValue TYPE_PSEUDO)
                                       (set_entry_namespace NsRaw en))
         else ret tt))).
Proof.
  intros s. unfold bind at 1. pose proof (resp_get_type q e s) as R1.
  destruct (get_type e s) as [t s1 | err s1] eqn:E; [| exact R1]. simpl in R1.
  destruct (get_type_reads _ _ _ _ E) as (en1 & He1 & Ht1).
  unfold bind, get_entry. rewrite He1.
  destruct (bool_decide (t = TYPE_CJS)) eqn:Hcjs; [| exact R1].
  destruct (cjs_interop (entry_package en1)); [| exact R1]. cbn [andb].
  apply bool_decide_eq_true in Hcjs. subst t.
  transitivity s1; [exact R1 |].
  apply (frame_rel_modify_at q e _ s1 en1 He1).
  apply entry_rel_same; try reflexivity.
  intros t Ht. exists TYPE_PSEUDO. split; [reflexivity |].
  rewrite Ht1 in Ht. injection Ht as <-. split; discriminate.
Qed.
#[local] Hint Resolve resp_pseudo_switch : frame.

Lemma resp_loaded_body q e : respects (frame_rel q) (loaded_body e).
Proof. unfold loaded_body, loaded_declarative, loaded_dynamic. resp. Qed.
#[local] Hint Resolve resp_loaded_body : frame.

Lemma resp_loaded e : respects (frame_rel false) (loaded e).
Proof. unfold loaded. resp. Qed.
#[local] Hint Resolve resp_loaded : frame.

(** *** Tables *)

Lemma key_eqb_eq a b : key_eqb a b = true <-> a = b.
Proof. unfold key_eqb. apply bool_decide_eq_true. Qed.

Lemma key_eqb_refl a : key_eqb a a = true.
Proof. by apply key_eqb_eq. Qed.

Lemma key_eqb_ne a b : a <> b -> key_eqb a b = false.
Proof. intros Hne. unfold key_eqb. by apply bool_decide_eq_false. Qed.

Lemma assoc_set_eq {A} k (a : A) l : assoc k (assoc_set k a l) = Some a.
Proof.
  induction l as [| [k' a'] l IH]; simpl.
  - by rewrite key_eqb_refl.
  - destruct (key_eqb k k') eqn:E; simpl; rewrite ?key_eqb_refl, ?E; auto.
Qed.

Lemma assoc_set_ne {A} k k' (a : A) l : k <> k' -> assoc k' (assoc_set k a l) = assoc k' l.
Proof.
  intros Hne. induction l as [| [k2 a2] l IH]; simpl.
  - rewrite key_eqb_ne; auto.
  - destruct (key_eqb k k2) eqn:E; simpl.
    + apply key_eqb_eq in E. subst k2. rewrite !key_eqb_ne; auto.
    + destruct (key_eqb k' k2); auto.
Qed.

Lemma ib_le_set_true k l : ib_le l (assoc_set k true l).
Proof.
  intros k' x Hk. destruct (decide (k = k')) as [<- | Hne].
  - right. apply assoc_set_eq.
  - left. by rewrite assoc_set_ne.
Qed.

Lemma entry_rel_mark_imported name en : entry_rel en (mark_imported name en).
Proof. split; auto; [apply ib_le_set_true | by apply type_kept_same]. Qed.

Lemma entry_rel_seed_imported name en : entry_rel en (seed_imported name en).
Proof.
  unfold seed_imported, assoc_has.
  destruct (assoc name (importedBindings en)) as [b |] eqn:E; [apply entry_rel_refl |].
  split; auto; [| by apply type_kept_same]. simpl. intros k x Hk. left.
  destruct (decide (name = k)) as [<- | Hne]; [congruence |].
  by rewrite assoc_set_ne.
Qed.

#[local] Hint Extern 1 (respects (frame_rel _) (modify_entry _ (mark_imported _))) =>
  apply resp_modify_entry; apply entry_rel_mark_imported : frame.
#[local] Hint Extern 1 (respects (frame_rel _) (modify_entry _ (seed_imported _))) =>
  apply resp_modify_entry; apply entry_rel_seed_imported : frame.

(** *** The passes *)

Lemma resp_getExportByName q e name p : respects (frame_rel q) (getExportByName e name p).
Proof. unfold getExportByName. resp. Qed.

Lemma resp_getExportByNameFast q e name p :
  respects (frame_rel q) (getExportByNameFast e name p).
Proof. unfold getExportByNameFast. resp. Qed.
#[local] Hint Resolve resp_getExportByName resp_getExportByNameFast : frame.

Lemma resp_runGetter q e name : respects (frame_rel q) (runGetter e name).
Proof. unfold runGetter. resp. Qed.
#[local] Hint Resolve resp_runGetter : frame.

Lemma resp_runGetters q e names : respects (frame_rel q) (runGetters e names).
Proof. unfold runGetters. resp. Qed.
#[local] Hint Resolve resp_runGetters : frame.

Lemma resp_write_setters q e name l : respects (frame_rel q) (write_setters e name l).
Proof. unfold write_setters. resp. Qed.
#[local] Hint Resolve resp_write_setters : frame.

Lemma resp_update_callback q sup setter pm :
  respects (frame_rel q) (update_callback sup setter pm).
Proof. unfold update_callback. resp. Qed.
#[local] Hint Resolve resp_update_callback : frame.

Section SetterPass.
Context {A : Type} (callback : setter -> A -> M A).
Context (Hcb : forall st a, respects (frame_rel false) (callback st a)).

Lemma resp_runSetter_step e name ut isESM isLoaded isNsChanged i acc :
  respects (frame_rel false)
    (runSetter_step e name callback ut isESM isLoaded isNsChanged i acc).
Proof using Hcb. unfold runSetter_step. resp. Qed.
Hint Resolve resp_runSetter_step : frame.

Lemma resp_runSetter_loop e name ut isESM isLoaded isNsChanged n acc :
  respects (frame_rel false)
    (runSetter_loop e name callback ut isESM isLoaded isNsChanged n acc).
Proof using Hcb. revert acc. induction n as [| n IH]; intros acc; simpl; resp. Qed.
Hint Resolve resp_runSetter_loop : frame.

Lemma resp_runSetter e name ut acc :
  respects (frame_rel false) (runSetter e name callback ut acc).
Proof using Hcb. unfold runSetter. resp. Qed.
Hint Resolve resp_runSetter : frame.

Lemma resp_runSetters e names ut acc :
  respects (frame_rel false) (runSetters e names callback ut acc).
Proof using Hcb. unfold runSetters. resp. Qed.
End SetterPass.

Lemma resp_updateBindings_passes e names ut sup :
  respects (frame_rel false) (updateBindings_passes e names ut sup).
Proof.
  unfold updateBindings_passes. resp.
  apply resp_runSetters. intros. apply resp_update_callback.
Qed.

Lemma resp_addSetter q e name localNames fn type parentEntry :
  respects (frame_rel q) (addSetter e name localNames fn type parentEntry).
Proof.
  unfold addSetter. resp.
  apply resp_modify_entry. intros en. destruct (assoc_has name (setters en)).
  - apply entry_rel_refl.
  - same_entry.
Qed.

(** *** What the setter pass returns *)

Lemma returns_ret {A} (Q : A -> Prop) a : Q a -> returns Q (ret a).
Proof. intros Ha s a' s' E. injection E as <- _. exact Ha. Qed.

Lemma returns_throw {A} (Q : A -> Prop) e : returns Q (throw e).
Proof. intros s a s' E. discriminate. Qed.

Lemma returns_bind {A B} (Q : B -> Prop) (m : M A) (f : A -> M B) :
  (forall a, returns Q (f a)) -> returns Q (bind m f).
Proof.
  intros Hf s b s' E. unfold bind in E.
  destruct (m s) as [a s1 | err s1]; [| discriminate]. eapply Hf, E.
Qed.

Ltac returns_step :=
  first
    [ simple apply returns_throw | simple apply returns_bind
    | progress cbv zeta
    | match goal with
      | |- returns _ (match ?x with _ => _ end) => destruct x
      end ].

Section SetterResult.
Context {A : Type} (callback : setter -> A -> M A) (P : A -> Prop).
Context (Hcb : forall st a, P a -> returns P (callback st a)).

Lemma returns_runSetter_step e name ut isESM isLoaded isNsChanged i acc :
  P acc ->
  returns P (runSetter_step e name callback ut isESM isLoaded isNsChanged i acc).
Proof using Hcb.
  intros Hacc. unfold runSetter_step.
  repeat (intros; first [ solve [eauto using returns_ret] | returns_step ]).
Qed.

Lemma returns_runSetter_loop e name ut isESM isLoaded isNsChanged n acc :
  P acc ->
  returns P (runSetter_loop e name callback ut isESM isLoaded isNsChanged n acc).
Proof using Hcb.
  revert acc. induction n as [| n IH]; intros acc Hacc; simpl.
  - by apply returns_ret.
  - intros s a s' E. unfold bind in E.
    destruct (runSetter_step _ _ _ _ _ _ _ _ _ s) as [a1 s1 | err s1] eqn:E1; [| discriminate].
    eapply IH; [| exact E]. eapply returns_runSetter_step; eauto.
Qed.

Lemma returns_runSetter e name ut acc :
  P acc -> returns P (runSetter e name callback ut acc).
Proof using Hcb.
  intros Hacc. unfold runSetter.
  repeat (intros; first [ solve [eauto using returns_ret, returns_runSetter_loop]
                        | returns_step ]).
Qed.

Lemma returns_fold_names l (body : key -> A -> M A) acc :
  (forall k a, P a -> returns P (body k a)) -> P acc -> returns P (fold_names l body acc).
Proof.
  intros Hb. revert acc. induction l as [| k l IH]; intros acc Hacc; simpl.
  - by apply returns_ret.
  - intros s a s' E. unfold bind in E.
    destruct (body k acc s) as [a1 s1 | err s1] eqn:E1; [| discriminate].
    eapply IH; [| exact E]. eapply Hb; eauto.
Qed.

Lemma returns_runSetters e names ut acc :
  P acc -> returns P (runSetters e names callback ut acc).
Proof using Hcb.
  intros Hacc. unfold runSetters.
  destruct names; try apply returns_bind; intros;
    apply returns_fold_names; auto; intros; by apply returns_runSetter.
Qed.
End SetterResult.

(** Without [shouldUpdateParents] no parent is recorded. *)
Lemma passes_without_parents e names ut s pm s' :
  updateBindings_passes e names ut false s = Ok pm s' -> pm = None.
Proof.
  revert s pm s'. change (returns (fun pm => pm = None) (updateBindings_passes e names ut false)).
  unfold updateBindings_passes.
  apply returns_bind; intros _. cbv zeta.
  apply returns_bind; intros _. apply returns_bind; intros _.
  intros s pm s' E. unfold bind in E.
  destruct (runSetters _ _ _ _ _ s) as [a1 s1 | err s1] eqn:E1; [| discriminate].
  assert (a1 = None) as ->.
  { eapply (returns_runSetters (update_callback false) (fun pm => pm = None)); [| | exact E1]; auto.
    intros st a ->. unfold update_callback.
    repeat (intros; first [ solve [eauto using returns_ret] | returns_step ]). }
  unfold modify_entry, ret in E. by injection E as <- _.
Qed.

(** *** The propagation tree *)

Lemma state_rel_with_trace t s : state_rel s (with_trace t s).
Proof. split; simpl; eauto using entry_rel_refl. Qed.

Lemma loaded_frame e s : frame_rel false s (final_state (loaded e s)).
Proof. apply resp_loaded. Qed.

Lemma passes_frame e names ut sup s :
  frame_rel false s (final_state (updateBindings_passes e names ut sup s)).
Proof. apply resp_updateBindings_passes. Qed.

Lemma no_adds t (set : gset eid) :
  adds t = [] -> NoDup (adds t) /\ (forall x, x ∈ adds t -> x ∉ set).
Proof.
  intros ->. split; [apply NoDup_nil_2 |]. intros x Hx. by apply elem_of_nil in Hx.
Qed.

Section Propagate.
Context (rec : eid -> gset eid -> State -> option (Res (gset eid))).
Context (Hrec : forall p set s r, rec p set s = Some r ->
           state_rel s (final_state r)
           /\ exists t, trace (final_state r) = trace s ++ t
                        /\ NoDup (adds t)
                        /\ (forall x, x ∈ adds t -> x ∉ set)
                        /\ (forall out s', r = Ok out s' ->
                             out = set ∪ list_to_set (adds t))).

Lemma propagate_tree ps : forall set s r,
  propagate rec ps set s = Some r ->
  state_rel s (final_state r)
  /\ exists t, trace (final_state r) = trace s ++ t
               /\ NoDup (adds t)
               /\ (forall x, x ∈ adds t -> x ∉ set)
               /\ (forall out s', r = Ok out s' -> out = set ∪ list_to_set (adds t)).
Proof using Hrec.
  induction ps as [| p ps IH]; intros set s r E; simpl in E.
  - injection E as <-. split; [reflexivity |]. exists []. simpl.
    rewrite app_nil_r. split; [done |].
    destruct (no_adds [] set eq_refl) as [N D]. split; [done |]. split; [done |].
    intros out s' E. injection E as <- _. set_solver.
  - pose proof (loaded_frame p s) as [HL (tl & Etl & Atl)].
    destruct (loaded p s) as [l s1 | err s1]; simpl in *.
    2:{ injection E as <-. split; [done |]. exists tl. simpl.
        destruct (no_adds tl set Atl) as [N D].
        split; [done |]. split; [done |]. split; [done |].
        intros out s' E. discriminate. }
    destruct (rec p set s1) as [r1 |] eqn:ER; [| discriminate].
    destruct (Hrec _ _ _ _ ER) as (HR & t1 & Et1 & N1 & D1 & O1).
    destruct r1 as [set1 s2 | err s2]; simpl in *.
    2:{ injection E as <-. split; [by etransitivity |]. exists (tl ++ t1). simpl.
        rewrite adds_app, Atl. simpl.
        split; [by rewrite Et1, Etl, app_assoc |].
        split; [done |]. split; [done |].
        intros out s' E. discriminate. }
    specialize (O1 _ _ eq_refl). subst set1.
    destruct (IH _ _ _ E) as (HP & t2 & Et2 & N2 & D2 & O2).
    split; [etransitivity; [exact HL | by etransitivity] |].
    exists (tl ++ t1 ++ t2). rewrite !adds_app, Atl. simpl.
    split; [by rewrite Et2, Et1, Etl, !app_assoc |].
    split.
    { apply NoDup_app. split; [done |]. split; [| done].
      intros x Hx1 Hx2. apply (D2 x Hx2). set_solver. }
    split.
    { intros x Hx. apply elem_of_app in Hx as [Hx | Hx]; [by apply D1 |].
      intros Hin. apply (D2 x Hx). set_solver. }
    intros out s' ->. rewrite (O2 _ _ eq_refl), list_to_set_app_L. set_solver.
Qed.
End Propagate.

Lemma updateBindings_tree fuel : forall e names ut seen s r,
  updateBindings fuel e names ut seen s = Some r -> tree_rel (seen_set seen) s r.
Proof.
  induction fuel as [| fuel IH]; intros e names ut seen s r E; simpl in E; [discriminate |].
  unfold bind, log, get_entry in E. simpl in E.
  set (ev := EvUpdateBindings e names ut seen) in *.
  set (s0 := with_trace (trace s ++ [ev]) s) in *.
  assert (state_rel s s0) as H0 by apply state_rel_with_trace.
  assert (adds [ev] = []) as Hev by reflexivity.
  destruct (entries s !! e) as [this |] eqn:Hthis.
  2:{ injection E as <-. split; [done |]. simpl. exists [ev].
      destruct (no_adds [ev] (seen_set seen) Hev) as [N D].
      split; [done |]. split; [done |]. split; [done |].
      intros out s' E. discriminate. }
  destruct (shouldUpdateParents_of this ut && seen_has seen e) eqn:Hguard.
  { injection E as <-. split; [done |]. simpl. exists [ev].
    destruct (no_adds [ev] (seen_set seen) Hev) as [N D].
    split; [done |]. split; [done |]. split; [done |].
    intros out s' E. injection E as <- _. set_solver. }
  pose proof (passes_frame e names ut (shouldUpdateParents_of this ut) s0)
    as [HP (tp & Etp & Atp)].
  assert (adds (ev :: tp) = []) as Hevtp by (simpl; exact Atp).
  destruct (no_adds (ev :: tp) (seen_set seen) Hevtp) as [Np Dp].
  destruct (updateBindings_passes e names ut (shouldUpdateParents_of this ut) s0)
    as [pm s1 | err s1] eqn:Epass; simpl in *.
  2:{ injection E as <-. split; [by etransitivity |]. simpl.
      exists (ev :: tp). rewrite Etp.
      split; [by rewrite <- app_assoc |].
      split; [done |]. split; [done |].
      intros out s' E. discriminate. }
  destruct pm as [pm |].
  2:{ injection E as <-. split; [by etransitivity |]. simpl.
      exists (ev :: tp). rewrite Etp.
      split; [by rewrite <- app_assoc |].
      split; [done |]. split; [done |].
      intros out s' E. injection E as <- _.
      change (adds (ev :: tp)) with (adds tp). rewrite Atp. set_solver. }
  assert (shouldUpdateParents_of this ut = true) as Hsup.
  { destruct (shouldUpdateParents_of this ut); [done |].
    by apply passes_without_parents in Epass. }
  assert (e ∉ seen_set seen) as Hfresh.
  { rewrite Hsup in Hguard. simpl in Hguard. unfold seen_has, seen_set in *.
    destruct seen as [set |]; simpl; [by apply bool_decide_eq_false in Hguard | set_solver]. }
  set (s1' := with_trace (trace s1 ++ [EvSeenAdd e]) s1) in *.
  destruct (propagate _ _ _ s1') as [rp |] eqn:EP; [| discriminate].
  apply propagate_tree in EP.
  2:{ intros p set st r0 Hr0. unfold call_parent in Hr0.
      destruct (updateBindings fuel p NamesNull (parentUpdateType ut) (Some set) st)
        as [[out st' | err st'] |] eqn:Ecall; [| | discriminate].
      - injection Hr0 as <-. destruct (IH _ _ _ _ _ _ Ecall) as [Hst (t & Et & Nt & Dt & Ot)].
        simpl in *. split; [done |]. exists t.
        split; [done |]. split; [done |]. split; [done |].
        intros out' s'' E'. injection E' as <- <-. specialize (Ot _ _ eq_refl).
        destruct out as [x |]; simpl in *; [done |]. set_solver.
      - injection Hr0 as <-. destruct (IH _ _ _ _ _ _ Ecall) as [Hst (t & Et & Nt & Dt & Ot)].
        simpl in *. split; [done |]. exists t.
        split; [done |]. split; [done |]. split; [done |].
        intros out' s'' E'. discriminate. }
  destruct EP as (HPr & t2 & Et2 & N2 & D2 & O2).
  assert (state_rel s (final_state r) /\ trace (final_state r) = trace s ++ ev :: tp ++ EvSeenAdd e :: t2)
    as [Hfinal Htrace].
  { destruct rp; injection E as <-; simpl in *.
    all: split; [etransitivity; [exact H0 |]; etransitivity; [exact HP |];
                 etransitivity; [apply (state_rel_with_trace (trace s1 ++ [EvSeenAdd e])) | exact HPr]
                | rewrite Et2; subst s1'; simpl; rewrite Etp; subst s0; simpl;
                  by rewrite <- !app_assoc ]. }
  split; [done |].
  exists (ev :: tp ++ EvSeenAdd e :: t2).
  assert (adds (ev :: tp ++ EvSeenAdd e :: t2) = e :: adds t2) as Ha.
  { change (adds (tp ++ EvSeenAdd e :: t2) = e :: adds t2).
    rewrite adds_app, Atp. reflexivity. }
  rewrite Ha.
  split; [done |].
  split.
  { apply NoDup_cons. split; [| done]. intros Hin. apply (D2 e Hin). set_solver. }
  split.
  { intros x Hx. apply elem_of_cons in Hx as [-> | Hx]; [done |].
    intros Hin. apply (D2 x Hx). set_solver. }
  intros out s' ->. destruct rp as [setf sf | err sf]; [| discriminate].
  injection E as <- <-. simpl. rewrite (O2 _ _ eq_refl). set_solver.
Qed.

Lemma call_parent_tree fuel ut p set s r :
  call_parent (updateBindings fuel) ut p set s = Some r ->
  state_rel s (final_state r)
  /\ exists t, trace (final_state r) = trace s ++ t
               /\ NoDup (adds t)
               /\ (forall x, x ∈ adds t -> x ∉ set)
               /\ (forall out s', r = Ok out s' -> out = set ∪ list_to_set (adds t)).
Proof.
  intros Hr. unfold call_parent in Hr.
  destruct (updateBindings fuel p NamesNull (parentUpdateType ut) (Some set) s)
    as [[out st' | err st'] |] eqn:Ecall; [| | discriminate].
  - injection Hr as <-.
    destruct (updateBindings_tree _ _ _ _ _ _ _ Ecall) as [Hst (t & Et & Nt & Dt & Ot)].
    simpl in *. split; [done |]. exists t.
    split; [done |]. split; [done |]. split; [done |].
    intros out' s'' E'. injection E' as <- <-. specialize (Ot _ _ eq_refl).
    destruct out as [x |]; simpl in *; [done |]. set_solver.
  - injection Hr as <-.
    destruct (updateBindings_tree _ _ _ _ _ _ _ Ecall) as [Hst (t & Et & Nt & Dt & Ot)].
    simpl in *. split; [done |]. exists t.
    split; [done |]. split; [done |]. split; [done |].
    intros out' s'' E'. discriminate.
Qed.

(** *** Termination *)

Lemma propagate_terminates fuel ut n :
  (forall p set s, size (dom (entries s) ∖ set) < n ->
                   is_Some (call_parent (updateBindings fuel) ut p set s)) ->
  forall ps set s, size (dom (entries s) ∖ set) < n ->
                   is_Some (propagate (call_parent (updateBindings fuel) ut) ps set s).
Proof.
  intros Hterm. induction ps as [| p ps IH]; intros set s Hm; simpl; [eauto |].
  pose proof (loaded_frame p s) as [[HLd _ _ _] _].
  destruct (loaded p s) as [l s1 | err s1]; simpl in *; [| eauto].
  destruct (Hterm p set s1) as [r1 Hr1]; [by rewrite HLd |].
  rewrite Hr1.
  destruct (call_parent_tree _ _ _ _ _ _ Hr1) as ([Hd _ _ _] & t & _ & _ & _ & Ho).
  destruct r1 as [set1 s2 | err s2]; simpl in *; [| eauto].
  apply IH. rewrite Hd, HLd, (Ho _ _ eq_refl).
  eapply Nat.le_lt_trans; [| exact Hm]. apply subseteq_size. set_solver.
Qed.

Lemma updateBindings_terminates fuel : forall e names ut seen s,
  size (dom (entries s) ∖ seen_set seen) < fuel ->
  is_Some (updateBindings fuel e names ut seen s).
Proof.
  induction fuel as [| fuel IH]; intros e names ut seen s Hm; [lia |]. simpl.
  unfold bind, log, get_entry. simpl.
  set (ev := EvUpdateBindings e names ut seen).
  set (s0 := with_trace (trace s ++ [ev]) s).
  destruct (entries s !! e) as [this |] eqn:Hthis; [| eauto].
  destruct (shouldUpdateParents_of this ut && seen_has seen e) eqn:Hguard; [eauto |].
  pose proof (passes_frame e names ut (shouldUpdateParents_of this ut) s0) as [[HPd _ _ _] _].
  destruct (updateBindings_passes e names ut (shouldUpdateParents_of this ut) s0)
    as [pm s1 | err s1] eqn:Epass; simpl in *; [| eauto].
  destruct pm as [pm |]; [| eauto].
  assert (shouldUpdateParents_of this ut = true) as Hsup.
  { destruct (shouldUpdateParents_of this ut); [done |].
    by apply passes_without_parents in Epass. }
  assert (e ∉ seen_set seen) as Hfresh.
  { rewrite Hsup in Hguard. simpl in Hguard. unfold seen_has, seen_set in *.
    destruct seen as [set |]; simpl; [by apply bool_decide_eq_false in Hguard | set_solver]. }
  assert (e ∈ dom (entries s)) as Hdom by (apply elem_of_dom; eauto).
  set (s1' := with_trace (trace s1 ++ [EvSeenAdd e]) s1).
  assert (size (dom (entries s1') ∖ (default ∅ seen ∪ {[e]})) < fuel) as Hm'.
  { simpl. rewrite HPd. simpl.
    assert (dom (entries s) ∖ (default ∅ seen ∪ {[e]}) ⊂ dom (entries s) ∖ seen_set seen) as Hsub.
    { unfold seen_set in *. set_solver. }
    apply subset_size in Hsub. lia. }
  destruct (propagate_terminates fuel ut fuel) with (ps := in_order pm)
    (set := default ∅ seen ∪ {[e]}) (s := s1') as [rp Hrp]; [| exact Hm' |].
  { intros p set st Hst. unfold call_parent.
    destruct (IH p NamesNull (parentUpdateType ut) (Some set) st Hst) as [r Hr].
    rewrite Hr. destruct r; eauto. }
  cbv zeta. fold s1'. rewrite Hrp. destruct rp; eauto.
Qed.

(** C1 (amended).  From every state, for every record, names, update kind
    and visited set, [updateBindings] terminates: a bound on the depth of the
    recursion is the number of records not yet visited, plus one.  A re-entry
    on a record that is circular or reached with kind live or init, and that
    the visited set holds, returns at once and changes nothing but the
    trace.  Within one call tree every record is added to the visited set at
    most once, and was not in it before; the passes of a record that records
    no pending parent are not counted by the set. *)
Theorem updateBindings_cycle_termination e names ut seen s :
  is_Some (updateBindings (S (size (dom (entries s) ∖ seen_set seen))) e names ut seen s)
  /\ (forall fuel this set,
        entries s !! e = Some this ->
        shouldUpdateParents_of this ut = true ->
        seen = Some set -> e ∈ set ->
        updateBindings (S fuel) e names ut seen s
        = Some (Ok seen (with_trace (trace s ++ [EvUpdateBindings e names ut seen]) s)))
  /\ (forall fuel r,
        updateBindings fuel e names ut seen s = Some r ->
        exists t, trace (final_state r) = trace s ++ t
                  /\ NoDup (adds t)
                  /\ (forall x, x ∈ adds t -> x ∉ seen_set seen)).
Proof.
  split; [| split].
  - apply updateBindings_terminates. lia.
  - intros fuel this set Hthis Hsup -> Hin. simpl.
    unfold bind, log, get_entry. simpl. rewrite Hthis, Hsup. simpl.
    by rewrite bool_decide_eq_true_2.
  - intros fuel r Hr. destruct (updateBindings_tree _ _ _ _ _ _ _ Hr) as [_ (t & Et & N & D & _)].
    eauto.
Qed.

(** *** The calls of the loop over the pending parents *)

Lemma loaded_trace p s : trace (final_state (loaded p s)) = trace s ++ [EvLoaded p].
Proof.
  unfold loaded, bind, log. simpl.
  pose proof (resp_loaded_body true p (with_trace (trace s ++ [EvLoaded p]) s)) as [_ Ht].
  simpl in Ht. destruct (loaded_body p _); simpl in *; exact Ht.
Qed.

Lemma updateBindings_first_event fuel e names ut seen s r :
  updateBindings fuel e names ut seen s = Some r ->
  exists t, trace (final_state r) = trace s ++ EvUpdateBindings e names ut seen :: t.
Proof.
  destruct fuel as [| fuel]; intros E; simpl in E; [discriminate |].
  unfold bind, log, get_entry in E. simpl in E.
  set (ev := EvUpdateBindings e names ut seen) in *.
  set (s0 := with_trace (trace s ++ [ev]) s) in *.
  assert (forall s2 t, trace s2 = trace s0 ++ t -> trace s2 = trace s ++ ev :: t) as Hext.
  { intros s2 t ->. subst s0. simpl. by rewrite <- app_assoc. }
  destruct (entries s !! e) as [this |] eqn:Hthis.
  2:{ injection E as <-. exists []. apply Hext. by rewrite app_nil_r. }
  destruct (shouldUpdateParents_of this ut && seen_has seen e).
  { injection E as <-. exists []. apply Hext. by rewrite app_nil_r. }
  pose proof (passes_frame e names ut (shouldUpdateParents_of this ut) s0)
    as [_ (tp & Etp & _)].
  destruct (updateBindings_passes e names ut (shouldUpdateParents_of this ut) s0)
    as [[pm |] s1 | err s1]; simpl in *.
  - destruct (propagate _ _ _ _) as [rp |] eqn:EP; [| discriminate].
    apply propagate_tree in EP; [| apply call_parent_tree].
    destruct EP as (_ & t2 & Et2 & _).
    exists (tp ++ EvSeenAdd e :: t2). apply Hext.
    destruct rp; injection E as <-; simpl in *; rewrite Et2; simpl; rewrite Etp;
      by rewrite <- !app_assoc.
  - injection E as <-. exists tp. by apply Hext.
  - injection E as <-. exists tp. by apply Hext.
Qed.

Lemma propagate_calls fuel ut ps : forall set s out s',
  propagate (call_parent (updateBindings fuel) ut) ps set s = Some (Ok out s') ->
  forall p, p ∈ ps ->
  exists t1 t2 set_p,
    trace s' = t1 ++ EvLoaded p
                  :: EvUpdateBindings p NamesNull (parentUpdateType ut) (Some set_p) :: t2
    /\ set ⊆ set_p.
Proof.
  induction ps as [| p0 ps IH]; intros set s out s' E p Hp; [by apply elem_of_nil in Hp |].
  simpl in E. pose proof (loaded_trace p0 s) as HL.
  destruct (loaded p0 s) as [l s1 | err s1]; simpl in *; [| discriminate].
  destruct (call_parent _ _ _ _ _) as [[set1 s2 | err s2] |] eqn:EC; try discriminate.
  pose proof (call_parent_tree _ _ _ _ _ _ EC) as (_ & tc & _ & _ & _ & Hset1).
  specialize (Hset1 _ _ eq_refl).
  unfold call_parent in EC.
  destruct (updateBindings fuel p0 NamesNull (parentUpdateType ut) (Some set) s1)
    as [[r s2' | err s2'] |] eqn:EU; try discriminate.
  injection EC as _ <-.
  apply updateBindings_first_event in EU as (tu & Etu). simpl in Etu.
  apply elem_of_cons in Hp as [-> | Hp].
  - pose proof (propagate_tree _ (call_parent_tree fuel ut) _ _ _ _ E) as (_ & t2 & Et2 & _).
    simpl in Et2. exists (trace s), (tu ++ t2), set. split; [| done].
    rewrite Et2, Etu, HL. by rewrite <- !app_assoc.
  - destruct (IH _ _ _ _ E p Hp) as (t1 & t2 & set_p & Ht & Hsub).
    exists t1, t2, set_p. split; [done |]. set_solver.
Qed.

(** *** Enumeration reaches every string key *)

Lemma elem_of_insert_by {A} (leb : A -> A -> bool) x y l :
  x ∈ insert_by leb y l <-> x = y \/ x ∈ l.
Proof.
  induction l as [| z l IH]; simpl.
  - rewrite list_elem_of_singleton. set_solver.
  - destruct (leb y z); set_solver.
Qed.

Lemma elem_of_sort_by {A} (leb : A -> A -> bool) x l : x ∈ sort_by leb l <-> x ∈ l.
Proof.
  induction l as [| y l IH]; simpl; [done |].
  rewrite elem_of_insert_by, IH. set_solver.
Qed.

Lemma elem_of_ordered_names k ks : KStr k ∈ ks -> k ∈ ordered_names ks.
Proof.
  intros Hk. unfold ordered_names. apply elem_of_app.
  destruct (array_index k) as [n |] eqn:En.
  - left. apply list_elem_of_fmap. exists (n, k). split; [done |].
    apply elem_of_sort_by. unfold index_keys. apply list_elem_of_omap.
    exists (KStr k). split; [done |]. by rewrite En.
  - right. apply list_elem_of_omap. exists (KStr k). split; [| done].
    apply list_elem_of_filter. split; [| done]. simpl. by rewrite En.
Qed.

Lemma assoc_elem_of {A} k (a : A) l : assoc k l = Some a -> k ∈ map fst l.
Proof.
  induction l as [| [k' a'] l IH]; simpl; [done |].
  destruct (key_eqb k k') eqn:E.
  - apply key_eqb_eq in E. subst. set_solver.
  - set_solver.
Qed.

Lemma in_order_complete {A} k (a : A) t : assoc (KStr k) t = Some a -> a ∈ in_order t.
Proof.
  intros Ha. unfold in_order. apply list_elem_of_omap. exists k. split; [| done].
  unfold for_in. apply elem_of_ordered_names. by eapply assoc_elem_of.
Qed.

(** C3 (amended).  When the getter and setter passes of a call of
    [updateBindings] leave a table [parentsMap] of pending parents and the
    call completes, then for every parent in the table the engine called
    [loaded] on it and next [updateBindings] on it, with names [null], the
    update kind [parentUpdateType updateType], and a visited set that holds
    the caller's set and the current record.  [parentUpdateType] maps live
    and init to live and leaves default as it is. *)
Theorem updateBindings_propagates fuel e names ut seen s this pm s1 out s' :
  entries s !! e = Some this ->
  shouldUpdateParents_of this ut && seen_has seen e = false ->
  updateBindings_passes e names ut (shouldUpdateParents_of this ut)
    (with_trace (trace s ++ [EvUpdateBindings e names ut seen]) s) = Ok (Some pm) s1 ->
  updateBindings (S fuel) e names ut seen s = Some (Ok out s') ->
  (forall k p, assoc (KStr k) pm = Some p ->
     exists t1 t2 set_p,
       trace s' = t1 ++ EvLoaded p
                     :: EvUpdateBindings p NamesNull (parentUpdateType ut) (Some set_p) :: t2
       /\ seen_set seen ∪ {[e]} ⊆ set_p)
  /\ parentUpdateType UPDATE_TYPE_DEFAULT = UPDATE_TYPE_DEFAULT
  /\ parentUpdateType UPDATE_TYPE_INIT = UPDATE_TYPE_LIVE
  /\ parentUpdateType UPDATE_TYPE_LIVE = UPDATE_TYPE_LIVE.
Proof.
  intros Hthis Hguard Hpass E. split; [| done].
  intros k p Hp. simpl in E. unfold bind, log, get_entry in E. simpl in E.
  rewrite Hthis, Hguard, Hpass in E. cbv zeta in E.
  destruct (propagate _ _ _ _) as [[setf sf | err sf] |] eqn:EP; try discriminate.
  injection E as _ <-.
  eapply propagate_calls in EP; [| by eapply in_order_complete].
  exact EP.
Qed.
(** *** The flags of [importedBindings] *)

#[local] Instance flags_kept_preorder : PreOrder flags_kept.
Proof.
  split.
  - intros s p en He. eauto.
  - intros a b c Hab Hbc p en He.
    destruct (Hab _ _ He) as (en1 & He1 & K1). destruct (Hbc _ _ He1) as (en2 & He2 & K2).
    eauto.
Qed.

Lemma flags_kept_modify e f :
  (forall en k b, assoc k (importedBindings en) = Some b ->
                  assoc k (importedBindings (f en)) = Some b) ->
  respects flags_kept (modify_entry e f).
Proof.
  intros Hf s p en He. simpl. destruct (decide (e = p)) as [<- | Hne].
  - exists (f en). rewrite lookup_alter_eq, He. eauto.
  - exists en. rewrite lookup_alter_ne by done. eauto.
Qed.

Lemma flags_kept_addSetter e name localNames fn type parentEntry :
  respects flags_kept (addSetter e name localNames fn type parentEntry).
Proof.
  unfold addSetter. resp.
  - apply flags_kept_modify. intros en k b Hk. by destruct (assoc_has name (setters en)).
  - apply flags_kept_modify. intros en k b Hk. exact Hk.
  - intros nm. apply flags_kept_modify. intros en k b Hk. unfold seed_imported, assoc_has.
    destruct (assoc nm (importedBindings en)) eqn:Ea; [done |]. simpl.
    destruct (decide (nm = k)) as [<- | Hne]; [congruence |]. by rewrite assoc_set_ne.
Qed.

(** *** Export resolution keeps the tables *)

#[local] Instance tables_kept_preorder : PreOrder tables_kept.
Proof.
  split.
  - intros s. split; [done |]. intros e en He. exists en. eauto 10 using entry_rel_refl.
  - intros a b c [T1 H1] [T2 H2]. split; [congruence |]. intros e en He.
    destruct (H1 _ _ He) as (en1 & He1 & S1 & G1 & L1 & C1 & R1).
    destruct (H2 _ _ He1) as (en2 & He2 & S2 & G2 & L2 & C2 & R2).
    exists en2. repeat (split; [congruence |]). eauto using entry_rel_trans.
Qed.

#[local] Instance tables_kept_heap : HeapFrame tables_kept.
Proof.
  split; [apply _ | |]; intros; (split; [done |]); intros e en He; exists en;
    eauto 10 using entry_rel_refl.
Qed.

Lemma tables_kept_modify e f :
  (forall en, setters (f en) = setters en /\ getters (f en) = getters en
              /\ _loaded (f en) = _loaded en /\ _changed (f en) = _changed en
              /\ entry_rel en (f en)) ->
  respects tables_kept (modify_entry e f).
Proof.
  intros Hf s. split; [done |]. intros e' en He. simpl.
  destruct (decide (e = e')) as [<- | Hne].
  - exists (f en). rewrite lookup_alter_eq, He. split; [done |]. apply Hf.
  - exists en. rewrite lookup_alter_ne by done. eauto 10 using entry_rel_refl.
Qed.

Ltac same_tables := intros; repeat (split; [reflexivity |]); same_entry.

#[local] Hint Extern 1 (respects tables_kept (modify_entry _ _)) =>
  apply tables_kept_modify; same_tables : frame.

Lemma kept_ns_write e o : respects tables_kept (ns_write e SlotNamespace o).
Proof. unfold ns_write. resp. Qed.
#[local] Hint Resolve kept_ns_write : frame.

Lemma kept_call_closure c e args : respects tables_kept (call_closure c e SlotNamespace args).
Proof. unfold call_closure. resp. Qed.
#[local] Hint Resolve kept_call_closure : frame.

Lemma kept_ns_get e k : respects tables_kept (ns_get e SlotNamespace k).
Proof. unfold ns_get. resp. Qed.

Lemma tables_kept_modify_at e f s en :
  entries s !! e = Some en ->
  setters (f en) = setters en -> getters (f en) = getters en ->
  _loaded (f en) = _loaded en -> _changed (f en) = _changed en ->
  entry_rel en (f en) ->
  tables_kept s (final_state (modify_entry e f s)).
Proof.
  intros He Hs Hg Hl Hc Hr. split; [done |]. intros e' en' He'. simpl.
  destruct (decide (e = e')) as [<- | Hne].
  - rewrite He in He'. injection He' as <-.
    exists (f en). rewrite lookup_alter_eq, He. eauto 10.
  - exists en'. rewrite lookup_alter_ne by done. eauto 10 using entry_rel_refl.
Qed.

Lemma kept_get_type e : respects tables_kept (get_type e).
Proof.
  intros s. unfold get_type, bind, get_entry.
  destruct (entries s !! e) as [en |] eqn:He; [| reflexivity].
  destruct (entry_type en) as [[|] | t] eqn:Ht; [| | reflexivity].
  - transitivity (final_state (modify_entry e (set_entry_type (TypeValue TYPE_ESM)) s));
      [| reflexivity].
    apply (tables_kept_modify_at e _ s en He); try reflexivity.
    apply entry_rel_same; try reflexivity. by apply (type_kept_deferred _ _ true).
  - transitivity (final_state
                    (modify_entry e (fun en => set_entry_type (TypeValue TYPE_CJS)
                                                 (set_entry_namespace NsTypeProxy en)) s));
      [| reflexivity].
    apply (tables_kept_modify_at e _ s en He); try reflexivity.
    apply entry_rel_same; try reflexivity. by apply (type_kept_deferred _ _ false).
Qed.
#[local] Hint Resolve kept_ns_get kept_get_type : frame.

Lemma kept_namespace_get e k : respects tables_kept (namespace_get e k).
Proof. unfold namespace_get. resp. Qed.
#[local] Hint Resolve kept_namespace_get : frame.

Lemma kept_call_getter g : respects tables_kept (call_getter g).
Proof. unfold call_getter. resp. Qed.
#[local] Hint Resolve kept_call_getter : frame.

Lemma kept_tryGetter g : respects tables_kept (tryGetter g).
Proof. unfold tryGetter, try_catch_js. resp. Qed.
#[local] Hint Resolve kept_tryGetter : frame.

Lemma kept_getExportByName e name p : respects tables_kept (getExportByName e name p).
Proof. unfold getExportByName. resp. Qed.

Lemma kept_getExportByNameFast e name p : respects tables_kept (getExportByNameFast e name p).
Proof. unfold getExportByNameFast. resp. Qed.
Lemma tables_kept_lookup s s' e en :
  tables_kept s s' -> entries s !! e = Some en ->
  exists en', entries s' !! e = Some en' /\ setters en' = setters en
              /\ getters en' = getters en /\ _loaded en' = _loaded en
              /\ _changed en' = _changed en /\ entry_rel en en'.
Proof. intros [_ Hk] He. eauto. Qed.

Lemma entry_rel_module en en' : entry_rel en en' -> entry_module en' = entry_module en.
Proof. intros [Hc _ _ _]. unfold entry_core in Hc. congruence. Qed.

(** The setter pass of a name whose last setter resolves to the conflict
    sentinel: the conflict is met at the first turn. *)
Lemma pass_conflict_first {A} (callback : setter -> A -> M A)
    s e name ut acc en l st ty s1 s2 :
  entries s !! e = Some en ->
  assoc name (setters en) = Some (l ++ [st]) ->
  get_type e s = Ok ty s1 ->
  (if bool_decide (ty = TYPE_ESM)
   then getExportByNameFast e name (s_parent st)
   else getExportByName e name (s_parent st)) s1 = Ok ERROR_STAR s2 ->
  let s3 := final_state (write_setters e name l s2) in
  runSetter e name callback ut acc s
  = Throw (ERR_EXPORT_STAR_CONFLICT (entry_module en) name) s3
  /\ trace s3 = trace s
  /\ (exists en3, entries s3 !! e = Some en3
                  /\ assoc name (setters en3) = Some l
                  /\ (forall name', name' <> name ->
                       assoc name' (setters en3) = assoc name' (setters en))
                  /\ getters en3 = getters en
                  /\ entry_rel en en3).
Proof.
  intros He Hl Hty Hres s3.
  pose proof (kept_get_type e s) as K1. rewrite Hty in K1. simpl in K1.
  destruct (tables_kept_lookup _ _ _ _ K1 He) as (en1 & He1 & S1 & G1 & L1 & C1 & R1).
  assert (tables_kept s1 s2) as K2.
  { destruct (bool_decide (ty = TYPE_ESM)).
    - pose proof (kept_getExportByNameFast e name (s_parent st) s1) as K. by rewrite Hres in K.
    - pose proof (kept_getExportByName e name (s_parent st) s1) as K. by rewrite Hres in K. }
  destruct (tables_kept_lookup _ _ _ _ K2 He1) as (en2 & He2 & S2 & G2 & L2 & C2 & R2).
  split; [| split].
  - unfold runSetter. unfold bind at 1. unfold get_entry at 1. rewrite He, Hl.
    unfold bind at 1. rewrite Hty. unfold bind at 1. unfold get_entry at 1. rewrite He1.
    cbv zeta. rewrite length_app. simpl. rewrite Nat.add_1_r. simpl.
    unfold bind at 1. unfold runSetter_step.
    unfold bind at 1. unfold get_entry at 1. rewrite He1.
    unfold setters_of at 1. rewrite S1, Hl. simpl.
    rewrite list_lookup_middle by done.
    unfold bind at 1. rewrite Hres. simpl.
    unfold bind at 1. unfold get_entry at 1. rewrite He2.
    unfold setters_of. rewrite S2, S1, Hl. simpl.
    replace (delete (length l) (l ++ [st])) with l
      by (rewrite delete_middle; by rewrite app_nil_r).
    unfold bind, write_setters, modify_entry, throw. simpl.
    rewrite (entry_rel_module _ _ R2), (entry_rel_module _ _ R1). reflexivity.
  - subst s3. simpl. destruct K1 as [T1 _]. destruct K2 as [T2 _]. congruence.
  - subst s3. simpl. eexists. rewrite lookup_alter_eq, He2. simpl. split; [reflexivity |].
    simpl. split; [apply assoc_set_eq |]. split.
    { intros name' Hne. rewrite assoc_set_ne by done. congruence. }
    split; [congruence |].
    eapply entry_rel_trans; [exact R1 |]. eapply entry_rel_trans; [exact R2 |].
    same_entry.
Qed.

Lemma pass_over_empty {A} (callback : setter -> A -> M A) e name ut acc s' en' ty' s1' :
  entries s' !! e = Some en' ->
  assoc name (setters en') = Some [] ->
  get_type e s' = Ok ty' s1' ->
  runSetter e name callback ut acc s' = Ok acc s1'.
Proof.
  intros He' Hl' Hty'.
  pose proof (kept_get_type e s') as K. rewrite Hty' in K. simpl in K.
  destruct (tables_kept_lookup _ _ _ _ K He') as (en1' & He1' & _).
  unfold runSetter. unfold bind at 1. unfold get_entry at 1. rewrite He', Hl'.
  unfold bind at 1. rewrite Hty'. unfold bind, get_entry. rewrite He1'. reflexivity.
Qed.

(** *** When the setter pass calls a setter *)

Lemma get_entry_ok e s en : entries s !! e = Some en -> get_entry e s = Ok en s.
Proof. intros He. unfold get_entry. by rewrite He. Qed.

Lemma delete_insert_same {A} (l : list A) i x : delete i (<[i := x]> l) = delete i l.
Proof.
  revert i. induction l as [| y l IH]; intros [| i]; simpl; auto. by rewrite IH.
Qed.

#[local] Hint Extern 1 (respects tables_kept (modify_entry _ (mark_imported _))) =>
  apply tables_kept_modify; intros; repeat (split; [reflexivity |]);
  apply entry_rel_mark_imported : frame.

Lemma kept_update_callback sup st pm : respects tables_kept (update_callback sup st pm).
Proof. unfold update_callback. resp. Qed.

(** In a turn of the setter pass whose resolved value is not the conflict
    sentinel, the setter is called exactly when it is due, and a setter
    that is not due leaves the state as the resolution left it.  A setter
    whose resolved value equals its last observed value is due only when
    it is a dynamic-import setter of a completely loaded exporter, or an
    export-from setter, or a namespace setter after a getter pass that
    changed the namespace, or when the update kind is init.  A
    dynamic-import setter of a loaded exporter is removed from the list
    when its call returns a truthy value and stays in the list
    otherwise. *)
Lemma turn_due_rule sup s e name ut (isESM isLoaded isNsChanged : bool) i acc
    en st (v : value) s1 :
  entries s !! e = Some en ->
  setters_of name en !! i = Some st ->
  (if isESM then getExportByNameFast e name (s_parent st)
   else getExportByName e name (s_parent st)) s = Ok v s1 ->
  v <> ERROR_STAR ->
  let r := runSetter_step e name (update_callback sup) ut isESM isLoaded isNsChanged i acc s in
  let due := setter_due st v ut isLoaded isNsChanged in
  (due = false -> r = Ok acc s1)
  /\ (due = true ->
      trace (final_state r) = trace s ++ [EvSetter e name (s_fn st) (setterValue v)])
  /\ (Object_is (s_last st) v = true ->
      due = isLoaded && bool_decide (s_type st = SETTER_TYPE_DYNAMIC_IMPORT)
            || bool_decide (s_type st = SETTER_TYPE_EXPORT_FROM)
            || isNsChanged && bool_decide (s_type st = SETTER_TYPE_NAMESPACE)
            || bool_decide (ut = UPDATE_TYPE_INIT))
  /\ (isLoaded = true -> s_type st = SETTER_TYPE_DYNAMIC_IMPORT ->
      forall res u',
        host_call (s_fn st) [setterValue v; VEntry e] (host s1) = (Some res, u') ->
        exists en', entries (final_state r) !! e = Some en'
                    /\ setters_of name en'
                       = if truthy res then delete i (setters_of name en)
                         else <[i := set_last v st]> (setters_of name en)).
Proof.
  intros He Hst Hres Hstar r due.
  assert (tables_kept s s1) as K.
  { destruct isESM.
    - pose proof (kept_getExportByNameFast e name (s_parent st) s) as K. by rewrite Hres in K.
    - pose proof (kept_getExportByName e name (s_parent st) s) as K. by rewrite Hres in K. }
  destruct (tables_kept_lookup _ _ _ _ K He) as (en1 & He1 & S1 & G1 & L1 & C1 & R1).
  destruct K as [T1 _].
  assert (setters_of name en1 = setters_of name en) as Hl1 by (unfold setters_of; by rewrite S1).
  assert (r = if due then
                bind (write_setters e name (<[i := set_last v st]> (setters_of name en1)))
                  (fun _ => bind (log (EvSetter e name (s_fn st) (setterValue v)))
                  (fun _ => bind (host_fn (s_fn st) [setterValue v; VEntry e])
                  (fun result =>
                     if truthy result then
                       bind (if isLoaded && bool_decide (s_type st = SETTER_TYPE_DYNAMIC_IMPORT)
                             then bind (get_entry e) (fun entry =>
                                    write_setters e name (delete i (setters_of name entry)))
                             else ret tt)
                            (fun _ => update_callback sup (set_last v st) acc)
                     else if bool_decide (s_type st = SETTER_TYPE_EXPORT_FROM)
                             && negb (setter_changed st v)
                     then ret acc
                     else update_callback sup (set_last v st) acc))) s1
              else Ok acc s1) as Hr.
  { subst r due. unfold runSetter_step.
    unfold bind at 1. unfold get_entry at 1. rewrite He, Hst.
    unfold bind at 1. rewrite Hres.
    rewrite bool_decide_eq_false_2 by done. cbv zeta.
    fold (setter_changed st v). fold (setterValue v).
    change (_ || _ || _ || _ || _) with (setter_due st v ut isLoaded isNsChanged).
    destruct (setter_due st v ut isLoaded isNsChanged); [| reflexivity].
    unfold bind at 1. unfold get_entry at 1. rewrite He1. reflexivity. }
  split; [| split; [| split]].
  - intros Hdue. by rewrite Hr, Hdue.
  - intros Hdue. rewrite Hr, Hdue.
    unfold bind at 1. unfold write_setters at 1, modify_entry at 1.
    unfold bind at 1. unfold log at 1.
    match goal with |- trace (final_state (bind ?m ?k ?st1)) = _ =>
      assert (respects (frame_rel true) (bind m k)) as Hq end.
    { resp. }
    match goal with |- trace (final_state (?m ?st1)) = _ =>
      destruct (Hq st1) as [_ Ht] end.
    rewrite Ht. simpl. by rewrite T1.
  - intros Hsame. subst due. unfold setter_due, setter_changed. rewrite Hsame.
    simpl. by rewrite andb_false_r.
  - intros -> Hdyn res u' Hcall.
    assert (due = true) as Hdue.
    { subst due. unfold setter_due. rewrite Hdyn. simpl. by rewrite orb_true_r. }
    rewrite Hr, Hdue.
    unfold bind at 1. unfold write_setters at 1, modify_entry at 1.
    unfold bind at 1. unfold log at 1.
    unfold bind at 1. unfold host_fn at 1. simpl. rewrite Hcall.
    rewrite Hdyn. simpl.
    match goal with |- context [alter ?f e (entries s1)] => set (up := f) end.
    set (s1' := with_host u' _).
    assert (entries s1' !! e = Some (up en1)) as He1'.
    { subst s1'. simpl. by rewrite lookup_alter_eq, He1. }
    assert (setters_of name (up en1) = <[i := set_last v st]> (setters_of name en)) as Hup.
    { subst up. unfold setters_of at 1. simpl. rewrite assoc_set_eq. simpl. by rewrite Hl1. }
    destruct (truthy res).
    + unfold bind. rewrite (get_entry_ok _ _ _ He1').
      unfold write_setters, modify_entry. rewrite Hup, delete_insert_same.
      match goal with |- context [update_callback sup ?a ?b ?st2] =>
        pose proof (kept_update_callback sup a b st2) as Kc;
        set (s2 := st2) in * end.
      assert (entries s2 !! e = Some (set_setters (assoc_set name (delete i (setters_of name en))
                                               (setters (up en1))) (up en1))) as He2.
      { subst s2. cbn [entries with_entries]. by rewrite lookup_alter_eq, He1'. }
      destruct (tables_kept_lookup _ _ _ _ Kc He2) as (en3 & He3 & S3 & _).
      exists en3. split; [exact He3 |]. unfold setters_of. rewrite S3. simpl.
      by rewrite assoc_set_eq.
    + pose proof (kept_update_callback sup (set_last v st) acc s1') as Kc.
      destruct (tables_kept_lookup _ _ _ _ Kc He1') as (en3 & He3 & S3 & _).
      exists en3. split; [exact He3 |]. unfold setters_of in *. by rewrite S3.
Qed.
(** *** Export resolution *)

Lemma bool_decide_type_esm ty : negb (bool_decide (ty = TYPE_ESM)) = true <-> ty <> TYPE_ESM.
Proof. rewrite negb_true_iff, bool_decide_eq_false. tauto. Qed.

(** C5 (amended).  Export resolution for an exporter E, a name and an
    importer I.  Named exports are in effect for I when I is not an [.mjs]
    file and its configuration has [cjs.namedExports] on.  If they are not in
    effect, E is not declarative (its type is not [TYPE_ESM]) and the name is
    ["default"], the result is E's whole exported value.  Otherwise, for a
    name other than ["*"], the result is [ERROR_GETTER] when [E.getters] has
    no entry for the name, and else the value the getter returns, with
    [ERROR_GETTER] in place of anything the getter throws. *)
Theorem getExportByName_resolution s e name p entry parent :
  entries s !! e = Some entry ->
  entries s !! p = Some parent ->
  let named := negb (is_mjs (extname parent)) && cjs_namedExports (entry_package parent) in
  let lookup (s0 : State) : Res value :=
    match assoc name (getters entry) with
    | None => Ok ERROR_GETTER s0
    | Some g =>
        match call_getter (g_fn g) s0 with
        | Ok v s' => Ok v s'
        | Throw err s' => if catchable err then Ok ERROR_GETTER s' else Throw err s'
        end
    end in
  (forall ty s1, named = false -> get_type e s = Ok ty s1 -> ty <> TYPE_ESM ->
                 name = KStr "default" ->
                 getExportByName e name p s = Ok (exports entry) s1)
  /\ (forall ty s1, named = false -> get_type e s = Ok ty s1 ->
                    ty = TYPE_ESM \/ name <> KStr "default" ->
                    name <> KStr "*" ->
                    getExportByName e name p s = lookup s1)
  /\ (named = true -> name <> KStr "*" -> getExportByName e name p s = lookup s).
Proof.
  intros He Hp named lookup.
  assert (forall s0 entry0, entries s0 !! e = Some entry0 -> getters entry0 = getters entry ->
            bind (get_entry e) (fun entry =>
              if assoc_has name (getters entry) then tryGetter (assoc name (getters entry))
              else ret ERROR_GETTER) s0 = lookup s0) as Hlook.
  { intros s0 entry0 He0 Hg. unfold bind. rewrite (get_entry_ok _ _ _ He0). rewrite Hg.
    subst lookup. cbv beta. unfold assoc_has.
    destruct (assoc name (getters entry)) as [g |]; [| reflexivity].
    unfold tryGetter, try_catch_js, try_catch.
    destruct (call_getter (g_fn g) s0) as [v s' | err s']; [reflexivity |].
    by destruct (catchable err). }
  split; [| split].
  - intros ty s1 Hnamed Hty Hne ->.
    unfold getExportByName. unfold bind at 1. rewrite (get_entry_ok _ _ _ He).
    unfold bind at 1. rewrite (get_entry_ok _ _ _ Hp). cbv zeta.
    fold named. rewrite Hnamed. simpl. unfold bind at 1. unfold bind at 1. rewrite Hty.
    unfold ret at 1. apply bool_decide_type_esm in Hne. rewrite Hne. reflexivity.
  - intros ty s1 Hnamed Hty Hcase Hstar.
    pose proof (kept_get_type e s) as K. rewrite Hty in K. simpl in K.
    destruct (tables_kept_lookup _ _ _ _ K He) as (en1 & He1 & _ & G1 & _).
    unfold getExportByName. unfold bind at 1. rewrite (get_entry_ok _ _ _ He).
    unfold bind at 1. rewrite (get_entry_ok _ _ _ Hp). cbv zeta.
    fold named. rewrite Hnamed. simpl. unfold bind at 1. unfold bind at 1. rewrite Hty.
    unfold ret at 1.
    assert (negb (bool_decide (ty = TYPE_ESM)) && key_eqb name (KStr "default") = false) as ->.
    { destruct Hcase as [-> | Hn]; [done |]. rewrite (key_eqb_ne _ _ Hn). apply andb_false_r. }
    rewrite (key_eqb_ne _ _ Hstar). simpl. by eapply Hlook.
  - intros Hnamed Hstar.
    unfold getExportByName. unfold bind at 1. rewrite (get_entry_ok _ _ _ He).
    unfold bind at 1. rewrite (get_entry_ok _ _ _ Hp). cbv zeta.
    fold named. rewrite Hnamed. simpl. unfold bind at 1. unfold ret at 1.
    rewrite (key_eqb_ne _ _ Hstar). simpl. by eapply Hlook.
Qed.
(** *** The traps of the read-only views *)

Lemma immutable_set_spec s e en v name frames :
  entries s !! e = Some en ->
  immutable_set frames e v name s
  = (if isCalledFromStrictCode frames
     then Throw (if has_property (raw_of (SlotView v) en) name
                 then ERR_NS_ASSIGNMENT (entry_module en) name
                 else ERR_NS_EXTENSION (entry_module en) name) s
     else Ok false s).
Proof.
  intros He. unfold immutable_set.
  destruct (isCalledFromStrictCode frames); [| reflexivity]. cbn [negb].
  unfold bind. rewrite (get_entry_ok _ _ _ He). by destruct (has_property _ name).
Qed.

Lemma immutable_deleteProperty_spec s e en v name frames :
  entries s !! e = Some en ->
  immutable_deleteProperty frames e v name s
  = match delete_own (raw_of (SlotView v) en) name with
    | Some o' => Ok true (final_state (ns_write e (SlotView v) o' s))
    | None => if isCalledFromStrictCode frames
              then Throw (ERR_NS_DELETION (entry_module en) name) s else Ok false s
    end.
Proof.
  intros He. unfold immutable_deleteProperty, delete_raw, ns_read.
  unfold bind at 1. unfold bind at 1. unfold bind at 1.
  rewrite (get_entry_ok _ _ _ He). unfold ret at 1.
  destruct (delete_own _ name) as [o' |]; [reflexivity |].
  unfold ret at 1. destruct (isCalledFromStrictCode frames); [| reflexivity]. cbn [negb].
  unfold bind. by rewrite (get_entry_ok _ _ _ He).
Qed.

Lemma immutable_defineProperty_spec s e en v name frames descriptor :
  entries s !! e = Some en ->
  immutable_defineProperty frames e v name descriptor s
  = match (if finalized en
              && negb (bool_decide (d_writable descriptor = Some false)
                       && bool_decide (d_value descriptor = None)
                       && has_property (raw_of (SlotView v) en) name)
           then define_own (raw_of (SlotView v) en) name descriptor else None) with
    | Some o' =>
        Ok (key_eqb name KToStringTag
            || assoc_has name (importedBindings en)
            || bool_decide (default VUndef (d_value descriptor) = VUndef))
           (final_state (ns_write e (SlotView v) o' s))
    | None =>
        if isCalledFromStrictCode frames
        then Throw (if has_property (raw_of (SlotView v) en) name
                    then ERR_NS_REDEFINITION (entry_module en) name
                    else ERR_NS_DEFINITION (entry_module en) name) s
        else Ok false s
    end.
Proof.
  intros He. unfold immutable_defineProperty. unfold bind at 1.
  rewrite (get_entry_ok _ _ _ He). cbv zeta.
  destruct (finalized en && _);
    [| by destruct (isCalledFromStrictCode frames), (has_property _ name)].
  destruct (define_own _ name descriptor) as [o' |];
    [reflexivity | by destruct (isCalledFromStrictCode frames), (has_property _ name)].
Qed.

(** C7 (amended).  The traps of a read-only namespace view, for a caller
    whose context [isCalledFromStrictCode] judges from the stack.  An
    assignment is always rejected.  A deletion is rejected when the raw
    object refuses it, that is when the key is present and not configurable;
    the deletion of an absent key succeeds.  A definition is rejected when
    the namespace is not finalized, when the descriptor has [writable: false]
    and no value and the key is present, or when the raw object refuses the
    descriptor.  Every rejected operation throws its namespace error exactly
    when the caller is strict, and otherwise returns [false]; in both cases
    the state is unchanged.  A definition that the raw object accepts is
    applied to it and throws no namespace error, whatever the caller. *)
Theorem immutable_traps s e en v name frames descriptor :
  entries s !! e = Some en ->
  let strict := isCalledFromStrictCode frames in
  let namespace := raw_of (SlotView v) en in
  let m := entry_module en in
  immutable_set frames e v name s
  = (if strict
     then Throw (if has_property namespace name
                 then ERR_NS_ASSIGNMENT m name else ERR_NS_EXTENSION m name) s
     else Ok false s)
  /\ immutable_deleteProperty frames e v name s
     = match delete_own namespace name with
       | Some o' => Ok true (final_state (ns_write e (SlotView v) o' s))
       | None => if strict then Throw (ERR_NS_DELETION m name) s else Ok false s
       end
  /\ immutable_defineProperty frames e v name descriptor s
     = match (if finalized en
                 && negb (bool_decide (d_writable descriptor = Some false)
                          && bool_decide (d_value descriptor = None)
                          && has_property namespace name)
              then define_own namespace name descriptor else None) with
       | Some o' =>
           Ok (key_eqb name KToStringTag
               || assoc_has name (importedBindings en)
               || bool_decide (default VUndef (d_value descriptor) = VUndef))
              (final_state (ns_write e (SlotView v) o' s))
       | None =>
           if strict
           then Throw (if has_property namespace name
                       then ERR_NS_REDEFINITION m name else ERR_NS_DEFINITION m name) s
           else Ok false s
       end.
Proof.
  intros He strict namespace m. split; [| split].
  - by apply immutable_set_spec.
  - by apply immutable_deleteProperty_spec.
  - by apply immutable_defineProperty_spec.
Qed.
(** *** Sealed raw objects *)

Lemma sealedb_seal (o : nsobj) : sealedb (seal o) = true.
Proof.
  unfold sealedb, seal. simpl. apply forallb_forall. intros [k p] Hin.
  apply in_map_iff in Hin as ([k' p'] & [= <- <-] & _). by destruct p'.
Qed.

Lemma own_names_assoc_set (k : key) (p : prop closure) l :
  assoc k l <> None -> map fst (assoc_set k p l) = map fst l.
Proof.
  induction l as [| [k' p'] l IH]; simpl; [done |].
  destruct (key_eqb k k') eqn:E; simpl.
  - apply key_eqb_eq in E. by subst.
  - intros Hk. by rewrite IH.
Qed.

Lemma forallb_assoc_set (f : key * prop closure -> bool) k p l :
  forallb f l = true -> f (k, p) = true -> forallb f (assoc_set k p l) = true.
Proof.
  intros Hl Hp. induction l as [| [k' p'] l IH]; simpl in *; [by rewrite Hp |].
  apply andb_true_iff in Hl as [H1 H2].
  destruct (key_eqb k k'); simpl; rewrite ?Hp, ?H1, ?H2; auto.
Qed.

Lemma forallb_assoc (f : key * prop closure -> bool) k p l :
  forallb f l = true -> assoc k l = Some p -> f (k, p) = true.
Proof.
  intros Hl Hk. induction l as [| [k' p'] l IH]; simpl in *; [done |].
  apply andb_true_iff in Hl as [H1 H2].
  destruct (key_eqb k k') eqn:E; auto.
  apply key_eqb_eq in E. injection Hk as <-. by subst.
Qed.

Lemma redefine_prop_sealed (cur : prop closure) (d : descriptor closure) p :
  prop_configurable cur = false -> redefine_prop cur d = Some p ->
  prop_configurable p = false.
Proof.
  intros Hc. unfold redefine_prop. rewrite Hc. simpl.
  destruct (d_configurable d) as [[|] |] eqn:Ec; simpl; try discriminate.
  - repeat (match goal with
            | |- context [if ?b then _ else _] => destruct b
            | |- context [match ?x with _ => _ end] => destruct x
            end; simpl; try discriminate); intros [= <-]; reflexivity.
  - repeat (match goal with
            | |- context [if ?b then _ else _] => destruct b
            | |- context [match ?x with _ => _ end] => destruct x
            end; simpl; try discriminate); intros [= <-]; reflexivity.
Qed.

Lemma define_own_sealed (o : nsobj) k d o' :
  sealedb o = true -> define_own o k d = Some o' ->
  own_names o' = own_names o /\ sealedb o' = true.
Proof.
  unfold sealedb, define_own, own_names, get_own. intros Hs.
  apply andb_true_iff in Hs as [Hext Hall]. apply negb_true_iff in Hext.
  destruct (assoc k (o_props o)) as [cur |] eqn:Hk; [| by rewrite Hext].
  destruct (redefine_prop cur d) as [p |] eqn:Hr; [| done]. intros [= <-]. simpl.
  split.
  - apply own_names_assoc_set. by rewrite Hk.
  - rewrite Hext. simpl. apply forallb_assoc_set; [done |]. simpl.
    apply negb_true_iff. eapply redefine_prop_sealed; [| exact Hr].
    apply negb_true_iff. by apply (forallb_assoc _ _ _ _ Hall Hk).
Qed.

Lemma delete_own_sealed (o : nsobj) k o' :
  sealedb o = true -> delete_own o k = Some o' -> o' = o.
Proof.
  unfold sealedb, delete_own, get_own. intros Hs.
  apply andb_true_iff in Hs as [_ Hall].
  destruct (assoc k (o_props o)) as [cur |] eqn:Hk; [| congruence].
  pose proof (forallb_assoc _ _ _ _ Hall Hk) as Hc. simpl in Hc.
  apply negb_true_iff in Hc. by rewrite Hc.
Qed.

Lemma sealedb_prevent_extensions (o : nsobj) :
  sealedb o = true -> sealedb (prevent_extensions o) = true.
Proof. unfold sealedb, prevent_extensions. simpl. intros H0. by apply andb_true_iff in H0 as [_ ->]. Qed.
Lemma view_kept_same e v en s : entries s !! e = Some en -> view_kept e v en s.
Proof. intros He. exists en. by repeat split. Qed.

Lemma raw_of_set_raw v o en : raw_of (SlotView v) (set_raw (SlotView v) o en) = o.
Proof. by destruct v. Qed.

Lemma raw_of_set_raw_ne v v' o en :
  v' <> v -> raw_of (SlotView v') (set_raw (SlotView v) o en) = raw_of (SlotView v') en.
Proof. by destruct v, v'. Qed.

Lemma finalized_set_raw sl o en : finalized (set_raw sl o en) = finalized en.
Proof. by destruct sl as [| []]. Qed.

Lemma view_kept_write e v en o' s :
  entries s !! e = Some en ->
  (sealedb (raw_of (SlotView v) en) = true ->
   own_names o' = own_names (raw_of (SlotView v) en) /\ sealedb o' = true) ->
  view_kept e v en (final_state (ns_write e (SlotView v) o' s)).
Proof.
  intros He Ho. exists (set_raw (SlotView v) o' en).
  split; [| split; [| split]].
  - unfold ns_write, modify_entry. cbn [final_state entries with_entries]. by rewrite lookup_alter_eq, He.
  - apply finalized_set_raw.
  - intros v' Hv. by apply raw_of_set_raw_ne.
  - rewrite raw_of_set_raw. exact Ho.
Qed.

Lemma view_kept_set e v en s frames name :
  entries s !! e = Some en ->
  view_kept e v en (final_state (immutable_set frames e v name s)).
Proof.
  intros He. rewrite (immutable_set_spec _ _ _ _ _ _ He).
  destruct (isCalledFromStrictCode frames); by apply view_kept_same.
Qed.

Lemma view_kept_deleteProperty e v en s frames name :
  entries s !! e = Some en ->
  view_kept e v en (final_state (immutable_deleteProperty frames e v name s)).
Proof.
  intros He. rewrite (immutable_deleteProperty_spec _ _ _ _ _ _ He).
  destruct (delete_own _ name) as [o' |] eqn:Hd.
  - apply view_kept_write; [done |]. intros Hs.
    rewrite (delete_own_sealed _ _ _ Hs Hd). by split.
  - destruct (isCalledFromStrictCode frames); by apply view_kept_same.
Qed.

Lemma view_kept_defineProperty e v en s frames name descriptor :
  entries s !! e = Some en ->
  view_kept e v en (final_state (immutable_defineProperty frames e v name descriptor s)).
Proof.
  intros He. rewrite (immutable_defineProperty_spec _ _ _ _ _ _ _ He).
  destruct (finalized en && _).
  - destruct (define_own _ name descriptor) as [o' |] eqn:Hd.
    + apply view_kept_write; [done |]. intros Hs. by apply (define_own_sealed _ _ _ _ Hs Hd).
    + destruct (isCalledFromStrictCode frames); by apply view_kept_same.
  - destruct (isCalledFromStrictCode frames); by apply view_kept_same.
Qed.

Lemma common_preventExtensions_spec e v en s :
  entries s !! e = Some en ->
  common_preventExtensions e v s
  = if finalized en
    then Ok true (final_state
                    (ns_write e (SlotView v) (prevent_extensions (raw_of (SlotView v) en)) s))
    else Ok false s.
Proof.
  intros He. unfold common_preventExtensions. unfold bind at 1.
  rewrite (get_entry_ok _ _ _ He). by destruct (finalized en).
Qed.

Lemma view_kept_preventExtensions e v en s :
  entries s !! e = Some en ->
  view_kept e v en (final_state (common_preventExtensions e v s))
  /\ forall en', entries (final_state (common_preventExtensions e v s)) !! e = Some en' ->
     own_names (raw_of (SlotView v) en') = own_names (raw_of (SlotView v) en).
Proof.
  intros He. rewrite (common_preventExtensions_spec _ _ _ _ He). destruct (finalized en).
  - split.
    + apply (view_kept_write e v en _ s He). intros Hs. split; [reflexivity |].
      by apply sealedb_prevent_extensions.
    + unfold ns_write, modify_entry. cbn [final_state entries with_entries].
      rewrite lookup_alter_eq, He. cbn [fmap option_fmap option_map].
      intros en' [= <-]. by destruct v.
  - split; [by apply view_kept_same |]. simpl. rewrite He. by intros en' [= <-].
Qed.
(** *** What [finalizeNamespace] establishes *)

#[local] Instance fin_kept_preorder c e : PreOrder (fin_kept c e).
Proof.
  split.
  - intros s en He. eauto.
  - intros s1 s2 s3 H12 H23 en He.
    destruct (H12 _ He) as (en2 & He2 & F2 & C2).
    destruct (H23 _ He2) as (en3 & He3 & F3 & C3).
    exists en3. split; [done |]. split; [congruence |].
    intros Hc. rewrite (C3 Hc). by apply C2.
Qed.

#[local] Instance fin_kept_heap c e : HeapFrame (fin_kept c e).
Proof. split; [apply _ | |]; intros x s en He; exists en; eauto. Qed.

Lemma fin_kept_modify c e e' f :
  (forall en, _namespaceFinalized (f en) = _namespaceFinalized en
              /\ (c = true -> _completeNamespace (f en) = _completeNamespace en)) ->
  respects (fin_kept c e) (modify_entry e' f).
Proof.
  intros Hf s en He. simpl. destruct (decide (e' = e)) as [-> | Hne].
  - exists (f en). rewrite lookup_alter_eq, He. split; [done |]. apply Hf.
  - exists en. rewrite lookup_alter_ne by done. eauto.
Qed.

#[local] Hint Extern 1 (respects (fin_kept _ _) (modify_entry _ _)) =>
  apply fin_kept_modify; intros; split; reflexivity : frame.

Lemma fin_kept_ns_write c e e' sl o :
  (c = true -> sl <> SlotView Complete) -> respects (fin_kept c e) (ns_write e' sl o).
Proof.
  intros Hsl. unfold ns_write. apply fin_kept_modify. intros en.
  split; [by destruct sl as [| []] |]. intros Hc. specialize (Hsl Hc).
  by destruct sl as [| []].
Qed.

Ltac other_view := solve [ assumption | intros ?; discriminate ].

#[local] Hint Extern 1 (respects (fin_kept _ _) (ns_write _ _ _)) =>
  apply fin_kept_ns_write; other_view : frame.

Lemma fin_kept_call_closure c e cl e' sl args :
  (c = true -> sl <> SlotView Complete) ->
  respects (fin_kept c e) (call_closure cl e' sl args).
Proof. intros Hsl. unfold call_closure. resp. Qed.

#[local] Hint Extern 1 (respects (fin_kept _ _) (call_closure _ _ _ _)) =>
  apply fin_kept_call_closure; other_view : frame.

Lemma fin_kept_ns_set c e e' sl k v :
  (c = true -> sl <> SlotView Complete) -> respects (fin_kept c e) (ns_set e' sl k v).
Proof. intros Hsl. unfold ns_set. resp. Qed.

Lemma fin_kept_delete_raw c e e' sl k :
  (c = true -> sl <> SlotView Complete) -> respects (fin_kept c e) (delete_raw e' sl k).
Proof. intros Hsl. unfold delete_raw. resp. Qed.

Lemma fin_kept_seal_raw c e e' sl :
  (c = true -> sl <> SlotView Complete) -> respects (fin_kept c e) (seal_raw e' sl).
Proof. intros Hsl. unfold seal_raw. resp. Qed.

Lemma fin_kept_get_type c e e' : respects (fin_kept c e) (get_type e').
Proof. unfold get_type. resp. Qed.

#[local] Hint Resolve fin_kept_get_type : frame.
#[local] Hint Extern 1 (respects (fin_kept _ _) (ns_set _ _ _ _)) =>
  apply fin_kept_ns_set; other_view : frame.
#[local] Hint Extern 1 (respects (fin_kept _ _) (delete_raw _ _ _)) =>
  apply fin_kept_delete_raw; other_view : frame.
#[local] Hint Extern 1 (respects (fin_kept _ _) (seal_raw _ _)) =>
  apply fin_kept_seal_raw; other_view : frame.

Lemma bind_inv {A B} (m : M A) (f : A -> M B) s b s' :
  bind m f s = Ok b s' -> exists a s1, m s = Ok a s1 /\ f a s1 = Ok b s'.
Proof. unfold bind. destruct (m s) as [a s1 | err s1]; [eauto | discriminate]. Qed.

Lemma get_type_result e s t s' :
  get_type e s = Ok t s' ->
  exists en', entries s' !! e = Some en' /\ entry_type en' = TypeValue t.
Proof.
  unfold get_type, bind, get_entry.
  destruct (entries s !! e) as [en |] eqn:He; [| discriminate].
  destruct (entry_type en) as [isModule | t0] eqn:Ht; [destruct isModule |];
    cbv [ret modify_entry]; simpl; intros [= <- <-]; simpl;
    rewrite ?lookup_alter_eq, He; eauto.
Qed.

Lemma seal_raw_result e v s s' :
  seal_raw e (SlotView v) s = Ok tt s' ->
  exists en', entries s' !! e = Some en' /\ sealedb (raw_of (SlotView v) en') = true.
Proof.
  unfold seal_raw, ns_read, bind, get_entry.
  destruct (entries s !! e) as [en |] eqn:He; [| discriminate].
  cbv [ret ns_write modify_entry]. intros E. injection E as <-.
  cbn [entries with_entries]. rewrite lookup_alter_eq, He.
  exists (set_raw (SlotView v) (seal (raw_of (SlotView v) en)) en). split; [done |].
  rewrite raw_of_set_raw. apply sealedb_seal.
Qed.

Lemma finalizeNamespace_seals e s en s' :
  entries s !! e = Some en -> finalized en = false ->
  finalizeNamespace e s = Ok tt s' ->
  exists en', entries s' !! e = Some en'
    /\ finalized en' = true
    /\ sealedb (_completeNamespace en') = true
    /\ (entry_type en' = TypeValue TYPE_ESM \/ sealedb (_partialNamespace en') = true).
Proof.
  intros He Hf E. unfold finalizeNamespace in E.
  apply bind_inv in E as (en0 & s0 & E0 & E).
  rewrite (get_entry_ok _ _ _ He) in E0. injection E0 as <- <-.
  unfold finalized in Hf. rewrite Hf in E.
  apply bind_inv in E as ([] & s1 & E1 & E).
  apply bind_inv in E as ([] & s2 & E2 & E).
  apply bind_inv in E as ([] & s3 & E3 & E).
  injection E1 as <-.
  match type of E2 with ?m _ = _ =>
    assert (respects (fin_kept false e) m) as H2 by resp end.
  match type of E with ?m _ = _ =>
    assert (respects (fin_kept true e) m) as H3 by resp end.
  match type of E2 with _ ?s1 = _ =>
    specialize (H2 s1); rewrite E2 in H2;
    destruct (H2 (set_namespaceFinalized NAMESPACE_FINALIZATION_COMPLETED en))
      as (en2 & He2 & F2 & _)
  end.
  { simpl. by rewrite lookup_alter_eq, He. }
  simpl in He2.
  assert (exists en3, entries s3 !! e = Some en3
                      /\ finalized en3 = true
                      /\ sealedb (_completeNamespace en3) = true) as (en3 & He3 & F3 & S3).
  { revert E3. unfold seal_raw, ns_read, bind. rewrite (get_entry_ok _ _ _ He2).
    intros [= <-]. simpl. rewrite lookup_alter_eq, He2. eexists. split; [reflexivity |].
    split; [by unfold finalized; simpl; rewrite F2 |]. simpl. apply sealedb_seal. }
  specialize (H3 s3). rewrite E in H3. simpl in H3.
  destruct (H3 _ He3) as (en' & He' & F' & C').
  exists en'. split; [done |]. split; [by unfold finalized in *; rewrite F' |].
  split; [by rewrite C' |].
  apply bind_inv in E as (t & s4 & E4 & E).
  destruct (get_type_result _ _ _ _ E4) as (en4 & He4 & T4).
  destruct (bool_decide (t = TYPE_ESM)) eqn:Ht; simpl in E.
  - apply bool_decide_eq_true in Ht. subst t. injection E as <-.
    rewrite He4 in He'. injection He' as <-. by left.
  - apply bind_inv in E as (en5 & s5 & _ & E).
    apply bind_inv in E as ([] & s6 & _ & E).
    destruct (seal_raw_result _ _ _ _ E) as (en6 & He6 & S6).
    rewrite He6 in He'. injection He' as <-. by right.
Qed.
Lemma finalizeNamespace_again e s en :
  entries s !! e = Some en -> finalized en = true -> finalizeNamespace e s = Ok tt s.
Proof.
  intros He Hf. unfold finalizeNamespace, bind. rewrite (get_entry_ok _ _ _ He).
  unfold finalized in Hf. by rewrite Hf.
Qed.

Lemma state_rel_views s s' e en :
  state_rel s s' -> entries s !! e = Some en -> finalized en = true ->
  exists en', entries s' !! e = Some en' /\ finalized en' = true /\ views_of en' = views_of en.
Proof.
  intros [_ Hen _ _] He Hf. destruct (Hen _ _ He) as (en' & He' & [_ _ Hv _]).
  destruct (Hv Hf). eauto.
Qed.

(** *** The entry cache *)

#[local] Instance heap_kept_preorder : PreOrder heap_kept.
Proof. split; [by intros s | intros a b c Hab Hbc; unfold heap_kept in *; congruence]. Qed.

Lemma heap_kept_host_fn h args : respects heap_kept (host_fn h args).
Proof. intros s. unfold host_fn. by destruct (host_call h args (host s)) as [[v |] u]. Qed.
#[local] Hint Resolve heap_kept_host_fn : frame.

Lemma heap_kept_value_get v k : respects heap_kept (value_get v k).
Proof. unfold value_get. resp. Qed.
#[local] Hint Resolve heap_kept_value_get : frame.

Lemma heap_kept_modify e f : respects heap_kept (modify_entry e f).
Proof. by intros s. Qed.

Lemma heap_kept_allocate en : respects heap_kept (allocate en).
Proof. by intros s. Qed.

Lemma heap_kept_Entry_set m e : respects heap_kept (Entry_set m e).
Proof. intros s. unfold Entry_set. by destruct (isObject m s). Qed.
#[local] Hint Resolve heap_kept_modify heap_kept_allocate heap_kept_Entry_set : frame.

Lemma heap_kept_get_type e : respects heap_kept (get_type e).
Proof. unfold get_type. resp. Qed.
#[local] Hint Resolve heap_kept_get_type : frame.

Lemma heap_kept_constructor_reads m : respects heap_kept (constructor_reads m).
Proof. unfold constructor_reads. resp. Qed.

Lemma heap_kept_create_entry m exported parent :
  respects heap_kept (create_entry m exported parent).
Proof. unfold create_entry. resp. Qed.

Lemma heap_kept_cached_entry m e : respects heap_kept (cached_entry m e).
Proof.
  unfold cached_entry. resp.
  all: try (intros s'; reflexivity).
Qed.

Lemma Entry_get_heap fuel : forall m s r,
  Entry_get fuel m s = Some r -> heap_kept s (final_state r).
Proof.
  induction fuel as [| fuel IH]; intros m s r E; simpl in E; [discriminate |].
  destruct (negb (isObject m s)); [by injection E as <- |].
  destruct (vassoc m (cache s)) as [e |].
  - injection E as <-. apply heap_kept_cached_entry.
  - pose proof (heap_kept_constructor_reads m s) as H1.
    destruct (constructor_reads m s) as [[exported parent] s1 | err s1]; simpl in H1;
      [| by injection E as <-].
    destruct (Entry_get fuel parent s1) as [[pe s2 | err s2] |] eqn:E2; [| | discriminate].
    + apply IH in E2. simpl in E2. injection E as <-.
      pose proof (heap_kept_create_entry m exported pe s2). unfold heap_kept in *. congruence.
    + apply IH in E2. simpl in E2. injection E as <-. unfold heap_kept in *. simpl. congruence.
Qed.

Lemma isObject_heap v s s' : heap s' = heap s -> isObject v s' = isObject v s.
Proof. intros Hh. unfold isObject. by rewrite Hh. Qed.

Lemma vassoc_set_eq {A} v (a : A) l : vassoc v (vassoc_set v a l) = Some a.
Proof.
  induction l as [| [v' a'] l IH]; simpl.
  - by rewrite bool_decide_eq_true_2.
  - destruct (bool_decide (v = v')) eqn:E; simpl.
    + by rewrite bool_decide_eq_true_2.
    + by rewrite E.
Qed.

Lemma vassoc_set_same {A} v (a : A) l : vassoc v l = Some a -> vassoc_set v a l = l.
Proof.
  induction l as [| [v' a'] l IH]; simpl; [done |].
  destruct (bool_decide (v = v')) eqn:E.
  - apply bool_decide_eq_true in E. by intros [= ->]; subst.
  - intros Hl. by rewrite IH.
Qed.

Lemma with_cache_same s : with_cache (cache s) s = s.
Proof. by destruct s. Qed.

Lemma Entry_get_not_object fuel m s :
  isObject m s = false -> Entry_get (S fuel) m s = Some (Ok None s).
Proof. intros Hm. simpl. by rewrite Hm. Qed.

Lemma Entry_set_not_object m e s : isObject m s = false -> Entry_set m e s = Ok tt s.
Proof. intros Hm. unfold Entry_set. by rewrite Hm. Qed.

Lemma Entry_set_object m e s :
  isObject m s = true -> Entry_set m e s = Ok tt (with_cache (vassoc_set m e (cache s)) s).
Proof. intros Hm. unfold Entry_set. by rewrite Hm. Qed.

Lemma create_entry_result m exported parent s res s' :
  isObject m s = true -> create_entry m exported parent s = Ok res s' ->
  exists e en, res = Some e /\ vassoc m (cache s') = Some e
               /\ entries s' !! e = Some en /\ _loaded en = LOAD_INCOMPLETE.
Proof.
  intros Hm E. unfold create_entry in E.
  apply bind_inv in E as (x1 & s1 & E1 & E).
  apply bind_inv in E as (modFilename & s2 & E2 & E).
  apply bind_inv in E as (e & s3 & E3 & E).
  apply bind_inv in E as ([] & s4 & E4 & E).
  injection E as <- <-.
  pose proof (heap_kept_value_get m (KStr "loaded") s) as H1. rewrite E1 in H1.
  pose proof (heap_kept_value_get m (KStr "filename") s1) as H2. rewrite E2 in H2.
  unfold allocate in E3. injection E3 as <- <-.
  unfold heap_kept in *. simpl in *.
  rewrite Entry_set_object in E4.
  2:{ rewrite <- Hm. apply isObject_heap. simpl. congruence. }
  injection E4 as <-. eexists _, _. split; [reflexivity |].
  split; [apply vassoc_set_eq |]. split; [apply lookup_insert_eq |]. reflexivity.
Qed.

Lemma cached_entry_result m e s res s' :
  isObject m s = true -> cached_entry m e s = Ok res s' ->
  exists e', res = Some e' /\ vassoc m (cache s') = Some e'.
Proof.
  intros Hm E. unfold cached_entry in E.
  apply bind_inv in E as (en & s1 & E1 & E).
  apply bind_inv in E as (isCJS & s2 & E2 & E).
  apply bind_inv in E as (e' & s3 & E3 & E).
  apply bind_inv in E as ([] & s4 & E4 & E).
  injection E as <- <-.
  assert (heap s3 = heap s) as Hh.
  { match type of E1 with ?m1 _ = _ =>
      assert (respects heap_kept m1) as R1 by resp; specialize (R1 s); rewrite E1 in R1 end.
    match type of E2 with ?m2 _ = _ =>
      assert (respects heap_kept m2) as R2 by resp; specialize (R2 s1); rewrite E2 in R2 end.
    match type of E3 with ?m3 _ = _ =>
      assert (respects heap_kept m3) as R3
        by (resp; try (intros s0; reflexivity));
      specialize (R3 s2); rewrite E3 in R3 end.
    unfold heap_kept in *. simpl in *. congruence. }
  rewrite Entry_set_object in E4 by (by rewrite (isObject_heap _ _ _ Hh)).
  injection E4 as <-. exists e'. split; [reflexivity |]. apply vassoc_set_eq.
Qed.

Lemma Entry_get_result fuel m s res s' :
  isObject m s = true -> Entry_get fuel m s = Some (Ok res s') ->
  exists e, res = Some e /\ vassoc m (cache s') = Some e /\ isObject m s' = true
    /\ (vassoc m (cache s) = None ->
        exists en, entries s' !! e = Some en /\ _loaded en = LOAD_INCOMPLETE).
Proof.
  intros Hm E. pose proof (Entry_get_heap _ _ _ _ E) as Hh. unfold heap_kept in Hh. simpl in Hh.
  destruct fuel as [| fuel]; simpl in E; [discriminate |]. rewrite Hm in E. simpl in E.
  destruct (vassoc m (cache s)) as [e |].
  - injection E as E. destruct (cached_entry_result _ _ _ _ _ Hm E) as (e' & -> & Hc).
    exists e'. split; [done |]. split; [done |].
    split; [by rewrite (isObject_heap _ _ _ Hh) | discriminate].
  - pose proof (heap_kept_constructor_reads m s) as H1.
    destruct (constructor_reads m s) as [[exported parent] s1 | err s1]; simpl in H1;
      [| discriminate].
    destruct (Entry_get fuel parent s1) as [[pe s2 | err s2] |] eqn:E2; [| discriminate ..].
    apply Entry_get_heap in E2. unfold heap_kept in *. simpl in E2. injection E as E.
    destruct (create_entry_result m exported pe s2 res s') as (e & en & -> & Hc & He & Hl);
      [| done |].
    { rewrite <- Hm. apply isObject_heap. congruence. }
    exists e. split; [done |]. split; [done |].
    split; [by rewrite (isObject_heap _ _ _ Hh) |]. eauto.
Qed.

Lemma Entry_get_again fuel m s e en :
  isObject m s = true -> vassoc m (cache s) = Some e ->
  entries s !! e = Some en -> _loaded en <> LOAD_COMPLETED ->
  Entry_get (S fuel) m s = Some (Ok (Some e) s).
Proof.
  intros Hm Hc He Hl. simpl. rewrite Hm, Hc. simpl. f_equal.
  unfold cached_entry. unfold bind at 1. rewrite (get_entry_ok _ _ _ He).
  rewrite bool_decide_eq_false_2 by done.
  unfold bind, ret. rewrite (Entry_set_object _ _ _ Hm).
  by rewrite (vassoc_set_same _ _ _ Hc), with_cache_same.
Qed.

Lemma Entry_get_S fuel m s :
  Entry_get (S fuel) m s
  = if negb (isObject m s) then Some (Ok None s)
    else match vassoc m (cache s) with
         | None =>
             match constructor_reads m s with
             | Throw err s' => Some (Throw err s')
             | Ok (exported, parent) s1 =>
                 match Entry_get fuel parent s1 with
                 | None => None
                 | Some (Throw err s') => Some (Throw err s')
                 | Some (Ok parentEntry s2) => Some (create_entry m exported parentEntry s2)
                 end
             end
         | Some entry => Some (cached_entry m entry s)
         end.
Proof. reflexivity. Qed.

Lemma Entry_get_terminates n : forall m s,
  parents_end n m s = true -> is_Some (Entry_get (S n) m s).
Proof.
  induction n as [| n IH]; intros m s Hp.
  - simpl in *. destruct (negb (isObject m s)); [eauto |].
    destruct (vassoc m (cache s)); [eauto |]. simpl in Hp.
    destruct (constructor_reads m s) as [[exported parent] s1 | err s1]; [done | eauto].
  - cbn [parents_end] in Hp. rewrite Entry_get_S.
    destruct (negb (isObject m s)); [eauto |].
    destruct (vassoc m (cache s)); [eauto |]. simpl in Hp.
    destruct (constructor_reads m s) as [[exported parent] s1 | err s1]; [| eauto].
    destruct (IH _ _ Hp) as [r Hr]. rewrite Hr. destruct r as [pe s2 | err s2]; eauto.
Qed.
(** *** Raw objects that hold data properties only *)

Lemma forallb_assoc_del {A} (f : key * A -> bool) k l :
  forallb f l = true -> forallb f (assoc_del k l) = true.
Proof.
  induction l as [| [k' p'] l IH]; simpl; [done |]. intros Hl.
  apply andb_true_iff in Hl as [H1 H2].
  destruct (key_eqb k k'); simpl; rewrite ?H1; auto.
Qed.

Lemma data_only_chain (ch : list (list (key * prop closure))) k p :
  forallb (forallb (fun kp : key * prop closure => is_data kp.2)) ch = true ->
  chain_lookup k ch = Some p -> is_data p = true.
Proof.
  induction ch as [| t ch IH]; simpl; [discriminate |]. intros Hc.
  apply andb_true_iff in Hc as [Ht Hch].
  destruct (assoc k t) as [q |] eqn:Hq; [| by apply IH].
  intros [= <-]. apply (forallb_assoc _ _ _ _ Ht Hq).
Qed.

Lemma data_only_plan_set (o : nsobj) k v :
  data_only o = true ->
  match plan_set o k v with
  | SetReject => True
  | SetStore o' => data_only o' = true
  | SetCall _ => False
  end.
Proof.
  unfold data_only, plan_set, get_own. intros Hd.
  apply andb_true_iff in Hd as [Hown Hch].
  destruct (assoc k (o_props o)) as [p |] eqn:Hp.
  - pose proof (forallb_assoc _ _ _ _ Hown Hp) as Hdata. simpl in Hdata.
    destruct p as [x w en c | g st en c]; [| discriminate].
    destruct w; [| done]. simpl. rewrite Hch, andb_true_r.
    by apply forallb_assoc_set.
  - destruct (chain_lookup k (o_chain o)) as [p |] eqn:Hc.
    + pose proof (data_only_chain _ _ _ Hch Hc) as Hdata.
      destruct p as [x w en c | g st en c]; [| discriminate].
      destruct w; [| done]. destruct (o_extensible o); [| done]. simpl.
      rewrite Hch, andb_true_r, forallb_app, Hown. reflexivity.
    + destruct (o_extensible o); [| done]. simpl.
      rewrite Hch, andb_true_r, forallb_app, Hown. reflexivity.
Qed.

Lemma data_only_delete (o : nsobj) k o' :
  data_only o = true -> delete_own o k = Some o' -> data_only o' = true.
Proof.
  unfold data_only, delete_own. intros Hd.
  apply andb_true_iff in Hd as [Hown Hch].
  destruct (get_own o k) as [p |]; [| by intros [= <-]; rewrite Hown, Hch].
  destruct (prop_configurable p); [| discriminate]. intros [= <-]. simpl.
  rewrite Hch, andb_true_r. by apply forallb_assoc_del.
Qed.

Lemma data_only_seal (o : nsobj) : data_only o = true -> data_only (seal o) = true.
Proof.
  unfold data_only, seal. simpl. intros Hd.
  apply andb_true_iff in Hd as [Hown Hch]. rewrite Hch, andb_true_r.
  clear Hch. induction (o_props o) as [| [k p] l IH]; simpl in *; [done |].
  apply andb_true_iff in Hown as [H1 H2]. rewrite (IH H2), andb_true_r.
  by destruct p.
Qed.

Lemma data_views_raw v en :
  data_views en = true -> data_only (raw_of (SlotView v) en) = true.
Proof.
  unfold data_views. intros Hd.
  apply andb_true_iff in Hd as [Hd H4]. apply andb_true_iff in Hd as [Hd H3].
  apply andb_true_iff in Hd as [H1 H2]. by destruct v.
Qed.

Lemma data_views_set_raw v o en :
  data_views en = true -> data_only o = true ->
  data_views (set_raw (SlotView v) o en) = true.
Proof.
  unfold data_views. intros Hd Ho.
  apply andb_true_iff in Hd as [Hd H4]. apply andb_true_iff in Hd as [Hd H3].
  apply andb_true_iff in Hd as [H1 H2].
  destruct v; simpl; rewrite ?H1, ?H2, ?H3, ?H4, ?Ho; reflexivity.
Qed.

#[local] Instance plain_kept_preorder e : PreOrder (plain_kept e).
Proof.
  split.
  - by intros s Hs.
  - intros s1 s2 s3 H12 H23 Hs. destruct (H12 Hs) as [Hh2 Hs2].
    destruct (H23 Hs2) as [Hh3 Hs3]. split; [congruence | done].
Qed.

Lemma plain_kept_modify e e' f :
  (forall en, data_views en = true -> data_views (f en) = true) ->
  respects (plain_kept e) (modify_entry e' f).
Proof.
  intros Hf s Hs. split; [done |]. intros en'. cbn [final_state modify_entry entries with_entries].
  destruct (decide (e' = e)) as [-> | Hne].
  - rewrite lookup_alter_eq. destruct (entries s !! e) as [en |] eqn:He; [| done].
    intros [= <-]. apply Hf. by apply Hs.
  - rewrite lookup_alter_ne by done. apply Hs.
Qed.

#[local] Hint Extern 1 (respects (plain_kept _) (modify_entry _ _)) =>
  apply plain_kept_modify; let en := fresh in let Hd := fresh in intros en Hd; exact Hd : frame.

Lemma plain_kept_write e v o s en :
  entries s !! e = Some en ->
  (data_views en = true -> data_only o = true) ->
  plain_kept e s (final_state (ns_write e (SlotView v) o s)).
Proof.
  intros He Ho Hs. split; [done |]. intros en'.
  unfold ns_write, modify_entry. cbn [final_state entries with_entries].
  rewrite lookup_alter_eq, He. cbn [fmap option_fmap option_map]. intros E.
  assert (en' = set_raw (SlotView v) o en) as -> by congruence.
  apply data_views_set_raw; auto.
Qed.

Lemma plain_kept_ns_set e v k x : respects (plain_kept e) (ns_set e (SlotView v) k x).
Proof.
  intros s. unfold ns_set, ns_read. unfold bind at 1. unfold bind at 1. unfold get_entry.
  destruct (entries s !! e) as [en |] eqn:He; [| by intros Hs]. unfold ret at 1.
  pose proof (data_only_plan_set (raw_of (SlotView v) en) k x) as Hp.
  destruct (plan_set (raw_of (SlotView v) en) k x) as [| o' | c].
  - by intros Hs.
  - apply (plain_kept_write e v o' s en He). intros Hd. apply Hp. by apply data_views_raw.
  - intros Hs. destruct Hp. apply data_views_raw. by apply Hs.
Qed.

Lemma plain_kept_delete_raw e v k : respects (plain_kept e) (delete_raw e (SlotView v) k).
Proof.
  intros s. unfold delete_raw, ns_read. unfold bind at 1. unfold bind at 1. unfold get_entry.
  destruct (entries s !! e) as [en |] eqn:He; [| by intros Hs]. unfold ret at 1.
  destruct (delete_own (raw_of (SlotView v) en) k) as [o' |] eqn:Hd; [| by intros Hs].
  unfold bind, ret.
  pose proof (plain_kept_write e v o' s en He) as Hw. unfold ns_write, modify_entry in *.
  apply Hw. intros Hv. eapply data_only_delete; [| exact Hd]. by apply data_views_raw.
Qed.

Lemma plain_kept_seal_raw e v : respects (plain_kept e) (seal_raw e (SlotView v)).
Proof.
  intros s. unfold seal_raw, ns_read. unfold bind at 1. unfold bind at 1. unfold get_entry.
  destruct (entries s !! e) as [en |] eqn:He; [| by intros Hs]. unfold ret at 1.
  apply (plain_kept_write e v _ s en He). intros Hv.
  apply data_only_seal. by apply data_views_raw.
Qed.

Lemma plain_kept_get_type e e' : respects (plain_kept e) (get_type e').
Proof. unfold get_type. resp. Qed.

Lemma plain_kept_keys e v : respects (plain_kept e) (keys v).
Proof. unfold keys. resp. Qed.

Lemma plain_kept_has e v k : respects (plain_kept e) (has v k).
Proof. unfold has. resp. Qed.

#[local] Hint Resolve plain_kept_ns_set plain_kept_delete_raw plain_kept_seal_raw
  plain_kept_get_type plain_kept_keys plain_kept_has : frame.

Lemma plain_kept_finalizeNamespace e : respects (plain_kept e) (finalizeNamespace e).
Proof. unfold finalizeNamespace. resp. Qed.
(** *** The steps of [loaded] before its branches *)

#[local] Instance loading_kept_preorder : PreOrder loading_kept.
Proof.
  split.
  - intros s. split; [done |]. intros e en He. exists en. eauto 10.
  - intros s1 s2 s3 [Hh12 H12] [Hh23 H23]. split; [congruence |]. intros e en He.
    destruct (H12 _ _ He) as (en2 & He2 & X2 & G2 & C2 & V2 & T2).
    destruct (H23 _ _ He2) as (en3 & He3 & X3 & G3 & C3 & V3 & T3).
    exists en3. split; [done |]. repeat (split; [congruence |]). eauto.
Qed.

Lemma loading_kept_same s s' :
  heap s' = heap s -> entries s' = entries s -> loading_kept s s'.
Proof. intros Hh He. split; [done |]. intros e en Hl. exists en. rewrite He. eauto 10. Qed.

Lemma loading_kept_host_fn h args : respects loading_kept (host_fn h args).
Proof.
  intros s. unfold host_fn.
  destruct (host_call h args (host s)) as [[v |] u]; by apply loading_kept_same.
Qed.
#[local] Hint Resolve loading_kept_host_fn : frame.

Lemma loading_kept_value_get v k : respects loading_kept (value_get v k).
Proof. unfold value_get. resp. Qed.
#[local] Hint Resolve loading_kept_value_get : frame.

Lemma loading_kept_modify_at e f s :
  (forall en, entries s !! e = Some en ->
              exports (f en) = exports en /\ getters (f en) = getters en
              /\ entry_core (f en) = entry_core en /\ views_of (f en) = views_of en
              /\ forall t, entry_type en = TypeValue t -> entry_type (f en) = TypeValue t) ->
  loading_kept s (final_state (modify_entry e f s)).
Proof.
  intros Hf. split; [done |]. intros e' en He. simpl.
  destruct (decide (e = e')) as [<- | Hne].
  - exists (f en). rewrite lookup_alter_eq, He. split; [done |]. by apply Hf.
  - exists en. rewrite lookup_alter_ne by done. eauto 10.
Qed.

Lemma loading_kept_modify e f :
  (forall en, exports (f en) = exports en /\ getters (f en) = getters en
              /\ entry_core (f en) = entry_core en /\ views_of (f en) = views_of en
              /\ forall t, entry_type en = TypeValue t -> entry_type (f en) = TypeValue t) ->
  respects loading_kept (modify_entry e f).
Proof. intros Hf s. apply loading_kept_modify_at. intros en _. apply Hf. Qed.

#[local] Hint Extern 1 (respects loading_kept (modify_entry _ _)) =>
  apply loading_kept_modify; intros; repeat split; auto; discriminate : frame.

Lemma loading_kept_module_loaded m : respects loading_kept (module_loaded m).
Proof. unfold module_loaded. resp. Qed.
#[local] Hint Resolve loading_kept_module_loaded : frame.

Lemma loading_kept_children_loaded cs : respects loading_kept (children_loaded cs).
Proof. induction cs as [| c cs IH]; simpl; resp. Qed.

Lemma loading_kept_get_type e : respects loading_kept (get_type e).
Proof.
  intros s. unfold get_type, bind, get_entry.
  destruct (entries s !! e) as [en |] eqn:He; [| reflexivity].
  destruct (entry_type en) as [isModule | t0] eqn:Ht; [| reflexivity].
  destruct isModule; apply (loading_kept_modify_at e _ s); intros en' He';
    rewrite He in He'; injection He' as <-; repeat split; auto; rewrite Ht; discriminate.
Qed.

Lemma bind_inv_resp {A B} (R : State -> State -> Prop) (m : M A) (f : A -> M B) s b s' :
  respects R m -> bind m f s = Ok b s' ->
  exists a s1, R s s1 /\ m s = Ok a s1 /\ f a s1 = Ok b s'.
Proof.
  intros Hm E. apply bind_inv in E as (a & s1 & E1 & E).
  exists a, s1. split; [| done]. specialize (Hm s). by rewrite E1 in Hm.
Qed.

Lemma get_type_value e s en t :
  entries s !! e = Some en -> entry_type en = TypeValue t -> get_type e s = Ok t s.
Proof. intros He Ht. unfold get_type, bind. by rewrite (get_entry_ok _ _ _ He), Ht. Qed.

Lemma getExportsObjectKeys_declarative e s en t x xo :
  entries s !! e = Some en -> entry_type en = TypeValue t ->
  t = TYPE_ESM \/ t = TYPE_WASM -> heap s !! x = Some xo ->
  getExportsObjectKeys e (VObj x) s = Ok (Object_keys xo) s.
Proof.
  intros He Ht Hty Hx. unfold getExportsObjectKeys. unfold bind at 1.
  rewrite (get_type_value _ _ _ _ He Ht).
  assert (bool_decide (t = TYPE_ESM) || bool_decide (t = TYPE_WASM) = true) as ->
    by (by destruct Hty as [-> | ->]).
  unfold keys, bind, get_object. by rewrite Hx.
Qed.

Lemma assignExportsToNamespace_registered e s en t name x :
  entries s !! e = Some en -> entry_type en = TypeValue t -> exports en = VObj x ->
  assoc_has name (getters en) = true ->
  assignExportsToNamespace e (NamesArray [name]) s = Ok tt s.
Proof.
  intros He Ht Hx Hg. unfold assignExportsToNamespace. unfold bind at 1.
  rewrite (get_entry_ok _ _ _ He), Hx. cbn [isObjectLike negb].
  unfold bind at 1. rewrite (get_type_value _ _ _ _ He Ht). cbv zeta.
  unfold bind at 1. unfold ret at 1. cbn [for_each].
  unfold bind. rewrite (get_entry_ok _ _ _ He), Hg.
  by rewrite andb_false_r.
Qed.
Lemma loaded_declarative_collapses e s en t x xo d a mo s' :
  entries s !! e = Some en -> entry_type en = TypeValue t ->
  t = TYPE_ESM \/ t = TYPE_WASM ->
  cjs_interop (entry_package en) = true -> extname en <> Some ".mjs" ->
  exports en = VObj x -> heap s !! x = Some xo ->
  Object_keys xo = ["default"] -> plan_get xo (KStr "default") = GetValue d ->
  assoc_has (KStr "default") (getters en) = true ->
  entry_module en = VObj a -> heap s !! a = Some mo ->
  has_data_property mo (KStr "exports") = true ->
  loaded_declarative e s = Ok tt s' ->
  (exists mo', heap s' = <[a := mo']> (heap s) /\ plan_get mo' (KStr "exports") = GetValue d)
  /\ entries s'
     = alter (fun en => set_entry_namespace NsRaw (set_loaded LOAD_COMPLETED en)) e (entries s).
Proof.
  intros He Ht Hty Hint Hext Hx Hxo Hkeys Hd Hg Hm Hmo Hdata E.
  unfold loaded_declarative in E. unfold bind at 1 in E.
  rewrite (get_entry_ok _ _ _ He), Hx in E. unfold bind at 1 in E.
  rewrite (getExportsObjectKeys_declarative _ _ _ _ _ _ He Ht Hty Hxo), Hkeys in E.
  unfold bind at 1 in E. unfold modify_entry at 1 in E.
  set (f := fun en0 => set_entry_namespace NsRaw (set_loaded LOAD_COMPLETED en0)) in *.
  set (s1 := with_entries (alter f e (entries s)) s) in *.
  assert (entries s1 !! e = Some (f en)) as He1
    by (subst s1; simpl; by rewrite lookup_alter_eq, He).
  unfold bind at 1 in E. cbn [map] in E.
  rewrite (assignExportsToNamespace_registered e s1 (f en) t (KStr "default") x He1 Ht Hx Hg)
    in E.
  unfold bind at 1 in E. rewrite (get_entry_ok _ _ _ He1) in E.
  change (entry_package (f en)) with (entry_package en) in E.
  change (extname (f en)) with (extname en) in E.
  change (exports (f en)) with (exports en) in E.
  change (entry_module (f en)) with (entry_module en) in E.
  rewrite Hint, Hx, Hm in E. unfold is_mjs in E.
  rewrite (bool_decide_eq_false_2 _ Hext) in E. cbn [negb andb] in E. cbv zeta in E.
  rewrite bool_decide_eq_true_2 in E by done.
  unfold bind at 1 in E. unfold value_get at 1 in E. unfold bind at 1, get_object at 1 in E.
  change (heap s1) with (heap s) in E. rewrite Hxo, Hd in E. unfold ret at 1 in E.
  unfold value_set, bind, get_object in E. change (heap s1) with (heap s) in E.
  rewrite Hmo in E. unfold has_data_property in Hdata. unfold plan_set in E.
  destruct (get_own mo (KStr "exports")) as [[old w en_ c | g st en_ c] |] eqn:Hown;
    try discriminate.
  destruct w; [| discriminate]. unfold put_object in E. injection E as <-.
  split; [| reflexivity]. eexists. split; [reflexivity |].
  unfold plan_get, get_property, get_own. simpl. by rewrite assoc_set_eq.
Qed.

(** C8 (amended).  Let a declarative or binary module record be not yet
    loaded, with CJS interop on and an extension other than [.mjs]; let its
    exported value be an object whose only enumerable own key is [default],
    a data property of value [d], for which a getter is registered; let
    [exports] be a data property of its module object; and let the raw
    objects of its views hold data properties only.  When [loaded] returns
    [LOAD_COMPLETED], [module.exports] is [d]. *)
Theorem default_collapse e s en t x xo d a mo s' :
  entries s !! e = Some en -> _loaded en = LOAD_INCOMPLETE ->
  entry_type en = TypeValue t -> t = TYPE_ESM \/ t = TYPE_WASM ->
  cjs_interop (entry_package en) = true -> extname en <> Some ".mjs" ->
  exports en = VObj x -> heap s !! x = Some xo ->
  Object_keys xo = ["default"] -> plan_get xo (KStr "default") = GetValue d ->
  assoc_has (KStr "default") (getters en) = true ->
  entry_module en = VObj a -> heap s !! a = Some mo ->
  has_data_property mo (KStr "exports") = true ->
  data_views en = true ->
  loaded e s = Ok LOAD_COMPLETED s' ->
  value_get (entry_module en) (KStr "exports") s' = Ok d s'.
Proof.
  intros He Hl Ht Hty Hint Hext Hx Hxo Hkeys Hd Hg Hm Hmo Hdata Hviews E.
  unfold loaded in E. apply bind_inv in E as ([] & s0 & E0 & E).
  unfold log in E0. injection E0 as <-.
  set (s0 := with_trace _ s) in *.
  assert (loading_kept s s0) as R0 by (by apply loading_kept_same).
  unfold loaded_body in E. unfold bind at 1 in E.
  rewrite (get_entry_ok e s0 en He), Hl in E.
  rewrite bool_decide_eq_true_2 in E by done. cbn [negb] in E. cbv zeta in E.
  apply (bind_inv_resp loading_kept) in E as (modLoaded & s2 & R2 & _ & E);
    [| apply loading_kept_module_loaded].
  destruct modLoaded; cbn [negb] in E; [| discriminate].
  apply (bind_inv_resp loading_kept) in E as ([] & s3 & R3 & _ & E); [| resp].
  apply (bind_inv_resp loading_kept) in E as (allLoaded & s4 & R4 & _ & E);
    [| apply loading_kept_children_loaded].
  destruct allLoaded; cbn [negb] in E; [| discriminate].
  assert (loading_kept s s4) as [Hh4 H4].
  { transitivity s0; [done |]. transitivity s2; [done |]. by transitivity s3. }
  destruct (H4 _ _ He) as (en4 & He4 & X4 & G4 & C4 & V4 & T4).
  apply bind_inv in E as (type & s5 & E5 & E).
  rewrite (get_type_value _ _ _ _ He4 (T4 _ Ht)) in E5. injection E5 as <- <-.
  assert (bool_decide (t = TYPE_ESM) || bool_decide (t = TYPE_WASM) = true) as Hc
    by (by destruct Hty as [-> | ->]).
  rewrite Hc in E.
  apply bind_inv in E as ([] & s6 & E6 & E).
  unfold entry_core in C4.
  pose proof (loaded_declarative_collapses e s4 en4 t x xo d a mo s6) as Hcol.
  destruct Hcol as ((mo' & Hh6 & Hp6) & He6); try congruence; auto.
  apply (bind_inv_resp (plain_kept e)) in E as ([] & s7 & R7 & _ & E);
    [| apply plain_kept_finalizeNamespace].
  destruct R7 as [Hh7 _].
  { intros en6. rewrite He6, lookup_alter_eq, He4. intros [= <-].
    unfold views_of in V4. unfold data_views in *. simpl. congruence. }
  apply bind_inv in E as (en7 & s8 & E8 & E). injection E as _ <-.
  unfold get_entry in E8. destruct (entries s7 !! e); [| discriminate]. injection E8 as _ <-.
  rewrite Hm. unfold value_get, bind, get_object.
  by rewrite Hh7, Hh6, lookup_insert_eq, Hp6.
Qed.
(** ** Further properties of the code *)

Lemma bind_ok {A B} (m : M A) (f : A -> M B) s a s1 :
  m s = Ok a s1 -> bind m f s = f a s1.
Proof. intros E. unfold bind. by rewrite E. Qed.

(** *** The caller's frame *)

(** X1.  [isCalledFromStrictCode] decides on the first frame that has a
    file name outside the loader and is not native: the frames before it
    do not count, and a stack without such a frame is not strict. *)
Theorem isCalledFromStrictCode_first_caller skipped fr rest :
  Forall (fun f => is_caller_frame f = false) skipped ->
  isCalledFromStrictCode skipped = false
  /\ (is_caller_frame fr = true ->
      isCalledFromStrictCode (skipped ++ fr :: rest) = bool_decide (getFunction fr = None)).
Proof.
  induction 1 as [| f skipped Hf _ [IH1 IH2]]; simpl.
  - split; [done |]. by intros ->.
  - rewrite Hf. by split.
Qed.

(** *** Export resolution *)

(** X2.  For a declarative exporter the fast resolution that [runSetter]
    takes gives what the general one gives, for every name and importer. *)
Theorem fast_path_agrees s e name p en pen :
  entries s !! e = Some en -> entries s !! p = Some pen ->
  entry_type en = TypeValue TYPE_ESM ->
  getExportByNameFast e name p s = getExportByName e name p s.
Proof.
  intros He Hp Ht. unfold getExportByNameFast, getExportByName.
  rewrite (bind_ok (get_entry e) _ s en s (get_entry_ok _ _ _ He)).
  rewrite (bind_ok (get_entry p) _ s pen s (get_entry_ok _ _ _ Hp)). cbv zeta.
  rewrite (bind_ok _ _ s false s).
  2:{ destruct (negb _); [| reflexivity].
      by rewrite (bind_ok _ _ _ _ _ (get_type_value _ _ _ _ He Ht)). }
  cbn [andb]. destruct (negb (key_eqb name (KStr "*"))); [reflexivity |].
  rewrite (bind_ok (get_entry e) _ s en s (get_entry_ok _ _ _ He)).
  rewrite (bind_ok (get_entry p) _ s pen s (get_entry_ok _ _ _ Hp)).
  by destruct (negb _ || _).
Qed.

(** X3.  An importer that is an [.mjs] file, and every importer of an
    exporter that is an [.mjs] file, is given a read-only namespace view,
    by the general resolution and by the fast one. *)
Theorem mjs_gets_readonly_view s e p en pen val s' :
  entries s !! e = Some en -> entries s !! p = Some pen ->
  is_mjs (extname pen) || is_mjs (extname en) = true ->
  getExportByName e (KStr "*") p s = Ok val s'
  \/ getExportByNameFast e (KStr "*") p s = Ok val s' ->
  val = VNamespace e Complete \/ val = VNamespace e Partial.
Proof.
  intros He Hp Hmjs [E | E].
  - unfold getExportByName in E.
    apply bind_inv in E as (en0 & s0 & E0 & E).
    rewrite (get_entry_ok _ _ _ He) in E0. injection E0 as <- <-.
    apply bind_inv in E as (pen0 & s0 & E0 & E).
    rewrite (get_entry_ok _ _ _ Hp) in E0. injection E0 as <- <-.
    cbv zeta in E. apply bind_inv in E as (noNamed & s1 & _ & E).
    change (key_eqb (KStr "*") (KStr "default")) with false in E.
    change (key_eqb (KStr "*") (KStr "*")) with true in E.
    rewrite andb_false_r in E. cbn [negb] in E.
    assert (negb (negb (is_mjs (extname pen)) && cjs_mutableNamespace (entry_package pen))
            || is_mjs (extname en) = true) as Hno.
    { apply orb_true_iff in Hmjs as [-> | ->]; [reflexivity | apply orb_true_r]. }
    rewrite Hno in E. injection E as <- _. destruct noNamed; auto.
  - unfold getExportByNameFast in E.
    change (key_eqb (KStr "*") (KStr "*")) with true in E. cbn [negb] in E.
    unfold bind in E. rewrite (get_entry_ok _ _ _ He), (get_entry_ok _ _ _ Hp) in E.
    assert (negb (negb (is_mjs (extname pen)) && cjs_mutableNamespace (entry_package pen))
            || is_mjs (extname en) = true) as Hno.
    { apply orb_true_iff in Hmjs as [-> | ->]; [reflexivity | apply orb_true_r]. }
    rewrite Hno in E. injection E as <- _. auto.
Qed.
(** *** Setter passes over names without setters *)

Lemma runSetter_no_setters {A} s e en t name (callback : setter -> A -> M A) ut acc :
  entries s !! e = Some en -> entry_type en = TypeValue t ->
  setters_of name en = [] ->
  runSetter e name callback ut acc s = Ok acc s.
Proof.
  intros He Ht Hs. unfold runSetter.
  rewrite (bind_ok _ _ _ _ _ (get_entry_ok _ _ _ He)).
  unfold setters_of in Hs. destruct (assoc name (setters en)) as [l |]; [| reflexivity].
  simpl in Hs. subst l.
  rewrite (bind_ok _ _ _ _ _ (get_type_value _ _ _ _ He Ht)).
  by rewrite (bind_ok _ _ _ _ _ (get_entry_ok _ _ _ He)).
Qed.

(** X4.  A setter pass over names that have no setter, because the name is
    missing from the table or its list is empty, calls nothing and changes
    nothing. *)
Theorem runSetters_without_setters {A} s e en t names (callback : setter -> A -> M A) ut acc :
  entries s !! e = Some en -> entry_type en = TypeValue t ->
  Forall (fun name => setters_of name en = []) names ->
  runSetters e (NamesArray names) callback ut acc s = Ok acc s.
Proof.
  intros He Ht Hn. unfold runSetters.
  induction Hn as [| name names Hname _ IH]; [reflexivity |]. cbn [fold_names].
  by rewrite (bind_ok _ _ _ _ _ (runSetter_no_setters s e en t name callback ut acc He Ht Hname)).
Qed.

(** *** Finalization that fails *)

Lemma finalizeNamespace_final e s en :
  entries s !! e = Some en ->
  exists en', entries (final_state (finalizeNamespace e s)) !! e = Some en'
              /\ finalized en' = true.
Proof.
  intros He. destruct (finalized en) eqn:Hf.
  - rewrite (finalizeNamespace_again _ _ _ He Hf). eauto.
  - unfold finalizeNamespace.
    rewrite (bind_ok _ _ _ _ _ (get_entry_ok _ _ _ He)).
    unfold finalized in Hf. rewrite Hf.
    match goal with |- context [bind (modify_entry e ?f) ?k s] =>
      assert (respects (fin_kept false e) (k tt)) as Hk by resp;
      change (bind (modify_entry e f) k s) with (k tt (with_entries (alter f e (entries s)) s));
      specialize (Hk (with_entries (alter f e (entries s)) s));
      destruct (Hk (f en)) as (en' & He' & Hf' & _)
    end.
    { simpl. by rewrite lookup_alter_eq, He. }
    exists en'. split; [done |]. unfold finalized. by rewrite Hf'.
Qed.

(** X5.  [finalizeNamespace] marks the record finalized before it assigns
    anything: however the call ends, also by a throw, the record is
    finalized afterwards and a further call changes nothing. *)
Theorem finalizeNamespace_marks_first e s en :
  entries s !! e = Some en ->
  let s' := final_state (finalizeNamespace e s) in
  (exists en', entries s' !! e = Some en' /\ finalized en' = true)
  /\ finalizeNamespace e s' = Ok tt s'.
Proof.
  intros He s'. destruct (finalizeNamespace_final e s en He) as (en' & He' & Hf').
  split; [eauto |]. by apply (finalizeNamespace_again _ _ en').
Qed.

(** *** The entry cache *)

Lemma vassoc_set_ne {A} v v' (a : A) l : v' <> v -> vassoc v' (vassoc_set v a l) = vassoc v' l.
Proof.
  intros Hne. induction l as [| [k b] l IH]; simpl.
  - by rewrite bool_decide_eq_false_2.
  - destruct (bool_decide (v = k)) eqn:E; simpl.
    + apply bool_decide_eq_true in E. subst k.
      by rewrite !bool_decide_eq_false_2.
    + by rewrite IH.
Qed.

(** X6.  After [Entry.set(mod, entry)] on an object, the cache holds
    [entry] for [mod], [Entry.has(mod)] is true, and the cache answers for
    every other module as before. *)
Theorem Entry_set_then_has m e s :
  isObject m s = true ->
  let s' := final_state (Entry_set m e s) in
  vassoc m (cache s') = Some e
  /\ Entry_has m s' = true
  /\ forall m', m' <> m ->
       vassoc m' (cache s') = vassoc m' (cache s) /\ Entry_has m' s' = Entry_has m' s.
Proof.
  intros Hm s'. subst s'. rewrite (Entry_set_object _ _ _ Hm). simpl.
  unfold Entry_has. simpl. rewrite vassoc_set_eq. split; [done |]. split; [done |].
  intros m' Hne. by rewrite (vassoc_set_ne _ _ _ _ Hne).
Qed.
(** *** What the functions of a record leave alone

    [P] is a preorder on records that the assignments named by the
    hypotheses respect; each function below then respects [P] on every
    record, however it ends. *)

Section EntryFrame.
Context (P : Entry -> Entry -> Prop) `{!PreOrder P}.

#[local] Instance entries_kept_preorder : PreOrder (entries_kept P).
Proof.
  split.
  - intros s e en He. exists en. split; [done | reflexivity].
  - intros s1 s2 s3 H12 H23 e en He.
    destruct (H12 _ _ He) as (en2 & He2 & P2). destruct (H23 _ _ He2) as (en3 & He3 & P3).
    exists en3. split; [done |]. by transitivity en2.
Qed.

#[local] Instance entries_kept_heap : HeapFrame (entries_kept P).
Proof.
  split; [apply _ | |]; intros x s e en He; exists en; (split; [done | reflexivity]).
Qed.

Lemma entries_kept_modify e f :
  (forall en, P en (f en)) -> respects (entries_kept P) (modify_entry e f).
Proof.
  intros Hf s e' en He. simpl. destruct (decide (e = e')) as [<- | Hne].
  - exists (f en). by rewrite lookup_alter_eq, He.
  - exists en. rewrite lookup_alter_ne by done. split; [done | reflexivity].
Qed.

Lemma entries_kept_log ev : respects (entries_kept P) (log ev).
Proof. intros s e en He. exists en. split; [done | reflexivity]. Qed.

Context (P_raw : forall sl o en, P en (set_raw sl o en)).
Context (P_type : forall t en, P en (set_entry_type t en)).
Context (P_namespace : forall n en, P en (set_entry_namespace n en)).
Context (P_getters : forall g en, P en (set_getters g en)).
Context (P_finalized : forall f en, P en (set_namespaceFinalized f en)).

Ltac keeps :=
  intros;
  repeat first
    [ reflexivity
    | etransitivity;
      [| first [ apply P_raw | apply P_type | apply P_namespace
               | apply P_getters | apply P_finalized ] ] ].

Hint Extern 1 (respects (entries_kept P) (modify_entry _ _)) =>
  apply entries_kept_modify; keeps : frame.

Lemma entries_kept_ns_write e sl o : respects (entries_kept P) (ns_write e sl o).
Proof. unfold ns_write. apply entries_kept_modify. intros en. apply P_raw. Qed.
Hint Resolve entries_kept_ns_write : frame.

Lemma entries_kept_call_closure c e sl args :
  respects (entries_kept P) (call_closure c e sl args).
Proof. unfold call_closure. resp. Qed.
Hint Resolve entries_kept_call_closure : frame.

Lemma entries_kept_ns_get e sl k : respects (entries_kept P) (ns_get e sl k).
Proof. unfold ns_get. resp. Qed.

Lemma entries_kept_ns_set e sl k v : respects (entries_kept P) (ns_set e sl k v).
Proof. unfold ns_set. resp. Qed.

Lemma entries_kept_delete_raw e sl k : respects (entries_kept P) (delete_raw e sl k).
Proof. unfold delete_raw. resp. Qed.

Lemma entries_kept_seal_raw e sl : respects (entries_kept P) (seal_raw e sl).
Proof. unfold seal_raw. resp. Qed.

Lemma entries_kept_get_type e : respects (entries_kept P) (get_type e).
Proof. unfold get_type. resp. Qed.
Hint Resolve entries_kept_ns_get entries_kept_ns_set entries_kept_delete_raw
  entries_kept_seal_raw entries_kept_get_type : frame.

Lemma entries_kept_namespace_get e k : respects (entries_kept P) (namespace_get e k).
Proof. unfold namespace_get. resp. Qed.
Hint Resolve entries_kept_namespace_get : frame.

Lemma entries_kept_call_getter g : respects (entries_kept P) (call_getter g).
Proof. unfold call_getter. resp. Qed.
Hint Resolve entries_kept_call_getter : frame.

Lemma entries_kept_tryGetter g : respects (entries_kept P) (tryGetter g).
Proof. unfold tryGetter, try_catch_js. resp. Qed.
Hint Resolve entries_kept_tryGetter : frame.

Lemma entries_kept_addGetter e name g : respects (entries_kept P) (addGetter e name g).
Proof. unfold addGetter. resp. Qed.
Hint Resolve entries_kept_addGetter : frame.

Lemma entries_kept_getExportsObjectKeys e v :
  respects (entries_kept P) (getExportsObjectKeys e v).
Proof. unfold getExportsObjectKeys. resp. Qed.
Hint Resolve entries_kept_getExportsObjectKeys : frame.

Lemma entries_kept_assignExportsToNamespace e names :
  respects (entries_kept P) (assignExportsToNamespace e names).
Proof. unfold assignExportsToNamespace. resp. Qed.
Hint Resolve entries_kept_assignExportsToNamespace : frame.

Lemma entries_kept_finalizeNamespace e : respects (entries_kept P) (finalizeNamespace e).
Proof. unfold finalizeNamespace. resp. Qed.
Hint Resolve entries_kept_finalizeNamespace : frame.

Lemma entries_kept_getExportByName e name p :
  respects (entries_kept P) (getExportByName e name p).
Proof. unfold getExportByName. resp. Qed.

Lemma entries_kept_getExportByNameFast e name p :
  respects (entries_kept P) (getExportByNameFast e name p).
Proof. unfold getExportByNameFast. resp. Qed.

End EntryFrame.

#[local] Existing Instances entries_kept_preorder entries_kept_heap.
#[local] Instance same_field_preorder {A} (f : Entry -> A) : PreOrder (same_field f).
Proof. split; [by intros en | intros a b c Hab Hbc; unfold same_field in *; congruence]. Qed.

Ltac field_frame :=
  intros; unfold same_field;
  try match goal with sl : slot |- _ => destruct sl as [| []] end;
  reflexivity.

#[local] Hint Extern 1 (respects (entries_kept (same_field _)) (modify_entry _ _)) =>
  apply entries_kept_modify; [ exact _ | field_frame ] : frame.
#[local] Hint Extern 3 (respects (entries_kept (same_field _)) _) =>
  first [ simple apply entries_kept_get_type
        | simple apply entries_kept_tryGetter
        | simple apply entries_kept_ns_write
        | simple apply entries_kept_ns_set
        | simple apply entries_kept_ns_get
        | simple apply entries_kept_delete_raw
        | simple apply entries_kept_seal_raw
        | simple apply entries_kept_namespace_get
        | simple apply entries_kept_addGetter
        | simple apply entries_kept_getExportsObjectKeys
        | simple apply entries_kept_assignExportsToNamespace
        | simple apply entries_kept_finalizeNamespace
        | simple apply entries_kept_getExportByName
        | simple apply entries_kept_getExportByNameFast
        | simple apply entries_kept_log ];
  [ exact _ | field_frame .. ] : frame.

(** *** Registration of getters and setters *)

Lemma addGetter_getters e name g s en s' :
  entries s !! e = Some en -> addGetter e name g s = Ok tt s' ->
  exists en', entries s' !! e = Some en'
    /\ getters en' = assoc_set name (stamp_getter e name g) (getters en)
    /\ setters en' = setters en.
Proof.
  intros He E. unfold addGetter in E.
  apply (bind_inv_resp (entries_kept (same_field getters_and_setters))) in E
    as (type & s1 & R1 & _ & E); [| resp].
  cbv zeta in E. destruct (R1 _ _ He) as (en1 & He1 & P1).
  apply bind_inv in E as ([] & s2 & E2 & E). injection E2 as <-. cbv beta in E.
  match type of E with ?m ?s2 = _ =>
    assert (respects (entries_kept (same_field getters_and_setters)) m) as Hm by resp;
    specialize (Hm s2); rewrite E in Hm;
    destruct (Hm e (set_getters (assoc_set name (stamp_getter e name g) (getters en1)) en1))
      as (en' & He' & P')
  end.
  { simpl. by rewrite lookup_alter_eq, He1. }
  exists en'. split; [done |]. unfold same_field, getters_and_setters in *. simpl in *.
  injection P1 as G1 S1. injection P' as G' S'. rewrite G', S', G1, S1. by split.
Qed.

(** X7.  When [addGetter] returns, the record holds the getter under the
    name; its [id] is the one it had or else the name, its [owner] the one
    it had or else the record; the other getters and the setters are as
    they were. *)
Theorem addGetter_registers e name g s en s' :
  entries s !! e = Some en -> addGetter e name g s = Ok tt s' ->
  exists en', entries s' !! e = Some en'
    /\ assoc name (getters en')
       = Some {| g_fn := g_fn g; g_id := Some (default name (g_id g));
                 g_owner := Some (default e (g_owner g)) |}
    /\ (forall k, k <> name -> assoc k (getters en') = assoc k (getters en))
    /\ setters en' = setters en.
Proof.
  intros He E. destruct (addGetter_getters _ _ _ _ _ _ He E) as (en' & He' & G & S).
  exists en'. split; [done |]. rewrite G. split; [apply assoc_set_eq |].
  split; [intros k Hk; by apply assoc_set_ne | done].
Qed.

Lemma assoc_has_assoc_set {A} k n (a : A) l :
  assoc_has k (assoc_set n a l) = bool_decide (k = n) || assoc_has k l.
Proof.
  unfold assoc_has. destruct (decide (k = n)) as [-> | Hne].
  - by rewrite assoc_set_eq, bool_decide_eq_true_2.
  - rewrite assoc_set_ne by done. by rewrite bool_decide_eq_false_2.
Qed.

(** X8.  When [addGetters] returns, the names that have a getter are those
    that had one and those of the list, and the setters are as they
    were. *)
Theorem addGetters_registers_all e argsList : forall s en s',
  entries s !! e = Some en -> addGetters e argsList s = Ok tt s' ->
  exists en', entries s' !! e = Some en'
    /\ (forall k, assoc_has k (getters en')
                  = assoc_has k (getters en) || bool_decide (k ∈ argsList.*1))
    /\ setters en' = setters en.
Proof.
  unfold addGetters. induction argsList as [| [name g] l IH]; intros s en s' He E.
  - injection E as <-. exists en. split; [done |]. split; [| done].
    intros k. rewrite bool_decide_eq_false_2 by set_solver. by rewrite orb_false_r.
  - cbn [for_each] in E. apply bind_inv in E as ([] & s1 & E1 & E).
    destruct (addGetter_getters _ _ _ _ _ _ He E1) as (en1 & He1 & G1 & S1).
    destruct (IH _ _ _ He1 E) as (en' & He' & G' & S').
    exists en'. split; [done |]. split; [| congruence].
    intros k. rewrite G', G1, assoc_has_assoc_set. cbn [fmap list_fmap fst].
    destruct (decide (k = name)) as [-> | Hne].
    + rewrite (bool_decide_eq_true_2 (name = name)) by done.
      rewrite (bool_decide_eq_true_2 (name ∈ name :: l.*1)) by set_solver.
      by destruct (assoc_has name (getters en)).
    + rewrite (bool_decide_eq_false_2 (k = name)) by done. cbn [orb].
      f_equal. apply bool_decide_ext. set_solver.
Qed.
Lemma seed_imported_has n k en :
  assoc_has k (importedBindings (seed_imported n en))
  = assoc_has k (importedBindings en) || bool_decide (k = n).
Proof.
  unfold seed_imported. destruct (assoc_has n (importedBindings en)) eqn:Hn.
  - destruct (decide (k = n)) as [-> | Hne].
    + by rewrite Hn.
    + rewrite (bool_decide_eq_false_2 (k = n)) by done. by rewrite orb_false_r.
  - simpl. rewrite assoc_has_assoc_set. apply orb_comm.
Qed.

Lemma seed_imported_setters n en : setters (seed_imported n en) = setters en.
Proof. unfold seed_imported. by destruct (assoc_has n (importedBindings en)). Qed.

Lemma seed_loop p l : forall s pen,
  entries s !! p = Some pen ->
  exists s' pen',
    for_each l (fun n => modify_entry p (seed_imported n)) s = Ok tt s'
    /\ entries s' !! p = Some pen'
    /\ setters pen' = setters pen
    /\ (forall e', e' <> p -> entries s' !! e' = entries s !! e')
    /\ (forall k, assoc_has k (importedBindings pen')
                  = assoc_has k (importedBindings pen) || bool_decide (k ∈ l)).
Proof.
  induction l as [| n l IH]; intros s pen Hp.
  - exists s, pen. split; [done |]. split; [done |]. split; [done |]. split; [done |].
    intros k. rewrite bool_decide_eq_false_2 by set_solver. by rewrite orb_false_r.
  - cbn [for_each]. unfold bind at 1. unfold modify_entry at 1.
    set (s1 := with_entries (alter (seed_imported n) p (entries s)) s).
    destruct (IH s1 (seed_imported n pen)) as (s' & pen' & E & Hp' & S' & O' & I').
    { subst s1. simpl. by rewrite lookup_alter_eq, Hp. }
    exists s', pen'. split; [done |]. split; [done |].
    split; [by rewrite S', seed_imported_setters |].
    split.
    + intros e' Hne. rewrite (O' _ Hne). subst s1. simpl. by rewrite lookup_alter_ne.
    + intros k. rewrite I', seed_imported_has, <- orb_assoc. f_equal.
      destruct (decide (k = n)) as [-> | Hne].
      * rewrite (bool_decide_eq_true_2 (n = n)) by done.
        by rewrite (bool_decide_eq_true_2 (n ∈ n :: l)) by set_solver.
      * rewrite (bool_decide_eq_false_2 (k = n)) by done. cbn [orb].
        apply bool_decide_ext. set_solver.
Qed.

Lemma setters_of_set k name l (t : list (key * list setter)) :
  default [] (assoc k (assoc_set name l t))
  = if bool_decide (k = name) then l else default [] (assoc k t).
Proof.
  destruct (decide (k = name)) as [-> | Hne].
  - by rewrite assoc_set_eq, bool_decide_eq_true_2.
  - rewrite assoc_set_ne by done. by rewrite bool_decide_eq_false_2.
Qed.

(** The function [fn'] is held by no list of the state. *)
Lemma registers_false fn en :
  registers fn en = false
  <-> forall k l st, (k, l) ∈ setters en -> st ∈ l -> s_fn st <> fn.
Proof.
  unfold registers. rewrite <- not_true_iff_false, existsb_exists. split.
  - intros Hn k l st Hk Hst Heq. apply Hn. exists (k, l).
    split; [by apply list_elem_of_In |]. apply existsb_exists. exists st.
    split; [by apply list_elem_of_In |]. by apply bool_decide_eq_true_2.
  - intros Hn ([k l] & Hk & Hl). apply existsb_exists in Hl as (st & Hst & Hfn).
    apply bool_decide_eq_true_1 in Hfn.
    by apply (Hn k l st); [apply list_elem_of_In | apply list_elem_of_In |].
Qed.

Lemma registered_false fn s :
  registered fn s = false
  <-> forall x en, entries s !! x = Some en -> registers fn en = false.
Proof.
  unfold registered. rewrite <- not_true_iff_false, existsb_exists. split.
  - intros Hn x en Hx. apply not_true_iff_false. intros Hr. apply Hn.
    exists (x, en). split; [| done]. by apply list_elem_of_In, elem_of_map_to_list.
  - intros Hn ([x en] & Hx & Hr). apply list_elem_of_In, elem_of_map_to_list in Hx.
    simpl in Hr. by rewrite (Hn _ _ Hx) in Hr.
Qed.

Lemma elem_of_assoc_set {A} k (a : A) n b t :
  (k, a) ∈ assoc_set n b t -> (k, a) = (n, b) \/ (k, a) ∈ t.
Proof.
  induction t as [| [k' a'] t IH]; simpl.
  - intros Hk. left. by apply list_elem_of_singleton in Hk.
  - destruct (key_eqb n k').
    + intros Hk. apply elem_of_cons in Hk as [-> | Hk]; [by left | right; set_solver].
    + intros Hk. apply elem_of_cons in Hk as [-> | Hk]; [right; set_solver |].
      destruct (IH Hk); [by left | right; set_solver].
Qed.

Lemma assoc_elem {A} k (a : A) t : assoc k t = Some a -> (k, a) ∈ t.
Proof.
  induction t as [| [k' a'] t IH]; simpl; [done |].
  destruct (key_eqb k k') eqn:Ek.
  - apply key_eqb_eq in Ek as ->. intros [= ->]. set_solver.
  - intros Hk. set_solver.
Qed.

#[local] Instance unregistered_kept_heap fn : HeapFrame (unregistered_kept fn).
Proof.
  split; [split | |].
  - by intros s Hs.
  - intros s1 s2 s3 H12 H23 Hs. auto.
  - by intros u s Hs.
  - by intros h s Hs.
Qed.

Lemma unregistered_kept_modify fn x f :
  (forall en, registers fn en = false -> registers fn (f en) = false) ->
  respects (unregistered_kept fn) (modify_entry x f).
Proof.
  intros Hf s Hs. simpl. apply registered_false. intros y en Hy. cbn [entries with_entries] in Hy.
  rewrite registered_false in Hs. destruct (decide (x = y)) as [<- | Hne].
  - rewrite lookup_alter_eq in Hy. destruct (entries s !! x) as [en0 |] eqn:Hx; [| done].
    injection Hy as <-. eauto.
  - rewrite lookup_alter_ne in Hy by done. eauto.
Qed.

Lemma unregistered_kept_addSetter fn' e name localNames fn type p :
  fn' <> fn -> respects (unregistered_kept fn') (addSetter e name localNames fn type p).
Proof.
  intros Hne. unfold addSetter.
  assert (forall f, (forall en, registers fn' en = false -> registers fn' (f en) = false) ->
                    respects (unregistered_kept fn') (modify_entry e f)) as He
    by (intros; by apply unregistered_kept_modify).
  assert (forall n, respects (unregistered_kept fn') (modify_entry p (seed_imported n))) as Hp.
  { intros n. apply unregistered_kept_modify. intros en. unfold registers.
    by rewrite seed_imported_setters. }
  assert (respects (unregistered_kept fn') (modify_entry e (fun en =>
            if assoc_has name (setters en) then en
            else set_setters (assoc_set name [] (setters en)) en))) as H1.
  { apply He. intros en Hr. destruct (assoc_has name (setters en)); [done |].
    apply registers_false. intros k l st Hk Hst. cbn [setters set_setters] in Hk.
    apply elem_of_assoc_set in Hk as [[= -> ->] | Hk]; [set_solver |].
    rewrite registers_false in Hr. eauto. }
  assert (forall setter, s_fn setter = fn ->
            respects (unregistered_kept fn') (modify_entry e (fun en =>
              set_setters (assoc_set name (setters_of name en ++ [setter]) (setters en)) en)))
    as H2.
  { intros setter Hfn. apply He. intros en Hr.
    apply registers_false. intros k l st Hk Hst. cbn [setters set_setters] in Hk.
    rewrite registers_false in Hr.
    apply elem_of_assoc_set in Hk as [[= -> ->] | Hk]; [| eauto].
    apply elem_of_app in Hst as [Hst | Hst].
    - unfold setters_of in Hst. destruct (assoc name (setters en)) as [l0 |] eqn:Hl;
        [| set_solver]. apply assoc_elem in Hl. eauto.
    - apply list_elem_of_singleton in Hst as ->. congruence. }
  pose proof (H2 {| s_fn := fn; s_last := INITIAL_VALUE; s_localNames := localNames;
                    s_parent := p; s_type := default SETTER_TYPE_STATIC_IMPORT type |}
                 eq_refl) as H3.
  resp.
Qed.

Lemma addSetter_result e name localNames fn type p s en pen :
  entries s !! e = Some en -> entries s !! p = Some pen ->
  registered fn s = false ->
  exists s' en' pen',
    addSetter e name localNames fn type p s = Ok tt s'
    /\ entries s' !! e = Some en' /\ entries s' !! p = Some pen'
    /\ (forall k, setters_of k en'
                  = if bool_decide (k = name)
                    then setters_of name en
                         ++ [{| s_fn := fn; s_last := INITIAL_VALUE;
                                s_localNames := localNames; s_parent := p;
                                s_type := default SETTER_TYPE_STATIC_IMPORT type |}]
                    else setters_of k en)
    /\ (forall k, assoc_has k (importedBindings pen')
                  = (if bool_decide (p = e) then assoc_has k (importedBindings en)
                     else assoc_has k (importedBindings pen))
                    || bool_decide (k ∈ localNames)).
Proof.
  intros He Hp Hreg. unfold addSetter. unfold bind at 1, get_state. rewrite Hreg. cbv zeta.
  set (setter := {| s_fn := fn; s_last := INITIAL_VALUE; s_localNames := localNames;
                    s_parent := p; s_type := default SETTER_TYPE_STATIC_IMPORT type |}).
  set (f1 := fun en0 => if assoc_has name (setters en0) then en0
                        else set_setters (assoc_set name [] (setters en0)) en0).
  set (f2 := fun en0 => set_setters
                          (assoc_set name (setters_of name en0 ++ [setter]) (setters en0)) en0).
  unfold bind at 1. unfold modify_entry at 1. unfold bind at 1. unfold modify_entry at 1.
  set (s2 := with_entries _ _).
  assert (entries s2 !! e = Some (f2 (f1 en))) as He2.
  { subst s2. simpl. by rewrite !lookup_alter_eq, He. }
  assert (forall k, setters_of k (f2 (f1 en))
                    = if bool_decide (k = name) then setters_of name en ++ [setter]
                      else setters_of k en) as Hs2.
  { intros k. unfold f2, setters_of. simpl. rewrite setters_of_set.
    assert (forall k', default [] (assoc k' (setters (f1 en)))
                       = default [] (assoc k' (setters en))) as H1.
    { intros k'. unfold f1, assoc_has. destruct (assoc name (setters en)) eqn:Hn; [done |].
      simpl. rewrite setters_of_set. destruct (decide (k' = name)) as [-> | Hne].
      - by rewrite bool_decide_eq_true_2, Hn.
      - by rewrite bool_decide_eq_false_2. }
    by rewrite !H1. }
  assert (exists pen2, entries s2 !! p = Some pen2
                       /\ importedBindings pen2
                          = importedBindings (if bool_decide (p = e) then en else pen))
    as (pen2 & Hp2 & Hib2).
  { destruct (decide (p = e)) as [-> | Hne].
    - exists (f2 (f1 en)). split; [done |]. rewrite bool_decide_eq_true_2 by done.
      unfold f2, f1. simpl. by destruct (assoc_has name (setters en)).
    - exists pen. rewrite bool_decide_eq_false_2 by done. split; [| done].
      subst s2. simpl. by rewrite !lookup_alter_ne. }
  rewrite (bind_ok _ _ _ _ _ (get_entry_ok _ _ _ Hp2)).
  destruct (seed_loop p localNames s2 pen2 Hp2) as (s' & pen' & E & Hp' & S' & O' & I').
  destruct (decide (p = e)) as [-> | Hne].
  - exists s', pen', pen'. split; [done |]. split; [done |]. split; [done |].
    rewrite He2 in Hp2. injection Hp2 as <-. split.
    + intros k. unfold setters_of in *. by rewrite S', Hs2.
    + intros k. rewrite I', Hib2. by rewrite bool_decide_eq_true_2.
  - exists s', (f2 (f1 en)), pen'. split; [done |].
    split; [by rewrite (O' e) by done |]. split; [done |]. split; [done |].
    intros k. rewrite I', Hib2. by rewrite bool_decide_eq_false_2.
Qed.

(** X9.  [addSetter] of a function that no setter list holds yet, on two
    records that exist, returns.  The new setter, with [last] the initial
    value and [type] the one it had or else static import, is appended to
    the list of the name; the setters registered before and those of the
    other names stay as they are; and afterwards the importer has a flag
    for each local name. *)
Theorem addSetter_appends e name localNames fn type p s en pen :
  entries s !! e = Some en -> entries s !! p = Some pen ->
  registered fn s = false ->
  exists s' en' pen',
    addSetter e name localNames fn type p s = Ok tt s'
    /\ entries s' !! e = Some en' /\ entries s' !! p = Some pen'
    /\ setters_of name en'
       = setters_of name en
         ++ [{| s_fn := fn; s_last := INITIAL_VALUE;
                s_localNames := localNames; s_parent := p;
                s_type := default SETTER_TYPE_STATIC_IMPORT type |}]
    /\ (forall k, k <> name -> setters_of k en' = setters_of k en)
    /\ (forall k, k ∈ localNames -> assoc_has k (importedBindings pen') = true).
Proof.
  intros He Hp Hreg.
  destruct (addSetter_result e name localNames fn type p s en pen He Hp Hreg)
    as (s' & en' & pen' & E & He' & Hp' & S & I).
  exists s', en', pen'. split; [done |]. split; [done |]. split; [done |].
  split; [by rewrite S, bool_decide_eq_true_2 |].
  split; [intros k Hk; by rewrite S, bool_decide_eq_false_2 |].
  intros k Hk. rewrite I, (bool_decide_eq_true_2 (k ∈ localNames)) by done.
  apply orb_true_r.
Qed.

(** X10.  [addSetters] of functions that differ from each other and that
    no setter list holds yet, on two records that exist, returns, and the
    list of every name is then what it was followed by the setters of the
    elements with that name, in the order of the list. *)
Theorem addSetters_keeps_order e p argsList : forall s en pen,
  entries s !! e = Some en -> entries s !! p = Some pen ->
  NoDup (map (fun a => a.2.1) argsList) ->
  Forall (fun a => registered a.2.1 s = false) argsList ->
  exists s' en',
    addSetters e argsList p s = Ok tt s'
    /\ entries s' !! e = Some en'
    /\ forall k, setters_of k en'
                 = setters_of k en
                   ++ map (setter_of_args p) (filter (fun a => a.1.1 = k) argsList).
Proof.
  unfold addSetters. induction argsList as [| [[name localNames] [fn type]] l IH];
    intros s en pen He Hp Hnd Hreg.
  - exists s, en. split; [done |]. split; [done |]. intros k. by rewrite app_nil_r.
  - cbn [for_each fst snd]. cbn [map fst snd] in Hnd.
    apply NoDup_cons in Hnd as [Hfn Hnd]. apply Forall_cons in Hreg as [Hr Hreg].
    cbn [fst snd] in Hr.
    destruct (addSetter_result e name localNames fn type p s en pen He Hp Hr)
      as (s1 & en1 & pen1 & E1 & He1 & Hp1 & S1 & _).
    rewrite (bind_ok _ _ _ _ _ E1).
    destruct (IH s1 en1 pen1 He1 Hp1 Hnd) as (s' & en' & E & He' & S').
    { apply Forall_forall. intros a Ha. rewrite Forall_forall in Hreg.
      assert (a.2.1 <> fn) as Hne.
      { intros Heq. apply Hfn. rewrite <- Heq. by apply (list_elem_of_fmap_2 (fun a => a.2.1)). }
      pose proof (unregistered_kept_addSetter (a.2.1) e name localNames fn type p Hne s
                    (Hreg _ Ha)) as K.
      by rewrite E1 in K. }
    exists s', en'. split; [done |]. split; [done |].
    intros k. rewrite S', S1, filter_cons. cbn [fst snd].
    destruct (decide (k = name)) as [-> | Hne].
    + rewrite bool_decide_eq_true_2 by done. rewrite decide_True by done.
      by rewrite <- app_assoc.
    + rewrite bool_decide_eq_false_2 by done. by rewrite decide_False by congruence.
Qed.
(** *** The result of [loaded] *)

Lemma loaded_declarative_completes e s en s' :
  entries s !! e = Some en -> loaded_declarative e s = Ok tt s' ->
  exists en', entries s' !! e = Some en' /\ _loaded en' = LOAD_COMPLETED.
Proof.
  intros He E. unfold loaded_declarative in E.
  rewrite (bind_ok _ _ _ _ _ (get_entry_ok _ _ _ He)) in E.
  apply (bind_inv_resp (entries_kept (same_field (fun _ : Entry => tt)))) in E
    as (names & s1 & R1 & _ & E); [| resp].
  destruct (R1 _ _ He) as (en1 & He1 & _).
  apply bind_inv in E as ([] & s2 & E2 & E). injection E2 as <-. cbv beta in E.
  match type of E with ?m ?s2 = _ =>
    assert (respects (entries_kept (same_field _loaded)) m) as Hm by resp;
    specialize (Hm s2); rewrite E in Hm;
    destruct (Hm e (set_entry_namespace NsRaw (set_loaded LOAD_COMPLETED en1)))
      as (en' & He' & P')
  end.
  { simpl. by rewrite lookup_alter_eq, He1. }
  eauto.
Qed.

Lemma loaded_dynamic_completes e m s en s' :
  entries s !! e = Some en -> loaded_dynamic e m s = Ok tt s' ->
  exists en', entries s' !! e = Some en' /\ _loaded en' = LOAD_COMPLETED.
Proof.
  intros He E. unfold loaded_dynamic in E.
  apply (bind_inv_resp (entries_kept (same_field (fun _ : Entry => tt)))) in E
    as (exported & s1 & R1 & _ & E); [| resp].
  apply (bind_inv_resp (entries_kept (same_field (fun _ : Entry => tt)))) in E
    as (names & s2 & R2 & _ & E); [| resp].
  destruct (R1 _ _ He) as (en1 & He1 & _). destruct (R2 _ _ He1) as (en2 & He2 & _).
  apply bind_inv in E as ([] & s3 & E3 & E). injection E3 as <-. cbv beta in E.
  match type of E with ?m ?s3 = _ =>
    assert (respects (entries_kept (same_field _loaded)) m) as Hm by resp;
    specialize (Hm s3); rewrite E in Hm;
    destruct (Hm e (set_loaded LOAD_COMPLETED en2)) as (en' & He' & P')
  end.
  { simpl. by rewrite lookup_alter_eq, He2. }
  eauto.
Qed.

(** X11.  When [loaded] returns, it returns the state the record then
    holds.  A record that was not [LOAD_INCOMPLETE] keeps its state; one
    that was is afterwards [LOAD_INCOMPLETE] or [LOAD_COMPLETED], never
    left indeterminate, and when it is completed its namespace is
    finalized. *)
Theorem loaded_result e s en r s' :
  entries s !! e = Some en -> loaded e s = Ok r s' ->
  exists en', entries s' !! e = Some en' /\ _loaded en' = r
    /\ (if bool_decide (_loaded en = LOAD_INCOMPLETE)
        then r = LOAD_INCOMPLETE \/ (r = LOAD_COMPLETED /\ finalized en' = true)
        else r = _loaded en).
Proof.
  intros He E. unfold loaded in E. apply bind_inv in E as ([] & s0 & E0 & E).
  unfold log in E0. injection E0 as <-. set (s0 := with_trace _ s) in *.
  unfold loaded_body in E. rewrite (bind_ok _ _ _ _ _ (get_entry_ok e s0 en He)) in E.
  destruct (bool_decide (_loaded en = LOAD_INCOMPLETE)) eqn:Hl; cbn [negb] in E.
  2:{ injection E as <- <-. exists en. by repeat split. }
  cbv zeta in E.
  assert (forall s1 s2, entries_kept (same_field (fun _ : Entry => tt)) s1 s2 ->
                        set_loaded_state e LOAD_INCOMPLETE s2 = Ok r s' ->
                        entries_kept (same_field (fun _ : Entry => tt)) s0 s1 ->
                        exists en', entries s' !! e = Some en' /\ _loaded en' = r
                          /\ (r = LOAD_INCOMPLETE
                              \/ (r = LOAD_COMPLETED /\ finalized en' = true))) as Hearly.
  { intros s1 s2 R12 Es R01. destruct (R01 _ _ He) as (en1 & He1 & _).
    destruct (R12 _ _ He1) as (en2 & He2 & _).
    unfold set_loaded_state, bind, modify_entry, ret in Es. injection Es as <- <-.
    exists (set_loaded LOAD_INCOMPLETE en2). simpl. rewrite lookup_alter_eq, He2. auto. }
  apply (bind_inv_resp (entries_kept (same_field (fun _ : Entry => tt)))) in E
    as (modLoaded & s2 & R2 & _ & E); [| resp].
  destruct modLoaded; cbn [negb] in E; [| by apply (Hearly s0 s2)].
  apply (bind_inv_resp (entries_kept (same_field (fun _ : Entry => tt)))) in E
    as ([] & s3 & R3 & _ & E); [| resp].
  apply (bind_inv_resp (entries_kept (same_field (fun _ : Entry => tt)))) in E
    as (allLoaded & s4 & R4 & _ & E); [| resp].
  assert (entries_kept (same_field (fun _ : Entry => tt)) s0 s4) as R04.
  { transitivity s2; [done |]. by transitivity s3. }
  destruct allLoaded; cbn [negb] in E; [| by apply (Hearly s4 s4)].
  apply (bind_inv_resp (entries_kept (same_field (fun _ : Entry => tt)))) in E
    as (type & s5 & R5 & _ & E); [| resp].
  destruct (R04 _ _ He) as (en4 & He4 & _). destruct (R5 _ _ He4) as (en5 & He5 & _).
  apply bind_inv in E as ([] & s6 & E6 & E).
  assert (exists en6, entries s6 !! e = Some en6 /\ _loaded en6 = LOAD_COMPLETED)
    as (en6 & He6 & Hl6).
  { destruct (_ || _);
      [by apply (loaded_declarative_completes e s5 en5)
      | by apply (loaded_dynamic_completes e (entry_module en) s5 en5)]. }
  apply (bind_inv_resp (entries_kept (same_field _loaded))) in E
    as ([] & s7 & R7 & E7 & E); [| resp].
  destruct (R7 _ _ He6) as (en7 & He7 & Hl7). unfold same_field in Hl7.
  destruct (finalizeNamespace_final e s6 en6 He6) as (en7' & He7' & Hf7).
  rewrite E7 in He7'. simpl in He7'. rewrite He7 in He7'. injection He7' as <-.
  rewrite (bind_ok _ _ _ _ _ (get_entry_ok _ _ _ He7)) in E. injection E as <- <-.
  exists en7. split; [done |]. split; [done |]. right. split; [congruence | done].
Qed.
(** *** The export names of a dynamic module *)

Lemma elem_of_ordered_names_inv k ks : k ∈ ordered_names ks -> KStr k ∈ ks.
Proof.
  unfold ordered_names. rewrite elem_of_app. intros [Hk | Hk].
  - apply list_elem_of_fmap in Hk as ([n k'] & -> & Hk). simpl.
    apply elem_of_sort_by in Hk. unfold index_keys in Hk.
    apply list_elem_of_omap in Hk as (key & Hkey & Hf).
    destruct key as [str | | |]; try discriminate.
    destruct (array_index str); [| discriminate]. by injection Hf as _ <-.
  - apply list_elem_of_omap in Hk as (key & Hkey & Hf).
    apply list_elem_of_filter in Hkey as [_ Hkey].
    destruct key as [str | | |]; try discriminate. by injection Hf as <-.
Qed.

Lemma assoc_of_elem {A} k (a : A) l :
  NoDup (map fst l) -> (k, a) ∈ l -> assoc k l = Some a.
Proof.
  induction l as [| [k' a'] l IH]; simpl; intros Hnd Hin; [by apply elem_of_nil in Hin |].
  apply NoDup_cons in Hnd as [Hk' Hnd]. apply elem_of_cons in Hin as [[= <- <-] | Hin].
  - by rewrite key_eqb_refl.
  - rewrite key_eqb_ne; [by apply IH |]. intros <-. apply Hk'.
    apply list_elem_of_fmap. by exists (k, a).
Qed.

(** X12.  For an exported object, every own enumerable string key is an
    export name of [getExportsObjectKeys], every export name is an own
    property name, and [__esModule] is an export name only when it is
    enumerable. *)
Theorem export_names_of_dynamic_module (o : obj nat) name :
  NoDup (map fst (o_props o)) ->
  (name ∈ Object_keys o -> name ∈ dynamic_export_names o)
  /\ (name ∈ dynamic_export_names o -> name ∈ ownPropertyNames_obj o)
  /\ (name ∈ dynamic_export_names o -> name = "__esModule" ->
      own_enumerable (o_props o) (KStr name) = true).
Proof.
  intros Hnd. unfold dynamic_export_names. split; [| split].
  - intros Hk. unfold Object_keys in Hk. apply elem_of_ordered_names_inv in Hk.
    apply list_elem_of_fmap in Hk as ([k p] & Hk & Hin). simpl in Hk. subst k.
    apply list_elem_of_filter in Hin as [He Hin]. simpl in He.
    apply list_elem_of_filter. split.
    + unfold own_enumerable. by rewrite (assoc_of_elem _ _ _ Hnd Hin), He.
    + unfold ownPropertyNames_obj. apply elem_of_ordered_names.
      apply list_elem_of_fmap. by exists (KStr name, p).
  - intros Hk. by apply list_elem_of_filter in Hk as [_ Hk].
  - intros Hk ->. apply list_elem_of_filter in Hk as [Hf _].
    destruct (own_enumerable (o_props o) (KStr "__esModule")); [done |].
    by rewrite bool_decide_eq_true_2 in Hf.
Qed.

(** *** The [get] trap of the namespace views *)

Lemma get_type_total e s en :
  entries s !! e = Some en ->
  exists t s1 en1, get_type e s = Ok t s1 /\ entries s1 !! e = Some en1
    /\ entry_type en1 = TypeValue t
    /\ (forall t0, entry_type en = TypeValue t0 -> t = t0 /\ s1 = s)
    /\ views_of en1 = views_of en /\ finalized en1 = finalized en
    /\ getters en1 = getters en /\ exports en1 = exports en.
Proof.
  intros He. unfold get_type. rewrite (bind_ok _ _ _ _ _ (get_entry_ok _ _ _ He)).
  destruct (entry_type en) as [isModule | t0] eqn:Ht.
  - destruct isModule; unfold bind, modify_entry, ret; eexists _, _, _;
      (split; [reflexivity |]); simpl; rewrite lookup_alter_eq, He; simpl;
      (split; [reflexivity |]); repeat split; discriminate.
  - exists t0, s, en. repeat split; auto; congruence.
Qed.

(** X13.  Reading a string key that the raw object of a view holds throws
    [ERR_UNDEFINED_IDENTIFIER] as long as the namespace is not finalized,
    and also afterwards when the record is a declarative module without a
    getter for the key.  On a finalized record that is not declarative,
    [default] read through a partial view is [entry.exports]. *)
Theorem get_trap_of_views e v name s en :
  entries s !! e = Some en ->
  (key_is_string name = true -> has_property (raw_of (SlotView v) en) name = true ->
   finalized en = false
   \/ (entry_type en = TypeValue TYPE_ESM /\ assoc name (getters en) = None) ->
   exists s', common_get e v name s = Throw (ERR_UNDEFINED_IDENTIFIER name) s')
  /\ (forall t, entry_type en = TypeValue t -> t <> TYPE_ESM -> finalized en = true ->
      v = Partial \/ v = PartialMutable ->
      common_get e v (KStr "default") s = Ok (exports en) s).
Proof.
  intros He. split.
  - intros Hstr Hhas Hcase. unfold common_get.
    destruct (get_type_total e s en He)
      as (t & s1 & en1 & Et & He1 & Ht1 & Hval & Hv & Hf & Hg & _).
    rewrite (bind_ok _ _ _ _ _ Et), (bind_ok _ _ _ _ _ (get_entry_ok _ _ _ He1)).
    cbv zeta.
    assert (raw_of (SlotView v) en1 = raw_of (SlotView v) en) as Hraw.
    { unfold views_of in Hv. injection Hv as H1 H2 H3 H4. destruct v; simpl; congruence. }
    assert (forall s2, (if true && key_is_string name
                           && has_property (raw_of (SlotView v) en1) name
                        then throw (ERR_UNDEFINED_IDENTIFIER name)
                        else (if negb (bool_decide (t = TYPE_ESM))
                                 && key_eqb name (KStr "default")
                                 && (bool_decide (v = PartialMutable)
                                     || bool_decide (v = Partial))
                              then ret (exports en1) else namespace_get e name)) s2
                       = Throw (ERR_UNDEFINED_IDENTIFIER name) s2) as Hthrow.
    { intros s2. by rewrite Hstr, Hraw, Hhas. }
    destruct Hcase as [Hnf | [Hesm Hnone]].
    + rewrite Hf, Hnf, andb_false_r. cbn [negb].
      rewrite (bind_ok _ _ s1 true s1) by reflexivity.
      rewrite (bind_ok _ _ _ _ _ (get_entry_ok _ _ _ He1)). eauto.
    + destruct (Hval _ Hesm) as [-> ->]. rewrite Hf.
      destruct (finalized en).
      * rewrite bool_decide_eq_true_2 by done. cbn [andb]. rewrite Hg, Hnone.
        rewrite (bind_ok _ _ s true s) by reflexivity.
        rewrite (bind_ok _ _ _ _ _ (get_entry_ok _ _ _ He1)). eauto.
      * rewrite andb_false_r. cbn [negb].
        rewrite (bind_ok _ _ s true s) by reflexivity.
        rewrite (bind_ok _ _ _ _ _ (get_entry_ok _ _ _ He1)). eauto.
  - intros t Ht Hne Hfin Hv. unfold common_get.
    rewrite (bind_ok _ _ _ _ _ (get_type_value _ _ _ _ He Ht)).
    rewrite (bind_ok _ _ _ _ _ (get_entry_ok _ _ _ He)). cbv zeta.
    rewrite (bool_decide_eq_false_2 _ Hne), Hfin. cbn [andb negb].
    rewrite (bind_ok _ _ s false s) by reflexivity.
    rewrite (bind_ok _ _ _ _ _ (get_entry_ok _ _ _ He)). cbn [andb].
    change (key_eqb (KStr "default") (KStr "default")) with true.
    by destruct Hv as [-> | ->].
Qed.
(** *** Propagation to a record that is not declarative *)

Lemma runGetters_null_throws e s en t a mo lv :
  entries s !! e = Some en -> entry_type en = TypeValue t -> t <> TYPE_ESM ->
  entry_module en = VObj a -> heap s !! a = Some mo ->
  plan_get mo (KStr "loaded") = GetValue lv -> truthy lv = true ->
  isObjectLike (exports en) = true ->
  runGetters e NamesNull s = Throw (TypeError "names is not iterable") s.
Proof.
  intros He Ht Hne Hm Hmo Hl Hlv Hobj. unfold runGetters.
  rewrite (bind_ok _ _ _ _ _ (get_type_value _ _ _ _ He Ht)).
  rewrite (bool_decide_eq_false_2 _ Hne).
  rewrite (bind_ok _ _ _ _ _ (get_entry_ok _ _ _ He)).
  rewrite (bind_ok _ _ s true s).
  2:{ unfold module_loaded. rewrite Hm. unfold value_get.
      unfold bind, get_object, ret. rewrite Hmo, Hl. by rewrite Hlv. }
  unfold assignExportsToNamespace.
  rewrite (bind_ok _ _ _ _ _ (get_entry_ok _ _ _ He)), Hobj. cbn [negb].
  by rewrite (bind_ok _ _ _ _ _ (get_type_value _ _ _ _ He Ht)).
Qed.

(** X14.  [updateBindings(null, ...)], the call that propagation makes on
    a parent, throws a [TypeError] on a record that is not declarative,
    whose module is loaded and whose exported value is object-like, unless
    the cycle guard returns first: [assignExportsToNamespace] iterates over
    [names], and only [undefined] is replaced by a list. *)
Theorem updateBindings_null_on_loaded_dynamic fuel e ut seen s en t a mo lv :
  entries s !! e = Some en -> entry_type en = TypeValue t -> t <> TYPE_ESM ->
  entry_module en = VObj a -> heap s !! a = Some mo ->
  plan_get mo (KStr "loaded") = GetValue lv -> truthy lv = true ->
  isObjectLike (exports en) = true ->
  shouldUpdateParents_of en ut && seen_has seen e = false ->
  exists s', updateBindings (S fuel) e NamesNull ut seen s
             = Some (Throw (TypeError "names is not iterable") s').
Proof.
  intros He Ht Hne Hm Hmo Hl Hlv Hobj Hguard. cbn [updateBindings].
  unfold bind at 1. unfold log at 1.
  set (s0 := with_trace _ s).
  rewrite (get_entry_ok e s0 en He). rewrite Hguard.
  unfold updateBindings_passes. unfold bind at 1. unfold log at 1.
  set (s1 := with_trace _ s0). cbn [normalize_names].
  unfold bind at 1. unfold modify_entry at 1.
  set (s2 := with_entries _ s1).
  assert (entries s2 !! e = Some (set_changed false en)) as He2.
  { subst s2 s1 s0. simpl. by rewrite lookup_alter_eq, He. }
  unfold bind at 1.
  rewrite (runGetters_null_throws e s2 (set_changed false en) t a mo lv); eauto.
Qed.

(** *** What propagation never touches *)

Lemma state_rel_records s s' : state_rel s s' -> records_kept s s'.
Proof.
  intros [Hd He Hc Hb]. split; [done |]. split; [done |]. split; [done |].
  intros x en Hx. destruct (He _ _ Hx) as (en' & Hx' & [Hcore _ _]). eauto.
Qed.

(** X15.  [updateBindings] and [loaded], however they end, leave the entry
    cache and the bridged map as they are, create and remove no record,
    and keep of every record the module, the package, the names, the
    children and the parent. *)
Theorem propagation_keeps_records s :
  (forall fuel e names ut seen r,
     updateBindings fuel e names ut seen s = Some r -> records_kept s (final_state r))
  /\ (forall e, records_kept s (final_state (loaded e s))).
Proof.
  split.
  - intros fuel e names ut seen r E. apply state_rel_records.
    apply (tr_state _ _ _ (updateBindings_tree _ _ _ _ _ _ _ E)).
  - intros e. apply state_rel_records. apply (fr_state _ _ _ (resp_loaded e s)).
Qed.

(** *** The traps of the mutable views *)

Lemma resp_Object_defineProperty q v k d :
  respects (frame_rel q) (Object_defineProperty v k d).
Proof. unfold Object_defineProperty. resp. Qed.

Lemma resp_Reflect_deleteProperty q v k : respects (frame_rel q) (Reflect_deleteProperty v k).
Proof. unfold Reflect_deleteProperty. resp. Qed.

Lemma republish_frame fuel e v name s r :
  republish fuel e v name s = Some r -> state_rel s (final_state r).
Proof.
  unfold republish, get_entry. destruct (entries s !! e) as [en |]; [| by intros [= <-]].
  destruct (has_property _ name); [| by intros [= <-]].
  match goal with |- context [addGetter e name ?g s] =>
    pose proof (fr_state _ _ _ (resp_addGetter true e name g s)) as H1;
    destruct (addGetter e name g s) as [[] s1 | err s1]
  end; simpl in H1; [| by intros [= <-]].
  destruct (updateBindings fuel e _ _ None s1) as [[out s2 | err s2] |] eqn:E;
    [| | discriminate];
    pose proof (tr_state _ _ _ (updateBindings_tree _ _ _ _ _ _ _ E)) as H2; simpl in H2;
    intros [= <-]; by transitivity s1.
Qed.

Lemma republish_terminates fuel e v name s :
  size (dom (entries s)) < fuel -> is_Some (republish fuel e v name s).
Proof.
  intros Hf. unfold republish, get_entry. destruct (entries s !! e) as [en |]; [| eauto].
  destruct (has_property _ name); [| eauto].
  match goal with |- context [addGetter e name ?g s] =>
    pose proof (fr_state _ _ _ (resp_addGetter true e name g s)) as H1;
    destruct (addGetter e name g s) as [[] s1 | err s1]
  end; simpl in H1; [| eauto].
  destruct (updateBindings_terminates fuel e (names_of_key name) UPDATE_TYPE_DEFAULT None s1)
    as [r Hr].
  { rewrite (sr_dom _ _ H1). eapply Nat.le_lt_trans; [| exact Hf].
    apply subseteq_size. set_solver. }
  rewrite Hr. destruct r; eauto.
Qed.

(** X16.  The [defineProperty] trap of a mutable view returns [false] and
    changes nothing while the namespace is not finalized.  Both that trap
    and [deleteProperty] end, within a recursion no deeper than the number
    of records plus one; and however they end they leave the entry cache
    and the records in place, and the raw objects of the views of every
    finalized record as they are: what they write is [entry.exports]. *)
Theorem mutable_traps e s en :
  entries s !! e = Some en ->
  (finalized en = false ->
   forall fuel v name descriptor,
     mutable_defineProperty fuel e v name descriptor s = Some (Ok false s))
  /\ (forall fuel v name descriptor,
        size (dom (entries s)) < fuel ->
        is_Some (mutable_defineProperty fuel e v name descriptor s)
        /\ is_Some (mutable_deleteProperty fuel e v name s))
  /\ (forall fuel v name descriptor r,
        mutable_defineProperty fuel e v name descriptor s = Some r
        \/ mutable_deleteProperty fuel e v name s = Some r ->
        records_kept s (final_state r)
        /\ forall x enx, entries s !! x = Some enx -> finalized enx = true ->
           exists enx', entries (final_state r) !! x = Some enx'
                        /\ finalized enx' = true /\ views_of enx' = views_of enx).
Proof.
  intros He. split; [| split].
  - intros Hf fuel v name descriptor. unfold mutable_defineProperty.
    by rewrite (get_entry_ok _ _ _ He), Hf.
  - intros fuel v name descriptor Hfuel. split.
    + unfold mutable_defineProperty. rewrite (get_entry_ok _ _ _ He).
      destruct (negb (finalized en)); [eauto |].
      pose proof (fr_state _ _ _ (resp_Object_defineProperty true (exports en) name descriptor s))
        as H1.
      destruct (Object_defineProperty _ name descriptor s) as [[] s1 | err s1]; [| eauto].
      apply republish_terminates. simpl in H1. by rewrite (sr_dom _ _ H1).
    + unfold mutable_deleteProperty. rewrite (get_entry_ok _ _ _ He).
      pose proof (fr_state _ _ _ (resp_Reflect_deleteProperty true (exports en) name s)) as H1.
      destruct (Reflect_deleteProperty _ name s) as [[|] s1 | err s1]; [| eauto ..].
      apply republish_terminates. simpl in H1. by rewrite (sr_dom _ _ H1).
  - intros fuel v name descriptor r Hr.
    assert (state_rel s (final_state r)) as Hrel.
    { destruct Hr as [Hr | Hr].
      - unfold mutable_defineProperty in Hr. rewrite (get_entry_ok _ _ _ He) in Hr.
        destruct (negb (finalized en)); [by injection Hr as <- |].
        pose proof (fr_state _ _ _
                      (resp_Object_defineProperty true (exports en) name descriptor s)) as H1.
        destruct (Object_defineProperty _ name descriptor s) as [[] s1 | err s1]; simpl in H1;
          [| by injection Hr as <-].
        transitivity s1; [done |]. by apply (republish_frame fuel e v name).
      - unfold mutable_deleteProperty in Hr. rewrite (get_entry_ok _ _ _ He) in Hr.
        pose proof (fr_state _ _ _ (resp_Reflect_deleteProperty true (exports en) name s)) as H1.
        destruct (Reflect_deleteProperty _ name s) as [[|] s1 | err s1]; simpl in H1;
          [| by injection Hr as <- ..].
        transitivity s1; [done |]. by apply (republish_frame fuel e v name). }
    split; [by apply state_rel_records |].
    intros x enx Hx Hfx. by apply (state_rel_views s _ x enx).
Qed.
(** *** [assignExportsToNamespace] only adds getters *)

Lemma register_missing e (isCJS : bool) l : forall s en s',
  entries s !! e = Some en ->
  for_each l (fun name =>
    bind (get_entry e) (fun en =>
      if negb (isCJS && key_eqb name (KStr "default")) && negb (assoc_has name (getters en))
      then addGetter e name {| g_fn := GNamespaceGet e name; g_id := None; g_owner := None |}
      else ret tt)) s = Ok tt s' ->
  exists en', entries s' !! e = Some en' /\ getters_le en en' /\ setters en' = setters en
    /\ forall k, k ∈ l -> k <> KStr "default" -> assoc_has k (getters en') = true.
Proof.
  induction l as [| name l IH]; intros s en s' He E.
  - injection E as <-. exists en. split; [done |]. split; [by intros k g |]. split; [done |].
    intros k Hk. by apply elem_of_nil in Hk.
  - cbn [for_each] in E. apply bind_inv in E as ([] & s1 & E1 & E).
    rewrite (bind_ok _ _ _ _ _ (get_entry_ok _ _ _ He)) in E1.
    assert (exists en1, entries s1 !! e = Some en1 /\ getters_le en en1
                        /\ setters en1 = setters en
                        /\ (name <> KStr "default" -> assoc_has name (getters en1) = true))
      as (en1 & He1 & G1 & S1 & N1).
    { destruct (negb (isCJS && key_eqb name (KStr "default"))) eqn:Hc;
        destruct (assoc_has name (getters en)) eqn:Hg; cbn [andb negb] in E1.
      - injection E1 as <-. exists en. split; [done |]. split; [by intros k g |]. by split.
      - destruct (addGetter_getters _ _ _ _ _ _ He E1) as (en1 & He1 & G1 & S1).
        exists en1. split; [done |]. split.
        + intros k g Hk. rewrite G1. rewrite assoc_set_ne; [done |].
          intros <-. unfold assoc_has in Hg. by rewrite Hk in Hg.
        + split; [done |]. intros _. by rewrite G1, assoc_has_assoc_set, bool_decide_eq_true_2.
      - injection E1 as <-. exists en. split; [done |]. split; [by intros k g |]. by split.
      - injection E1 as <-. exists en. split; [done |]. split; [by intros k g |].
        split; [done |]. intros Hne. apply negb_false_iff, andb_true_iff in Hc as [_ Hd].
        by apply key_eqb_eq in Hd. }
    destruct (IH _ _ _ He1 E) as (en' & He' & G' & S' & N').
    exists en'. split; [done |]. split; [intros k g Hk; by apply G', G1 |].
    split; [congruence |]. intros k Hk Hne. apply elem_of_cons in Hk as [-> | Hk]; [| auto].
    specialize (N1 Hne). unfold assoc_has in *.
    destruct (assoc name (getters en1)) as [g |] eqn:Hg; [| done]. by rewrite (G' _ _ Hg).
Qed.

(** X17.  When [assignExportsToNamespace] returns, every getter the record
    had is still registered under its name, the setters are as they were,
    and, for an object-like exported value and an array of names, every
    name of the array other than [default] has a getter. *)
Theorem assignExportsToNamespace_adds_getters e names s en s' :
  entries s !! e = Some en -> assignExportsToNamespace e names s = Ok tt s' ->
  exists en', entries s' !! e = Some en' /\ getters_le en en' /\ setters en' = setters en
    /\ (isObjectLike (exports en) = true ->
        forall l k, names = NamesArray l -> k ∈ l -> k <> KStr "default" ->
                    assoc_has k (getters en') = true).
Proof.
  intros He E. unfold assignExportsToNamespace in E.
  rewrite (bind_ok _ _ _ _ _ (get_entry_ok _ _ _ He)) in E.
  destruct (isObjectLike (exports en)); cbn [negb] in E.
  2:{ injection E as <-. exists en. split; [done |]. split; [by intros k g |]. by split. }
  apply (bind_inv_resp (entries_kept (same_field getters_and_setters))) in E
    as (type & s1 & R1 & _ & E); [| resp].
  cbv zeta in E.
  apply (bind_inv_resp (entries_kept (same_field getters_and_setters))) in E
    as (l0 & s2 & R2 & E2 & E); [| resp].
  destruct (R1 _ _ He) as (en1 & He1 & P1). destruct (R2 _ _ He1) as (en2 & He2 & P2).
  unfold same_field, getters_and_setters in P1, P2.
  injection P1 as G1 S1. injection P2 as G2 S2.
  destruct (register_missing e _ l0 s2 en2 s' He2 E) as (en' & He' & G' & S' & N').
  exists en'. split; [done |].
  split; [intros k g Hk; apply G'; by rewrite G2, G1 |]. split; [congruence |].
  intros _ l k -> Hk Hne. injection E2 as <- _. by apply N'.
Qed.
(** *** The namespace reads through to the exported value *)

Lemma assoc_app_absent {A} k (a : A) l : assoc k l = None -> assoc k (l ++ [(k, a)]) = Some a.
Proof.
  induction l as [| [k' a'] l IH]; simpl.
  - by rewrite key_eqb_refl.
  - destruct (key_eqb k k'); [discriminate | done].
Qed.

Lemma ns_read_ok e sl s en : entries s !! e = Some en -> ns_read e sl s = Ok (raw_of sl en) s.
Proof. intros He. unfold ns_read. by rewrite (bind_ok _ _ _ _ _ (get_entry_ok _ _ _ He)). Qed.

Lemma define_accessor (o : nsobj) name g st :
  definable o name = true ->
  exists o',
    define_own o name {| d_value := None; d_writable := None;
                         d_get := Some (Some g); d_set := Some (Some st);
                         d_enumerable := Some true; d_configurable := Some true |} = Some o'
    /\ get_own o' name = Some (PAccessor (Some g) (Some st) true true).
Proof.
  unfold definable, define_own. destruct (get_own o name) as [cur |] eqn:Hcur.
  - intros Hc. unfold redefine_prop. rewrite Hc. cbn [negb andb].
    destruct cur as [x w en c | g0 s0 en c]; simpl in *; eexists; (split; [reflexivity |]);
      unfold get_own; simpl; apply assoc_set_eq.
  - intros ->. eexists. split; [reflexivity |]. unfold get_own in *. simpl.
    by apply assoc_app_absent.
Qed.

(** X18.  After [addGetter] on a name that the raw namespace object can
    take, a read of [entry._namespace[name]] is a read of
    [entry.exports[name]], whatever the getter registered; for [default]
    on a CJS record it is [entry.exports] itself.  (For [default] on a
    declarative record [addGetter] first calls the getter, which is left
    out here.) *)
Theorem addGetter_reads_through e name g s en t :
  entries s !! e = Some en -> entry_type en = TypeValue t ->
  (name = KStr "default" -> t <> TYPE_ESM) ->
  definable (_namespace en) name = true ->
  exists s', addGetter e name g s = Ok tt s'
    /\ ns_get e SlotNamespace name s'
       = (if key_eqb name (KStr "default") && bool_decide (t = TYPE_CJS)
          then Ok (exports en) s'
          else value_get (exports en) name s').
Proof.
  intros He Ht Hdef Hown. unfold addGetter.
  rewrite (bind_ok _ _ _ _ _ (get_type_value _ _ _ _ He Ht)). cbv zeta.
  unfold bind at 1. unfold modify_entry at 1.
  set (f := fun en0 => set_getters (assoc_set name (stamp_getter e name g) (getters en0)) en0).
  set (s1 := with_entries (alter f e (entries s)) s).
  assert (entries s1 !! e = Some (f en)) as He1.
  { subst s1. simpl. by rewrite lookup_alter_eq, He. }
  assert (key_eqb name (KStr "default") && bool_decide (t = TYPE_ESM) = false) as ->.
  { destruct (key_eqb name (KStr "default")) eqn:Hk; [| done].
    apply key_eqb_eq in Hk. by rewrite (bool_decide_eq_false_2 _ (Hdef Hk)). }
  rewrite (bind_ok _ _ s1 tt s1) by reflexivity.
  rewrite (bind_ok _ _ _ _ _ (ns_read_ok e SlotNamespace s1 (f en) He1)).
  change (raw_of SlotNamespace (f en)) with (_namespace en).
  set (c := key_eqb name (KStr "default") && bool_decide (t = TYPE_CJS)).
  destruct (define_accessor (_namespace en) name
              (if c then CExportsWhole e else CExportsGet e name)
              (if c then CSetProperty name else CExportsSet e name) Hown)
    as (o' & Hd & Ho').
  match goal with |- context [define_own (_namespace en) name ?d] =>
    assert (define_own (_namespace en) name d = Some o') as -> by (by destruct c)
  end.
  eexists. split; [reflexivity |].
  unfold ns_write, modify_entry. set (s2 := with_entries _ s1).
  assert (entries s2 !! e = Some (set_namespace o' (f en))) as He2.
  { subst s2. cbn [entries with_entries]. by rewrite lookup_alter_eq, He1. }
  unfold ns_get. rewrite (bind_ok _ _ _ _ _ (ns_read_ok e SlotNamespace s2 _ He2)).
  change (raw_of SlotNamespace (set_namespace o' (f en))) with o'.
  unfold plan_get, get_property. rewrite Ho'.
  destruct c; unfold call_closure; by rewrite (bind_ok _ _ _ _ _ (get_entry_ok _ _ _ He2)).
Qed.
(** *** The keys of the full views after finalization *)

Lemma NoDup_insert_by {A} (leb : A -> A -> bool) x l :
  x ∉ l -> NoDup l -> NoDup (insert_by leb x l).
Proof.
  intros Hx Hl. induction l as [| y l IH]; simpl.
  - apply NoDup_singleton.
  - destruct (leb x y); [by apply NoDup_cons |].
    apply NoDup_cons in Hl as [Hy Hl]. apply NoDup_cons. split.
    + rewrite elem_of_insert_by. set_solver.
    + apply IH; [set_solver | done].
Qed.

Lemma NoDup_sort_by {A} (leb : A -> A -> bool) l : NoDup l -> NoDup (sort_by leb l).
Proof.
  induction 1 as [| x l Hx Hl IH]; simpl; [apply NoDup_nil_2 |].
  apply NoDup_insert_by; [by rewrite elem_of_sort_by | done].
Qed.

Lemma fresh_view_absent o n : fresh_view o = true -> get_own o (KStr n) = None.
Proof.
  unfold fresh_view, get_own. intros Hf. apply andb_true_iff in Hf as [_ Hf].
  induction (o_props o) as [| [k p] l IH]; [done |]. simpl in *.
  apply andb_true_iff in Hf as [Hk Hf]. destruct k; try discriminate; simpl; auto.
Qed.

Lemma with_slots_cons o n l :
  with_slots (with_slots o [n]) l = with_slots o (n :: l).
Proof. unfold with_slots, with_props. simpl. by rewrite <- app_assoc. Qed.

Lemma with_slots_nil o : with_slots o [] = o.
Proof. unfold with_slots, with_props. rewrite app_nil_r. by destruct o. Qed.

Lemma assoc_app_other {A} k k' (a : A) l : k <> k' -> assoc k (l ++ [(k', a)]) = assoc k l.
Proof.
  intros Hne. induction l as [| [k2 a2] l IH]; simpl.
  - by rewrite key_eqb_ne.
  - by destruct (key_eqb k k2).
Qed.

Lemma plan_set_new (o : nsobj) n v :
  get_own o (KStr n) = None -> o_chain o = [] -> o_extensible o = true ->
  plan_set o (KStr n) v
  = SetStore (with_props o (o_props o ++ [(KStr n, PData v true true true)])).
Proof. intros Hn Hc He. unfold plan_set. by rewrite Hn, Hc, He. Qed.

Lemma ns_set_new e v n s en :
  entries s !! e = Some en ->
  get_own (raw_of (SlotView v) en) (KStr n) = None ->
  o_chain (raw_of (SlotView v) en) = [] -> o_extensible (raw_of (SlotView v) en) = true ->
  ns_set e (SlotView v) (KStr n) INITIAL_VALUE s
  = Ok tt (with_entries
             (<[e := set_raw (SlotView v) (with_slots (raw_of (SlotView v) en) [n]) en]>
                (entries s)) s).
Proof.
  intros He Hn Hc Hx. unfold ns_set.
  rewrite (bind_ok _ _ _ _ _ (ns_read_ok e (SlotView v) s en He)).
  rewrite (plan_set_new _ _ _ Hn Hc Hx). unfold ns_write, modify_entry. do 2 f_equal.
  apply map_eq. intros x. destruct (decide (x = e)) as [-> | Hne].
  - by rewrite lookup_alter_eq, lookup_insert_eq, He.
  - by rewrite lookup_alter_ne, lookup_insert_ne.
Qed.

Lemma slots_loop e l : forall s en,
  entries s !! e = Some en -> NoDup l ->
  (forall n, n ∈ l -> get_own (_completeNamespace en) (KStr n) = None
                      /\ get_own (_completeMutableNamespace en) (KStr n) = None) ->
  o_chain (_completeNamespace en) = [] -> o_extensible (_completeNamespace en) = true ->
  o_chain (_completeMutableNamespace en) = [] ->
  o_extensible (_completeMutableNamespace en) = true ->
  exists s' en',
    for_each l (fun name =>
      bind (ns_set e (SlotView CompleteMutable) (KStr name) INITIAL_VALUE)
           (fun _ => ns_set e (SlotView Complete) (KStr name) INITIAL_VALUE)) s = Ok tt s'
    /\ entries s' !! e = Some en'
    /\ _completeNamespace en' = with_slots (_completeNamespace en) l
    /\ _completeMutableNamespace en' = with_slots (_completeMutableNamespace en) l
    /\ entry_type en' = entry_type en
    /\ _namespaceFinalized en' = _namespaceFinalized en.
Proof.
  induction l as [| n l IH]; intros s en He Hnd Habs Hc1 Hx1 Hc2 Hx2.
  - exists s, en. by rewrite !with_slots_nil.
  - apply NoDup_cons in Hnd as [Hn Hnd]. cbn [for_each].
    destruct (Habs n) as [A1 A2]; [set_solver |].
    pose (en1 := set_raw (SlotView CompleteMutable)
                   (with_slots (_completeMutableNamespace en) [n]) en).
    pose (s1 := with_entries (<[e := en1]> (entries s)) s).
    pose (en2 := set_raw (SlotView Complete) (with_slots (_completeNamespace en) [n]) en1).
    pose (s2 := with_entries (<[e := en2]> (entries s1)) s1).
    assert (entries s1 !! e = Some en1) as He1 by apply lookup_insert_eq.
    assert (entries s2 !! e = Some en2) as He2 by apply lookup_insert_eq.
    assert (bind (ns_set e (SlotView CompleteMutable) (KStr n) INITIAL_VALUE)
                 (fun _ => ns_set e (SlotView Complete) (KStr n) INITIAL_VALUE) s
            = Ok tt s2) as Hbody.
    { rewrite (bind_ok _ _ _ _ _ (ns_set_new e CompleteMutable n s en He A2 Hc2 Hx2)).
      apply (ns_set_new e Complete n s1 en1 He1 A1 Hc1 Hx1). }
    rewrite (bind_ok _ _ _ _ _ Hbody).
    destruct (IH s2 en2 He2 Hnd) as (s' & en' & E & He' & C' & M' & T' & F'); try done.
    { intros k Hk. assert (KStr k <> KStr n) as Hne by (intros [= ->]; done).
      destruct (Habs k) as [B1 B2]; [set_solver |].
      subst en2 en1. unfold get_own, with_slots in *. simpl.
      by rewrite !assoc_app_other. }
    exists s', en'. split; [done |]. split; [done |].
    subst en2 en1. simpl in *. by rewrite C', M', !with_slots_cons.
Qed.
Lemma seal_raw_ok e sl s en :
  entries s !! e = Some en ->
  seal_raw e sl s
  = Ok tt (with_entries (alter (set_raw sl (seal (raw_of sl en))) e (entries s)) s).
Proof.
  intros He. unfold seal_raw. by rewrite (bind_ok _ _ _ _ _ (ns_read_ok e sl s en He)).
Qed.

Lemma fresh_view_parts o :
  fresh_view o = true -> o_extensible o = true /\ o_chain o = [].
Proof.
  unfold fresh_view. intros Hf. apply andb_true_iff in Hf as [Hf _].
  apply andb_true_iff in Hf as [Hx Hc]. split; [done |]. by destruct (o_chain o).
Qed.

Lemma own_names_seal_slots o l :
  own_names (seal (with_slots o l)) = own_names o ++ map KStr l.
Proof.
  unfold own_names, seal, with_slots. simpl.
  rewrite map_map, map_app, map_map. simpl. f_equal.
Qed.

Lemma insert_by_perm {A} (leb : A -> A -> bool) x l : insert_by leb x l ≡ₚ x :: l.
Proof.
  induction l as [| y l IH]; simpl; [done |].
  destruct (leb x y); [done |]. rewrite IH. apply Permutation_swap.
Qed.

Lemma sort_by_perm {A} (leb : A -> A -> bool) l : sort_by leb l ≡ₚ l.
Proof.
  induction l as [| x l IH]; simpl; [done |]. by rewrite insert_by_perm, IH.
Qed.

(** X19.  On a declarative record that is not finalized, whose full views
    are fresh raw objects, [finalizeNamespace] returns, and the keys of
    each full view are then the keys it had together with the enumerable
    string keys of [_namespace], each of these once. *)
Theorem finalizeNamespace_copies_export_names e s en :
  entries s !! e = Some en -> finalized en = false ->
  entry_type en = TypeValue TYPE_ESM ->
  fresh_view (_completeNamespace en) = true ->
  fresh_view (_completeMutableNamespace en) = true ->
  NoDup (Object_keys (_namespace en)) ->
  exists s' en',
    finalizeNamespace e s = Ok tt s' /\ entries s' !! e = Some en'
    /\ own_names (_completeNamespace en')
       ≡ₚ own_names (_completeNamespace en) ++ map KStr (Object_keys (_namespace en))
    /\ own_names (_completeMutableNamespace en')
       ≡ₚ own_names (_completeMutableNamespace en)
          ++ map KStr (Object_keys (_namespace en)).
Proof.
  intros He Hf Ht Hc Hm Hnd. set (names := sort_names (Object_keys (_namespace en))).
  destruct (fresh_view_parts _ Hc) as [Hx1 Hc1]. destruct (fresh_view_parts _ Hm) as [Hx2 Hc2].
  unfold finalizeNamespace. rewrite (bind_ok _ _ _ _ _ (get_entry_ok _ _ _ He)).
  unfold finalized in Hf. rewrite Hf.
  unfold bind at 1. unfold modify_entry at 1.
  set (en1 := set_namespaceFinalized NAMESPACE_FINALIZATION_COMPLETED en).
  set (s1 := with_entries _ s).
  assert (entries s1 !! e = Some en1) as He1.
  { subst s1. cbn [entries with_entries]. by rewrite lookup_alter_eq, He. }
  destruct (slots_loop e names s1 en1 He1) as (s2 & en2 & E2 & He2 & C2 & M2 & T2 & F2);
    try done.
  { by apply NoDup_sort_by. }
  { intros n _. split; by apply fresh_view_absent. }
  fold names. rewrite (bind_ok _ _ _ _ _ E2).
  rewrite (bind_ok _ _ _ _ _ (seal_raw_ok e (SlotView Complete) s2 en2 He2)).
  pose (en3 := set_raw (SlotView Complete) (seal (_completeNamespace en2)) en2).
  set (s3 := with_entries _ s2).
  assert (entries s3 !! e = Some en3) as He3.
  { subst s3. cbn [entries with_entries]. by rewrite lookup_alter_eq, He2. }
  assert (entry_type en3 = TypeValue TYPE_ESM) as Ht3.
  { change (entry_type en2 = TypeValue TYPE_ESM). rewrite T2. exact Ht. }
  rewrite (bind_ok _ _ _ _ _ (get_type_value _ _ _ _ He3 Ht3)).
  rewrite bool_decide_eq_true_2 by done. cbn [negb].
  assert (map KStr names ≡ₚ map KStr (Object_keys (_namespace en))) as Hp.
  { apply fmap_Permutation, sort_by_perm. }
  exists s3, en3. split; [done |]. split; [done |]. split.
  - subst en3. simpl. rewrite C2, own_names_seal_slots. by rewrite Hp.
  - subst en3. simpl. rewrite M2. unfold own_names, with_slots. simpl.
    rewrite map_app, map_map. simpl. by rewrite <- Hp.
Qed.
(** *** The record [Entry.get] creates *)

Lemma cache_kept_value_get v k s :
  cache (final_state (value_get v k s)) = cache s
  /\ entries (final_state (value_get v k s)) = entries s.
Proof.
  unfold value_get. destruct v; try done;
    unfold bind, get_object; (destruct (heap s !! a) as [o |]; [| done]);
    (destruct (plan_get o k); [done |]); unfold host_fn;
    by destruct (host_call _ _ _) as [[x |] u].
Qed.

(** X20.  [Entry.get] on an object that the cache does not hold returns a
    record that did not exist before, made for that module with the
    exported value read from it; its parent is what [Entry.get] returned
    for [mod.parent], and the cache holds an entry for that parent when it
    is an object. *)
Theorem Entry_get_creates fuel m s exported parent s1 res s' :
  isObject m s = true -> vassoc m (cache s) = None ->
  constructor_reads m s = Ok (exported, parent) s1 ->
  Entry_get (S fuel) m s = Some (Ok res s') ->
  exists e en pe s2,
    res = Some e /\ entries s' !! e = Some en
    /\ Entry_get fuel parent s1 = Some (Ok pe s2)
    /\ (e ∉ dom (entries s2))
    /\ entry_module en = m /\ exports en = exported /\ entry_parent en = pe
    /\ setters en = [(KStr "*", [])] /\ getters en = []
    /\ (isObject parent s1 = true -> parent <> m -> is_Some (vassoc parent (cache s'))).
Proof.
  intros Hm Hc Hreads E. rewrite Entry_get_S in E. rewrite Hm, Hc, Hreads in E. cbn [negb] in E.
  destruct (Entry_get fuel parent s1) as [[pe s2 | err s2] |] eqn:E2; [| discriminate ..].
  injection E as E. unfold create_entry in E.
  apply bind_inv in E as (x1 & s3 & E3 & E). apply bind_inv in E as (fname & s4 & E4 & E).
  apply bind_inv in E as (e & s5 & E5 & E). apply bind_inv in E as ([] & s6 & E6 & E).
  injection E as <- <-.
  destruct (cache_kept_value_get m (KStr "loaded") s2) as [C3 N3]. rewrite E3 in C3, N3.
  destruct (cache_kept_value_get m (KStr "filename") s3) as [C4 N4]. rewrite E4 in C4, N4.
  simpl in C3, N3, C4, N4.
  unfold allocate in E5. injection E5 as <- <-.
  assert (cache s6 = (if isObject m (with_entries
                                       (<[fresh (dom (entries s4)) :=
                                            construct m exported pe fname]> (entries s4)) s4)
                      then vassoc_set m (fresh (dom (entries s4))) (cache s4)
                      else cache s4)
          /\ entries s6 = <[fresh (dom (entries s4)) := construct m exported pe fname]>
                            (entries s4)) as [C6 N6].
  { unfold Entry_set in E6.
    match type of E6 with context [isObject m ?st] =>
      revert E6; destruct (isObject m st); intros E6
    end; by injection E6 as <-. }
  exists (fresh (dom (entries s4))), (construct m exported pe fname), pe, s2.
  split; [done |]. split; [by rewrite N6, lookup_insert_eq |]. split; [done |].
  split; [rewrite <- N3, <- N4; apply is_fresh |].
  do 5 (split; [reflexivity |]).
  intros Hp Hne. destruct (Entry_get_result _ _ _ _ _ Hp E2) as (pe' & _ & Hcp & _).
  rewrite C6.
  match goal with |- context [isObject m ?st] => destruct (isObject m st) end.
  - rewrite vassoc_set_ne by done. rewrite C4, C3. eauto.
  - rewrite C4, C3. eauto.
Qed.
(** *** The flag [_changed] *)

#[local] Instance unchanged_kept_preorder : PreOrder unchanged_kept.
Proof.
  split.
  - intros s x en Hx. eauto.
  - intros s1 s2 s3 H12 H23 x en Hx.
    destruct (H12 _ _ Hx) as (en2 & Hx2 & C2). destruct (H23 _ _ Hx2) as (en3 & Hx3 & C3).
    eauto.
Qed.

#[local] Instance changed_kept_but_preorder e : PreOrder (changed_kept_but e).
Proof.
  split.
  - intros s x en Hx. eauto.
  - intros s1 s2 s3 H12 H23 x en Hx.
    destruct (H12 _ _ Hx) as (en2 & Hx2 & C2). destruct (H23 _ _ Hx2) as (en3 & Hx3 & C3).
    exists en3. split; [done |]. intros Hne. rewrite C3, C2; auto.
Qed.

#[local] Instance changed_kept_but_heap e : HeapFrame (changed_kept_but e).
Proof. split; [apply _ | |]; intros y s x en Hx; exists en; eauto. Qed.

Lemma kept_to_but e s s' : entries_kept (same_field _changed) s s' -> changed_kept_but e s s'.
Proof. intros K x en Hx. destruct (K _ _ Hx) as (en' & Hx' & C). eauto. Qed.

Lemma kept_to_unchanged s s' : entries_kept (same_field _changed) s s' -> unchanged_kept s s'.
Proof.
  intros K x en Hx. destruct (K _ _ Hx) as (en' & Hx' & C). unfold same_field in C.
  exists en'. split; [done |]. congruence.
Qed.

Lemma resp_kept_to_but {A} e (m : M A) :
  respects (entries_kept (same_field _changed)) m -> respects (changed_kept_but e) m.
Proof. intros Hm s. apply kept_to_but, Hm. Qed.

Lemma changed_kept_but_modify e f : respects (changed_kept_but e) (modify_entry e f).
Proof.
  intros s x en Hx. simpl. destruct (decide (e = x)) as [<- | Hne].
  - exists (f en). rewrite lookup_alter_eq, Hx. split; [done |]. by intros [].
  - exists en. by rewrite lookup_alter_ne.
Qed.

#[local] Hint Resolve changed_kept_but_modify : frame.
#[local] Hint Extern 5 (respects (changed_kept_but _) _) =>
  apply resp_kept_to_but; solve [ eauto with frame ] : frame.

Lemma changed_but_runGetter e name : respects (changed_kept_but e) (runGetter e name).
Proof. unfold runGetter. resp. Qed.
#[local] Hint Resolve changed_but_runGetter : frame.

Lemma changed_but_runGetters e names : respects (changed_kept_but e) (runGetters e names).
Proof. unfold runGetters. resp. Qed.

Lemma changed_but_update_callback e sup st pm :
  respects (changed_kept_but e) (update_callback sup st pm).
Proof. unfold update_callback. resp. Qed.
#[local] Hint Resolve changed_but_update_callback : frame.

Lemma changed_but_runSetter_step e sup name ut (isESM isLoaded isNsChanged : bool) i acc :
  respects (changed_kept_but e)
    (runSetter_step e name (update_callback sup) ut isESM isLoaded isNsChanged i acc).
Proof. unfold runSetter_step, write_setters. resp. Qed.
#[local] Hint Resolve changed_but_runSetter_step : frame.

Lemma changed_but_runSetter_loop e sup name ut (isESM isLoaded isNsChanged : bool) n :
  forall acc, respects (changed_kept_but e)
    (runSetter_loop e name (update_callback sup) ut isESM isLoaded isNsChanged n acc).
Proof. induction n as [| n IH]; intros acc; simpl; resp. Qed.
#[local] Hint Resolve changed_but_runSetter_loop : frame.

Lemma changed_but_runSetters e sup names ut acc :
  respects (changed_kept_but e) (runSetters e names (update_callback sup) ut acc).
Proof. unfold runSetters, runSetter. resp. Qed.

Lemma changed_but_passes e names ut sup :
  respects (changed_kept_but e) (updateBindings_passes e names ut sup).
Proof.
  unfold updateBindings_passes. pose proof changed_but_runGetters.
  pose proof changed_but_runSetters. resp.
Qed.

Lemma passes_reset e names ut sup s pm s' en :
  entries s !! e = Some en -> updateBindings_passes e names ut sup s = Ok pm s' ->
  exists en', entries s' !! e = Some en' /\ _changed en' = false.
Proof.
  intros He E. unfold updateBindings_passes in E. cbv zeta in E.
  apply (bind_inv_resp (changed_kept_but e)) in E as ([] & s1 & R1 & _ & E); [| resp].
  apply (bind_inv_resp (changed_kept_but e)) in E as ([] & s2 & R2 & _ & E); [| resp].
  apply (bind_inv_resp (changed_kept_but e)) in E as ([] & s3 & R3 & _ & E);
    [| apply changed_but_runGetters].
  apply (bind_inv_resp (changed_kept_but e)) in E as (pm' & s4 & R4 & _ & E);
    [| apply changed_but_runSetters].
  destruct (R1 _ _ He) as (en1 & He1 & _). destruct (R2 _ _ He1) as (en2 & He2 & _).
  destruct (R3 _ _ He2) as (en3 & He3 & _). destruct (R4 _ _ He3) as (en4 & He4 & _).
  apply bind_inv in E as ([] & s5 & E5 & E). injection E5 as <-. injection E as _ <-.
  exists (set_changed false en4). simpl. by rewrite lookup_alter_eq, He4.
Qed.

Lemma loaded_keeps_changed e : respects (entries_kept (same_field _changed)) (loaded e).
Proof.
  unfold loaded, loaded_body, loaded_declarative, loaded_dynamic, set_loaded_state. resp.
Qed.

Lemma but_to_unchanged e s s' en' :
  changed_kept_but e s s' -> entries s' !! e = Some en' -> _changed en' = false ->
  unchanged_kept s s'.
Proof.
  intros K He' Hc x en Hx. destruct (K _ _ Hx) as (enx & Hx' & C).
  exists enx. split; [done |]. intros Hf. destruct (decide (x = e)) as [-> | Hne].
  - congruence.
  - by rewrite C.
Qed.

Lemma updateBindings_unchanged fuel : forall e names ut seen s out s',
  updateBindings fuel e names ut seen s = Some (Ok out s') ->
  unchanged_kept s s'
  /\ forall en, entries s !! e = Some en ->
     shouldUpdateParents_of en ut && seen_has seen e = false ->
     exists en', entries s' !! e = Some en' /\ _changed en' = false.
Proof.
  induction fuel as [| fuel IH]; intros e names ut seen s out s' E; [discriminate |].
  cbn [updateBindings] in E. unfold bind at 1 in E. unfold log at 1 in E.
  set (s0 := with_trace _ s) in E. unfold get_entry in E.
  change (entries s0) with (entries s) in E.
  destruct (entries s !! e) as [this |] eqn:Hthis; [| discriminate].
  destruct (shouldUpdateParents_of this ut && seen_has seen e) eqn:Hguard.
  { injection E as _ <-. split; [by intros x en Hx; exists en |].
    intros en [= <-] Hg. congruence. }
  pose proof (changed_but_passes e names ut (shouldUpdateParents_of this ut) s0) as K.
  destruct (updateBindings_passes e names ut (shouldUpdateParents_of this ut) s0)
    as [pm s1 | err s1] eqn:Epass; [| discriminate]. simpl in K.
  destruct (passes_reset e names ut _ s0 pm s1 this Hthis Epass) as (en1 & He1 & Hc1).
  assert (unchanged_kept s s1) as U1.
  { apply (but_to_unchanged e s s1 en1); [| done | done].
    intros x en Hx. apply (K x en Hx). }
  destruct pm as [parentsMap |].
  2:{ injection E as _ <-. split; [done |]. intros en [= <-] _. eauto. }
  cbv zeta in E.
  set (s1' := with_trace _ s1) in E.
  assert (forall parents set sa r,
            propagate (call_parent (updateBindings fuel) ut) parents set sa = Some r ->
            forall set' sb, r = Ok set' sb -> unchanged_kept sa sb) as Hprop.
  { induction parents as [| p parents IHp]; intros set sa r Er set' sb ->.
    - injection Er as _ <-. reflexivity.
    - cbn [propagate] in Er.
      pose proof (loaded_keeps_changed p sa) as Kl.
      destruct (loaded p sa) as [l sl | err sl]; [| discriminate]. simpl in Kl.
      unfold call_parent in Er.
      destruct (updateBindings fuel p NamesNull (parentUpdateType ut) (Some set) sl)
        as [[o sc | err sc] |] eqn:Ec; [| discriminate ..].
      destruct (IH _ _ _ _ _ _ _ Ec) as [Uc _].
      transitivity sl; [by apply kept_to_unchanged |].
      transitivity sc; [done |]. by apply (IHp _ _ _ Er set' sb). }
  destruct (propagate _ (in_order parentsMap) _ s1') as [[set sb | err sb] |] eqn:Ep;
    [| discriminate ..].
  injection E as _ <-.
  assert (unchanged_kept s1 sb) as U2 by (by apply (Hprop _ _ _ _ Ep set sb)).
  split; [by transitivity s1 |].
  intros en [= <-] _. destruct (U2 _ _ He1) as (en' & He' & C'). eauto.
Qed.

(** X21.  When [updateBindings] returns, no record that was not marked
    changed is marked changed, and the record itself is not marked
    changed unless the cycle guard returned at once: [_changed] only lives
    between the getter pass and the setter pass. *)
Theorem updateBindings_resets_changed fuel e names ut seen s out s' en :
  entries s !! e = Some en ->
  updateBindings fuel e names ut seen s = Some (Ok out s') ->
  unchanged_kept s s'
  /\ (shouldUpdateParents_of en ut && seen_has seen e = false ->
      exists en', entries s' !! e = Some en' /\ _changed en' = false).
Proof.
  intros He E. destruct (updateBindings_unchanged _ _ _ _ _ _ _ _ E) as [U R].
  split; [done |]. by apply R.
Qed.
(** *** The flags and the error sentinel *)

Lemma callback_on_error sup st pm :
  s_last st = ERROR_GETTER ->
  respects (entries_kept (same_field importedBindings)) (update_callback sup st pm).
Proof.
  intros Hl. unfold update_callback. rewrite Hl.
  rewrite bool_decide_eq_true_2 by done. cbn [negb]. resp.
Qed.

(** A turn of the setter pass whose resolved value is the error sentinel
    leaves the flags of every record as they are. *)
Lemma turn_on_error_keeps_flags sup e name ut (isESM isLoaded isNsChanged : bool) i acc
    s en st s1 :
  entries s !! e = Some en ->
  setters_of name en !! i = Some st ->
  (if isESM then getExportByNameFast e name (s_parent st)
   else getExportByName e name (s_parent st)) s = Ok ERROR_GETTER s1 ->
  entries_kept (same_field importedBindings) s
    (final_state (runSetter_step e name (update_callback sup) ut
                    isESM isLoaded isNsChanged i acc s)).
Proof.
  intros He Hst Hres.
  assert (entries_kept (same_field importedBindings) s s1) as K1.
  { assert (respects (entries_kept (same_field importedBindings))
              (if isESM then getExportByNameFast e name (s_parent st)
               else getExportByName e name (s_parent st))) as Hm by (destruct isESM; resp).
    specialize (Hm s). by rewrite Hres in Hm. }
  unfold runSetter_step. rewrite (bind_ok _ _ _ _ _ (get_entry_ok _ _ _ He)). rewrite Hst.
  cbv zeta. rewrite (bind_ok _ _ _ _ _ Hres).
  rewrite (bool_decide_eq_false_2 (ERROR_GETTER = ERROR_STAR)) by done.
  transitivity s1; [done |].
  pose proof (callback_on_error sup (set_last ERROR_GETTER st)) as Hcb.
  match goal with
  | |- entries_kept _ s1 (final_state (?m s1)) =>
      assert (respects (entries_kept (same_field importedBindings)) m) as Hm
  end.
  { unfold write_setters. resp. }
  apply Hm.
Qed.

(** C9.  The flags of [importedBindings] are monotone.  For a flag that a
    record holds for a local name: whatever a propagation does, and however
    it ends, the flag afterwards has the value it had or is [true], so a
    [true] flag stays [true]; [addSetter] leaves every flag that is present
    as it is and seeds [false] only for names that are absent; and a turn
    of the setter pass whose resolved value is the error sentinel writes no
    flag of any record, whether or not the setter is called: the callback
    is handed the setter after [last] has taken the resolved value, and it
    writes nothing when [last] is the sentinel. *)
Theorem importedBindings_monotone s p en k b :
  entries s !! p = Some en ->
  assoc k (importedBindings en) = Some b ->
  (forall fuel e names ut seen r,
     updateBindings fuel e names ut seen s = Some r ->
     exists en', entries (final_state r) !! p = Some en'
                 /\ (assoc k (importedBindings en') = Some b
                     \/ assoc k (importedBindings en') = Some true))
  /\ (forall e name localNames fn type parentEntry,
        exists en', entries (final_state (addSetter e name localNames fn type parentEntry s)) !! p
                    = Some en'
                    /\ assoc k (importedBindings en') = Some b)
  /\ (forall name, assoc name (importedBindings en) = None ->
        assoc name (importedBindings (seed_imported name en)) = Some false)
  /\ (forall sup st pm,
        s_last st = ERROR_GETTER ->
        entries (final_state (update_callback sup st pm s)) = entries s)
  /\ (forall sup e name ut (isESM isLoaded isNsChanged : bool) i acc en_e st s1,
        entries s !! e = Some en_e ->
        setters_of name en_e !! i = Some st ->
        (if isESM then getExportByNameFast e name (s_parent st)
         else getExportByName e name (s_parent st)) s = Ok ERROR_GETTER s1 ->
        exists en',
          entries (final_state (runSetter_step e name (update_callback sup) ut
                                  isESM isLoaded isNsChanged i acc s)) !! p = Some en'
          /\ importedBindings en' = importedBindings en).
Proof.
  intros He Hk. split; [| split; [| split; [| split]]].
  - intros fuel e names ut seen r Hr.
    destruct (updateBindings_tree _ _ _ _ _ _ _ Hr) as [[_ Hent _ _] _].
    destruct (Hent _ _ He) as (en' & He' & [_ Hib _ _]). eauto.
  - intros e name localNames fn type parentEntry.
    destruct (flags_kept_addSetter e name localNames fn type parentEntry s _ _ He)
      as (en' & He' & K). eauto.
  - intros name Hn. unfold seed_imported, assoc_has. rewrite Hn. simpl. apply assoc_set_eq.
  - intros sup st pm Hlast. unfold update_callback, bind, get_entry. rewrite Hlast. simpl.
    destruct (entries s !! s_parent st); [| done]. simpl.
    destruct sup; simpl; [| done]. by destruct (entries s !! s_parent st).
  - intros sup e name ut isESM isLoaded isNsChanged i acc en_e st s1 Hen Hst Hres.
    apply (turn_on_error_keeps_flags sup e name ut isESM isLoaded isNsChanged i acc
             s en_e st s1 Hen Hst Hres _ _ He).
Qed.

(** *** A second call of [Entry.get] *)

Lemma get_type_keeps e s t st en :
  entries s !! e = Some en -> get_type e s = Ok t st ->
  heap st = heap s /\ cache st = cache s /\ bridged st = bridged s
  /\ exists en', entries st !! e = Some en' /\ entry_module en' = entry_module en.
Proof.
  intros He E.
  pose proof (heap_kept_get_type e s) as Hh. pose proof (resp_get_type true e s) as [Hs _].
  rewrite E in Hh, Hs. simpl in Hh, Hs. destruct Hs as [_ Hent Hc Hb].
  destruct (Hent _ _ He) as (en' & He' & Hr). repeat (split; [done |]).
  exists en'. split; [done |]. by apply entry_rel_module.
Qed.

Lemma value_get_keeps v k s x s' :
  value_get v k s = Ok x s' ->
  heap s' = heap s /\ cache s' = cache s /\ bridged s' = bridged s.
Proof.
  intros E. pose proof (heap_kept_value_get v k s) as Hh.
  pose proof (resp_value_get (frame_rel true) v k s) as [[_ _ Hc Hb] _].
  rewrite E in Hh, Hc, Hb. by simpl in *.
Qed.

(** What [Entry.get] does when the cache holds [e] for [m]. *)
Lemma Entry_get_cached fuel m s e en :
  isObject m s = true -> vassoc m (cache s) = Some e -> entries s !! e = Some en ->
  (_loaded en <> LOAD_COMPLETED -> Entry_get (S fuel) m s = Some (Ok (Some e) s))
  /\ (_loaded en = LOAD_COMPLETED ->
      forall t st, get_type e s = Ok t st ->
        (t <> TYPE_CJS -> Entry_get (S fuel) m s = Some (Ok (Some e) st))
        /\ (t = TYPE_CJS ->
            forall exported s2,
              value_get (entry_module en) (KStr "exports") st = Ok exported s2 ->
              match vassoc exported (bridged s2) with
              | None => Entry_get (S fuel) m s = Some (Ok (Some e) s2)
              | Some found =>
                  Entry_get (S fuel) m s
                  = Some (Ok (Some found)
                            (with_cache (vassoc_set m found (cache s2))
                               (with_bridged (vassoc_del exported (bridged s2)) s2)))
              end)).
Proof.
  intros Hm Hc He. split; [intros Hl; by apply (Entry_get_again fuel m s e en) |].
  intros Hl t st Ht. destruct (get_type_keeps _ _ _ _ _ He Ht) as (Hh & Hcs & Hb & en' & He' & Hmod).
  assert (forall x s0, heap s0 = heap s -> cache s0 = cache s ->
            Entry_set m x s0 = Ok tt (with_cache (vassoc_set m x (cache s)) s0)) as Hset.
  { intros x s0 Hh0 Hc0. rewrite Entry_set_object by (by rewrite (isObject_heap _ _ _ Hh0)).
    by rewrite Hc0. }
  cbn [Entry_get]. rewrite Hm, Hc. cbn [negb]. unfold cached_entry.
  rewrite (bind_ok _ _ _ _ _ (get_entry_ok _ _ _ He)).
  rewrite (bool_decide_eq_true_2 _ Hl).
  assert (bind (get_type e) (fun type => ret (bool_decide (type = TYPE_CJS))) s
          = Ok (bool_decide (t = TYPE_CJS)) st) as Hcjs
    by (by rewrite (bind_ok _ _ _ _ _ Ht)).
  rewrite (bind_ok _ _ _ _ _ Hcjs). split.
  - intros Hne. rewrite bool_decide_eq_false_2 by done.
    unfold bind at 1. unfold ret at 1. unfold bind at 1.
    rewrite (Hset e st Hh Hcs). unfold ret.
    rewrite (vassoc_set_same _ _ _ Hc), <- Hcs. by rewrite with_cache_same.
  - intros -> exported s2 Hv. rewrite bool_decide_eq_true_2 by done.
    destruct (value_get_keeps _ _ _ _ _ Hv) as (Hh2 & Hc2 & Hb2).
    assert (heap s2 = heap s) as Hh2' by congruence.
    assert (cache s2 = cache s) as Hc2' by congruence.
    destruct (vassoc exported (bridged s2)) as [found |] eqn:Hf.
    + assert (bind (get_entry e)
                (fun en0 => bind (value_get (entry_module en0) (KStr "exports"))
                   (fun exported0 => bind get_state
                      (fun s0 => match vassoc exported0 (bridged s0) with
                                 | Some foundEntry =>
                                     bind (fun s1 => Ok tt
                                             (with_bridged (vassoc_del exported0 (bridged s1)) s1))
                                          (fun _ => ret foundEntry)
                                 | None => ret e
                                 end))) st
              = Ok found (with_bridged (vassoc_del exported (bridged s2)) s2)) as Hin.
      { rewrite (bind_ok _ _ _ _ _ (get_entry_ok _ _ _ He')). rewrite Hmod.
        rewrite (bind_ok _ _ _ _ _ Hv). unfold bind at 1, get_state. by rewrite Hf. }
      rewrite (bind_ok _ _ _ _ _ Hin). unfold bind at 1.
      rewrite (Hset found (with_bridged (vassoc_del exported (bridged s2)) s2) Hh2' Hc2').
      unfold ret. by rewrite Hc2'.
    + assert (bind (get_entry e)
                (fun en0 => bind (value_get (entry_module en0) (KStr "exports"))
                   (fun exported0 => bind get_state
                      (fun s0 => match vassoc exported0 (bridged s0) with
                                 | Some foundEntry =>
                                     bind (fun s1 => Ok tt
                                             (with_bridged (vassoc_del exported0 (bridged s1)) s1))
                                          (fun _ => ret foundEntry)
                                 | None => ret e
                                 end))) st
              = Ok e s2) as Hin.
      { rewrite (bind_ok _ _ _ _ _ (get_entry_ok _ _ _ He')). rewrite Hmod.
        rewrite (bind_ok _ _ _ _ _ Hv). unfold bind at 1, get_state. by rewrite Hf. }
      rewrite (bind_ok _ _ _ _ _ Hin). unfold bind at 1.
      rewrite (Hset e _ Hh2' Hc2'). unfold ret.
      rewrite (vassoc_set_same _ _ _ Hc), <- Hc2'. by rewrite with_cache_same.
Qed.

(** C10 (amended).  For a [mod] that is not an object, [Entry.get] returns
    [null] and changes nothing, and [Entry.set] changes nothing.  For an
    object [mod], [Entry.get] ends whenever the chain of the parents of
    [mod] ends (at a value that is not an object, at a cached module or at
    a module whose reads throw); when it returns, it returns an entry that
    the cache holds for [mod]; an entry it has just created is not loaded.
    A further call returns the same entry, and changes nothing but what the
    reads of [entry.type] and of [module.exports] change, in every case but
    one: when the entry is completely loaded, its type is CJS and the
    bridged map holds an entry for its [module.exports], the call returns
    that entry, stores it in the cache for [mod] and removes it from the
    bridged map. *)
Theorem Entry_get_caches fuel mod_ s :
  (isObject mod_ s = false ->
     Entry_get (S fuel) mod_ s = Some (Ok None s)
     /\ forall entry, Entry_set mod_ entry s = Ok tt s)
  /\ (isObject mod_ s = true ->
      (parents_end fuel mod_ s = true -> is_Some (Entry_get (S fuel) mod_ s))
      /\ forall res s', Entry_get fuel mod_ s = Some (Ok res s') ->
         exists e, res = Some e
           /\ vassoc mod_ (cache s') = Some e
           /\ (vassoc mod_ (cache s) = None ->
               exists en, entries s' !! e = Some en /\ _loaded en = LOAD_INCOMPLETE)
           /\ (forall en fuel', entries s' !! e = Some en ->
               (_loaded en <> LOAD_COMPLETED ->
                Entry_get (S fuel') mod_ s' = Some (Ok (Some e) s'))
               /\ (_loaded en = LOAD_COMPLETED ->
                   forall t st, get_type e s' = Ok t st ->
                     (t <> TYPE_CJS -> Entry_get (S fuel') mod_ s' = Some (Ok (Some e) st))
                     /\ (t = TYPE_CJS ->
                         forall exported s2,
                           value_get (entry_module en) (KStr "exports") st = Ok exported s2 ->
                           match vassoc exported (bridged s2) with
                           | None => Entry_get (S fuel') mod_ s' = Some (Ok (Some e) s2)
                           | Some found =>
                               Entry_get (S fuel') mod_ s'
                               = Some (Ok (Some found)
                                         (with_cache (vassoc_set mod_ found (cache s2))
                                            (with_bridged (vassoc_del exported (bridged s2))
                                               s2)))
                           end)))).
Proof.
  split.
  - intros Hm. split; [by apply Entry_get_not_object |].
    intros entry. by apply Entry_set_not_object.
  - intros Hm. split; [apply Entry_get_terminates |].
    intros res s' E.
    destruct (Entry_get_result _ _ _ _ _ Hm E) as (e & -> & Hc & Hm' & Hnew).
    exists e. split; [done |]. split; [done |]. split; [done |].
    intros en fuel' He. by apply Entry_get_cached.
Qed.

(** *** The export-star conflict *)

Lemma with_host_same s : with_host (host s) s = s.
Proof. by destruct s. Qed.

(** A constant export resolves to its value and leaves the state alone. *)
Lemma resolve_constant_fast e name p s en v :
  entries s !! e = Some en -> constant_export en name v ->
  getExportByNameFast e name p s = Ok v s.
Proof.
  intros He (Ht & Hn & g & h & Hg & Hfn & Hc). unfold getExportByNameFast.
  unfold key_eqb. rewrite bool_decide_eq_false_2 by done. cbn [negb].
  rewrite (bind_ok _ _ _ _ _ (get_entry_ok _ _ _ He)).
  unfold assoc_has. rewrite Hg. unfold tryGetter, try_catch_js, try_catch, call_getter.
  rewrite Hfn. unfold host_fn. rewrite Hc. by rewrite with_host_same.
Qed.

(** A turn of the setter pass, at any index, whose resolved value is the
    conflict sentinel. *)
Lemma turn_conflict {A} (callback : setter -> A -> M A) s e name ut
    (isESM isLoaded isNsChanged : bool) i acc en st s1 :
  entries s !! e = Some en ->
  setters_of name en !! i = Some st ->
  (if isESM then getExportByNameFast e name (s_parent st)
   else getExportByName e name (s_parent st)) s = Ok ERROR_STAR s1 ->
  let s3 := final_state (write_setters e name (delete i (setters_of name en)) s1) in
  runSetter_step e name callback ut isESM isLoaded isNsChanged i acc s
  = Throw (ERR_EXPORT_STAR_CONFLICT (entry_module en) name) s3
  /\ trace s3 = trace s
  /\ (exists en3, entries s3 !! e = Some en3
                  /\ setters_of name en3 = delete i (setters_of name en)
                  /\ (forall name', name' <> name ->
                       assoc name' (setters en3) = assoc name' (setters en))
                  /\ getters en3 = getters en
                  /\ entry_rel en en3).
Proof.
  intros He Hst Hres s3.
  assert (tables_kept s s1) as K.
  { destruct isESM.
    - pose proof (kept_getExportByNameFast e name (s_parent st) s) as K. by rewrite Hres in K.
    - pose proof (kept_getExportByName e name (s_parent st) s) as K. by rewrite Hres in K. }
  destruct (tables_kept_lookup _ _ _ _ K He) as (en1 & He1 & S1 & G1 & L1 & C1 & R1).
  assert (setters_of name en1 = setters_of name en) as Hl1 by (unfold setters_of; by rewrite S1).
  split; [| split].
  - unfold runSetter_step. rewrite (bind_ok _ _ _ _ _ (get_entry_ok _ _ _ He)). rewrite Hst.
    cbv zeta. rewrite (bind_ok _ _ _ _ _ Hres).
    rewrite (bool_decide_eq_true_2 (ERROR_STAR = ERROR_STAR)) by done.
    rewrite (bind_ok _ _ _ _ _ (get_entry_ok _ _ _ He1)). rewrite Hl1.
    unfold bind, write_setters, modify_entry, throw. subst s3.
    unfold write_setters, modify_entry. simpl. by rewrite (entry_rel_module _ _ R1).
  - subst s3. simpl. by destruct K.
  - subst s3. simpl. eexists. rewrite lookup_alter_eq, He1. simpl. split; [reflexivity |].
    split.
    { unfold setters_of. simpl. by rewrite assoc_set_eq. }
    split.
    { intros name' Hne. simpl. rewrite assoc_set_ne by done. by rewrite S1. }
    split; [done |].
    eapply entry_rel_trans; [exact R1 |]. same_entry.
Qed.

(** The pass over a name whose export keeps resolving to the sentinel
    throws and drops the last setter of the list. *)
Lemma pass_conflict_constant {A} (callback : setter -> A -> M A) s e name ut acc en l st :
  entries s !! e = Some en ->
  constant_export en name ERROR_STAR ->
  assoc name (setters en) = Some (l ++ [st]) ->
  runSetter e name callback ut acc s
  = Throw (ERR_EXPORT_STAR_CONFLICT (entry_module en) name)
          (final_state (write_setters e name l s)).
Proof.
  intros He Hc Hl. destruct Hc as (Ht & Hc').
  apply (pass_conflict_first callback s e name ut acc en l st TYPE_ESM s s He Hl).
  - by apply (get_type_value _ _ en).
  - rewrite bool_decide_eq_true_2 by done. by apply (resolve_constant_fast _ _ _ _ en).
Qed.

Lemma conflict_runs {A} (callback : setter -> A -> M A) e name ut acc l :
  forall k s en,
    entries s !! e = Some en ->
    constant_export en name ERROR_STAR ->
    assoc name (setters en) = Some l ->
    k <= length l ->
    exists enk, entries (after_runs k (runSetter e name callback ut acc) s) !! e = Some enk
      /\ constant_export enk name ERROR_STAR
      /\ assoc name (setters enk) = Some (take (length l - k) l)
      /\ entry_module enk = entry_module en.
Proof.
  induction k as [| k IH]; intros s en He Hc Hl Hk.
  - exists en. rewrite Nat.sub_0_r, firstn_all. cbn [after_runs].
    split; [done |]. split; [done |]. by split.
  - destruct (IH s en He Hc Hl) as (enk & Hek & Hck & Hlk & Hmk); [lia |].
    cbn [after_runs]. set (sk := after_runs k _ s) in *.
    destruct (lookup_lt_is_Some_2 l (length l - S k)) as [st Hst]; [lia |].
    assert (take (length l - k) l = take (length l - S k) l ++ [st]) as Htk.
    { replace (length l - k) with (S (length l - S k)) by lia. by apply take_S_r. }
    rewrite Htk in Hlk.
    rewrite (pass_conflict_constant callback sk e name ut acc enk _ st Hek Hck Hlk).
    unfold write_setters, modify_entry. cbn [final_state entries with_entries].
    eexists. rewrite lookup_alter_eq, Hek. cbn [fmap option_fmap option_map].
    split; [reflexivity |]. split.
    { destruct Hck as (Ht & Hn & g & h & Hg & Hfn & Hcg).
      split; [done |]. split; [done |]. exists g, h. by split. }
    split; [cbn [setters set_setters]; apply assoc_set_eq | done].
Qed.

(** C6 (amended).  When the value resolved for a setter in a turn of the
    setter pass is the export-star-conflict sentinel, the turn removes that
    setter, at whatever index the loop has reached, from the list of the
    name and throws the conflict error: the state it throws in is the state
    after the resolution with that one entry removed, no setter has been
    called in the turn, the lists of the other names, the getters and the
    finalized views are as they were.  When the conflict is met at the
    first turn of a pass, it is the last setter of the list that goes.  For
    an export that keeps resolving to the sentinel, a name with n setters
    makes n successive passes throw, each dropping the last setter, and
    the pass after them completes without a change. *)
Theorem star_conflict_drops_one_setter {A} (callback : setter -> A -> M A)
    s e name ut acc en :
  entries s !! e = Some en ->
  (forall (isESM isLoaded isNsChanged : bool) i st s1,
     setters_of name en !! i = Some st ->
     (if isESM then getExportByNameFast e name (s_parent st)
      else getExportByName e name (s_parent st)) s = Ok ERROR_STAR s1 ->
     let s3 := final_state (write_setters e name (delete i (setters_of name en)) s1) in
     runSetter_step e name callback ut isESM isLoaded isNsChanged i acc s
     = Throw (ERR_EXPORT_STAR_CONFLICT (entry_module en) name) s3
     /\ trace s3 = trace s
     /\ (exists en3, entries s3 !! e = Some en3
                     /\ setters_of name en3 = delete i (setters_of name en)
                     /\ (forall name', name' <> name ->
                          assoc name' (setters en3) = assoc name' (setters en))
                     /\ getters en3 = getters en
                     /\ entry_rel en en3))
  /\ (forall l st ty s1 s2,
        assoc name (setters en) = Some (l ++ [st]) ->
        get_type e s = Ok ty s1 ->
        (if bool_decide (ty = TYPE_ESM)
         then getExportByNameFast e name (s_parent st)
         else getExportByName e name (s_parent st)) s1 = Ok ERROR_STAR s2 ->
        let s3 := final_state (write_setters e name l s2) in
        runSetter e name callback ut acc s
        = Throw (ERR_EXPORT_STAR_CONFLICT (entry_module en) name) s3
        /\ trace s3 = trace s
        /\ (exists en3, entries s3 !! e = Some en3
                        /\ assoc name (setters en3) = Some l
                        /\ (forall name', name' <> name ->
                             assoc name' (setters en3) = assoc name' (setters en))
                        /\ getters en3 = getters en
                        /\ entry_rel en en3))
  /\ (forall l,
        constant_export en name ERROR_STAR ->
        assoc name (setters en) = Some l ->
        let pass := runSetter e name callback ut acc in
        (forall k, k < length l ->
           pass (after_runs k pass s)
           = Throw (ERR_EXPORT_STAR_CONFLICT (entry_module en) name) (after_runs (S k) pass s)
           /\ exists enk, entries (after_runs (S k) pass s) !! e = Some enk
                          /\ assoc name (setters enk) = Some (take (length l - S k) l))
        /\ pass (after_runs (length l) pass s) = Ok acc (after_runs (length l) pass s)).
Proof.
  intros He. split; [| split].
  - intros isESM isLoaded isNsChanged i st s1 Hst Hres.
    by apply (turn_conflict callback s e name ut isESM isLoaded isNsChanged i acc en st s1).
  - intros l st ty s1 s2 Hl Hty Hres.
    by apply (pass_conflict_first callback s e name ut acc en l st ty s1 s2).
  - intros l Hc Hl pass. split.
    + intros k Hk.
      destruct (conflict_runs callback e name ut acc l k s en He Hc Hl) as
        (enk & Hek & Hck & Hlk & Hmk); [lia |].
      destruct (conflict_runs callback e name ut acc l (S k) s en He Hc Hl) as
        (enk' & Hek' & _ & Hlk' & _); [lia |].
      fold pass in Hek, Hek'. split; [| eauto].
      destruct (lookup_lt_is_Some_2 l (length l - S k)) as [st Hst]; [lia |].
      assert (take (length l - k) l = take (length l - S k) l ++ [st]) as Htk.
      { replace (length l - k) with (S (length l - S k)) by lia. by apply take_S_r. }
      rewrite Htk in Hlk. cbn [after_runs]. subst pass.
      rewrite (pass_conflict_constant callback _ e name ut acc enk _ st Hek Hck Hlk).
      cbn [final_state]. by rewrite Hmk.
    + destruct (conflict_runs callback e name ut acc l (length l) s en He Hc Hl) as
        (enk & Hek & Hck & Hlk & Hmk); [lia |].
      fold pass in Hek. rewrite Nat.sub_diag in Hlk. cbn [take] in Hlk. subst pass.
      apply (pass_over_empty callback e name ut acc _ enk TYPE_ESM); [done | done |].
      destruct Hck as [Ht _]. by apply (get_type_value _ _ enk).
Qed.

(** *** The keys of the views after a finalization *)

#[local] Instance entry_rel_preorder : PreOrder entry_rel.
Proof. split; [intros en; apply entry_rel_refl | intros a b c; apply entry_rel_trans]. Qed.

Lemma frame_to_records {A} q (m : M A) :
  respects (frame_rel q) m -> respects (entries_kept entry_rel) m.
Proof. intros Hm s. destruct (Hm s) as [[_ He _ _] _]. exact He. Qed.

#[local] Hint Extern 4 (respects (entries_kept entry_rel) _) =>
  apply (frame_to_records true); solve [ eauto with frame ] : frame.

Lemma records_allocate en : respects (entries_kept entry_rel) (allocate en).
Proof.
  intros s x enx Hx. simpl. exists enx. split; [| reflexivity].
  rewrite lookup_insert_ne; [done |]. intros <-.
  apply (is_fresh (dom (entries s))). by apply elem_of_dom.
Qed.

Lemma records_Entry_set m e : respects (entries_kept entry_rel) (Entry_set m e).
Proof.
  intros s x enx Hx. unfold Entry_set. exists enx. split; [| reflexivity].
  by destruct (isObject m s).
Qed.

Lemma records_unbridge v :
  respects (entries_kept entry_rel)
    (fun s => Ok tt (with_bridged (vassoc_del v (bridged s)) s)).
Proof. intros s x enx Hx. exists enx. by split. Qed.
#[local] Hint Resolve records_allocate records_Entry_set records_unbridge : frame.

Lemma records_cached_entry m e : respects (entries_kept entry_rel) (cached_entry m e).
Proof. unfold cached_entry. resp. Qed.

Lemma records_create_entry m exported parent :
  respects (entries_kept entry_rel) (create_entry m exported parent).
Proof. unfold create_entry. resp. Qed.

Lemma records_constructor_reads m : respects (entries_kept entry_rel) (constructor_reads m).
Proof. unfold constructor_reads. resp. Qed.

Lemma records_Entry_get fuel : forall m s r,
  Entry_get fuel m s = Some r -> entries_kept entry_rel s (final_state r).
Proof.
  induction fuel as [| fuel IH]; intros m s r E; [discriminate |].
  rewrite Entry_get_S in E. destruct (negb (isObject m s)); [by injection E as <- |].
  destruct (vassoc m (cache s)) as [e |].
  - injection E as <-. apply records_cached_entry.
  - pose proof (records_constructor_reads m s) as K1.
    destruct (constructor_reads m s) as [[exported parent] s1 | err s1];
      [| by injection E as <-]. simpl in K1.
    destruct (Entry_get fuel parent s1) as [[pe s2 | err s2] |] eqn:E2; [| | discriminate].
    + injection E as <-. transitivity s1; [done |].
      transitivity s2; [apply (IH _ _ _ E2) |]. apply records_create_entry.
    + injection E as <-. transitivity s1; [done |]. apply (IH _ _ _ E2).
Qed.

Lemma resp_common_get q e v name : respects (frame_rel q) (common_get e v name).
Proof. unfold common_get. resp. Qed.

Lemma mutable_trap_state fuel e v name d s r :
  mutable_defineProperty fuel e v name d s = Some r
  \/ mutable_deleteProperty fuel e v name s = Some r ->
  state_rel s (final_state r).
Proof.
  intros [Hr | Hr].
  - unfold mutable_defineProperty, get_entry in Hr.
    destruct (entries s !! e) as [en |]; [| by injection Hr as <-].
    destruct (negb (finalized en)); [by injection Hr as <- |].
    pose proof (fr_state _ _ _ (resp_Object_defineProperty true (exports en) name d s)) as H1.
    destruct (Object_defineProperty _ name d s) as [[] s1 | err s1]; simpl in H1;
      [| by injection Hr as <-].
    transitivity s1; [done |]. by apply (republish_frame fuel e v name).
  - unfold mutable_deleteProperty, get_entry in Hr.
    destruct (entries s !! e) as [en |]; [| by injection Hr as <-].
    pose proof (fr_state _ _ _ (resp_Reflect_deleteProperty true (exports en) name s)) as H1.
    destruct (Reflect_deleteProperty _ name s) as [[|] s1 | err s1]; simpl in H1;
      [| by injection Hr as <- ..].
    transitivity s1; [done |]. by apply (republish_frame fuel e v name).
Qed.

Lemma keys_kept_records s s' e en :
  entries_kept entry_rel s s' -> entries s !! e = Some en -> settled en ->
  keys_kept e en s'.
Proof.
  intros K He (Hf & Hc & Hp). destruct (K _ _ He) as (en' & He' & [_ _ Hv Ht]).
  destruct (Hv Hf) as [Hf' Hviews]. unfold views_of in Hviews.
  injection Hviews as H1 H2 H3 H4. exists en'. split; [done |]. split.
  - split; [done |]. split; [by rewrite H1 |].
    destruct Hp as [Hesm | Hs]; [left | right; by rewrite H3].
    destruct (Ht _ Hesm) as (t' & Ht' & Hiff). rewrite Ht'. f_equal. by apply Hiff.
  - intros []; simpl; congruence.
Qed.

Lemma keys_kept_same s e en : entries s !! e = Some en -> settled en -> keys_kept e en s.
Proof. intros He Hs. exists en. split; [done |]. split; [done |]. done. Qed.

(** A write to the raw object of a view that keeps its keys, and its seal
    if it has one. *)
Lemma keys_kept_write s e en x v o' :
  entries s !! e = Some en -> settled en ->
  (x = e -> own_names o' = own_names (raw_of (SlotView v) en)
            /\ (sealedb (raw_of (SlotView v) en) = true -> sealedb o' = true)) ->
  keys_kept e en (final_state (ns_write x (SlotView v) o' s)).
Proof.
  intros He (Hf & Hc & Hp) Ho. unfold keys_kept, ns_write, modify_entry.
  cbn [final_state entries with_entries]. destruct (decide (x = e)) as [-> | Hne].
  - destruct (Ho eq_refl) as [Hn Hs].
    exists (set_raw (SlotView v) o' en). rewrite lookup_alter_eq, He. split; [done |]. split.
    + split; [by rewrite finalized_set_raw |]. split.
      * destruct v; simpl; auto.
      * destruct Hp as [Hesm | Hsp]; [left; by destruct v | right].
        destruct v; simpl; auto.
    + intros v'. destruct (decide (v' = v)) as [-> | Hv].
      * by rewrite raw_of_set_raw.
      * by rewrite raw_of_set_raw_ne.
  - exists en. rewrite lookup_alter_ne by done. split; [done |]. split; [| done].
    by repeat split.
Qed.

(** The raw object of a read-only view that has been handed out for a
    settled record is sealed. *)
Lemma handed_out_sealed en v :
  settled en -> v = Complete \/ v = Partial -> handed_out en v ->
  sealedb (raw_of (SlotView v) en) = true.
Proof.
  intros (Hf & Hc & Hp) [-> | ->] Hh; [done |].
  destruct Hh as (t & Ht & Hne); [by left |].
  destruct Hp as [Hesm | Hs]; [congruence | done].
Qed.

Lemma engine_step_keeps s s' e en :
  engine_step s s' -> entries s !! e = Some en -> settled en -> keys_kept e en s'.
Proof.
  intros Hstep He Hs. destruct Hstep.
  - apply (keys_kept_records s); [| done | done].
    exact (sr_entries _ _ (tr_state _ _ _ (updateBindings_tree _ _ _ _ _ _ _ H0))).
  - apply (keys_kept_records s); [| done | done]. apply (frame_to_records false), resp_loaded.
  - apply (keys_kept_records s); [| done | done].
    apply (frame_to_records true), resp_finalizeNamespace.
  - apply (keys_kept_records s); [| done | done]. apply (frame_to_records true), resp_addGetter.
  - apply (keys_kept_records s); [| done | done]. unfold addGetters.
    apply (frame_to_records true). resp.
  - apply (keys_kept_records s); [| done | done]. apply (frame_to_records true), resp_addSetter.
  - apply (keys_kept_records s); [| done | done]. unfold addSetters.
    apply (frame_to_records true). pose proof (resp_addSetter true). resp.
  - apply (keys_kept_records s); [| done | done].
    apply (frame_to_records true), resp_assignExportsToNamespace.
  - apply (keys_kept_records s); [| done | done].
    apply (frame_to_records true), resp_getExportByName.
  - apply (keys_kept_records s); [| done | done].
    apply (frame_to_records true), resp_getExportByNameFast.
  - apply (keys_kept_records s); [| done | done]. by apply (records_Entry_get fuel m).
  - apply (keys_kept_records s); [| done | done]. apply records_Entry_set.
  - rewrite (immutable_defineProperty_spec _ _ _ _ _ _ _ H0).
    destruct (finalized en0 && _).
    + destruct (define_own _ name d) as [o' |] eqn:Hd.
      * apply keys_kept_write; [done | done |]. intros ->. rewrite He in H0. injection H0 as <-.
        pose proof (handed_out_sealed en v Hs H1 H2) as Hsl.
        destruct (define_own_sealed _ _ _ _ Hsl Hd). by split.
      * destruct (isCalledFromStrictCode frames); by apply keys_kept_same.
    + destruct (isCalledFromStrictCode frames); by apply keys_kept_same.
  - rewrite (immutable_deleteProperty_spec _ _ _ _ _ _ H0).
    destruct (delete_own _ name) as [o' |] eqn:Hd.
    + apply keys_kept_write; [done | done |]. intros ->. rewrite He in H0. injection H0 as <-.
      pose proof (handed_out_sealed en v Hs H1 H2) as Hsl.
      rewrite (delete_own_sealed _ _ _ Hsl Hd). by split.
    + destruct (isCalledFromStrictCode frames); by apply keys_kept_same.
  - rewrite (immutable_set_spec _ _ _ _ _ _ H0).
    destruct (isCalledFromStrictCode frames); by apply keys_kept_same.
  - apply (keys_kept_records s); [| done | done]. apply (frame_to_records true), resp_common_get.
  - unfold common_preventExtensions, bind, get_entry.
    destruct (entries s !! e0) as [en0 |] eqn:He0; [| by apply keys_kept_same].
    destruct (finalized en0); [| by apply keys_kept_same].
    match goal with |- keys_kept _ _ (final_state (match ?m s with _ => _ end)) =>
      change (keys_kept e en (final_state (m s))) end.
    apply keys_kept_write; [done | done |]. intros ->. rewrite He in He0. injection He0 as <-.
    split; [reflexivity | apply sealedb_prevent_extensions].
  - apply (keys_kept_records s); [| done | done].
    exact (sr_entries _ _ (mutable_trap_state fuel e0 v name d s r (or_introl H0))).
  - apply (keys_kept_records s); [| done | done].
    assert (state_rel s (final_state r)) as K.
    { apply (mutable_trap_state fuel e0 v name
               {| d_value := None; d_writable := None; d_get := None; d_set := None;
                  d_enumerable := None; d_configurable := None |} s r). by right. }
    exact (sr_entries _ _ K).
Qed.

Lemma engine_steps_keep s s' :
  rtc engine_step s s' ->
  forall e en, entries s !! e = Some en -> settled en -> keys_kept e en s'.
Proof.
  induction 1 as [s | s s1 s2 Hstep Hrest IH]; intros e en He Hs.
  - by apply keys_kept_same.
  - destruct (engine_step_keeps _ _ _ _ Hstep He Hs) as (en1 & He1 & Hs1 & Hn1).
    destruct (IH _ _ He1 Hs1) as (en2 & He2 & Hs2 & Hn2).
    exists en2. split; [done |]. split; [done |]. intros v. by rewrite Hn2.
Qed.

(** Export resolution hands out a partial view only for a record whose
    type it has read and found not to be the declarative one. *)
Lemma resolution_hands_out e p s val s' :
  getExportByName e (KStr "*") p s = Ok val s'
  \/ getExportByNameFast e (KStr "*") p s = Ok val s' ->
  exists v en', val = VNamespace e v /\ entries s' !! e = Some en' /\ handed_out en' v.
Proof.
  intros [E | E].
  - unfold getExportByName in E.
    apply bind_inv in E as (entry & s1 & E1 & E).
    apply bind_inv in E as (parent & s2 & E2 & E).
    unfold get_entry in E1, E2.
    destruct (entries s !! e) as [en |] eqn:He; [| discriminate]. injection E1 as <- <-.
    destruct (entries s !! p) as [pen |] eqn:Hp; [| discriminate]. injection E2 as <- <-.
    cbv zeta in E. apply bind_inv in E as (noNamed & s3 & E3 & E).
    assert (exists en3, entries s3 !! e = Some en3
              /\ (noNamed = true -> exists t, entry_type en3 = TypeValue t /\ t <> TYPE_ESM))
      as (en3 & He3 & Hnn).
    { destruct (negb (negb (is_mjs (extname pen)) && cjs_namedExports (entry_package pen))).
      - apply bind_inv in E3 as (t & s4 & E4 & E3). injection E3 as <- <-.
        destruct (get_type_reads _ _ _ _ E4) as (en4 & He4 & Ht4). exists en4. split; [done |].
        intros Hn. exists t. split; [done |]. intros ->.
        by rewrite bool_decide_eq_true_2 in Hn.
      - injection E3 as <- <-. exists en. split; [done |]. discriminate. }
    cbn [key_eqb] in E.
    replace (key_eqb (KStr "*") (KStr "default")) with false in E by reflexivity.
    replace (key_eqb (KStr "*") (KStr "*")) with true in E by reflexivity.
    rewrite andb_false_r in E. cbn [negb] in E.
    destruct (negb (negb (is_mjs (extname pen)) && cjs_mutableNamespace (entry_package pen))
              || is_mjs (extname en)), noNamed; injection E as <- <-;
      eexists _, en3; (split; [reflexivity |]); (split; [done |]);
      first [ intros _; by apply Hnn | intros [? | ?]; discriminate ].
  - unfold getExportByNameFast in E.
    replace (key_eqb (KStr "*") (KStr "*")) with true in E by reflexivity. cbn [negb] in E.
    apply bind_inv in E as (entry & s1 & E1 & E).
    apply bind_inv in E as (parent & s2 & E2 & E).
    unfold get_entry in E1, E2.
    destruct (entries s !! e) as [en |] eqn:He; [| discriminate]. injection E1 as <- <-.
    destruct (entries s !! p) as [pen |] eqn:Hp; [| discriminate]. injection E2 as <- <-.
    cbv zeta in E.
    destruct (negb (negb (is_mjs (extname pen)) && cjs_mutableNamespace (entry_package pen))
              || is_mjs (extname en)); injection E as <- <-;
      eexists _, en; (split; [reflexivity |]); (split; [done |]);
      intros [? | ?]; discriminate.
Qed.

(** C4.  [finalizeNamespace] on a finalized record changes nothing, so a
    finalization happens once.  A finalization that completes leaves the
    record settled: finalized, the raw object of its full read-only view
    sealed, and the raw object of its partial read-only view sealed unless
    the record is a declarative module; and export resolution hands out a
    partial view only for a record that is not a declarative module.  From
    then on, whatever sequence of operations of the engine on any records,
    and of traps of views that have been handed out, is run, and however
    each of them ends, the record stays settled and each of its four views
    keeps the list of its keys: only the values behind the keys may
    change.  In detail, [updateBindings] and [loaded] leave the raw
    objects of the views of a finalized record as they are, and a trap of a
    read-only view leaves the other views alone and keeps the keys and the
    seal of a sealed raw object. *)
Theorem finalized_views_keep_their_keys s e en :
  entries s !! e = Some en ->
  (finalized en = true -> finalizeNamespace e s = Ok tt s)
  /\ (finalized en = false -> forall s', finalizeNamespace e s = Ok tt s' ->
      exists en', entries s' !! e = Some en' /\ settled en')
  /\ (forall p val s',
        getExportByName e (KStr "*") p s = Ok val s'
        \/ getExportByNameFast e (KStr "*") p s = Ok val s' ->
        exists v en', val = VNamespace e v /\ entries s' !! e = Some en' /\ handed_out en' v)
  /\ (settled en -> forall s', rtc engine_step s s' ->
      exists en', entries s' !! e = Some en' /\ settled en'
        /\ forall v, own_names (raw_of (SlotView v) en')
                     = own_names (raw_of (SlotView v) en))
  /\ (finalized en = true ->
      (forall fuel e' names ut seen r,
         updateBindings fuel e' names ut seen s = Some r ->
         exists en', entries (final_state r) !! e = Some en'
                     /\ finalized en' = true /\ views_of en' = views_of en)
      /\ (forall e',
           exists en', entries (final_state (loaded e' s)) !! e = Some en'
                       /\ finalized en' = true /\ views_of en' = views_of en))
  /\ (forall v frames name descriptor,
        view_kept e v en (final_state (immutable_defineProperty frames e v name descriptor s))
        /\ view_kept e v en (final_state (immutable_deleteProperty frames e v name s))
        /\ final_state (immutable_set frames e v name s) = s
        /\ view_kept e v en (final_state (common_preventExtensions e v s))).
Proof.
  intros He. split; [| split; [| split; [| split; [| split]]]].
  - by apply finalizeNamespace_again.
  - intros Hf s' E. destruct (finalizeNamespace_seals e s en s' He Hf E)
      as (en' & He' & Hf' & Hc & Hp). exists en'. by repeat split.
  - intros p val s'. apply resolution_hands_out.
  - intros Hs s' Hsteps. by apply (engine_steps_keep s s' Hsteps e en).
  - intros Hf. split.
    + intros fuel e' names ut seen r E.
      apply (state_rel_views s _ e en); [| done | done].
      apply (tr_state _ _ _ (updateBindings_tree _ _ _ _ _ _ _ E)).
    + intros e'. apply (state_rel_views s _ e en); [| done | done].
      apply (fr_state _ _ _ (resp_loaded e' s)).
  - intros v frames name descriptor. split; [| split; [| split]].
    + by apply view_kept_defineProperty.
    + by apply view_kept_deleteProperty.
    + rewrite (immutable_set_spec _ _ _ _ _ _ He).
      by destruct (isCalledFromStrictCode frames).
    + by apply (view_kept_preventExtensions e v en s).
Qed.

(** *** Setters that have observed the value of a constant export *)

#[local] Instance getters_le_preorder : PreOrder getters_le.
Proof. split; [by intros en k g | intros a b c Hab Hbc k g Hk; by apply Hbc, Hab]. Qed.

Lemma same_getters_le {A} (m : M A) :
  respects (entries_kept (same_field getters)) m -> respects (entries_kept getters_le) m.
Proof.
  intros Hm s x en Hx. destruct (Hm s x en Hx) as (en' & Hx' & G). exists en'.
  split; [done |]. intros k g Hk. unfold same_field in G. by rewrite G.
Qed.

#[local] Hint Extern 5 (respects (entries_kept getters_le) _) =>
  apply same_getters_le; solve [ eauto with frame ] : frame.

Lemma final_bind {A B} (m : M A) (k : A -> M B) s :
  final_state (bind m k s)
  = match m s with Ok a s1 => final_state (k a s1) | Throw _ s1 => s1 end.
Proof. unfold bind. by destruct (m s). Qed.

Lemma rel_bind_at {A B} (R : State -> State -> Prop) `{!PreOrder R}
    (m : M A) (k : A -> M B) s :
  R s (final_state (m s)) ->
  (forall a s1, m s = Ok a s1 -> R s1 (final_state (k a s1))) ->
  R s (final_state (bind m k s)).
Proof.
  intros Hm Hk. rewrite final_bind. destruct (m s) as [a s1 | err s1] eqn:E; simpl in *.
  - etransitivity; [exact Hm | by apply Hk].
  - exact Hm.
Qed.

Lemma getters_le_modify_at x f s :
  (forall en, entries s !! x = Some en -> getters_le en (f en)) ->
  entries_kept getters_le s (final_state (modify_entry x f s)).
Proof.
  intros Hf y en Hy. simpl. destruct (decide (x = y)) as [<- | Hne].
  - exists (f en). rewrite lookup_alter_eq, Hy. split; [done | by apply Hf].
  - exists en. rewrite lookup_alter_ne by done. split; [done | reflexivity].
Qed.

(** [addGetter] for a name that has no getter keeps the getters there
    are. *)
Lemma getters_le_addGetter_new x k g s :
  (forall en, entries s !! x = Some en -> assoc k (getters en) = None) ->
  entries_kept getters_le s (final_state (addGetter x k g s)).
Proof.
  intros Hnew. unfold addGetter.
  assert (respects (entries_kept (same_field getters)) (get_type x)) as K1 by resp.
  apply rel_bind_at; [apply _ | by apply (same_getters_le _ K1) |].
  intros t s1 E1. cbv zeta.
  apply rel_bind_at; [apply _ | |].
  - apply getters_le_modify_at. intros en1 Hx1 k' g' Hk'. simpl.
    destruct (entries s !! x) as [en |] eqn:Hx.
    2:{ unfold get_type, bind, get_entry in E1. by rewrite Hx in E1. }
    specialize (K1 s x en Hx). rewrite E1 in K1. destruct K1 as (en1' & Hx1' & G1).
    simpl in Hx1'. rewrite Hx1 in Hx1'. injection Hx1' as <-. unfold same_field in G1.
    rewrite assoc_set_ne; [done |]. intros <-. rewrite G1, (Hnew en eq_refl) in Hk'.
    discriminate.
  - intros [] s2 _.
    match goal with |- entries_kept _ _ (final_state (?m s2)) =>
      assert (respects (entries_kept getters_le) m) as Hr by resp; apply Hr end.
Qed.

Lemma getters_le_register x (c : bool) k g :
  respects (entries_kept getters_le)
    (bind (get_entry x) (fun en =>
       if c && negb (assoc_has k (getters en)) then addGetter x k g else ret tt)).
Proof.
  intros s. unfold bind at 1, get_entry.
  destruct (entries s !! x) as [en |] eqn:Hx; [| reflexivity].
  destruct c; cbn [andb]; [| reflexivity].
  destruct (assoc_has k (getters en)) eqn:Hk; cbn [negb]; [reflexivity |].
  apply getters_le_addGetter_new. intros en' Hx'. rewrite Hx in Hx'. injection Hx' as <-.
  unfold assoc_has in Hk. by destruct (assoc k (getters en)).
Qed.

Lemma getters_le_register_then {A} x k g (a : A) :
  respects (entries_kept getters_le)
    (bind (get_entry x) (fun en =>
       bind (if negb (assoc_has k (getters en)) then addGetter x k g else ret tt)
            (fun _ => ret a))).
Proof.
  intros s. unfold bind at 1, get_entry.
  destruct (entries s !! x) as [en |] eqn:Hx; [| reflexivity].
  apply rel_bind_at; [apply _ | | intros; reflexivity].
  destruct (assoc_has k (getters en)) eqn:Hk; cbn [negb]; [reflexivity |].
  apply getters_le_addGetter_new. intros en' Hx'. rewrite Hx in Hx'. injection Hx' as <-.
  unfold assoc_has in Hk. by destruct (assoc k (getters en)).
Qed.
#[local] Hint Resolve getters_le_register getters_le_register_then : frame.

Lemma getters_le_assignExportsToNamespace x names :
  respects (entries_kept getters_le) (assignExportsToNamespace x names).
Proof. unfold assignExportsToNamespace. resp. Qed.
#[local] Hint Resolve getters_le_assignExportsToNamespace : frame.

Lemma getters_le_runGetters x names : respects (entries_kept getters_le) (runGetters x names).
Proof. unfold runGetters, runGetter. resp. Qed.

Lemma getters_le_loaded x : respects (entries_kept getters_le) (loaded x).
Proof.
  unfold loaded, loaded_body, loaded_declarative, loaded_dynamic, set_loaded_state. resp.
Qed.

Lemma setters_kept_runGetters x names :
  respects (entries_kept (same_field setters)) (runGetters x names).
Proof. unfold runGetters, runGetter. resp. Qed.

Lemma setters_kept_loaded x : respects (entries_kept (same_field setters)) (loaded x).
Proof.
  unfold loaded, loaded_body, loaded_declarative, loaded_dynamic, set_loaded_state. resp.
Qed.

Lemma setter_in_same l st : st ∈ l -> setter_in l st.
Proof. intros Hst. by exists st. Qed.

Lemma setter_in_trans l l' st :
  (forall st', st' ∈ l' -> setter_in l st') -> setter_in l' st -> setter_in l st.
Proof.
  intros Hl (st1 & H1 & Hf & Ht). destruct (Hl _ H1) as (st0 & H0 & Hf0 & Ht0).
  exists st0. split; [done |]. split; congruence.
Qed.

#[local] Instance steady_rel_preorder q e name v : PreOrder (steady_rel q e name v).
Proof.
  split.
  - intros s en He Hc. exists en. split; [done |]. split; [done |].
    split; [intros st'; apply setter_in_same |]. split; [done |].
    exists []. split; [by rewrite app_nil_r |]. intros _ _ fn w Hin.
    by apply elem_of_nil in Hin.
  - intros s1 s2 s3 H12 H23 en He Hc.
    destruct (H12 _ He Hc) as (en2 & He2 & Hc2 & L2 & O2 & t2 & T2 & Q2).
    destruct (H23 _ He2 Hc2) as (en3 & He3 & Hc3 & L3 & O3 & t3 & T3 & Q3).
    exists en3. split; [done |]. split; [done |].
    split; [intros st' Hst'; apply (setter_in_trans _ _ _ L2), L3, Hst' |].
    split; [auto |]. exists (t2 ++ t3). split; [by rewrite T3, T2, app_assoc |].
    intros Hq Ho fn w Hin. apply elem_of_app in Hin as [Hin | Hin]; [by apply (Q2 Hq Ho fn w) |].
    destruct (Q3 Hq (O2 Ho) fn w Hin) as (st & Hst & Hfn & Hty).
    destruct (L2 _ Hst) as (st0 & Hst0 & Hfn0 & Hty0).
    exists st0. split; [done |]. split; congruence.
Qed.

Lemma steady_rel_same q e name v s s' :
  entries s' = entries s -> trace s' = trace s -> steady_rel q e name v s s'.
Proof.
  intros He Ht en Hl Hc. exists en. rewrite He. split; [done |]. split; [done |].
  split; [intros st'; apply setter_in_same |]. split; [done |].
  exists []. split; [by rewrite app_nil_r |]. intros _ _ fn w Hin.
  by apply elem_of_nil in Hin.
Qed.

#[local] Instance steady_rel_heap q e name v : HeapFrame (steady_rel q e name v).
Proof. split; [apply _ | |]; intros; by apply steady_rel_same. Qed.

Lemma constant_export_kept en en' name v :
  constant_export en name v -> type_kept en en' -> getters_le en en' ->
  constant_export en' name v.
Proof.
  intros (Ht & Hn & g & h & Hg & Hf & Hc) Tk Gl.
  destruct (Tk _ Ht) as (t' & Ht' & Hiff).
  split; [rewrite Ht'; f_equal; by apply Hiff |]. split; [done |].
  exists g, h. split; [by apply Gl |]. by split.
Qed.

(** A step that keeps the types, the setters and the getters there are,
    and records no call of a setter of [name] on [e]. *)
Lemma steady_from_parts q e name v s s' t :
  entries_kept type_kept s s' -> entries_kept (same_field setters) s s' ->
  entries_kept getters_le s s' ->
  trace s' = trace s ++ t -> (forall fn w, EvSetter e name fn w ∉ t) ->
  steady_rel q e name v s s'.
Proof.
  intros Hs Hset Hget Ht Hno en He Hc.
  destruct (Hs _ _ He) as (en1 & He1 & R1).
  destruct (Hset _ _ He) as (en2 & He2 & S2). destruct (Hget _ _ He) as (en3 & He3 & G3).
  rewrite He1 in He2, He3. injection He2 as <-. injection He3 as <-.
  unfold same_field in S2.
  assert (setters_of name en1 = setters_of name en) as Hl by (unfold setters_of; by rewrite S2).
  exists en1. split; [done |].
  split; [by apply (constant_export_kept en) |].
  split; [intros st' Hst'; rewrite Hl in Hst'; by apply setter_in_same |].
  split; [intros Ho st Hst; rewrite Hl in Hst; by apply Ho |].
  exists t. split; [done |]. intros _ _ fn w Hin. by destruct (Hno fn w).
Qed.

Lemma records_to_types s s' : entries_kept entry_rel s s' -> entries_kept type_kept s s'.
Proof.
  intros K x en Hx. destruct (K _ _ Hx) as (en' & Hx' & R). exists en'.
  split; [done | by destruct R].
Qed.

Lemma steady_from_tables q e name v s s' : tables_kept s s' -> steady_rel q e name v s s'.
Proof.
  intros [Ht K]. apply (steady_from_parts q e name v s s' []).
  - intros x en Hx. destruct (K _ _ Hx) as (en' & Hx' & _ & _ & _ & _ & R).
    exists en'. split; [done | by destruct R].
  - intros x en Hx. destruct (K _ _ Hx) as (en' & Hx' & S & _). eauto.
  - intros x en Hx. destruct (K _ _ Hx) as (en' & Hx' & _ & G & _). exists en'.
    split; [done |]. intros k g Hk. by rewrite G.
  - by rewrite app_nil_r.
  - intros fn w Hin. by apply elem_of_nil in Hin.
Qed.

Lemma steady_tables {A} q e name v (m : M A) :
  respects tables_kept m -> respects (steady_rel q e name v) m.
Proof. intros Hm s. apply steady_from_tables, Hm. Qed.

#[local] Hint Resolve kept_getExportByName kept_getExportByNameFast kept_update_callback
  : frame.
#[local] Hint Extern 5 (respects (steady_rel _ _ _ _) _) =>
  apply steady_tables; solve [ eauto with frame ] : frame.

Lemma steady_modify q e name v x f :
  (forall en, entry_type (f en) = entry_type en /\ getters (f en) = getters en
              /\ setters (f en) = setters en) ->
  respects (steady_rel q e name v) (modify_entry x f).
Proof.
  intros Hf s. apply (steady_from_parts q e name v s _ []).
  - intros y en Hy. simpl. destruct (decide (x = y)) as [<- | Hne].
    + exists (f en). rewrite lookup_alter_eq, Hy. split; [done |].
      apply type_kept_same. by destruct (Hf en).
    + exists en. rewrite lookup_alter_ne by done. split; [done | apply type_kept_refl].
  - apply entries_kept_modify; [apply _ |]. intros en. by destruct (Hf en) as (_ & _ & Hs).
  - apply entries_kept_modify; [apply _ |]. intros en k g Hk.
    destruct (Hf en) as (_ & Hg & _). by rewrite Hg.
  - by rewrite app_nil_r.
  - intros fn w Hin. by apply elem_of_nil in Hin.
Qed.

#[local] Hint Extern 1 (respects (steady_rel _ _ _ _) (modify_entry _ _)) =>
  apply steady_modify; intros; split; [reflexivity | split; reflexivity] : frame.

Lemma steady_log q e name v ev :
  (forall fn w, ev <> EvSetter e name fn w) -> respects (steady_rel q e name v) (log ev).
Proof.
  intros Hev s. apply (steady_from_parts q e name v s _ [ev]).
  - intros x en Hx. exists en. split; [done | apply type_kept_refl].
  - intros x en Hx. exists en. by split.
  - intros x en Hx. exists en. split; [done | reflexivity].
  - reflexivity.
  - intros fn w Hin. apply list_elem_of_singleton in Hin. by destruct (Hev fn w).
Qed.

#[local] Hint Extern 1 (respects (steady_rel _ _ _ _) (log _)) =>
  apply steady_log; intros; discriminate : frame.

Lemma steady_runGetters q e name v x names :
  respects (steady_rel q e name v) (runGetters x names).
Proof.
  intros s. destruct (resp_runGetters true x names s) as [Hs Ht]. simpl in Ht.
  apply (steady_from_parts q e name v s _ []).
  - apply records_to_types. by destruct Hs.
  - apply setters_kept_runGetters.
  - apply getters_le_runGetters.
  - by rewrite app_nil_r.
  - intros fn w Hin. by apply elem_of_nil in Hin.
Qed.

Lemma steady_loaded q e name v x : respects (steady_rel q e name v) (loaded x).
Proof.
  intros s. destruct (resp_loaded x s) as [Hs _].
  apply (steady_from_parts q e name v s _ [EvLoaded x]).
  - apply records_to_types. by destruct Hs.
  - apply setters_kept_loaded.
  - apply getters_le_loaded.
  - apply loaded_trace.
  - intros fn w Hin. by apply list_elem_of_singleton in Hin.
Qed.
#[local] Hint Resolve steady_runGetters steady_loaded : frame.

(** The setters of another name, or of another record. *)
Lemma steady_write_other q e name v x k l :
  x <> e \/ k <> name -> respects (steady_rel q e name v) (write_setters x k l).
Proof.
  intros Hne s en He Hc. unfold write_setters, modify_entry. simpl.
  destruct (decide (x = e)) as [-> | Hx].
  - destruct Hne as [Hne | Hne]; [done |].
    exists (set_setters (assoc_set k l (setters en)) en). rewrite lookup_alter_eq, He.
    assert (setters_of name (set_setters (assoc_set k l (setters en)) en)
            = setters_of name en) as Hl.
    { unfold setters_of. simpl. by rewrite assoc_set_ne. }
    split; [done |]. split; [exact Hc |].
    split; [intros st' Hst'; rewrite Hl in Hst'; by apply setter_in_same |].
    split; [intros Ho st Hst; rewrite Hl in Hst; by apply Ho |].
    exists []. split; [by rewrite app_nil_r |]. intros _ _ fn w Hin.
    by apply elem_of_nil in Hin.
  - exists en. rewrite lookup_alter_ne by done. split; [done |]. split; [done |].
    split; [intros st'; apply setter_in_same |]. split; [done |].
    exists []. split; [by rewrite app_nil_r |]. intros _ _ fn w Hin.
    by apply elem_of_nil in Hin.
Qed.

Lemma steady_log_other q e name v x k fn w :
  x <> e \/ k <> name -> respects (steady_rel q e name v) (log (EvSetter x k fn w)).
Proof. intros Hne. apply steady_log. intros fn' w' [= -> -> _ _]. by destruct Hne. Qed.

Lemma steady_turn_other q e name v sup x k ut (isESM isLoaded isNsChanged : bool) i acc :
  x <> e \/ k <> name ->
  respects (steady_rel q e name v)
    (runSetter_step x k (update_callback sup) ut isESM isLoaded isNsChanged i acc).
Proof.
  intros Hne. pose proof (steady_write_other q e name v x k) as Hw.
  pose proof (steady_log_other q e name v x k) as Hl.
  unfold runSetter_step. resp.
Qed.

(** *** A turn of the setter pass over a constant export *)

Lemma constant_export_setters en name v l :
  constant_export en name v -> constant_export (set_setters l en) name v.
Proof. intros Hc. exact Hc. Qed.

Lemma after_tables e name v sX s' enX :
  tables_kept sX s' -> entries sX !! e = Some enX -> constant_export enX name v ->
  exists en', entries s' !! e = Some en' /\ constant_export en' name v
              /\ setters_of name en' = setters_of name enX /\ trace s' = trace sX.
Proof.
  intros K He Hc.
  destruct (tables_kept_lookup _ _ _ _ K He) as (en' & He' & S & G & _ & _ & R).
  exists en'. split; [done |]. split.
  { apply (constant_export_kept enX); [done | by destruct R |].
    intros k g Hk. by rewrite G. }
  split; [unfold setters_of; by rewrite S |]. by destruct K.
Qed.

(** What follows the call of the setter in a turn. *)
Lemma turn_rest_steady sup e name v (isDyn c : bool) i acc st' res s2 en2 :
  entries s2 !! e = Some en2 -> constant_export en2 name v ->
  exists en',
    entries (final_state
      ((if truthy res then
          bind (if isDyn then
                  bind (get_entry e) (fun entry =>
                    write_setters e name (delete i (setters_of name entry)))
                else ret tt)
               (fun _ => update_callback sup st' acc)
        else if c then ret acc else update_callback sup st' acc) s2)) !! e = Some en'
    /\ constant_export en' name v
    /\ (setters_of name en' = setters_of name en2
        \/ isDyn = true /\ setters_of name en' = delete i (setters_of name en2))
    /\ trace (final_state
      ((if truthy res then
          bind (if isDyn then
                  bind (get_entry e) (fun entry =>
                    write_setters e name (delete i (setters_of name entry)))
                else ret tt)
               (fun _ => update_callback sup st' acc)
        else if c then ret acc else update_callback sup st' acc) s2)) = trace s2.
Proof.
  intros He2 Hc2. destruct (truthy res); [destruct isDyn | destruct c].
  - set (s3 := final_state (write_setters e name (delete i (setters_of name en2)) s2)).
    assert (bind (get_entry e) (fun entry =>
              write_setters e name (delete i (setters_of name entry))) s2 = Ok tt s3) as Em.
    { by rewrite (bind_ok _ _ _ _ _ (get_entry_ok _ _ _ He2)). }
    rewrite final_bind, Em.
    assert (entries s3 !! e
            = Some (set_setters (assoc_set name (delete i (setters_of name en2))
                                   (setters en2)) en2)) as He3.
    { subst s3. unfold write_setters, modify_entry. simpl. by rewrite lookup_alter_eq, He2. }
    destruct (after_tables e name v s3 _ _ (kept_update_callback sup st' acc s3) He3 Hc2)
      as (en' & He' & Hc' & Hl' & Ht').
    exists en'. split; [done |]. split; [done |]. split; [| by rewrite Ht'].
    right. split; [done |]. rewrite Hl'. unfold setters_of at 1. simpl.
    by rewrite assoc_set_eq.
  - rewrite final_bind. change (ret tt s2) with (Ok tt s2).
    destruct (after_tables e name v s2 _ _ (kept_update_callback sup st' acc s2) He2 Hc2)
      as (en' & He' & Hc' & Hl' & Ht').
    exists en'. split; [done |]. split; [done |]. split; [by left | done].
  - exists en2. split; [done |]. split; [done |]. split; [by left | done].
  - destruct (after_tables e name v s2 _ _ (kept_update_callback sup st' acc s2) He2 Hc2)
      as (en' & He' & Hc' & Hl' & Ht').
    exists en'. split; [done |]. split; [done |]. split; [by left | done].
Qed.

(** One turn over a constant export: a setter that is not due leaves the
    state as it is; a setter that is due is called, its last value is the
    value of the export, and only a dynamic-import setter may then leave
    the list. *)
Lemma turn_steady sup s e name v ut (isLoaded isNsChanged : bool) i acc en :
  entries s !! e = Some en -> constant_export en name v -> v <> ERROR_STAR ->
  let r := runSetter_step e name (update_callback sup) ut true isLoaded isNsChanged i acc s in
  match setters_of name en !! i with
  | None => r = Throw (TypeError "cannot read properties of undefined") s
  | Some st =>
      if setter_due st v ut isLoaded isNsChanged then
        exists en', entries (final_state r) !! e = Some en' /\ constant_export en' name v
          /\ (setters_of name en' = <[i := set_last v st]> (setters_of name en)
              \/ s_type st = SETTER_TYPE_DYNAMIC_IMPORT
                 /\ setters_of name en' = delete i (setters_of name en))
          /\ trace (final_state r) = trace s ++ [EvSetter e name (s_fn st) (setterValue v)]
      else r = Ok acc s
  end.
Proof.
  intros He Hc Hv r. subst r. unfold runSetter_step.
  rewrite (bind_ok _ _ _ _ _ (get_entry_ok _ _ _ He)).
  destruct (setters_of name en !! i) as [st |] eqn:Hst; [| reflexivity].
  cbv zeta.
  rewrite (bind_ok _ _ _ _ _ (resolve_constant_fast e name (s_parent st) s en v He Hc)).
  rewrite bool_decide_eq_false_2 by done.
  fold (setter_changed st v). fold (setterValue v).
  change (_ || _ || _ || _ || _) with (setter_due st v ut isLoaded isNsChanged).
  destruct (setter_due st v ut isLoaded isNsChanged) eqn:Hdue; [| reflexivity].
  rewrite (bind_ok _ _ _ _ _ (get_entry_ok _ _ _ He)).
  match goal with |- context [final_state ?r0] => set (r := r0) end.
  set (L := <[i := set_last v st]> (setters_of name en)).
  set (en1 := set_setters (assoc_set name L (setters en)) en).
  set (s2 := with_trace (trace s ++ [EvSetter e name (s_fn st) (setterValue v)])
               (with_entries
                  (alter (fun en => set_setters (assoc_set name L (setters en)) en) e
                     (entries s)) s)).
  set (K := fun res : value =>
         if truthy res then
           bind (if isLoaded && bool_decide (s_type st = SETTER_TYPE_DYNAMIC_IMPORT) then
                   bind (get_entry e) (fun entry =>
                     write_setters e name (delete i (setters_of name entry)))
                 else ret tt)
                (fun _ => update_callback sup (set_last v st) acc)
         else if bool_decide (s_type st = SETTER_TYPE_EXPORT_FROM)
                 && negb (setter_changed st v)
         then ret acc else update_callback sup (set_last v st) acc).
  assert (r = bind (host_fn (s_fn st) [setterValue v; VEntry e]) K s2) as Er by reflexivity.
  clearbody r. subst r.
  assert (entries s2 !! e = Some en1) as He2.
  { subst s2. simpl. by rewrite lookup_alter_eq, He. }
  assert (setters_of name en1 = L) as HL.
  { unfold setters_of at 1. subst en1. simpl. by rewrite assoc_set_eq. }
  assert (trace s2 = trace s ++ [EvSetter e name (s_fn st) (setterValue v)]) as Ht2
    by reflexivity.
  rewrite (final_bind (host_fn (s_fn st) [setterValue v; VEntry e]) K s2).
  unfold host_fn.
  destruct (host_call (s_fn st) [setterValue v; VEntry e] (host s2)) as [[res |] u].
  - destruct (turn_rest_steady sup e name v
                (isLoaded && bool_decide (s_type st = SETTER_TYPE_DYNAMIC_IMPORT))
                (bool_decide (s_type st = SETTER_TYPE_EXPORT_FROM)
                 && negb (setter_changed st v))
                i acc (set_last v st) res (with_host u s2) en1 He2 Hc)
      as (en' & He' & Hc' & Hl' & Ht').
    exists en'. split; [exact He' |]. split; [done |].
    split; [| etransitivity; [exact Ht' | exact Ht2]].
    rewrite HL in Hl'. destruct Hl' as [Hl' | [Hd Hl']]; [by left |].
    right. apply andb_true_iff in Hd as [_ Hd]. apply bool_decide_eq_true in Hd.
    split; [done |]. subst L. by rewrite Hl', delete_insert_same.
  - exists en1. split; [exact He2 |]. split; [done |]. split; [by left | done].
Qed.

Lemma elem_of_insert_inv {A} (l : list A) i x y :
  y ∈ <[i := x]> l -> y = x \/ y ∈ l.
Proof.
  intros Hin. apply list_elem_of_lookup in Hin as [j Hj].
  apply list_lookup_insert_Some in Hj as [(_ & <- & _) | (_ & Hj)]; [by left |].
  right. by apply (list_elem_of_lookup_2 _ j).
Qed.

Lemma elem_of_delete_inv {A} (l : list A) i y : y ∈ delete i l -> y ∈ l.
Proof. intros Hin. apply (elem_of_sublist _ _ _ Hin), sublist_delete. Qed.

(** A static-import setter that has observed the value is due only when
    the update kind is init. *)
Lemma static_not_due st v ut (isLoaded isNsChanged : bool) :
  s_type st = SETTER_TYPE_STATIC_IMPORT -> s_last st = v -> ut <> UPDATE_TYPE_INIT ->
  setter_due st v ut isLoaded isNsChanged = false.
Proof.
  intros Hty Hlast Hut. unfold setter_due, setter_changed, Object_is.
  rewrite Hty, Hlast. rewrite (bool_decide_eq_true_2 (v = v)) by done.
  rewrite (bool_decide_eq_false_2 (ut = UPDATE_TYPE_INIT)) by done.
  simpl. by rewrite !andb_false_r.
Qed.

(** A static-import setter that is not due has observed the value. *)
Lemma static_observed st v ut (isLoaded isNsChanged : bool) :
  s_type st = SETTER_TYPE_STATIC_IMPORT ->
  setter_due st v ut isLoaded isNsChanged = false -> s_last st = v.
Proof.
  intros Hty Hdue. unfold setter_due, setter_changed, Object_is in Hdue.
  rewrite Hty in Hdue. simpl in Hdue.
  destruct (bool_decide (s_last st = v)) eqn:Hv; [by apply bool_decide_eq_true in Hv |].
  discriminate.
Qed.

Lemma steady_turn_same q e name v sup ut (isLoaded isNsChanged : bool) i acc :
  v <> ERROR_STAR -> (q = true -> ut <> UPDATE_TYPE_INIT) ->
  respects (steady_rel q e name v)
    (runSetter_step e name (update_callback sup) ut true isLoaded isNsChanged i acc).
Proof.
  intros Hv Hut s en He Hc.
  pose proof (turn_steady sup s e name v ut isLoaded isNsChanged i acc en He Hc Hv) as T.
  cbv zeta in T. destruct (setters_of name en !! i) as [st |] eqn:Hst.
  2:{ rewrite T. by apply (steady_rel_preorder q e name v). }
  destruct (setter_due st v ut isLoaded isNsChanged) eqn:Hdue.
  2:{ rewrite T. by apply (steady_rel_preorder q e name v). }
  destruct T as (en' & He' & Hc' & Hl & Ht).
  assert (forall st', st' ∈ setters_of name en' ->
            st' = set_last v st \/ st' ∈ setters_of name en) as Hin'.
  { intros st' Hin. destruct Hl as [Hl | [_ Hl]]; rewrite Hl in Hin.
    - by apply elem_of_insert_inv in Hin.
    - right. by apply elem_of_delete_inv in Hin. }
  pose proof (list_elem_of_lookup_2 _ _ _ Hst) as Hst_in.
  exists en'. split; [done |]. split; [done |]. split.
  { intros st' Hin. destruct (Hin' _ Hin) as [-> | Hold]; [| by apply setter_in_same].
    by exists st. }
  split.
  { intros Ho st' Hin Hty. destruct (Hin' _ Hin) as [-> | Hold]; [done | by apply Ho]. }
  eexists. split; [exact Ht |]. intros Hq Ho fn w Hin.
  apply list_elem_of_singleton in Hin. injection Hin as -> ->.
  exists st. split; [done |]. split; [done |]. intros Hty.
  rewrite (static_not_due st v ut _ _ Hty (Ho _ Hst_in Hty) (Hut Hq)) in Hdue. discriminate.
Qed.

Lemma steady_turn q e name v sup x k ut (isLoaded isNsChanged : bool) i acc :
  v <> ERROR_STAR -> (q = true -> ut <> UPDATE_TYPE_INIT) ->
  forall isESM : bool, (x = e -> k = name -> isESM = true) ->
  respects (steady_rel q e name v)
    (runSetter_step x k (update_callback sup) ut isESM isLoaded isNsChanged i acc).
Proof.
  intros Hv Hut isESM Hesm.
  destruct (decide (x = e)) as [-> | Hx]; [| apply steady_turn_other; by left].
  destruct (decide (k = name)) as [-> | Hk]; [| apply steady_turn_other; by right].
  rewrite (Hesm eq_refl eq_refl). by apply steady_turn_same.
Qed.

Lemma steady_loop q e name v sup x k ut (isLoaded isNsChanged : bool) :
  v <> ERROR_STAR -> (q = true -> ut <> UPDATE_TYPE_INIT) ->
  forall isESM : bool, (x = e -> k = name -> isESM = true) ->
  forall n acc,
  respects (steady_rel q e name v)
    (runSetter_loop x k (update_callback sup) ut isESM isLoaded isNsChanged n acc).
Proof.
  intros Hv Hut isESM Hesm.
  pose proof (fun i acc => steady_turn q e name v sup x k ut isLoaded isNsChanged i acc
                             Hv Hut isESM Hesm) as Hturn.
  induction n as [| n IH]; intros acc; simpl; resp.
Qed.

(** The pass over a name, from a state where the record is declarative. *)
Lemma runSetter_declarative {A} (callback : setter -> A -> M A) e name ut acc s en :
  entries s !! e = Some en -> entry_type en = TypeValue TYPE_ESM ->
  runSetter e name callback ut acc s
  = match assoc name (setters en) with
    | None => Ok acc s
    | Some l =>
        runSetter_loop e name callback ut true
          (bool_decide (_loaded en = LOAD_COMPLETED)) (_changed en) (length l) acc s
    end.
Proof.
  intros He Ht. unfold runSetter. rewrite (bind_ok _ _ _ _ _ (get_entry_ok _ _ _ He)).
  destruct (assoc name (setters en)) as [l |]; [| reflexivity].
  rewrite (bind_ok _ _ _ _ _ (get_type_value _ _ _ _ He Ht)).
  rewrite (bind_ok _ _ _ _ _ (get_entry_ok _ _ _ He)). cbv zeta.
  by rewrite bool_decide_eq_true_2.
Qed.

Lemma steady_runSetter q e name v sup x k ut acc :
  v <> ERROR_STAR -> (q = true -> ut <> UPDATE_TYPE_INIT) ->
  respects (steady_rel q e name v) (runSetter x k (update_callback sup) ut acc).
Proof.
  intros Hv Hut.
  destruct (decide (x = e /\ k = name)) as [[-> ->] | Hne].
  - intros s en He Hc. rewrite (runSetter_declarative _ _ _ _ _ _ en He (proj1 Hc)).
    destruct (assoc name (setters en)) as [l |].
    + by apply (steady_loop q e name v sup e name ut _ _ Hv Hut true) with (s := s).
    + by apply (steady_rel_preorder q e name v).
  - assert (forall (isESM isLoaded isNsChanged : bool) n acc',
              respects (steady_rel q e name v)
                (runSetter_loop x k (update_callback sup) ut isESM isLoaded isNsChanged
                   n acc')) as Hloop.
    { intros isESM isLoaded isNsChanged n acc'. apply steady_loop; [done | done |].
      intros -> ->. by destruct Hne. }
    unfold runSetter. resp.
Qed.

Lemma steady_runSetters q e name v sup x names ut acc :
  v <> ERROR_STAR -> (q = true -> ut <> UPDATE_TYPE_INIT) ->
  respects (steady_rel q e name v) (runSetters x names (update_callback sup) ut acc).
Proof.
  intros Hv Hut.
  pose proof (fun k acc => steady_runSetter q e name v sup x k ut acc Hv Hut) as Hpass.
  unfold runSetters. resp.
Qed.

Lemma steady_passes q e name v x names ut sup :
  v <> ERROR_STAR -> (q = true -> ut <> UPDATE_TYPE_INIT) ->
  respects (steady_rel q e name v) (updateBindings_passes x names ut sup).
Proof.
  intros Hv Hut.
  pose proof (fun names acc => steady_runSetters q e name v sup x names ut acc Hv Hut)
    as Hpass.
  unfold updateBindings_passes. resp.
Qed.

Lemma parentUpdateType_not_init ut : parentUpdateType ut <> UPDATE_TYPE_INIT.
Proof. by destruct ut. Qed.

Lemma steady_propagate q e name v fuel ut :
  (forall x names ut' seen s r,
     (q = true -> ut' <> UPDATE_TYPE_INIT) ->
     updateBindings fuel x names ut' seen s = Some r ->
     steady_rel q e name v s (final_state r)) ->
  forall parents set s r,
  propagate (call_parent (updateBindings fuel) ut) parents set s = Some r ->
  steady_rel q e name v s (final_state r).
Proof.
  intros IH. induction parents as [| p parents IHp]; intros set s r E.
  - injection E as <-. reflexivity.
  - cbn [propagate] in E. pose proof (steady_loaded q e name v p s) as Kl.
    destruct (loaded p s) as [l sl | err sl]; simpl in Kl; [| by injection E as <-].
    unfold call_parent in E.
    destruct (updateBindings fuel p NamesNull (parentUpdateType ut) (Some set) sl)
      as [[o sc | err sc] |] eqn:Ec; [| | discriminate].
    + transitivity sl; [done |].
      transitivity sc; [| by apply (IHp _ _ _ E)].
      apply (IH _ _ _ _ _ _ (fun _ => parentUpdateType_not_init ut) Ec).
    + injection E as <-. transitivity sl; [done |].
      apply (IH _ _ _ _ _ _ (fun _ => parentUpdateType_not_init ut) Ec).
Qed.

Lemma steady_updateBindings q e name v :
  v <> ERROR_STAR ->
  forall fuel x names ut seen s r,
  (q = true -> ut <> UPDATE_TYPE_INIT) ->
  updateBindings fuel x names ut seen s = Some r ->
  steady_rel q e name v s (final_state r).
Proof.
  intros Hv. induction fuel as [| fuel IH]; intros x names ut seen s r Hut E; [discriminate |].
  cbn [updateBindings] in E. unfold bind at 1 in E. unfold log at 1 in E.
  assert (steady_rel q e name v s
            (with_trace (trace s ++ [EvUpdateBindings x names ut seen]) s)) as K0.
  { apply (steady_log q e name v (EvUpdateBindings x names ut seen)). intros; discriminate. }
  set (s0 := with_trace _ s) in *. unfold get_entry in E.
  change (entries s0) with (entries s) in E.
  destruct (entries s !! x) as [this |] eqn:Hthis; [| by injection E as <-].
  destruct (shouldUpdateParents_of this ut && seen_has seen x); [by injection E as <- |].
  pose proof (steady_passes q e name v x names ut (shouldUpdateParents_of this ut) Hv Hut s0)
    as K1.
  destruct (updateBindings_passes x names ut (shouldUpdateParents_of this ut) s0)
    as [[parentsMap |] s1 | err s1]; simpl in K1.
  - cbv zeta in E.
    assert (steady_rel q e name v s1 (with_trace (trace s1 ++ [EvSeenAdd x]) s1)) as K2.
    { apply (steady_log q e name v (EvSeenAdd x)). intros; discriminate. }
    set (s1' := with_trace _ s1) in *.
    destruct (propagate _ (in_order parentsMap) _ s1') as [rp |] eqn:Ep; [| discriminate].
    pose proof (steady_propagate q e name v fuel ut IH _ _ _ _ Ep) as K3.
    assert (final_state r = final_state rp) as ->.
    { destruct rp; by injection E as <-. }
    transitivity s0; [done |]. transitivity s1; [done |]. by transitivity s1'.
  - injection E as <-. by transitivity s0.
  - injection E as <-. by transitivity s0.
Qed.

(** *** The first call makes the setters observe the value *)

Lemma loop_observes sup e name v ut (isLoaded isNsChanged : bool) :
  v <> ERROR_STAR ->
  forall n acc s en acc' s',
  entries s !! e = Some en -> constant_export en name v ->
  (forall j st, n <= j -> setters_of name en !! j = Some st ->
     s_type st = SETTER_TYPE_STATIC_IMPORT -> s_last st = v) ->
  runSetter_loop e name (update_callback sup) ut true isLoaded isNsChanged n acc s
  = Ok acc' s' ->
  exists en', entries s' !! e = Some en' /\ constant_export en' name v
              /\ observed en' name v.
Proof.
  intros Hv. induction n as [| n IH]; intros acc s en acc' s' He Hc Hobs E.
  - injection E as <- <-. exists en. split; [done |]. split; [done |].
    intros st Hin Hty. apply list_elem_of_lookup in Hin as [j Hj].
    apply (Hobs j st); [lia | done | done].
  - cbn [runSetter_loop] in E. apply bind_inv in E as (acc1 & s1 & E1 & E).
    pose proof (turn_steady sup s e name v ut isLoaded isNsChanged n acc en He Hc Hv) as T.
    cbv zeta in T. rewrite E1 in T.
    destruct (setters_of name en !! n) as [st |] eqn:Hst; [| discriminate].
    destruct (setter_due st v ut isLoaded isNsChanged) eqn:Hdue.
    + destruct T as (en1 & He1 & Hc1 & Hl & _). simpl in He1.
      apply (IH acc1 s1 en1 acc' s' He1 Hc1); [| done].
      intros j st' Hj Hlk Hty. destruct Hl as [Hl | [Hd Hl]]; rewrite Hl in Hlk.
      * apply list_lookup_insert_Some in Hlk as [(_ & <- & _) | (Hne & Hlk)]; [done |].
        apply (Hobs j st'); [lia | done | done].
      * rewrite list_lookup_delete_ge in Hlk by done.
        apply (Hobs (S j) st'); [lia | done | done].
    + injection T as <- <-. apply (IH acc1 s1 en acc' s' He Hc); [| done].
      intros j st' Hj Hlk Hty. destruct (decide (j = n)) as [-> | Hne].
      { rewrite Hst in Hlk. injection Hlk as <-.
        by apply (static_observed st v ut isLoaded isNsChanged). }
      apply (Hobs j st'); [lia | done | done].
Qed.

Lemma pass_observes sup e name v ut acc s en acc' s' :
  v <> ERROR_STAR -> entries s !! e = Some en -> constant_export en name v ->
  runSetter e name (update_callback sup) ut acc s = Ok acc' s' ->
  exists en', entries s' !! e = Some en' /\ constant_export en' name v
              /\ observed en' name v.
Proof.
  intros Hv He Hc E. rewrite (runSetter_declarative _ _ _ _ _ _ en He (proj1 Hc)) in E.
  destruct (assoc name (setters en)) as [l |] eqn:Hl.
  - apply (loop_observes sup e name v ut _ _ Hv _ _ _ en _ _ He Hc) in E; [done |].
    intros j st Hj Hlk. unfold setters_of in Hlk. rewrite Hl in Hlk. simpl in Hlk.
    rewrite lookup_ge_None_2 in Hlk by done. discriminate.
  - injection E as <- <-. exists en. split; [done |]. split; [done |].
    intros st Hin. unfold setters_of in Hin. rewrite Hl in Hin. by apply elem_of_nil in Hin.
Qed.

Lemma fold_observes sup e name v ut :
  v <> ERROR_STAR ->
  forall l acc s en acc' s',
  entries s !! e = Some en -> constant_export en name v -> name ∈ l ->
  fold_names l (fun k => runSetter e k (update_callback sup) ut) acc s = Ok acc' s' ->
  exists en', entries s' !! e = Some en' /\ constant_export en' name v
              /\ observed en' name v.
Proof.
  intros Hv. induction l as [| k l IH]; intros acc s en acc' s' He Hc Hin E.
  - by apply elem_of_nil in Hin.
  - cbn [fold_names] in E. apply bind_inv in E as (acc1 & s1 & E1 & E).
    destruct (decide (k = name)) as [-> | Hne].
    + destruct (pass_observes _ _ _ _ _ _ _ _ _ _ Hv He Hc E1) as (en1 & He1 & Hc1 & Ho1).
      assert (respects (steady_rel false e name v)
                (fold_names l (fun k => runSetter e k (update_callback sup) ut) acc1))
        as Hrest.
      { apply resp_fold_names; [apply _ |]. intros k a. by apply steady_runSetter. }
      specialize (Hrest s1 en1 He1 Hc1). rewrite E in Hrest. simpl in Hrest.
      destruct Hrest as (en' & He' & Hc' & _ & Ho' & _). exists en'. eauto.
    + apply elem_of_cons in Hin as [-> | Hin]; [done |].
      assert (false = true -> ut <> UPDATE_TYPE_INIT) as Hut by discriminate.
      pose proof (steady_runSetter false e name v sup e k ut acc Hv Hut s en He Hc) as K.
      rewrite E1 in K. simpl in K. destruct K as (en1 & He1 & Hc1 & _).
      apply (IH _ _ en1 _ _ He1 Hc1 Hin E).
Qed.

Lemma passes_observe e name v names ut sup s en pm s1 :
  v <> ERROR_STAR -> entries s !! e = Some en -> constant_export en name v ->
  processes names en name ->
  updateBindings_passes e names ut sup s = Ok pm s1 ->
  exists en1, entries s1 !! e = Some en1 /\ constant_export en1 name v
              /\ observed en1 name v.
Proof.
  intros Hv He Hc Hp E. unfold updateBindings_passes in E. cbv zeta in E.
  assert (false = true -> ut <> UPDATE_TYPE_INIT) as Hut by discriminate.
  apply (bind_inv_resp (steady_rel false e name v)) in E as ([] & sa & Ra & Ea & E);
    [| resp].
  assert (entries_kept (same_field setters) s sa) as Sa.
  { assert (respects (entries_kept (same_field setters)) (log (EvBody e))) as K by resp.
    specialize (K s). by rewrite Ea in K. }
  apply (bind_inv_resp (steady_rel false e name v)) in E as ([] & sb & Rb & Eb & E);
    [| resp].
  assert (entries_kept (same_field setters) sa sb) as Sb.
  { assert (respects (entries_kept (same_field setters))
              (modify_entry e (set_changed false))) as K by resp.
    specialize (K sa). by rewrite Eb in K. }
  apply (bind_inv_resp (steady_rel false e name v)) in E as ([] & sc & Rc & Ec & E);
    [| resp].
  assert (entries_kept (same_field setters) sb sc) as Sc.
  { pose proof (setters_kept_runGetters e (normalize_names names) sb) as K.
    by rewrite Ec in K. }
  apply bind_inv in E as (pm' & sd & Ed & E).
  assert (steady_rel false e name v s sc) as R by (transitivity sa; [done |]; by transitivity sb).
  destruct (R en He Hc) as (enc & Hec & Hcc & _).
  assert (setters enc = setters en) as Hsame.
  { destruct (Sa _ _ He) as (ena & Hea & Fa). destruct (Sb _ _ Hea) as (enb & Heb & Fb).
    destruct (Sc _ _ Heb) as (enc' & Hec' & Fc). rewrite Hec in Hec'. injection Hec' as <-.
    unfold same_field in *. congruence. }
  assert (exists end_, entries sd !! e = Some end_ /\ constant_export end_ name v
                       /\ observed end_ name v) as (end_ & Hed & Hcd & Hod).
  { unfold runSetters in Ed. unfold processes in Hp.
    destruct (normalize_names names) as [| | n | l].
    4:{ by apply (fold_observes sup e name v ut Hv l None sc enc pm' sd). }
    all: rewrite (bind_ok _ _ _ _ _ (get_entry_ok _ _ _ Hec)) in Ed;
      rewrite Hsame in Ed;
      by apply (fold_observes sup e name v ut Hv (map KStr (for_in (setters en)))
                  None sc enc pm' sd). }
  assert (respects (steady_rel false e name v)
            (bind (modify_entry e (set_changed false)) (fun _ => ret pm'))) as K by resp.
  specialize (K sd end_ Hed Hcd). rewrite E in K. simpl in K.
  destruct K as (en1 & He1 & Hc1 & _ & Ho1 & _). exists en1. eauto.
Qed.

Lemma first_call_observes fuel e name v names ut seen s en out s1 :
  v <> ERROR_STAR -> entries s !! e = Some en -> constant_export en name v ->
  updateBindings fuel e names ut seen s = Some (Ok out s1) ->
  shouldUpdateParents_of en ut && seen_has seen e = false ->
  processes names en name ->
  exists en1, entries s1 !! e = Some en1 /\ constant_export en1 name v
              /\ observed en1 name v.
Proof.
  intros Hv He Hc E Hguard Hp. destruct fuel as [| fuel]; [discriminate |].
  cbn [updateBindings] in E. unfold bind at 1 in E. unfold log at 1 in E.
  set (s0 := with_trace _ s) in *. unfold get_entry in E.
  change (entries s0) with (entries s) in E. rewrite He, Hguard in E.
  destruct (updateBindings_passes e names ut (shouldUpdateParents_of en ut) s0)
    as [pm sp | err sp] eqn:Ep; [| discriminate].
  destruct (passes_observe e name v names ut _ s0 en pm sp Hv He Hc Hp Ep)
    as (enp & Hep & Hcp & Hop).
  destruct pm as [parentsMap |].
  2:{ injection E as _ <-. exists enp. eauto. }
  cbv zeta in E. set (sp' := with_trace _ sp) in *.
  destruct (propagate _ (in_order parentsMap) _ sp') as [rp |] eqn:Eprop; [| discriminate].
  pose proof (steady_propagate false e name v fuel ut
                (steady_updateBindings false e name v Hv fuel) _ _ _ _ Eprop) as K.
  destruct rp as [set sq | err sq]; [| discriminate]. injection E as _ <-.
  destruct (K enp Hep Hcp) as (en1 & He1 & Hc1 & _ & Ho1 & _). exists en1. eauto.
Qed.


End Proofs.

(** ** The claims on concrete graphs *)

(** C1, witness: the propagation from record 1 of the diamond terminates
    within the bound. *)
Lemma updateBindings_cycle_termination_witness :
  is_Some (updateBindings 5 1 NamesNull UPDATE_TYPE_LIVE None diamond).
Proof.
  exact (proj1 (updateBindings_cycle_termination (H := example_host)
                  1 NamesNull UPDATE_TYPE_LIVE None diamond)).
Defined.

(** C1, counterexample: in the diamond the passes of record 4 run twice
    within one call tree; the record records no pending parent, so the
    visited set never holds it. *)
Lemma diamond_runs_a_body_twice :
  bodies (outcome_trace (updateBindings 5 1 NamesNull UPDATE_TYPE_LIVE None diamond))
  = [1; 3; 4; 2; 4].
Proof. vm_compute. reflexivity. Qed.

(** C3, counterexample: a circular record updated with kind default calls
    its parent with kind default, not live. *)
Lemma default_is_not_escalated :
  calls (outcome_trace (updateBindings 5 1 NamesNull UPDATE_TYPE_DEFAULT None circular_pair))
  = [(1, NamesNull, UPDATE_TYPE_DEFAULT); (2, NamesNull, UPDATE_TYPE_DEFAULT)].
Proof. vm_compute. reflexivity. Qed.

(** C3, witness: the circular pair, updated with kind live. *)
Lemma updateBindings_propagates_witness :
  exists t1 t2 set_p,
    trace (outcome_state (updateBindings 5 1 NamesNull UPDATE_TYPE_LIVE None circular_pair)
                         circular_pair)
    = t1 ++ EvLoaded 2
            :: EvUpdateBindings 2 NamesNull (parentUpdateType UPDATE_TYPE_LIVE) (Some set_p) :: t2
    /\ seen_set None ∪ {[1]} ⊆ set_p.
Proof.
  refine (proj1 (updateBindings_propagates (H := example_host)
                   4 1 NamesNull UPDATE_TYPE_LIVE None circular_pair _ _ _ _ _ _ _ _ _)
                "b" 2 _);
    vm_compute; reflexivity.
Defined.

(** C9, witness: the flag of record 2 survives a registration and a
    propagation. *)
Lemma importedBindings_monotone_witness :
  exists en',
    entries (final_state (addSetter 1 (KStr "y") [KStr "x"] 25 None 2 imported_graph)) !! 2
    = Some en'
    /\ assoc (KStr "x") (importedBindings en') = Some true.
Proof.
  exact (proj1 (proj2 (importedBindings_monotone (H := example_host)
                         imported_graph 2 importer_with_flag (KStr "x") true
                         eq_refl eq_refl))
               1 (KStr "y") [KStr "x"] 25 None 2).
Defined.

(** C6, witness: the getter of [foo] in the conflict graph keeps yielding
    the sentinel and two setters are registered for [foo]; two successive
    setter passes throw and the third completes. *)
Lemma star_conflict_drops_one_setter_witness :
  let pass := runSetter 1 (KStr "foo") (update_callback false) UPDATE_TYPE_DEFAULT None in
  pass conflict_graph
  = Throw (ERR_EXPORT_STAR_CONFLICT (VObj 0) (KStr "foo")) (after_runs 1 pass conflict_graph)
  /\ pass (after_runs 1 pass conflict_graph)
     = Throw (ERR_EXPORT_STAR_CONFLICT (VObj 0) (KStr "foo")) (after_runs 2 pass conflict_graph)
  /\ pass (after_runs 2 pass conflict_graph) = Ok None (after_runs 2 pass conflict_graph).
Proof.
  intros pass.
  assert (constant_export (H := example_host) conflict_exporter (KStr "foo") ERROR_STAR)
    as Hc.
  { split; [reflexivity |]. split; [discriminate |].
    exists (host_getter 30), 30. split; [reflexivity |]. split; [reflexivity |].
    intros args u. reflexivity. }
  destruct (proj2 (proj2 (star_conflict_drops_one_setter (H := example_host)
                            (update_callback false) conflict_graph 1 (KStr "foo")
                            UPDATE_TYPE_DEFAULT None conflict_exporter eq_refl))
              [example_setter 20 SETTER_TYPE_STATIC_IMPORT 2;
               example_setter 21 SETTER_TYPE_STATIC_IMPORT 3] Hc eq_refl) as [Hk Hend].
  split; [apply (Hk 0); simpl; lia |]. split; [apply (Hk 1); simpl; lia | exact Hend].
Defined.

(** C6, counterexample: with two setters registered for [foo], the first
    propagation throws the conflict error and the second throws it again;
    only the third completes. *)
Lemma conflict_is_thrown_once_per_setter :
  let run := updateBindings 5 1 NamesNull UPDATE_TYPE_DEFAULT None in
  let s1 := outcome_state (run conflict_graph) conflict_graph in
  let s2 := outcome_state (run s1) s1 in
  outcome_error (run conflict_graph) = Some (ERR_EXPORT_STAR_CONFLICT (VObj 0) (KStr "foo"))
  /\ outcome_error (run s1) = Some (ERR_EXPORT_STAR_CONFLICT (VObj 0) (KStr "foo"))
  /\ outcome_error (run s2) = None.
Proof. vm_compute. auto. Qed.



(** On the same graph: the first call calls the setter with 1, and a
    second call records no further call. *)
Lemma static_setter_is_called_once :
  let run := updateBindings 5 1 NamesNull UPDATE_TYPE_DEFAULT None in
  let s1 := outcome_state (run static_pair) static_pair in
  fired (trace s1) = [(1, KStr "x", 20, VNum 1)]
  /\ fired (outcome_trace (run s1)) = [(1, KStr "x", 20, VNum 1)].
Proof. vm_compute. auto. Qed.

(** C5, witness: the binary exporter and the importer with named exports
    off. *)
Lemma getExportByName_resolution_witness :
  getExportByName 3 (KStr "default") 4 resolution_graph
  = Ok (exports (example_exporter TYPE_WASM)) resolution_graph.
Proof.
  exact (proj1 (getExportByName_resolution (H := example_host) resolution_graph
                  3 (KStr "default") 4 (example_exporter TYPE_WASM)
                  (example_importer "j" ".js" false) eq_refl eq_refl)
               TYPE_WASM resolution_graph eq_refl eq_refl ltac:(discriminate) eq_refl).
Defined.

(** C5, counterexample.  Record 1 is a dynamic-object module whose getter
    for [default] returns 5, and the configuration of the importer 2 has
    named exports on, so the claim sends the request to the getter; the
    importer is an [.mjs] file and the result is the whole exported value.
    Record 3 is a binary module, not a dynamic-object one, and again the
    result is the whole exported value, not the getter's. *)
Lemma default_resolves_to_whole_exports :
  entry_type (example_exporter TYPE_CJS) = TypeValue TYPE_CJS
  /\ cjs_namedExports (entry_package (example_importer "i" ".mjs" true)) = true
  /\ result_value (tryGetter (assoc (KStr "default") (getters (example_exporter TYPE_CJS)))
                     resolution_graph) = Some (VNum 5)
  /\ result_value (getExportByName 1 (KStr "default") 2 resolution_graph) = Some (VObj 7)
  /\ entry_type (example_exporter TYPE_WASM) = TypeValue TYPE_WASM
  /\ cjs_namedExports (entry_package (example_importer "j" ".js" false)) = false
  /\ result_value (getExportByName 3 (KStr "default") 4 resolution_graph) = Some (VObj 7).
Proof. vm_compute. auto 10. Qed.

#[local] Existing Instance example_ext.

(** C7, on a concrete record: an assignment to the export [x] of the
    finalized full view, from strict code, throws the assignment error and
    leaves the state as it was. *)
Lemma immutable_traps_witness :
  immutable_set strict_frames 1 Complete (KStr "x") sealed_graph
  = Throw (ERR_NS_ASSIGNMENT (VObj 0) (KStr "x")) sealed_graph.
Proof.
  exact (proj1 (immutable_traps (H := example_host) (ext := example_ext) sealed_graph
                  1 sealed_entry Complete (KStr "x") strict_frames
                  (value_descriptor (VNum 5)) eq_refl)).
Defined.

(** C7, counterexample.  The export [x] of the finalized full view is
    redefined with [{ value: 5 }], which is not the permitted redefinition
    (its [writable] is not [false]).  From strict code the trap throws
    nothing and returns [false]; from sloppy code it returns [false] too;
    in both cases the raw object now holds 5 for [x]. *)
Lemma redefinition_is_applied_and_reported_false :
  let strict := immutable_defineProperty strict_frames 1 Complete (KStr "x")
                  (value_descriptor (VNum 5)) sealed_graph in
  let sloppy := immutable_defineProperty sloppy_frames 1 Complete (KStr "x")
                  (value_descriptor (VNum 5)) sealed_graph in
  let x_of (r : Res bool) :=
    (fun en => get_own (raw_of (SlotView Complete) en) (KStr "x"))
      <$> entries (final_state r) !! 1 in
  finalized sealed_entry = true
  /\ get_own sealed_view (KStr "x") = Some (PData INITIAL_VALUE true true false)
  /\ isCalledFromStrictCode strict_frames = true
  /\ result_value strict = Some false
  /\ x_of strict = Some (Some (PData (VNum 5) true true false))
  /\ isCalledFromStrictCode sloppy_frames = false
  /\ result_value sloppy = Some false
  /\ x_of sloppy = Some (Some (PData (VNum 5) true true false)).
Proof. vm_compute. auto 10. Qed.

(** C4, on a concrete record: the finalized record 1 is settled; its
    export [x] is redefined through the full read-only view, its
    extensions are prevented through the same view and a deletion of [x]
    is attempted; the record is still settled and its four views have the
    keys they had. *)
Lemma finalized_views_keep_their_keys_witness :
  let s1 := final_state (immutable_defineProperty sloppy_frames 1 Complete (KStr "x")
                           (value_descriptor (VNum 5)) sealed_graph) in
  let s2 := final_state (common_preventExtensions 1 Complete s1) in
  let s3 := final_state (immutable_deleteProperty sloppy_frames 1 Complete (KStr "x") s2) in
  exists en', entries s3 !! 1 = Some en' /\ settled en'
    /\ forall v, own_names (raw_of (SlotView v) en')
                 = own_names (raw_of (SlotView v) sealed_entry).
Proof.
  cbv zeta.
  refine (proj1 (proj2 (proj2 (proj2
            (finalized_views_keep_their_keys (H := example_host) (ext := example_ext)
               sealed_graph 1 sealed_entry eq_refl)))) _ _ _).
  - vm_compute. auto.
  - eapply rtc_l.
    { eapply (step_immutable_defineProperty _ sloppy_frames 1 Complete (KStr "x")
                (value_descriptor (VNum 5)) sealed_entry);
        [reflexivity | by left | intros [? | ?]; discriminate]. }
    eapply rtc_l; [apply (step_common_preventExtensions _ 1 Complete) |].
    eapply rtc_l; [| apply rtc_refl].
    eapply (step_immutable_deleteProperty _ sloppy_frames 1 Complete (KStr "x"));
      [vm_compute; reflexivity | by left | intros [? | ?]; discriminate].
Defined.

(** Finalization leaves the partial read-only view of a declarative record
    extensible: its full read-only view is sealed with the keys
    [Symbol.toStringTag] and [x], and a definition of [y] addressed to the
    partial read-only view, which export resolution never hands out for
    such a record, would return [true] and add the key [y] to the raw
    object of that view.  This is why [engine_step] takes the traps of the
    views that have been handed out. *)
Lemma partial_view_of_a_declarative_record_is_extensible :
  let s1 := final_state (finalizeNamespace 1 unfinalized_graph) in
  let r := immutable_defineProperty sloppy_frames 1 Partial (KStr "y")
             (value_descriptor VUndef) s1 in
  let names_of (v : view) (s : @State example_host) :=
    (fun en => own_names (raw_of (SlotView v) en)) <$> entries s !! 1 in
  entry_type unfinalized_entry = TypeValue TYPE_ESM
  /\ result_value (finalizeNamespace 1 unfinalized_graph) = Some tt
  /\ (finalized <$> entries s1 !! 1) = Some true
  /\ names_of Complete s1 = Some [KToStringTag; KStr "x"]
  /\ names_of Partial s1 = Some [KToStringTag]
  /\ result_value r = Some true
  /\ names_of Partial (final_state r) = Some [KToStringTag; KStr "y"].
Proof. vm_compute. auto 10. Qed.

(** C10, on a concrete module: [Entry.get] of the main module 10, whose
    parent is [undefined], ends. *)
Lemma Entry_get_caches_witness : is_Some (Entry_get 2 (VObj 10) module_graph).
Proof.
  exact (proj1 (proj2 (Entry_get_caches (H := example_host) (ext := example_ext)
                         1 (VObj 10) module_graph) eq_refl) eq_refl).
Defined.

(** C10, counterexample.  Two consecutive calls of [Entry.get] on the
    module 10 return record 2 and then record 3: each call finds in the
    cache a completely loaded CJS record whose exported value is bridged.
    And on a module object that is its own parent the call has not ended
    after 64 nested constructor calls. *)
Lemma consecutive_calls_return_two_entries :
  let first := Entry_get 1 (VObj 10) bridged_graph in
  let second := Entry_get 1 (VObj 10) (outcome_state first bridged_graph) in
  isObject (VObj 10) bridged_graph = true
  /\ (result_value <$> first) = Some (Some (Some 2%nat))
  /\ (result_value <$> second) = Some (Some (Some 3%nat))
  /\ isObject (VObj 40) cyclic_graph = true
  /\ Entry_get 64 (VObj 40) cyclic_graph = None.
Proof. vm_compute. auto 10. Qed.

(** C8, on a concrete record: after [loaded] on the declarative record 1,
    [module.exports] is 7, the value of the lone [default] export. *)
Lemma default_collapse_witness :
  value_get (VObj 0) (KStr "exports") (final_state (loaded 1 (unloaded_graph TYPE_ESM)))
  = Ok (VNum 7) (final_state (loaded 1 (unloaded_graph TYPE_ESM))).
Proof.
  apply (default_collapse (H := example_host)
           1 (unloaded_graph TYPE_ESM) (unloaded_entry TYPE_ESM) TYPE_ESM
           51 exports_object (VNum 7) 0 module_object);
    first [ by left | discriminate | vm_compute; reflexivity ].
Defined.

(** C8, counterexample.  Record 1 is a dynamic-object module with CJS
    interop on and the extension [.js]; the only export name of its
    exported value is [default], of value 7.  [loaded] completes and
    [module.exports] is still the exported object 51, not 7. *)
Lemma dynamic_module_is_not_collapsed :
  let s' := final_state (loaded 1 (unloaded_graph TYPE_CJS)) in
  entry_type (unloaded_entry TYPE_CJS) = TypeValue TYPE_CJS
  /\ cjs_interop (entry_package (unloaded_entry TYPE_CJS)) = true
  /\ extname (unloaded_entry TYPE_CJS) = Some ".js"
  /\ dynamic_export_names exports_object = ["default"]
  /\ plan_get exports_object (KStr "default") = GetValue (VNum 7)
  /\ result_value (loaded 1 (unloaded_graph TYPE_CJS)) = Some LOAD_COMPLETED
  /\ result_value (value_get (VObj 0) (KStr "exports") s') = Some (VObj 51).
Proof. vm_compute. auto 10. Qed.

(** ** Further properties on concrete graphs *)

(** X1, on a concrete stack: the frame of the loader is skipped and the
    strict caller decides. *)
Lemma isCalledFromStrictCode_first_caller_witness :
  isCalledFromStrictCode [loader_frame] = false
  /\ isCalledFromStrictCode strict_frames = true.
Proof.
  pose proof (isCalledFromStrictCode_first_caller (ext := example_ext) [loader_frame]
                {| getFileName := Some "/app/user.mjs"; isNative := false;
                   getFunction := None |} []) as W.
  destruct W as [W1 W2]; [by repeat constructor |].
  split; [exact W1 | exact (W2 eq_refl)].
Defined.

(** X2, on the diamond: both resolutions of [x] of record 1 for the
    importer 2 agree. *)
Lemma fast_path_agrees_witness :
  getExportByNameFast 1 (KStr "x") 2 diamond = getExportByName 1 (KStr "x") 2 diamond.
Proof.
  apply (fast_path_agrees (H := example_host) diamond 1 (KStr "x") 2
           (example_entry "a" false [(KStr "x", host_getter 10)]
              [(KStr "x", [example_setter 20 SETTER_TYPE_STATIC_IMPORT 2;
                           example_setter 21 SETTER_TYPE_STATIC_IMPORT 3])])
           (example_entry "b" false [(KStr "x", host_getter 11)]
              [(KStr "x", [example_setter 22 SETTER_TYPE_STATIC_IMPORT 4])]));
    vm_compute; reflexivity.
Defined.

(** X3, on the resolution graph: the [.mjs] importer 2 gets a read-only
    view of the dynamic-object module 1. *)
Lemma mjs_gets_readonly_view_witness :
  getExportByName 1 (KStr "*") 2 resolution_graph
  = Ok (VNamespace 1 Partial) resolution_graph
  /\ (VNamespace 1 Partial = VNamespace 1 Complete
      \/ VNamespace 1 Partial = VNamespace 1 Partial).
Proof.
  split; [vm_compute; reflexivity |].
  apply (mjs_gets_readonly_view (H := example_host) resolution_graph 1 2
           (example_exporter TYPE_CJS) (example_importer "i" ".mjs" true)
           (VNamespace 1 Partial) resolution_graph);
    first [ left; vm_compute; reflexivity | vm_compute; reflexivity ].
Defined.

(** X4, on the diamond: record 4 has no setters, and a setter pass over
    two names changes nothing. *)
Lemma runSetters_without_setters_witness :
  runSetters 4 (NamesArray [KStr "x"; KStr "y"]) (update_callback false)
    UPDATE_TYPE_DEFAULT None diamond
  = Ok None diamond.
Proof.
  apply (runSetters_without_setters (H := example_host) diamond 4
           (example_entry "d" false [] []) TYPE_ESM);
    first [ by repeat constructor | vm_compute; reflexivity ].
Defined.

(** X5, on a record before its finalization. *)
Lemma finalizeNamespace_marks_first_witness :
  let s' := final_state (finalizeNamespace 1 unfinalized_graph) in
  (exists en', entries s' !! 1 = Some en' /\ finalized en' = true)
  /\ finalizeNamespace 1 s' = Ok tt s'.
Proof.
  apply (finalizeNamespace_marks_first (H := example_host)
           1 unfinalized_graph unfinalized_entry).
  vm_compute; reflexivity.
Defined.

(** X6, on the main module 10. *)
Lemma Entry_set_then_has_witness :
  let s' := final_state (Entry_set (VObj 10) 1 module_graph) in
  vassoc (VObj 10) (cache s') = Some 1
  /\ Entry_has (VObj 10) s' = true
  /\ forall m', m' <> VObj 10 ->
       vassoc m' (cache s') = vassoc m' (cache module_graph)
       /\ Entry_has m' s' = Entry_has m' module_graph.
Proof.
  apply (Entry_set_then_has (H := example_host) (VObj 10) 1 module_graph).
  vm_compute; reflexivity.
Defined.

(** X7, on the diamond: a getter for [y] is added to record 4. *)
Lemma addGetter_registers_witness :
  exists en',
    entries (final_state (addGetter 4 (KStr "y") (host_getter 13) diamond)) !! 4 = Some en'
    /\ assoc (KStr "y") (getters en')
       = Some {| g_fn := GHost 13; g_id := Some (KStr "y"); g_owner := Some 4 |}
    /\ (forall k, k <> KStr "y" -> assoc k (getters en') = None)
    /\ setters en' = [(KStr "*", [])].
Proof.
  apply (addGetter_registers (H := example_host) 4 (KStr "y") (host_getter 13) diamond
           (example_entry "d" false [] []));
    vm_compute; reflexivity.
Defined.

(** X8, on the diamond: getters for [y] and [z] are added to record 4. *)
Lemma addGetters_registers_all_witness :
  exists en',
    entries (final_state (addGetters 4 [(KStr "y", host_getter 13); (KStr "z", host_getter 14)]
                            diamond)) !! 4 = Some en'
    /\ (forall k, assoc_has k (getters en')
                  = assoc_has k (getters (example_entry "d" false [] []))
                    || bool_decide (k ∈ [KStr "y"; KStr "z"]))
    /\ setters en' = [(KStr "*", [])].
Proof.
  apply (addGetters_registers_all (H := example_host) 4
           [(KStr "y", host_getter 13); (KStr "z", host_getter 14)] diamond
           (example_entry "d" false [] []));
    vm_compute; reflexivity.
Defined.

(** X9, on the imported graph: the function 25, which no list holds, is
    registered as a setter for [y] on record 1 for the parent 2. *)
Lemma addSetter_appends_witness :
  exists s' en' pen',
    addSetter 1 (KStr "y") [KStr "x"] 25 None 2 imported_graph = Ok tt s'
    /\ entries s' !! 1 = Some en' /\ entries s' !! 2 = Some pen'
    /\ setters_of (KStr "y") en'
       = [] ++ [{| s_fn := 25; s_last := INITIAL_VALUE; s_localNames := [KStr "x"];
                   s_parent := 2; s_type := SETTER_TYPE_STATIC_IMPORT |}]
    /\ (forall k, k <> KStr "y" ->
          setters_of k en'
          = setters_of k
              (example_entry "a" false [(KStr "x", host_getter 10)]
                 [(KStr "x", [example_setter 20 SETTER_TYPE_STATIC_IMPORT 2])]))
    /\ (forall k, k ∈ [KStr "x"] -> assoc_has k (importedBindings pen') = true).
Proof.
  apply (addSetter_appends (H := example_host) 1 (KStr "y") [KStr "x"] 25 None 2
           imported_graph
           (example_entry "a" false [(KStr "x", host_getter 10)]
              [(KStr "x", [example_setter 20 SETTER_TYPE_STATIC_IMPORT 2])])
           importer_with_flag);
    vm_compute; reflexivity.
Defined.

(** X10, on the imported graph: the functions 26 and 27 are registered on
    record 1. *)
Lemma addSetters_keeps_order_witness :
  let argsList := [(KStr "x", [KStr "a"], (26, None));
                   (KStr "y", [KStr "b"], (27, Some SETTER_TYPE_EXPORT_FROM))] in
  let en := example_entry "a" false [(KStr "x", host_getter 10)]
              [(KStr "x", [example_setter 20 SETTER_TYPE_STATIC_IMPORT 2])] in
  exists s' en',
    addSetters 1 argsList 2 imported_graph = Ok tt s'
    /\ entries s' !! 1 = Some en'
    /\ forall k, setters_of k en'
                 = setters_of k en
                   ++ map (setter_of_args 2) (filter (fun a => a.1.1 = k) argsList).
Proof.
  apply (addSetters_keeps_order (H := example_host) 1 2
           [(KStr "x", [KStr "a"], (26, None));
            (KStr "y", [KStr "b"], (27, Some SETTER_TYPE_EXPORT_FROM))]
           imported_graph _ importer_with_flag);
    first [ vm_compute; reflexivity
          | refine (bool_decide_unpack _ _); vm_compute; reflexivity ].
Defined.

(** X11, on the declarative record that has not been loaded. *)
Lemma loaded_result_witness :
  exists en',
    entries (final_state (loaded 1 (unloaded_graph TYPE_ESM))) !! 1 = Some en'
    /\ _loaded en' = LOAD_COMPLETED
    /\ (LOAD_COMPLETED = LOAD_INCOMPLETE
        \/ (LOAD_COMPLETED = LOAD_COMPLETED /\ finalized en' = true)).
Proof.
  apply (loaded_result (H := example_host) 1 (unloaded_graph TYPE_ESM)
           (unloaded_entry TYPE_ESM) LOAD_COMPLETED);
    vm_compute; reflexivity.
Defined.

(** X12, on an exported object with the keys [__esModule] and [a]. *)
Lemma export_names_of_dynamic_module_witness :
  let o := example_object [("__esModule", VBool true); ("a", VNum 1)] in
  ("a" ∈ Object_keys o -> "a" ∈ dynamic_export_names o)
  /\ ("a" ∈ dynamic_export_names o -> "a" ∈ ownPropertyNames_obj o)
  /\ ("a" ∈ dynamic_export_names o -> "a" = "__esModule" ->
      own_enumerable (o_props o) (KStr "a") = true).
Proof.
  apply (export_names_of_dynamic_module
           (example_object [("__esModule", VBool true); ("a", VNum 1)]) "a").
  refine (bool_decide_unpack _ _); vm_compute; reflexivity.
Defined.

(** X13, on the bridged graph: the partial view of the CJS record 1 gives
    its exported value for [default]. *)
Lemma get_trap_of_views_witness :
  common_get 1 Partial (KStr "default") bridged_graph
  = Ok (exports (loaded_cjs_entry (VObj 10))) bridged_graph.
Proof.
  apply (proj2 (get_trap_of_views (H := example_host) 1 Partial (KStr "default")
                  bridged_graph (loaded_cjs_entry (VObj 10)) eq_refl) TYPE_CJS);
    first [ by left | discriminate | vm_compute; reflexivity ].
Defined.

(** X14, on the dynamic-object record whose module is loaded. *)
Lemma updateBindings_null_on_loaded_dynamic_witness :
  exists s', updateBindings 1 1 NamesNull UPDATE_TYPE_DEFAULT None (unloaded_graph TYPE_CJS)
             = Some (Throw (TypeError "names is not iterable") s').
Proof.
  apply (updateBindings_null_on_loaded_dynamic (H := example_host)
           0 1 UPDATE_TYPE_DEFAULT None (unloaded_graph TYPE_CJS) (unloaded_entry TYPE_CJS)
           TYPE_CJS 0 module_object (VBool true));
    first [ discriminate | vm_compute; reflexivity ].
Defined.

(** X16, on the record that is not finalized: a definition through a
    mutable view returns [false] and changes nothing. *)
Lemma mutable_traps_witness :
  mutable_defineProperty 3 1 CompleteMutable (KStr "x")
    {| d_value := Some (VNum 5); d_writable := None; d_get := None; d_set := None;
       d_enumerable := None; d_configurable := None |}
    unfinalized_graph
  = Some (Ok false unfinalized_graph).
Proof.
  apply (proj1 (mutable_traps (H := example_host)
                  1 unfinalized_graph unfinalized_entry eq_refl)).
  vm_compute; reflexivity.
Defined.

(** X17, on the dynamic-object record: the names [a] and [b] get getters. *)
Lemma assignExportsToNamespace_adds_getters_witness :
  let s := unloaded_graph TYPE_CJS in
  let names := NamesArray [KStr "a"; KStr "b"] in
  exists en',
    entries (final_state (assignExportsToNamespace 1 names s)) !! 1 = Some en'
    /\ getters_le (unloaded_entry TYPE_CJS) en'
    /\ setters en' = setters (unloaded_entry TYPE_CJS)
    /\ (isObjectLike (exports (unloaded_entry TYPE_CJS)) = true ->
        forall l k, names = NamesArray l -> k ∈ l -> k <> KStr "default" ->
                    assoc_has k (getters en') = true).
Proof.
  apply (assignExportsToNamespace_adds_getters (H := example_host)
           1 (NamesArray [KStr "a"; KStr "b"]) (unloaded_graph TYPE_CJS)
           (unloaded_entry TYPE_CJS));
    vm_compute; reflexivity.
Defined.

(** X18, on the diamond: after a getter for [y] is added to record 4, the
    key [y] of its raw namespace object reads [exports.y]. *)
Lemma addGetter_reads_through_witness :
  exists s', addGetter 4 (KStr "y") (host_getter 13) diamond = Ok tt s'
    /\ ns_get 4 SlotNamespace (KStr "y") s' = value_get VUndef (KStr "y") s'.
Proof.
  apply (addGetter_reads_through (H := example_host) 4 (KStr "y") (host_getter 13) diamond
           (example_entry "d" false [] []) TYPE_ESM);
    first [ discriminate | vm_compute; reflexivity ].
Defined.

(** X19, on the record before its finalization: both full views gain the
    key [x]. *)
Lemma finalizeNamespace_copies_export_names_witness :
  exists s' en',
    finalizeNamespace 1 unfinalized_graph = Ok tt s' /\ entries s' !! 1 = Some en'
    /\ own_names (_completeNamespace en') ≡ₚ [KToStringTag] ++ map KStr ["x"]
    /\ own_names (_completeMutableNamespace en') ≡ₚ [KToStringTag] ++ map KStr ["x"].
Proof.
  apply (finalizeNamespace_copies_export_names (H := example_host)
           1 unfinalized_graph unfinalized_entry);
    first [ vm_compute; reflexivity
          | refine (bool_decide_unpack _ _); vm_compute; reflexivity ].
Defined.

(** X20, on the main module 10, which the cache does not hold: [Entry.get]
    creates record 0 for it. *)
Lemma Entry_get_creates_witness :
  let s' := outcome_state (Entry_get 2 (VObj 10) module_graph) module_graph in
  exists e en pe s2,
    Some 0 = Some e /\ entries s' !! e = Some en
    /\ Entry_get 1 VUndef module_graph = Some (Ok pe s2)
    /\ (e ∉ dom (entries s2))
    /\ entry_module en = VObj 10 /\ exports en = VObj 11 /\ entry_parent en = pe
    /\ setters en = [(KStr "*", [])] /\ getters en = []
    /\ (isObject VUndef module_graph = true -> VUndef <> VObj 10 ->
        is_Some (vassoc VUndef (cache s'))).
Proof.
  apply (Entry_get_creates (H := example_host) (ext := example_ext)
           1 (VObj 10) module_graph (VObj 11) VUndef module_graph (Some 0));
    vm_compute; reflexivity.
Defined.

(** X21, on the diamond: after the propagation from record 1 no record is
    marked changed. *)
Lemma updateBindings_resets_changed_witness :
  let s' := outcome_state (updateBindings 5 1 NamesNull UPDATE_TYPE_LIVE None diamond) diamond in
  unchanged_kept diamond s'
  /\ exists en', entries s' !! 1 = Some en' /\ _changed en' = false.
Proof.
  assert (exists out,
            updateBindings 5 1 NamesNull UPDATE_TYPE_LIVE None diamond
            = Some (Ok out (outcome_state
                              (updateBindings 5 1 NamesNull UPDATE_TYPE_LIVE None diamond)
                              diamond))) as [out E].
  { vm_compute. eexists. reflexivity. }
  destruct (updateBindings_resets_changed (H := example_host)
              5 1 NamesNull UPDATE_TYPE_LIVE None diamond out _
              (example_entry "a" false [(KStr "x", host_getter 10)]
                 [(KStr "x", [example_setter 20 SETTER_TYPE_STATIC_IMPORT 2;
                              example_setter 21 SETTER_TYPE_STATIC_IMPORT 3])])
              eq_refl E) as [W1 W2].
  split; [exact W1 | apply W2; vm_compute; reflexivity].
Defined.
